(** * ws-electrumx-client: the ElectrumWS session, its error classifier and
      its event registry, embedded from the TypeScript sources.

    - [Js]: the fragment of the JavaScript runtime the sources rely on
      (strings, JSON values, insertion-ordered [Map]s, [ToString],
      truthiness, [String.prototype.split/replace/endsWith/includes]).
    - [RpcError]: [rpc-error.ts] ([JSON_RPC_ERRORS], [findRPCErrorCode],
      the [RPCError] constructor).
    - [Observable]: [observable.ts].
    - [ElectrumWS]: [electrum-ws.ts], the session class, as an executable
      event-driven machine: one function per method or handler of the class,
      with timers, promises and the microtask queue made explicit.

    Then come the vocabulary of the statements, the properties of the
    classifier and of the session (ids, frame reassembly, dispatch of
    responses and pushes, timeouts, replay of subscriptions, close), the
    invariants of the reachable states, the proof that the replay loop ends,
    the bookkeeping of timers and promises, the event registry, the round
    trip of error codes, inbound deliveries, subscriptions and batches, the
    connection, the code awaiting a request, what a timeout and a replay do
    in a reachable state.

    Conventions.  JavaScript strings are modelled by [string] (code units
    below 256); numbers by [Z] (request ids, error codes and every number the
    statements below talk about are integers; rounding of doubles above 2^53
    is outside the model: the request ids of the source are draws of at most
    1e5 and their successors in a batch, and a statement about an arbitrary
    error code that is parsed or printed assumes [safe_integer]).  Callbacks
    supplied by the caller are opaque: a call is recorded in the trace, and
    is assumed neither to throw nor to call back into the session.
    [console] output is not modelled. *)

From Stdlib Require Import String Ascii List ZArith Bool Lia DecimalString.
Import ListNotations.
Open Scope string_scope.
Open Scope Z_scope.

(* ===================================================================== *)
(** * The JavaScript fragment *)
(* ===================================================================== *)

Module Js.

(** ** Strings *)

(** The double quote character, and [q] which turns every apostrophe of a
    literal into a double quote, to write JSON texts legibly. *)
Definition dquote : ascii := "034"%char.

Fixpoint q (s : string) : string :=
  match s with
  | EmptyString => EmptyString
  | String c r => String (if Ascii.eqb c "'"%char then dquote else c) (q r)
  end.

(** [strip_prefix p s] is [Some r] when [s = p ++ r]. *)
Fixpoint strip_prefix (p s : string) : option string :=
  match p with
  | EmptyString => Some s
  | String a p' =>
      match s with
      | EmptyString => None
      | String b s' => if Ascii.eqb a b then strip_prefix p' s' else None
      end
  end.

Definition startsWith (s p : string) : bool :=
  match strip_prefix p s with Some _ => true | None => false end.

(** [String.prototype.includes]: [sub] occurs somewhere in [s]. *)
Fixpoint includes (s sub : string) : bool :=
  startsWith s sub ||
  match s with
  | EmptyString => false
  | String _ r => includes r sub
  end.

(** [String.prototype.endsWith]. *)
Fixpoint endsWith (s suffix : string) : bool :=
  String.eqb s suffix ||
  match s with
  | EmptyString => false
  | String _ r => endsWith r suffix
  end.

(** [String.prototype.replace] with a string pattern: only the first
    (leftmost) occurrence of [pat] is replaced. *)
Fixpoint replace (s pat rep : string) : string :=
  match strip_prefix pat s with
  | Some r => rep ++ r
  | None =>
      match s with
      | EmptyString => EmptyString
      | String c r => String c (replace r pat rep)
      end
  end.

(** [String.prototype.split] on a set of one-character separators (a string
    separator of length one, or a global regular expression that is an
    alternation of single characters); the segments, empty ones included. *)
Fixpoint split_on (sep : ascii -> bool) (s : string) : list string :=
  match s with
  | EmptyString => [EmptyString]
  | String c r =>
      if sep c then EmptyString :: split_on sep r
      else match split_on sep r with
           | seg :: segs => String c seg :: segs
           | [] => [String c EmptyString]
           end
  end.

Definition split (s : string) (sep : ascii) : list string :=
  split_on (Ascii.eqb sep) s.

(** [Number.MAX_SAFE_INTEGER], 2^53 - 1.  Up to it in magnitude a double
    holds every integer exactly, and number to string conversion prints all
    its digits; [safe_integer] is [Number.isSafeInteger] on integers. *)
Definition MAX_SAFE_INTEGER : Z := 9007199254740991.

Definition safe_integer (z : Z) : Prop :=
  - MAX_SAFE_INTEGER <= z <= MAX_SAFE_INTEGER.

(** Number to string for integers, as template literals and [String()] print
    them: decimal digits, a leading minus for negatives.  This is what the
    source prints for a [safe_integer]; a larger number is rounded to a
    double first and printed with an exponent from 1e21 on, which this
    function does not follow. *)
Definition Z_to_string (z : Z) : string :=
  NilZero.string_of_int (Z.to_int z).

(** ** JSON values (the results of [JSON.parse], and call parameters) *)

#[warnings="-register-all"]
Inductive json : Type :=
| JNull
| JBool (b : bool)
| JNum (n : Z)
| JStr (s : string)
| JArr (items : list json)
| JObj (fields : list (string * json)).

(** [k in o] and [o[k]] for a parsed value ([undefined] is [None]); parsed
    objects inherit nothing under the keys the sources look up. *)
Fixpoint assoc {A : Type} (k : string) (l : list (string * A)) : option A :=
  match l with
  | [] => None
  | (k', v) :: r => if String.eqb k k' then Some v else assoc k r
  end.

Definition get (k : string) (o : json) : option json :=
  match o with
  | JObj fields => assoc k fields
  | _ => None
  end.

Definition has_key (k : string) (o : json) : bool :=
  match get k o with Some _ => true | None => false end.

(** [typeof v === 'object' && v !== null]. *)
Definition is_object (v : json) : bool :=
  match v with JObj _ | JArr _ => true | _ => false end.

Definition is_string (v : option json) : bool :=
  match v with Some (JStr _) => true | _ => false end.

Definition is_number (v : option json) : bool :=
  match v with Some (JNum _) => true | _ => false end.

(** Truthiness ([ToBoolean]); [undefined] is [None]. *)
Definition truthy (v : option json) : bool :=
  match v with
  | None | Some JNull => false
  | Some (JBool b) => b
  | Some (JNum n) => negb (n =? 0)
  | Some (JStr s) => negb (String.eqb s EmptyString)
  | Some (JArr _) | Some (JObj _) => true
  end.

(** [ToString], as [new Error(v)] and template literals apply it. *)
Fixpoint ToString (v : json) : string :=
  match v with
  | JNull => "null"
  | JBool true => "true"
  | JBool false => "false"
  | JNum n => Z_to_string n
  | JStr s => s
  | JArr items =>
      (fix join (l : list json) : string :=
         match l with
         | [] => EmptyString
         | [x] => match x with JNull => EmptyString | _ => ToString x end
         | x :: r =>
             (match x with JNull => EmptyString | _ => ToString x end)
               ++ "," ++ join r
         end) items
  | JObj _ => "[object Object]"
  end.

(** ** Insertion-ordered maps ([Map]) *)

Section JsMap.
Context {K V : Type} (eqb : K -> K -> bool).

Definition Map_has (m : list (K * V)) (k : K) : bool :=
  existsb (fun e => eqb k (fst e)) m.

Fixpoint Map_get (m : list (K * V)) (k : K) : option V :=
  match m with
  | [] => None
  | (k', v) :: r => if eqb k k' then Some v else Map_get r k
  end.

(** [Map.prototype.set]: an existing key keeps its position and takes the
    new value; a new key is appended. *)
Fixpoint Map_set (m : list (K * V)) (k : K) (v : V) : list (K * V) :=
  match m with
  | [] => [(k, v)]
  | (k', v') :: r =>
      if eqb k k' then (k, v) :: r else (k', v') :: Map_set r k v
  end.

Definition Map_delete (m : list (K * V)) (k : K) : list (K * V) :=
  filter (fun e => negb (eqb k (fst e))) m.
End JsMap.

(** ** A reader for JSON texts

    The sessions below take [JSON.parse] as a parameter.  [json_parse] is a
    reader for the JSON grammar restricted to integer numbers (a fraction or
    an exponent makes it give up, as does a [\u] escape above 255), used to
    run the sessions on concrete frames; [None] is a [SyntaxError]. *)

Definition is_json_space (c : ascii) : bool :=
  let n := nat_of_ascii c in ((n =? 32) || (n =? 9) || (n =? 10) || (n =? 13))%nat.

Fixpoint skip_json_space (s : string) : string :=
  match s with
  | String c r => if is_json_space c then skip_json_space r else s
  | EmptyString => s
  end.

Definition digit_of (c : ascii) : option Z :=
  let n := nat_of_ascii c in
  if ((48 <=? n) && (n <=? 57))%nat then Some (Z.of_nat n - 48) else None.

Definition hex_of (c : ascii) : option nat :=
  let n := nat_of_ascii c in
  if ((48 <=? n) && (n <=? 57))%nat then Some (n - 48)%nat
  else if ((97 <=? n) && (n <=? 102))%nat then Some (n - 87)%nat
  else if ((65 <=? n) && (n <=? 70))%nat then Some (n - 55)%nat
  else None.

(** The digits at the head of [s], as a number, and the rest. *)
Fixpoint read_digits (acc : Z) (s : string) : Z * string :=
  match s with
  | String c r =>
      match digit_of c with
      | Some d => read_digits (10 * acc + d) r
      | None => (acc, s)
      end
  | EmptyString => (acc, s)
  end.

(** An integer literal: no leading zero, no fraction, no exponent. *)
Definition read_number (s : string) : option (Z * string) :=
  let '(neg, s) := match s with
                   | String "-"%char r => (true, r)
                   | _ => (false, s)
                   end in
  match s with
  | String c r =>
      match digit_of c with
      | None => None
      | Some d =>
          let '(n, rest) := if d =? 0 then (0, r) else read_digits d r in
          match rest with
          | String "."%char _ | String "e"%char _ | String "E"%char _ => None
          | String c' _ =>
              match digit_of c' with
              | Some _ => None
              | None => Some (if neg then - n else n, rest)
              end
          | EmptyString => Some (if neg then - n else n, rest)
          end
      end
  | EmptyString => None
  end.

(** The characters of a string literal after its opening quote. *)
Fixpoint read_string (s : string) : option (string * string) :=
  match s with
  | EmptyString => None
  | String c r =>
      if Ascii.eqb c dquote then Some (EmptyString, r)
      else if Ascii.eqb c "\"%char then
        match r with
        | String e r' =>
            let plain (x : ascii) :=
              match read_string r' with
              | Some (str, rest) => Some (String x str, rest)
              | None => None
              end in
            if Ascii.eqb e dquote then plain dquote
            else if Ascii.eqb e "\"%char then plain "\"%char
            else if Ascii.eqb e "/"%char then plain "/"%char
            else if Ascii.eqb e "b"%char then plain "008"%char
            else if Ascii.eqb e "f"%char then plain "012"%char
            else if Ascii.eqb e "n"%char then plain "010"%char
            else if Ascii.eqb e "r"%char then plain "013"%char
            else if Ascii.eqb e "t"%char then plain "009"%char
            else if Ascii.eqb e "u"%char then
              match r' with
              | String h1 (String h2 (String h3 (String h4 r''))) =>
                  match hex_of h1, hex_of h2, hex_of h3, hex_of h4 with
                  | Some 0%nat, Some 0%nat, Some a, Some b =>
                      match read_string r'' with
                      | Some (str, rest) =>
                          Some (String (ascii_of_nat (16 * a + b)) str, rest)
                      | None => None
                      end
                  | _, _, _, _ => None
                  end
              | _ => None
              end
            else None
        | EmptyString => None
        end
      else if (nat_of_ascii c <? 32)%nat then None
      else
        match read_string r with
        | Some (str, rest) => Some (String c str, rest)
        | None => None
        end
  end.

(** A value, the elements of an array after its bracket, the members of an
    object after its brace; [fuel] bounds the number of nested calls. *)
Fixpoint read_value (fuel : nat) (s : string) : option (json * string) :=
  match fuel with
  | O => None
  | S fuel =>
      let s := skip_json_space s in
      match strip_prefix "null" s, strip_prefix "true" s, strip_prefix "false" s with
      | Some r, _, _ => Some (JNull, r)
      | _, Some r, _ => Some (JBool true, r)
      | _, _, Some r => Some (JBool false, r)
      | None, None, None =>
          match s with
          | String "["%char r =>
              match skip_json_space r with
              | String "]"%char r' => Some (JArr [], r')
              | _ => read_elements fuel [] r
              end
          | String "{"%char r =>
              match skip_json_space r with
              | String "}"%char r' => Some (JObj [], r')
              | _ => read_members fuel [] r
              end
          | String c r =>
              if Ascii.eqb c dquote then
                match read_string r with
                | Some (str, rest) => Some (JStr str, rest)
                | None => None
                end
              else
                match read_number s with
                | Some (n, rest) => Some (JNum n, rest)
                | None => None
                end
          | EmptyString => None
          end
      end
  end

with read_elements (fuel : nat) (acc : list json) (s : string) : option (json * string) :=
  match fuel with
  | O => None
  | S fuel =>
      match read_value fuel s with
      | Some (v, r) =>
          match skip_json_space r with
          | String ","%char r' => read_elements fuel (acc ++ [v])%list r'
          | String "]"%char r' => Some (JArr (acc ++ [v])%list, r')
          | _ => None
          end
      | None => None
      end
  end

with read_members (fuel : nat) (acc : list (string * json)) (s : string)
  : option (json * string) :=
  match fuel with
  | O => None
  | S fuel =>
      match skip_json_space s with
      | String c r =>
          if Ascii.eqb c dquote then
            match read_string r with
            | Some (k, r1) =>
                match skip_json_space r1 with
                | String ":"%char r2 =>
                    match read_value fuel r2 with
                    | Some (v, r3) =>
                        (* a repeated key keeps its place and takes the last value *)
                        let acc := Map_set String.eqb acc k v in
                        match skip_json_space r3 with
                        | String ","%char r4 => read_members fuel acc r4
                        | String "}"%char r4 => Some (JObj acc, r4)
                        | _ => None
                        end
                    | None => None
                    end
                | _ => None
                end
            | None => None
            end
          else None
      | EmptyString => None
      end
  end.

Definition json_parse (s : string) : option json :=
  match read_value (2 * String.length s + 2) s with
  | Some (v, rest) =>
      match skip_json_space rest with
      | EmptyString => Some v
      | _ => None
      end
  | None => None
  end.


End Js.

(* ===================================================================== *)
(** * rpc-error.ts *)
(* ===================================================================== *)

Module RpcError.
Import Js.

(** [JSON_RPC_ERRORS], in the order of the source. *)
Definition JSON_RPC_ERRORS : list (Z * string) :=
  [ (-32700, "Parse error");
    (-32600, "Invalid request");
    (-32601, "Method not found");
    (-32602, "Invalid params");
    (-32603, "Internal error");
    (-1, "Miscellaneous error");
    (-3, "Unexpected type was passed as parameter");
    (-5, "Invalid address or key");
    (-7, "Ran out of memory during operation");
    (-8, "Invalid, missing or duplicate parameter");
    (-20, "Database error");
    (-22, "Error parsing JSON");
    (-25, "An error occured while transaction or block submission");
    (-26, "Transaction or block was rejected by network rules");
    (-27, "Transaction already in chain");
    (-28, "Client still warming up");
    (-32, "RPC method is deprecated") ].

(** The character classes of the regular expression: [\s] (the white space
    code units below 256) and [\d]. *)
Definition is_space (c : ascii) : bool :=
  let n := nat_of_ascii c in
  ((9 <=? n) && (n <=? 13) || (n =? 32) || (n =? 160))%nat.

Definition is_digit (c : ascii) : bool :=
  let n := nat_of_ascii c in ((48 <=? n) && (n <=? 57))%nat.

Fixpoint skip_spaces (s : string) : string :=
  match s with
  | String c r => if is_space c then skip_spaces r else s
  | EmptyString => s
  end.

Fixpoint take_digits (s : string) : string :=
  match s with
  | String c r => if is_digit c then String c (take_digits r) else EmptyString
  | EmptyString => EmptyString
  end.

(** The text of group 1 when ["code":\s*(-?\d+)] matches at the very start
    of [s].  Every quantifier is greedy and no backtracking can succeed: what
    [\s*] gives back is neither a minus nor a digit. *)
Definition match_here (s : string) : option string :=
  match strip_prefix (q "'code':") s with
  | None => None
  | Some r =>
      let r := skip_spaces r in
      let '(sign, r) :=
        match r with
        | String "-"%char r' => ("-", r')
        | _ => (EmptyString, r)
        end in
      match take_digits r with
      | EmptyString => None
      | ds => Some (sign ++ ds)
      end
  end.

(** [str.match(/"code":\s*(-?\d+)/)]: group 1 of the leftmost match. *)
Fixpoint regexp_match (s : string) : option string :=
  match match_here s with
  | Some g => Some g
  | None =>
      match s with
      | EmptyString => None
      | String _ r => regexp_match r
      end
  end.

(** [parseInt(g, 10)] on an optional minus followed by digits.  The source
    gets a double: the integer computed here when it is a [safe_integer],
    the nearest double otherwise. *)
Definition digit_value (c : ascii) : Z := Z.of_nat (nat_of_ascii c) - 48.

Fixpoint parse_digits (acc : Z) (s : string) : Z :=
  match s with
  | String c r => if is_digit c then parse_digits (10 * acc + digit_value c) r else acc
  | EmptyString => acc
  end.

Definition parseInt (g : string) : Z :=
  match g with
  | String "-"%char r => - parse_digits 0 r
  | _ => parse_digits 0 g
  end.

(** [findRPCErrorCode]: [None] is the [false] of the source. *)
Definition findRPCErrorCode (str : string) : option Z :=
  match regexp_match str with
  | None => None
  | Some g => Some (parseInt g)
  end.

(** An [Error] object; [name] tells a plain [Error] from an [RPCError].  The
    class declares a [code] field and never assigns it: it stays
    [undefined] ([None]); [str] is the constructor's parameter property. *)
Record Error : Type := mkError {
  is_rpc : bool;
  message : string;
  str : option string;
  code : option Z
}.

Definition new_Error (msg : string) : Error :=
  {| is_rpc := false; message := msg; str := None; code := None |}.

(** [new RPCError(str)]: [inl e] when the constructor throws [e]. *)
Definition new_RPCError (s : string) : Error + Error :=
  let code := findRPCErrorCode s in
  (* if (!code) throw ...: [false] and the number [0] are both falsy *)
  match code with
  | None | Some 0 => inl (new_Error "Could not find RPC error code in string")
  | Some c =>
      let message :=
        match Map_get Z.eqb JSON_RPC_ERRORS c with
        | Some m => m
        | None => "Unknown JSON RPC error"
        end in
      inr {| is_rpc := true;
             message := message ++ " (code: " ++ Z_to_string c ++ ")";
             str := Some s;
             code := None |}
  end.

End RpcError.

(* ===================================================================== *)
(** * observable.ts *)
(* ===================================================================== *)

Module Observable.
Import Js.
Local Open Scope list_scope.

Section Registry.
(** [C] is the type of the callbacks handed to [on] and [once]. *)
Context {C : Type}.

(** A stored function: a callback registered with [on], or the wrapper
    that [once] builds around one (it captures the event and its own id). *)
Inductive Func : Type :=
| Plain (callback : C)
| OnceWrapper (event : string) (id : nat) (callback : C).

(** [listeners: Map<string, Array<Func | null>>]. *)
Definition Listeners : Type := list (string * list (option Func)).

Definition callbacks_of (ls : Listeners) (event : string) : list (option Func) :=
  match Map_get String.eqb ls event with
  | Some a => a
  | None => []
  end.

(** [on]: push and return the index. *)
Definition on (ls : Listeners) (event : string) (f : Func) : Listeners * nat :=
  let a := callbacks_of ls event in
  (Map_set String.eqb ls event (a ++ [Some f]), length a).

(** [once]: the wrapper refers to the id that [on] returns for it. *)
Definition once (ls : Listeners) (event : string) (callback : C) : Listeners :=
  let id := length (callbacks_of ls event) in
  fst (on ls event (OnceWrapper event id callback)).

Fixpoint set_nth {A : Type} (l : list A) (i : nat) (x : A) : list A :=
  match l, i with
  | [], _ => []
  | _ :: r, O => x :: r
  | y :: r, S i' => y :: set_nth r i' x
  end.

(** [off]: leave a tombstone. *)
Definition off (ls : Listeners) (event : string) (id : nat) : Listeners :=
  match Map_get String.eqb ls event with
  | None => ls
  | Some a =>
      if (length a <? id + 1)%nat then ls
      else Map_set String.eqb ls event (set_nth a id None)
  end.

Definition allOff (ls : Listeners) (event : string) : Listeners :=
  Map_delete String.eqb ls event.

(** [fire]: the callbacks to invoke with the payload, in array order, and
    the registry after the [off] calls of the once-wrappers among them.
    (The callbacks the session registers do not touch the registry.) *)
Fixpoint fire_loop (ls : Listeners) (a : list (option Func)) : Listeners * list C :=
  match a with
  | [] => (ls, [])
  | None :: r => fire_loop ls r
  | Some (Plain c) :: r =>
      let '(ls', cs) := fire_loop ls r in (ls', c :: cs)
  | Some (OnceWrapper event id c) :: r =>
      let '(ls', cs) := fire_loop (off ls event id) r in (ls', c :: cs)
  end.

Definition fire (ls : Listeners) (event : string) : Listeners * list C :=
  fire_loop ls (callbacks_of ls event).
End Registry.

Arguments Func : clear implicits.
Arguments Listeners : clear implicits.

End Observable.

(* ===================================================================== *)
(** * electrum-ws.ts *)
(* ===================================================================== *)

Module ElectrumWS.
Import Js RpcError.
Local Open Scope list_scope.

(** ** Message recognisers *)

Definition isRpcResponse (obj : json) : bool :=
  is_object obj && has_key "jsonrpc" obj && is_string (get "jsonrpc" obj)
  && has_key "id" obj && is_number (get "id" obj).

Definition isRpcRequest (obj : json) : bool :=
  is_object obj && has_key "jsonrpc" obj && is_string (get "jsonrpc" obj)
  && has_key "method" obj && is_string (get "method" obj).

(** ** Options, and the store that holds option objects

    Objects are reached through references; [Object.assign] writes into its
    target and returns the target's reference.  The only options object the
    program ever creates is the one of the static [DEFAULT_OPTIONS]. *)

Record ElectrumWSOptions : Type := mkOptions {
  token : option string;
  reconnect : bool;
  verbose : bool
}.

(** [Partial<ElectrumWSOptions>]: [None] for a property that is not given. *)
Record PartialOptions : Type := mkPartial {
  given_token : option string;
  given_reconnect : option bool;
  given_verbose : option bool
}.

Definition no_options : PartialOptions :=
  {| given_token := None; given_reconnect := None; given_verbose := None |}.

Definition addr : Type := nat.
Definition Heap : Type := addr -> ElectrumWSOptions.

(** [static DEFAULT_OPTIONS = { reconnect: true, verbose: false }]: the
    static holds the reference [DEFAULT_OPTIONS] into the initial store. *)
Definition DEFAULT_OPTIONS : addr := 0%nat.

Definition initial_heap : Heap :=
  fun _ => {| token := None; reconnect := true; verbose := false |}.

Definition assign (target : ElectrumWSOptions) (src : PartialOptions) : ElectrumWSOptions :=
  {| token := match given_token src with Some t => Some t | None => token target end;
     reconnect := match given_reconnect src with Some b => b | None => reconnect target end;
     verbose := match given_verbose src with Some b => b | None => verbose target end |}.

Definition heap_set (h : Heap) (a : addr) (o : ElectrumWSOptions) : Heap :=
  fun a' => if Nat.eqb a' a then o else h a'.

(** [Object.assign(target, source)]. *)
Definition Object_assign (h : Heap) (target : addr) (src : PartialOptions) : Heap * addr :=
  (heap_set h target (assign (h target) src), target).

(** ** Constants

    The delays are those given to [setTimeout]; in the machine below a live
    timer fires when the event loop says so ([TimerFires]). *)

Definition RECONNECT_TIMEOUT : Z := 1000.
Definition CONNECTED_TIMEOUT : Z := 500.
Definition REQUEST_TIMEOUT : Z := 1000 * 10.
Definition CLOSE_CODE : Z := 1000.

(** [ElectrumWSEvent]. *)
Definition OPEN : string := "open".
Definition CLOSE : string := "close".
Definition CONNECTED : string := "connected".
Definition DISCONNECTED : string := "disconnected".
Definition RECONNECTING : string := "reconnecting".
Definition ERROR : string := "error".
Definition MESSAGE : string := "message".

(** ** The state of a session and of the event loop around it *)

Definition Callback : Type := nat.   (* a function supplied by the caller *)
Definition TimerId : Type := nat.    (* what [setTimeout] returns *)
Definition PromiseId : Type := nat.  (* a promise made by [createRequestPromise] *)

(** [Request]: [resolve] and [reject] are the two functions of one promise,
    [req_promise]. *)
Record Request : Type := mkRequest {
  req_promise : PromiseId;
  req_method : string;
  req_timeout : TimerId
}.

Inductive ReadyState : Type := CONNECTING | OPEN_ | CLOSING | CLOSED.

(** The closures handed to [setTimeout]. *)
Inductive TimerAction : Type :=
| RequestTimeout (id : Z) (method : string) (p : PromiseId) (* createRequestPromise *)
| ConnectedTimeout                                          (* onOpen *)
| ReconnectTimeout.                                         (* onClose *)

(** The code suspended on [once(event, () => resolve(true))]. *)
Inductive Waiter : Type :=
| AwaitRequest (id : Z) (method : string) (params : list json) (* request *)
| AwaitBatch (reqs : list (string * list json)) (draws : list Z) (* batchRequest *)
| AwaitClose.                                                 (* close *)

(** The code awaiting the promise of a request: [subscribe], called by the
    user or ([replay]) by the resubscription loop of [onOpen]. *)
Inductive Reaction : Type :=
| OnSubscribe (callback : Callback) (params : list json) (replay : bool).

Inductive Outcome : Type :=
| Resolved (value : json)
| Rejected (error : Error).

Inductive Job : Type :=
| JobResume (w : Waiter)
| JobSettled (r : Reaction) (o : Outcome)
| JobCloseReturns.

(** A JSON-RPC request as handed to [formatRequest] and [ws.send]. *)
Record Payload : Type := mkPayload {
  pl_method : string;
  pl_params : list json;
  pl_id : Z
}.

Inductive Output : Type :=
| Fire (event : string) (payload : option json)   (* this.fire(event, payload) *)
| Send (p : Payload)                              (* this.ws.send(formatRequest(p)) *)
| WsNew (url : string)                            (* new WebSocket(url) *)
| WsClose (code : Z) (reason : string)            (* this.ws.close(code, reason) *)
| Call (callback : Callback) (args : list json)   (* callback(...args) *)
| Resolve (p : PromiseId) (value : json)          (* request.resolve(value) *)
| Reject (p : PromiseId) (error : Error)          (* request.reject(error) *)
| SubscribeRejected (error : Error)               (* a user's subscribe() rejects *)
| CloseReturned.                                  (* the promise of close() resolves true *)

Record ElectrumWS : Type := mkElectrumWS {
  options : addr  (* [this.options]: a reference to an options object *);
  endpoint : string;
  requests : list (Z * Request)  (* [Map<number, Request>] *);
  subscriptions : list (string * Callback)  (* [Map<string, callback>] *);
  connected : bool;
  connectedTimeout : option TimerId;
  reconnectionTimeout : option TimerId;
  incompleteMessage : string;
  ws : ReadyState  (* [this.ws.readyState] of the current socket *);
  listeners : Observable.Listeners Waiter  (* the [Observable] base class *);
  timers : list (TimerId * TimerAction)  (* live timers of the event loop *);
  next_timer : TimerId;
  next_promise : PromiseId;
  reactions : list (PromiseId * Reaction)  (* code awaiting a request promise *);
  jobs : list Job  (* the microtask queue *);
  trace : list Output  (* what the session did, oldest first *)
}.

Definition set_options (v : addr) (s : ElectrumWS) : ElectrumWS :=
  {| options := v;
     endpoint := endpoint s;
     requests := requests s;
     subscriptions := subscriptions s;
     connected := connected s;
     connectedTimeout := connectedTimeout s;
     reconnectionTimeout := reconnectionTimeout s;
     incompleteMessage := incompleteMessage s;
     ws := ws s;
     listeners := listeners s;
     timers := timers s;
     next_timer := next_timer s;
     next_promise := next_promise s;
     reactions := reactions s;
     jobs := jobs s;
     trace := trace s |}.

Definition set_endpoint (v : string) (s : ElectrumWS) : ElectrumWS :=
  {| options := options s;
     endpoint := v;
     requests := requests s;
     subscriptions := subscriptions s;
     connected := connected s;
     connectedTimeout := connectedTimeout s;
     reconnectionTimeout := reconnectionTimeout s;
     incompleteMessage := incompleteMessage s;
     ws := ws s;
     listeners := listeners s;
     timers := timers s;
     next_timer := next_timer s;
     next_promise := next_promise s;
     reactions := reactions s;
     jobs := jobs s;
     trace := trace s |}.

Definition set_requests (v : list (Z * Request)) (s : ElectrumWS) : ElectrumWS :=
  {| options := options s;
     endpoint := endpoint s;
     requests := v;
     subscriptions := subscriptions s;
     connected := connected s;
     connectedTimeout := connectedTimeout s;
     reconnectionTimeout := reconnectionTimeout s;
     incompleteMessage := incompleteMessage s;
     ws := ws s;
     listeners := listeners s;
     timers := timers s;
     next_timer := next_timer s;
     next_promise := next_promise s;
     reactions := reactions s;
     jobs := jobs s;
     trace := trace s |}.

Definition set_subscriptions (v : list (string * Callback)) (s : ElectrumWS) : ElectrumWS :=
  {| options := options s;
     endpoint := endpoint s;
     requests := requests s;
     subscriptions := v;
     connected := connected s;
     connectedTimeout := connectedTimeout s;
     reconnectionTimeout := reconnectionTimeout s;
     incompleteMessage := incompleteMessage s;
     ws := ws s;
     listeners := listeners s;
     timers := timers s;
     next_timer := next_timer s;
     next_promise := next_promise s;
     reactions := reactions s;
     jobs := jobs s;
     trace := trace s |}.

Definition set_connected (v : bool) (s : ElectrumWS) : ElectrumWS :=
  {| options := options s;
     endpoint := endpoint s;
     requests := requests s;
     subscriptions := subscriptions s;
     connected := v;
     connectedTimeout := connectedTimeout s;
     reconnectionTimeout := reconnectionTimeout s;
     incompleteMessage := incompleteMessage s;
     ws := ws s;
     listeners := listeners s;
     timers := timers s;
     next_timer := next_timer s;
     next_promise := next_promise s;
     reactions := reactions s;
     jobs := jobs s;
     trace := trace s |}.

Definition set_connectedTimeout (v : option TimerId) (s : ElectrumWS) : ElectrumWS :=
  {| options := options s;
     endpoint := endpoint s;
     requests := requests s;
     subscriptions := subscriptions s;
     connected := connected s;
     connectedTimeout := v;
     reconnectionTimeout := reconnectionTimeout s;
     incompleteMessage := incompleteMessage s;
     ws := ws s;
     listeners := listeners s;
     timers := timers s;
     next_timer := next_timer s;
     next_promise := next_promise s;
     reactions := reactions s;
     jobs := jobs s;
     trace := trace s |}.

Definition set_reconnectionTimeout (v : option TimerId) (s : ElectrumWS) : ElectrumWS :=
  {| options := options s;
     endpoint := endpoint s;
     requests := requests s;
     subscriptions := subscriptions s;
     connected := connected s;
     connectedTimeout := connectedTimeout s;
     reconnectionTimeout := v;
     incompleteMessage := incompleteMessage s;
     ws := ws s;
     listeners := listeners s;
     timers := timers s;
     next_timer := next_timer s;
     next_promise := next_promise s;
     reactions := reactions s;
     jobs := jobs s;
     trace := trace s |}.

Definition set_incompleteMessage (v : string) (s : ElectrumWS) : ElectrumWS :=
  {| options := options s;
     endpoint := endpoint s;
     requests := requests s;
     subscriptions := subscriptions s;
     connected := connected s;
     connectedTimeout := connectedTimeout s;
     reconnectionTimeout := reconnectionTimeout s;
     incompleteMessage := v;
     ws := ws s;
     listeners := listeners s;
     timers := timers s;
     next_timer := next_timer s;
     next_promise := next_promise s;
     reactions := reactions s;
     jobs := jobs s;
     trace := trace s |}.

Definition set_ws (v : ReadyState) (s : ElectrumWS) : ElectrumWS :=
  {| options := options s;
     endpoint := endpoint s;
     requests := requests s;
     subscriptions := subscriptions s;
     connected := connected s;
     connectedTimeout := connectedTimeout s;
     reconnectionTimeout := reconnectionTimeout s;
     incompleteMessage := incompleteMessage s;
     ws := v;
     listeners := listeners s;
     timers := timers s;
     next_timer := next_timer s;
     next_promise := next_promise s;
     reactions := reactions s;
     jobs := jobs s;
     trace := trace s |}.

Definition set_listeners (v : Observable.Listeners Waiter) (s : ElectrumWS) : ElectrumWS :=
  {| options := options s;
     endpoint := endpoint s;
     requests := requests s;
     subscriptions := subscriptions s;
     connected := connected s;
     connectedTimeout := connectedTimeout s;
     reconnectionTimeout := reconnectionTimeout s;
     incompleteMessage := incompleteMessage s;
     ws := ws s;
     listeners := v;
     timers := timers s;
     next_timer := next_timer s;
     next_promise := next_promise s;
     reactions := reactions s;
     jobs := jobs s;
     trace := trace s |}.

Definition set_timers (v : list (TimerId * TimerAction)) (s : ElectrumWS) : ElectrumWS :=
  {| options := options s;
     endpoint := endpoint s;
     requests := requests s;
     subscriptions := subscriptions s;
     connected := connected s;
     connectedTimeout := connectedTimeout s;
     reconnectionTimeout := reconnectionTimeout s;
     incompleteMessage := incompleteMessage s;
     ws := ws s;
     listeners := listeners s;
     timers := v;
     next_timer := next_timer s;
     next_promise := next_promise s;
     reactions := reactions s;
     jobs := jobs s;
     trace := trace s |}.

Definition set_next_timer (v : TimerId) (s : ElectrumWS) : ElectrumWS :=
  {| options := options s;
     endpoint := endpoint s;
     requests := requests s;
     subscriptions := subscriptions s;
     connected := connected s;
     connectedTimeout := connectedTimeout s;
     reconnectionTimeout := reconnectionTimeout s;
     incompleteMessage := incompleteMessage s;
     ws := ws s;
     listeners := listeners s;
     timers := timers s;
     next_timer := v;
     next_promise := next_promise s;
     reactions := reactions s;
     jobs := jobs s;
     trace := trace s |}.

Definition set_next_promise (v : PromiseId) (s : ElectrumWS) : ElectrumWS :=
  {| options := options s;
     endpoint := endpoint s;
     requests := requests s;
     subscriptions := subscriptions s;
     connected := connected s;
     connectedTimeout := connectedTimeout s;
     reconnectionTimeout := reconnectionTimeout s;
     incompleteMessage := incompleteMessage s;
     ws := ws s;
     listeners := listeners s;
     timers := timers s;
     next_timer := next_timer s;
     next_promise := v;
     reactions := reactions s;
     jobs := jobs s;
     trace := trace s |}.

Definition set_reactions (v : list (PromiseId * Reaction)) (s : ElectrumWS) : ElectrumWS :=
  {| options := options s;
     endpoint := endpoint s;
     requests := requests s;
     subscriptions := subscriptions s;
     connected := connected s;
     connectedTimeout := connectedTimeout s;
     reconnectionTimeout := reconnectionTimeout s;
     incompleteMessage := incompleteMessage s;
     ws := ws s;
     listeners := listeners s;
     timers := timers s;
     next_timer := next_timer s;
     next_promise := next_promise s;
     reactions := v;
     jobs := jobs s;
     trace := trace s |}.

Definition set_jobs (v : list Job) (s : ElectrumWS) : ElectrumWS :=
  {| options := options s;
     endpoint := endpoint s;
     requests := requests s;
     subscriptions := subscriptions s;
     connected := connected s;
     connectedTimeout := connectedTimeout s;
     reconnectionTimeout := reconnectionTimeout s;
     incompleteMessage := incompleteMessage s;
     ws := ws s;
     listeners := listeners s;
     timers := timers s;
     next_timer := next_timer s;
     next_promise := next_promise s;
     reactions := reactions s;
     jobs := v;
     trace := trace s |}.

Definition set_trace (v : list Output) (s : ElectrumWS) : ElectrumWS :=
  {| options := options s;
     endpoint := endpoint s;
     requests := requests s;
     subscriptions := subscriptions s;
     connected := connected s;
     connectedTimeout := connectedTimeout s;
     reconnectionTimeout := reconnectionTimeout s;
     incompleteMessage := incompleteMessage s;
     ws := ws s;
     listeners := listeners s;
     timers := timers s;
     next_timer := next_timer s;
     next_promise := next_promise s;
     reactions := reactions s;
     jobs := jobs s;
     trace := v |}.

(** ** The event loop: output, timers, promises, listeners *)

Definition emit (o : Output) (s : ElectrumWS) : ElectrumWS :=
  set_trace (trace s ++ [o]) s.

Definition setTimeout (a : TimerAction) (s : ElectrumWS) : ElectrumWS * TimerId :=
  let t := next_timer s in
  (set_next_timer (S t) (set_timers (timers s ++ [(t, a)]) s), t).

(** [clearTimeout(t)]; [clearTimeout(undefined)] does nothing. *)
Definition clearTimeout (t : option TimerId) (s : ElectrumWS) : ElectrumWS :=
  match t with
  | None => s
  | Some t => set_timers (Map_delete Nat.eqb (timers s) t) s
  end.

Definition settles (p : PromiseId) (o : Output) : bool :=
  match o with
  | Resolve p' _ | Reject p' _ => Nat.eqb p p'
  | _ => false
  end.

(** A promise is settled by the first [resolve] or [reject] called on it. *)
Definition settled (p : PromiseId) (tr : list Output) : bool :=
  existsb (settles p) tr.

(** [request.resolve(v)] / [request.reject(e)]: the call is recorded; when it
    is the first on this promise, the code awaiting it is queued. *)
Definition settle (p : PromiseId) (o : Outcome) (s : ElectrumWS) : ElectrumWS :=
  let first := negb (settled p (trace s)) in
  let s := emit (match o with
                 | Resolved v => Resolve p v
                 | Rejected e => Reject p e
                 end) s in
  match Map_get Nat.eqb (reactions s) p with
  | Some r => if first then set_jobs (jobs s ++ [JobSettled r o]) s else s
  | None => s
  end.

(** [this.fire(event, payload)].  The listeners of the session itself are
    the once-wrappers around [() => resolve(true)]: calling one queues the
    code that awaits it. *)
Definition fire (event : string) (payload : option json) (s : ElectrumWS) : ElectrumWS :=
  let s := emit (Fire event payload) s in
  let '(ls, woken) := Observable.fire (listeners s) event in
  set_jobs (jobs s ++ map JobResume woken) (set_listeners ls s).

Definition once (event : string) (w : Waiter) (s : ElectrumWS) : ElectrumWS :=
  set_listeners (Observable.once (listeners s) event w) s.

Definition ws_open_or_connecting (s : ElectrumWS) : bool :=
  match ws s with
  | CONNECTING | OPEN_ => true
  | CLOSING | CLOSED => false
  end.

(** [this.ws.close(code, reason)]: the socket starts its closing handshake. *)
Definition ws_close (code : Z) (reason : string) (s : ElectrumWS) : ElectrumWS :=
  emit (WsClose code reason)
       (if ws_open_or_connecting s then set_ws CLOSING s else s).

(** ** Requests *)

(** [do { id = Math.ceil(Math.random() * 1e5) } while (this.requests.has(id))]:
    [draws] lists the successive values of [Math.ceil(Math.random() * 1e5)];
    the result is the first one the table does not hold, with the draws left
    ([None]: every given draw was taken, the loop is still running). *)
Fixpoint random_id (table : list (Z * Request)) (draws : list Z) : option (Z * list Z) :=
  match draws with
  | [] => None
  | d :: rest =>
      if Map_has Z.eqb table d then random_id table rest else Some (d, rest)
  end.

Definition createRequestPromise (id : Z) (method : string) (s : ElectrumWS)
  : ElectrumWS * PromiseId :=
  let p := next_promise s in
  let s := set_next_promise (S p) s in
  let '(s, timeout) := setTimeout (RequestTimeout id method p) s in
  (set_requests
     (Map_set Z.eqb (requests s) id
        {| req_promise := p; req_method := method; req_timeout := timeout |}) s,
   p).

(** [request], from the end of its [await] on. *)
Definition request_send (id : Z) (method : string) (params : list json) (s : ElectrumWS)
  : ElectrumWS * PromiseId :=
  let '(s, p) := createRequestPromise id method s in
  (emit (Send {| pl_method := method; pl_params := params; pl_id := id |}) s, p).

(** [request]: the state, the promise of the request when it was made at
    once ([None] while the call is suspended on CONNECTED), the draws left. *)
Definition request (method : string) (params : list json) (draws : list Z) (s : ElectrumWS)
  : option (ElectrumWS * option PromiseId * list Z) :=
  match random_id (requests s) draws with
  | None => None
  | Some (id, draws) =>
      if negb (connected s)
      then Some (once CONNECTED (AwaitRequest id method params) s, None, draws)
      else let '(s, p) := request_send id method params s in
           Some (s, Some p, draws)
  end.

(** [requests.map(request => ({ ..., id: id++ }))]. *)
Fixpoint batch_payloads (id : Z) (reqs : list (string * list json)) : list Payload :=
  match reqs with
  | [] => []
  | (method, params) :: rest =>
      {| pl_method := method; pl_params := params; pl_id := id |}
        :: batch_payloads (id + 1) rest
  end.

Definition create_all (payloads : list Payload) (s : ElectrumWS)
  : ElectrumWS * list PromiseId :=
  fold_left
    (fun '(s, ps) pl =>
       let '(s, p) := createRequestPromise (pl_id pl) (pl_method pl) s in
       (s, ps ++ [p]))
    payloads (s, []).

Definition send_all (payloads : list Payload) (s : ElectrumWS) : ElectrumWS :=
  fold_left (fun s pl => emit (Send pl) s) payloads s.

(** [batchRequest], from the end of its [await] on. *)
Definition batch_send (reqs : list (string * list json)) (draws : list Z) (s : ElectrumWS)
  : option (ElectrumWS * list PromiseId) :=
  match random_id (requests s) draws with
  | None => None
  | Some (id, _) =>
      let payloads := batch_payloads id reqs in
      let '(s, promises) := create_all payloads s in
      Some (send_all payloads s, promises)
  end.

Definition batchRequest (reqs : list (string * list json)) (draws : list Z) (s : ElectrumWS)
  : option (ElectrumWS * list PromiseId) :=
  if negb (connected s)
  then Some (once CONNECTED (AwaitBatch reqs draws) s, [])
  else batch_send reqs draws s.

(** ** Subscriptions *)

(** [`${method}${typeof params[0] === 'string' ? `-${params[0]}` : ''}`]. *)
Definition subscriptionKey (method : string) (params : list json) : string :=
  (method ++ match params with
             | JStr p0 :: _ => "-" ++ p0
             | _ => EmptyString
             end)%string.

(** [subscribe]; [replay] tells the calls made by [onOpen] (which attach a
    [catch] handler) from the caller's. *)
Definition subscribe (replay : bool) (method : string) (callback : Callback)
    (params : list json) (draws : list Z) (s : ElectrumWS)
  : option (ElectrumWS * list Z) :=
  let s := set_subscriptions
             (Map_set String.eqb (subscriptions s) (subscriptionKey method params) callback) s in
  if negb (connected s) then Some (s, draws)
  else
    match request (method ++ ".subscribe")%string params draws s with
    | None => None
    | Some (s, Some p, draws) =>
        Some (set_reactions (reactions s ++ [(p, OnSubscribe callback params replay)]) s,
              draws)
    | Some (s, None, draws) => Some (s, draws) (* not reached: connected *)
    end.

Definition unsubscribe (method : string) (params : list json) (draws : list Z) (s : ElectrumWS)
  : option (ElectrumWS * option PromiseId * list Z) :=
  let subscriptionKey := subscriptionKey method params in
  let deleted := Map_has String.eqb (subscriptions s) subscriptionKey in
  let s := set_subscriptions (Map_delete String.eqb (subscriptions s) subscriptionKey) s in
  if deleted then request (method ++ ".unsubscribe")%string params draws s
  else Some (s, None, draws).

Definition isConnected (s : ElectrumWS) : bool := connected s.

(** ** close *)

(** One turn of [for (const [id, request] of this.requests)] in [close]. *)
Definition close_entry (reason : string) (s : ElectrumWS) (e : Z * Request) : ElectrumWS :=
  let '(id, request) := e in
  let s := clearTimeout (Some (req_timeout request)) s in
  let s := set_requests (Map_delete Z.eqb (requests s) id) s in
  settle (req_promise request) (Rejected (new_Error reason)) s.

Definition set_reconnect (b : bool) (o : ElectrumWSOptions) : ElectrumWSOptions :=
  {| token := token o; reconnect := b; verbose := verbose o |}.

(** [close(reason)].  The loop deletes the entry it stands on and adds none:
    it visits the entries the table held when it started, in order. *)
Definition close (h : Heap) (reason : string) (s : ElectrumWS) : Heap * ElectrumWS :=
  let h := heap_set h (options s) (set_reconnect false (h (options s))) in
  let s := fold_left (close_entry reason) (requests s) s in
  let s := clearTimeout (reconnectionTimeout s) s in
  if ws_open_or_connecting s
  then (h, ws_close CLOSE_CODE reason (once CLOSE AwaitClose s))
  else (h, set_jobs (jobs s ++ [JobCloseReturns]) s).

(** ** connect, constructor *)

Definition connect (h : Heap) (s : ElectrumWS) : ElectrumWS :=
  let url :=
    match token (h (options s)) with
    | Some t => if String.eqb t EmptyString then endpoint s
                else (endpoint s ++ "?token=" ++ t)%string
    | None => endpoint s
    end in
  emit (WsNew url) (set_ws CONNECTING s).

(** [new ElectrumWS(endpoint, options)].  The listeners that a verbose
    session registers only write to the console and are left out. *)
Definition constructor (h : Heap) (endpoint : string) (opts : PartialOptions)
  : Heap * ElectrumWS :=
  let '(h, o) := Object_assign h DEFAULT_OPTIONS opts in
  let s := {| options := o;
              endpoint := endpoint;
              requests := [];
              subscriptions := [];
              connected := false;
              connectedTimeout := None;
              reconnectionTimeout := None;
              incompleteMessage := EmptyString;
              ws := CLOSED;
              listeners := [];
              timers := [];
              next_timer := 0%nat;
              next_promise := 0%nat;
              reactions := [];
              jobs := [];
              trace := [] |} in
  (h, connect h s).

(** ** Transport handlers *)

Definition onOpen (s : ElectrumWS) : ElectrumWS :=
  let s := fire OPEN None s in
  let '(s, t) := setTimeout ConnectedTimeout s in
  set_connectedTimeout (Some t) s.

(** The body of [for (const [subscriptionKey, callback] of this.subscriptions)]
    in the timer of [onOpen]: the call to replay is read off the key alone
    ([None]: no method, the turn is skipped). *)
Definition replay_call (subscriptionKey : string) : option (string * list json) :=
  match split subscriptionKey "-" with
  | method :: params =>
      if String.eqb method EmptyString then None else Some (method, map JStr params)
  | [] => None
  end.

Definition resubscribe_entry (e : string * Callback) (draws : list Z) (s : ElectrumWS)
  : option (ElectrumWS * list Z) :=
  let '(subscriptionKey, callback) := e in
  match replay_call subscriptionKey with
  | None => Some (s, draws) (* continue *)
  | Some (method, params) => subscribe true method callback params draws s
  end.

(** The loop, from position [i] on.  A [Map] iterator sees the entries that
    the loop body appends, so the loop reads the live registry by position;
    [fuel] bounds the number of turns ([None] when it runs out, or when a
    request runs out of draws). *)
Fixpoint resubscribe (fuel : nat) (i : nat) (draws : list Z) (s : ElectrumWS)
  : option (ElectrumWS * list Z) :=
  match fuel with
  | O => None
  | S fuel =>
      match nth_error (subscriptions s) i with
      | None => Some (s, draws)
      | Some e =>
          match resubscribe_entry e draws s with
          | None => None
          | Some (s, draws) => resubscribe fuel (S i) draws s
          end
      end
  end.

(** Turns that always suffice: an entry appends at most one entry, and an
    appended entry appends none (see [resubscribe_enough_fuel]). *)
Definition resubscribe_fuel (s : ElectrumWS) : nat :=
  S (2 * length (subscriptions s)).

(** The timer set by [onOpen]. *)
Definition onConnectedTimeout (draws : list Z) (s : ElectrumWS) : option ElectrumWS :=
  let s := set_connected true s in
  let s := fire CONNECTED None s in
  option_map fst (resubscribe (resubscribe_fuel s) 0 draws s).

(** [event.error] is [None] when the event carries no error. *)
Definition onError (error : option string) (s : ElectrumWS) : ElectrumWS :=
  match error with
  | Some e => fire ERROR (Some (JStr e)) s
  | None => s
  end.

Definition onClose (h : Heap) (s : ElectrumWS) : ElectrumWS :=
  let s := fire CLOSE None s in
  let s := if negb (connected s) then clearTimeout (connectedTimeout s) s
           else fire DISCONNECTED None s in
  let s := if reconnect (h (options s)) && connected s
           then let s := fire RECONNECTING None s in
                let '(s, t) := setTimeout ReconnectTimeout s in
                set_reconnectionTimeout (Some t) s
           else s in
  set_connected false s.

(** The timer set by [createRequestPromise]. *)
Definition timeout_message (id : Z) (method : string) : string :=
  ("ElectrumWS request timeout. request ID: " ++ Z_to_string id
     ++ " (" ++ method ++ ")")%string.

Definition onRequestTimeout (id : Z) (method : string) (p : PromiseId) (s : ElectrumWS)
  : ElectrumWS :=
  let s := set_requests (Map_delete Z.eqb (requests s) id) s in
  settle p (Rejected (new_Error (timeout_message id method))) s.

(** ** Inbound messages *)

(** The body of [if ('id' in response && this.requests.has(response.id))].
    Table keys are numbers, so only a numeric [id] can be held. *)
Definition error_message_of (error : json) : option json :=
  match error with
  | JStr _ => Some error          (* typeof response.error === 'string' *)
  | _ => get "message" error      (* response.error.message *)
  end.

(** [try { reject(new RPCError(errorMsg)) } catch { reject(new Error(errorMsg)) }]:
    on a value that is not a string [str.match] is not callable, which
    throws inside the [try] as well. *)
Definition classify (errorMsg : option json) : Error :=
  let fallback :=
    new_Error match errorMsg with
              | None => EmptyString
              | Some v => ToString v
              end in
  match errorMsg with
  | Some (JStr str) =>
      match new_RPCError str with
      | inr rpcError => rpcError
      | inl _ => fallback
      end
  | _ => fallback
  end.

Definition dispatch_response (response : json) (s : ElectrumWS) : ElectrumWS :=
  match get "id" response with
  | Some (JNum id) =>
      match Map_get Z.eqb (requests s) id with
      | Some request =>
          let s := clearTimeout (Some (req_timeout request)) s in
          let s := set_requests (Map_delete Z.eqb (requests s) id) s in
          match get "result" response with
          | Some result => settle (req_promise request) (Resolved result) s
          | None =>
              if truthy (get "error" response)
              then
                let errorMsg :=
                  match get "error" response with
                  | Some error => error_message_of error
                  | None => None
                  end in
                settle (req_promise request) (Rejected (classify errorMsg)) s
              else settle (req_promise request) (Rejected (new_Error "No result")) s
          end
      | None => s
      end
  | _ => s
  end.

(** [params[0]] and [...params] for [params = response.params || []]. *)
Definition push_params (response : json) : json :=
  if truthy (get "params" response)
  then match get "params" response with Some v => v | None => JArr [] end
  else JArr [].

Definition chars (s : string) : list json :=
  map (fun c => JStr (String c EmptyString)) (list_ascii_of_string s).

Definition first_of (params : json) : option json :=
  match params with
  | JArr items => nth_error items 0
  | JStr str => nth_error (chars str) 0
  | JObj _ => get "0" params
  | _ => None
  end.

(** [None]: the value is not iterable, the spread throws. *)
Definition spread (params : json) : option (list json) :=
  match params with
  | JArr items => Some items
  | JStr str => Some (chars str)
  | _ => None
  end.

(** The body of [if ('method' in response && response.method.endsWith('subscribe'))];
    the boolean tells that the handler threw a [TypeError]. *)
Definition dispatch_push (response : json) (s : ElectrumWS) : ElectrumWS * bool :=
  match get "method" response with
  | None => (s, false)
  | Some (JStr m) =>
      if endsWith m "subscribe" then
        let method := replace m ".subscribe" EmptyString in
        let params := push_params response in
        let subscriptionKey :=
          (method ++ match first_of params with
                     | Some (JStr p0) => "-" ++ p0
                     | _ => EmptyString
                     end)%string in
        match Map_get String.eqb (subscriptions s) subscriptionKey with
        | Some callback =>
            match spread params with
            | Some args => (emit (Call callback args) s, false)
            | None => (s, true)
            end
        | None => (s, false)
        end
      else (s, false)
  | Some _ => (s, true) (* response.method.endsWith is not a function *)
  end.

Definition is_separator (c : ascii) : bool :=
  let n := nat_of_ascii c in ((n =? 13) || (n =? 10) || (n =? 32))%nat.

(** [raw.split(/\r|\n| /g).filter(line => line.length > 0)]. *)
Definition split_lines (raw : string) : list string :=
  filter (fun line => negb (String.eqb line EmptyString)) (split_on is_separator raw).

Section Inbound.
(** [JSON.parse], the runtime's: [None] when it throws. *)
Variable JSON_parse : string -> option json.

Definition recognized (line : string) : option json :=
  match JSON_parse line with
  | Some parsed =>
      if isRpcResponse parsed || isRpcRequest parsed then Some parsed else None
  | None => None
  end.

(** [parseLine]; [fuel] bounds the depth of the recursion ([None] when it
    runs out; depth two is never exceeded, see [parseLine_total]). *)
Fixpoint parseLine_rec (fuel : nat) (line : string) (s : ElectrumWS)
  : option (ElectrumWS * option json) :=
  match fuel with
  | O => None
  | S fuel =>
      match recognized line with
      | Some parsed => Some (set_incompleteMessage EmptyString s, Some parsed)
      | None =>
          if negb (String.eqb (incompleteMessage s) EmptyString)
             && negb (includes line (incompleteMessage s))
          then parseLine_rec fuel (incompleteMessage s ++ line)%string s
          else Some (set_incompleteMessage line s, None)
      end
  end.

Definition parseLine (line : string) (s : ElectrumWS) : option (ElectrumWS * option json) :=
  parseLine_rec 2 line s.

(** One turn of [for (const line of lines)]; the boolean tells that the
    handler threw.  What [parseLine] returns is an object, so the
    [typeof response !== 'object'] exit is never taken. *)
Definition onMessage_line (line : string) (s : ElectrumWS) : option (ElectrumWS * bool) :=
  match parseLine line s with
  | None => None
  | Some (s, None) => Some (s, false)
  | Some (s, Some response) =>
      let s := fire MESSAGE (Some response) s in
      let s := dispatch_response response s in
      Some (dispatch_push response s)
  end.

Fixpoint onMessage_lines (lines : list string) (s : ElectrumWS) : option (ElectrumWS * bool) :=
  match lines with
  | [] => Some (s, false)
  | line :: rest =>
      match onMessage_line line s with
      | None => None
      | Some (s, true) => Some (s, true)
      | Some (s, false) => onMessage_lines rest s
      end
  end.

(** [onMessage]; [data] is the text of the message (decoded as UTF-8 when
    it came as bytes). *)
Definition onMessage (data : string) (s : ElectrumWS) : option (ElectrumWS * bool) :=
  onMessage_lines (split_lines data) s.

End Inbound.

(** ** Microtasks *)

(** The code that resumes when a promise it awaits settles. *)
Definition run_job (j : Job) (s : ElectrumWS) : option ElectrumWS :=
  match j with
  | JobResume (AwaitRequest id method params) =>
      Some (fst (request_send id method params s))
  | JobResume (AwaitBatch reqs draws) =>
      option_map fst (batch_send reqs draws s)
  | JobResume AwaitClose => Some (emit CloseReturned s)
  | JobCloseReturns => Some (emit CloseReturned s)
  | JobSettled (OnSubscribe callback params _) (Resolved result) =>
      (* callback(...params, await this.request(...)) *)
      Some (emit (Call callback (params ++ [result])) s)
  | JobSettled (OnSubscribe _ _ true) (Rejected error) =>
      (* the catch handler of onOpen *)
      Some (if ws_open_or_connecting s then ws_close CLOSE_CODE (message error) s else s)
  | JobSettled (OnSubscribe _ _ false) (Rejected error) =>
      Some (emit (SubscribeRejected error) s)
  end.

Fixpoint run_jobs (js : list Job) (s : ElectrumWS) : option ElectrumWS :=
  match js with
  | [] => Some s
  | j :: rest =>
      match run_job j s with
      | None => None
      | Some s => run_jobs rest s
      end
  end.

(** Run the queue to its end, first in first out.  No job queues another
    ([run_job_jobs]), so the queue is the one found at the start.  Each
    continuation is one job here; the promise chains of the source differ in
    depth (the code that awaits an async function resumes some ticks after
    the promise inside it settles), so the outputs of jobs of different kinds
    queued in one turn may come in another order there.  The statements that
    order the outputs of a turn have one job in it, or jobs of one kind. *)
Definition drain (s : ElectrumWS) : option ElectrumWS :=
  run_jobs (jobs s) (set_jobs [] s).

(** ** Events: calls of the public methods, transport events, timers *)

Inductive Event : Type :=
| CallRequest (method : string) (params : list json) (draws : list Z)
| CallBatchRequest (reqs : list (string * list json)) (draws : list Z)
| CallSubscribe (method : string) (callback : Callback) (params : list json) (draws : list Z)
| CallUnsubscribe (method : string) (params : list json) (draws : list Z)
| CallClose (reason : string)
| WsOpened                                  (* the socket's open event *)
| WsMessage (data : string)                 (* its message event *)
| WsError (error : option string)           (* its error event *)
| WsClosed                                  (* its close event *)
| TimerFires (t : TimerId) (draws : list Z).

Section Machine.
Variable JSON_parse : string -> option json.

(** The task run for an event ([None]: the event cannot happen in this
    state, or the task does not end with the draws it is given). *)
Definition task (ev : Event) (h : Heap) (s : ElectrumWS) : option (Heap * ElectrumWS) :=
  match ev with
  | CallRequest method params draws =>
      match request method params draws s with
      | Some (s, _, _) => Some (h, s)
      | None => None
      end
  | CallBatchRequest reqs draws =>
      match batchRequest reqs draws s with
      | Some (s, _) => Some (h, s)
      | None => None
      end
  | CallSubscribe method callback params draws =>
      match subscribe false method callback params draws s with
      | Some (s, _) => Some (h, s)
      | None => None
      end
  | CallUnsubscribe method params draws =>
      match unsubscribe method params draws s with
      | Some (s, _, _) => Some (h, s)
      | None => None
      end
  | CallClose reason => Some (close h reason s)
  | WsOpened =>
      match ws s with
      | CONNECTING => Some (h, onOpen (set_ws OPEN_ s))
      | _ => None
      end
  | WsMessage data =>
      match ws s with
      | OPEN_ | CLOSING =>
          match onMessage JSON_parse data s with
          | Some (s, _) => Some (h, s)
          | None => None
          end
      | _ => None
      end
  | WsError error => Some (h, onError error s)
  | WsClosed =>
      match ws s with
      | CLOSED => None
      | _ => Some (h, onClose h (set_ws CLOSED s))
      end
  | TimerFires t draws =>
      match Map_get Nat.eqb (timers s) t with
      | None => None
      | Some action =>
          let s := set_timers (Map_delete Nat.eqb (timers s) t) s in
          match action with
          | RequestTimeout id method p => Some (h, onRequestTimeout id method p s)
          | ConnectedTimeout =>
              match onConnectedTimeout draws s with
              | Some s => Some (h, s)
              | None => None
              end
          | ReconnectTimeout => Some (h, connect h s)
          end
      end
  end.

(** One turn of the event loop: the task, then the microtasks. *)
Definition step (ev : Event) (hs : Heap * ElectrumWS) : option (Heap * ElectrumWS) :=
  match task ev (fst hs) (snd hs) with
  | None => None
  | Some (h, s) =>
      match drain s with
      | Some s => Some (h, s)
      | None => None
      end
  end.

Fixpoint run (evs : list Event) (hs : Heap * ElectrumWS) : option (Heap * ElectrumWS) :=
  match evs with
  | [] => Some hs
  | ev :: rest =>
      match step ev hs with
      | None => None
      | Some hs => run rest hs
      end
  end.

(** The states a session can be in: those that a sequence of events leads
    to from its construction, on some store. *)
Inductive reachable : Heap -> ElectrumWS -> Prop :=
| reachable_new h endpoint opts h' s :
    constructor h endpoint opts = (h', s) -> reachable h' s
| reachable_step h s ev h' s' :
    reachable h s -> step ev (h, s) = Some (h', s') -> reachable h' s'
| reachable_store h s o :
    (* another session writes into the shared options object *)
    reachable h s -> reachable (heap_set h (options s) o) s.
End Machine.

(** ** Several sessions in one program *)

Record World : Type := mkWorld {
  heap : Heap;
  sessions : list ElectrumWS
}.

Definition initial_world : World := {| heap := initial_heap; sessions := [] |}.

(** [new ElectrumWS(endpoint, opts)] in a running program. *)
Definition new_ElectrumWS (endpoint : string) (opts : PartialOptions) (w : World) : World :=
  let '(h, s) := constructor (heap w) endpoint opts in
  {| heap := h; sessions := sessions w ++ [s] |}.

(** What session [i] reads as [this.options]. *)
Definition options_of (w : World) (i : nat) : option ElectrumWSOptions :=
  match nth_error (sessions w) i with
  | Some s => Some (heap w (options s))
  | None => None
  end.

(** [sessions[i].close(reason)], up to the first suspension. *)
Definition close_session (i : nat) (reason : string) (w : World) : World :=
  match nth_error (sessions w) i with
  | Some s =>
      let '(h, s') := close (heap w) reason s in
      {| heap := h; sessions := Observable.set_nth (sessions w) i s' |}
  | None => w
  end.

End ElectrumWS.

(* ===================================================================== *)
(** * Vocabulary of the statements *)
(* ===================================================================== *)

Import Js RpcError ElectrumWS.
Local Open Scope list_scope.

(** A first session of a program, just constructed. *)
Definition session_start : Heap * ElectrumWS :=
  constructor initial_heap "ws://127.0.0.1:1234" no_options.

(** What the checks below read off a run. *)
Definition after (evs : list Event) : option ElectrumWS :=
  option_map snd (run json_parse evs session_start).

(** The entry of the table under [id], the action of the live timer [t]. *)
Definition entry_of (id : Z) (s : option ElectrumWS) : option Request :=
  match s with
  | Some s => Map_get Z.eqb (requests s) id
  | None => None
  end.

Definition timer_of (t : TimerId) (s : option ElectrumWS) : option TimerAction :=
  match s with
  | Some s => Map_get Nat.eqb (timers s) t
  | None => None
  end.

(** A state with one request pending under id 5, promise 0. *)
Definition pending_5 : ElectrumWS :=
  match after [WsOpened; TimerFires 0%nat []; CallRequest "x" [] [5]] with
  | Some s => s
  | None => snd session_start
  end.

(** A session with two requests pending, as in the scenario of the
    specification. *)
Definition two_pending : ElectrumWS :=
  match after [WsOpened; TimerFires 0%nat [];
               CallRequest "blockchain.estimatefee" [JNum 1] [41];
               CallRequest "blockchain.block.header" [JNum 1] [42]] with
  | Some s => s
  | None => snd session_start
  end.

(** A session that is not connected yet: a registered subscription and the
    socket just opened. *)
Definition two_subscriptions_opening : ElectrumWS :=
  match after [CallSubscribe "blockchain.scripthash" 1%nat [JStr "abc123"] [];
               CallSubscribe "blockchain.headers" 2%nat [] [];
               WsOpened] with
  | Some s => s
  | None => snd session_start
  end.

(** A session that subscribed with a dashed parameter before connecting, got
    connected, lost its socket and has just opened the next one: the timer
    of [onOpen] is pending, for the second time. *)
Definition reconnecting_dashed : ElectrumWS :=
  match after [CallSubscribe "blockchain.scripthash" 7%nat [JStr "ab-cd"; JNum 1] [];
               WsOpened; TimerFires 0%nat [8; 9]; WsClosed; TimerFires 3%nat []; WsOpened] with
  | Some s => s
  | None => snd session_start
  end.

(** The outcome of a promise is the first [resolve] or [reject] called on
    it. *)
Definition outcome_of (p : PromiseId) (tr : list Output) : option Output :=
  List.find (settles p) tr.


(** What [close(reason)] does to the promise of a table entry. *)
Definition rejection (reason : string) (e : Z * Request) : Output :=
  Reject (req_promise (snd e)) (new_Error reason).

(** [has_char sep s]: some character of [s] is a separator. *)
Fixpoint has_char (sep : ascii -> bool) (s : string) : bool :=
  match s with
  | EmptyString => false
  | String c r => sep c || has_char sep r
  end.

(** [.subscribe] occurs in [base ++ ".subscribe"] at its end only: no
    occurrence starts inside [base]. *)
Fixpoint suffix_only (base : string) : bool :=
  match base with
  | EmptyString => true
  | String _ r =>
      negb (startsWith (base ++ ".subscribe") ".subscribe") && suffix_only r
  end.

(** A key that replays to itself: a non-empty method and at most one more
    segment.  These are the keys of [subscribe(method, callback, ...params)]
    for a non-empty [method] without [-] and a first parameter that is not a
    string or is a string without [-]. *)
Definition stable_key (key : string) : bool :=
  match split key "-" with
  | method :: params =>
      negb (String.eqb method EmptyString) && (length params <=? 1)%nat
  | [] => false
  end.

(** The requests of a replay: one per entry, in the order of the registry,
    with the ids drawn in turn. *)
Fixpoint replayed (subs : list (string * Callback)) (ids : list Z) : list Payload :=
  match subs, ids with
  | (key, _) :: subs', id :: ids' =>
      match split key "-" with
      | method :: params =>
          {| pl_method := (method ++ ".subscribe")%string;
             pl_params := map JStr params;
             pl_id := id |} :: replayed subs' ids'
      | [] => replayed subs' ids'
      end
  | _, _ => []
  end.

(** The turns an entry can still cost: one for itself, and one more for the
    entry it may append when its key is not stable. *)
Definition weight (key : string) : nat := if stable_key key then 1%nat else 2%nat.

Definition turns_left (keys : list string) : nat := list_sum (map weight keys).

(** The table and the registry are [Map]s: no key occurs twice. *)
Definition distinct_keys (s : ElectrumWS) : Prop :=
  NoDup (map fst (requests s)) /\ NoDup (map fst (subscriptions s)).

(** An operation that leaves the table and the registry as they are. *)
Definition same_maps (s s' : ElectrumWS) : Prop :=
  requests s' = requests s /\ subscriptions s' = subscriptions s.

(** The part of the state that the bookkeeping of timers and promises is
    about. *)
Definition core (s : ElectrumWS) :=
  (timers s, requests s, trace s, next_timer s, next_promise s,
   connectedTimeout s, reconnectionTimeout s).

(** The bookkeeping of timers and promises:
    - live timers have distinct handles, all handed out already;
    - the promise of a live request timer is not settled, and was made
      already; no two live timers reject the same promise;
    - the timer of a table entry is live and is the one made with the entry;
    - only promises made already are settled;
    - the handles kept for the settle and reconnection timers are not those
      of request timers. *)
Record sound (s : ElectrumWS) : Prop := mkSound {
  timers_distinct : NoDup (map fst (timers s));
  timers_made : forall t a, In (t, a) (timers s) -> (t < next_timer s)%nat;
  pending_unsettled :
    forall t id m p, In (t, RequestTimeout id m p) (timers s) ->
      settled p (trace s) = false /\ (p < next_promise s)%nat;
  one_timer_per_promise :
    forall t1 t2 id1 id2 m1 m2 p,
      In (t1, RequestTimeout id1 m1 p) (timers s) ->
      In (t2, RequestTimeout id2 m2 p) (timers s) -> t1 = t2;
  entry_timer_live :
    forall id r, In (id, r) (requests s) ->
      In (req_timeout r, RequestTimeout id (req_method r) (req_promise r)) (timers s);
  settled_made : forall p, settled p (trace s) = true -> (p < next_promise s)%nat;
  connected_handle :
    forall t, connectedTimeout s = Some t ->
      (t < next_timer s)%nat /\ forall a, In (t, a) (timers s) -> a = ConnectedTimeout;
  reconnection_handle :
    forall t, reconnectionTimeout s = Some t ->
      (t < next_timer s)%nat /\ forall a, In (t, a) (timers s) -> a = ReconnectTimeout
}.

(** Output that settles no promise. *)
Definition quiet (o : Output) : Prop := forall p, settles p o = false.

(** The closure of [createRequestPromise], as opposed to the two others. *)
Definition request_action (a : TimerAction) : bool :=
  match a with RequestTimeout _ _ _ => true | _ => false end.

(** ** The event registry

    What a stored function calls, what [fire] leaves of it (a once-wrapper
    removes itself), and the shape that [once] gives its wrappers: the event
    and the index they are stored under. *)
Definition live {C : Type} (f : option (Observable.Func C)) : list C :=
  match f with
  | Some (Observable.Plain c) => [c]
  | Some (Observable.OnceWrapper _ _ c) => [c]
  | None => []
  end.

Definition fired {C : Type} (f : option (Observable.Func C)) : option (Observable.Func C) :=
  match f with
  | Some (Observable.OnceWrapper _ _ _) => None
  | _ => f
  end.

Definition wrapper_at {C : Type} (event : string) (i : nat) (f : option (Observable.Func C))
  : Prop :=
  match f with
  | Some (Observable.OnceWrapper e id _) => e = event /\ id = i
  | _ => True
  end.

(** The once-wrappers of the array, seen from index [from] on, are where
    [once] put them. *)
Definition wrappers_from {C : Type} (event : string) (from : nat)
    (a : list (option (Observable.Func C))) : Prop :=
  forall i f, nth_error a i = Some f -> wrapper_at event (from + i) f.

Definition registry_ok {C : Type} (ls : Observable.Listeners C) : Prop :=
  forall event a, Map_get String.eqb ls event = Some a -> wrappers_from event 0 a.

(** A check of [registry_ok] that evaluates. *)
Fixpoint wrappers_fromb {C : Type} (event : string) (from : nat)
    (a : list (option (Observable.Func C))) : bool :=
  match a with
  | [] => true
  | Some (Observable.OnceWrapper e id _) :: r =>
      String.eqb e event && Nat.eqb id from && wrappers_fromb event (S from) r
  | _ :: r => wrappers_fromb event (S from) r
  end.

Definition registry_okb {C : Type} (ls : Observable.Listeners C) : bool :=
  forallb (fun e => wrappers_fromb (fst e) 0 (snd e)) ls.

(** ** The socket, the connection flag and the timers of the connection *)

(** The socket has delivered its open event and not yet its close event. *)
Definition socket_open (s : ElectrumWS) : Prop := ws s = OPEN_ \/ ws s = CLOSING.

(** How the flag, the socket and the two timers of the connection go
    together:
    - a live timer of [onOpen] is the one whose handle the session keeps, the
      session is not connected yet and its socket is open;
    - a live reconnection timer is the one whose handle the session keeps,
      and the socket is closed;
    - a connected session has an open socket;
    - the session itself listens to CONNECTED and CLOSE only. *)
Record linked (s : ElectrumWS) : Prop := mkLinked {
  settle_timer_live :
    forall t, In (t, ConnectedTimeout) (timers s) ->
      connectedTimeout s = Some t /\ connected s = false /\ socket_open s;
  reconnect_timer_live :
    forall t, In (t, ReconnectTimeout) (timers s) ->
      reconnectionTimeout s = Some t /\ ws s = CLOSED;
  connected_socket : connected s = true -> socket_open s;
  own_events :
    forall event, event <> CONNECTED -> event <> CLOSE ->
      Observable.callbacks_of (listeners s) event = []
}.

(** An operation that leaves the connection alone: the flag and the two
    handles are as before, the socket too unless it was told to close, the
    timers added are request timers, and no listener is added to an event
    other than CONNECTED and CLOSE. *)
Definition calm (s s' : ElectrumWS) : Prop :=
  connected s' = connected s
  /\ connectedTimeout s' = connectedTimeout s
  /\ reconnectionTimeout s' = reconnectionTimeout s
  /\ (ws s' = ws s \/ (ws_open_or_connecting s = true /\ ws s' = CLOSING))
  /\ (forall t a, In (t, a) (timers s') -> In (t, a) (timers s) \/ request_action a = true)
  /\ (forall event, event <> CONNECTED -> event <> CLOSE ->
        Observable.callbacks_of (listeners s) event = [] ->
        Observable.callbacks_of (listeners s') event = []).

(** A session that has lost its socket for good: the socket is closed, the
    session is not connected, and neither a timer nor a listener is left that
    could open a socket again. *)
Definition dead (s : ElectrumWS) : Prop :=
  ws s = CLOSED /\ connected s = false /\ jobs s = []
  /\ (forall t a, In (t, a) (timers s) -> request_action a = true)
  /\ forall event, event <> CONNECTED -> event <> CLOSE ->
       Observable.callbacks_of (listeners s) event = [].

(** The outputs of failure: an error published, a promise rejected, the
    promise of [close] resolved. *)
Definition failure (o : Output) : Prop :=
  match o with
  | Fire event _ => event = ERROR
  | Reject _ _ | SubscribeRejected _ | CloseReturned => True
  | _ => False
  end.

(** The jobs that a failure queues: the code awaiting a request that was
    rejected, and the end of a [close] that had no socket to wait for. *)
Definition failing (j : Job) : Prop :=
  match j with
  | JobSettled _ (Rejected _) | JobCloseReturns => True
  | _ => False
  end.

(** An operation that leaves the connection alone, whose outputs are
    failures and which queues failing jobs only. *)
Definition mute (s s' : ElectrumWS) : Prop :=
  calm s s'
  /\ (exists outs, trace s' = trace s ++ outs /\ Forall failure outs)
  /\ forall j, In j (jobs s') -> In j (jobs s) \/ failing j.

(** ** The code awaiting the promises *)

(** Only promises made already are awaited. *)
Definition reactions_made (s : ElectrumWS) : Prop :=
  forall p r, In (p, r) (reactions s) -> (p < next_promise s)%nat.

(** An operation after which the code awaiting a promise is the code that
    awaited it before, or awaits a promise made by the operation. *)
Definition keeps (s s' : ElectrumWS) : Prop :=
  (next_promise s <= next_promise s')%nat
  /\ forall p r, In (p, r) (reactions s') ->
       In (p, r) (reactions s) \/ (next_promise s <= p < next_promise s')%nat.

(** ** The replay *)

(** An output that is the subscribe request read off a registry key: the
    method is the segment before the first [-], which is not empty, the
    parameters are the remaining segments, as strings. *)
Definition read_off (key : string) (o : Output) : Prop :=
  exists method params id,
    split key "-" = method :: params
    /\ method <> EmptyString
    /\ o = Send {| pl_method := (method ++ ".subscribe")%string;
                   pl_params := map JStr params; pl_id := id |}.

(* ===================================================================== *)
(** * Properties *)
(* ===================================================================== *)

(** ** The error classifier *)

(** The two cases of [rpc-error.spec.ts] and its three invalid texts. *)
Example RPCError_spec_valid_1 :
  option_map message
    (match new_RPCError
             (q "sendrawtransactionRPCerror:{'code':-27,'message':'Transactionalreadyinblockchain'}")
     with inr e => Some e | inl _ => None end)
  = Some "Transaction already in chain (code: -27)"%string.
Proof. reflexivity. Qed.

Example RPCError_spec_valid_2 :
  option_map message
    (match new_RPCError (q "sendrawtransactionRPCerror:{'code':-26,'message':''}")
     with inr e => Some e | inl _ => None end)
  = Some "Transaction or block was rejected by network rules (code: -26)"%string.
Proof. reflexivity. Qed.

Example RPCError_spec_invalid :
  Forall (fun text => exists e, new_RPCError text = inl e)
         ["code:1"; "invalid parameters"; "code:1, message:2"]%string.
Proof. repeat constructor; eexists; reflexivity. Qed.

(** Without a match of the pattern the constructor throws. *)
Lemma new_RPCError_no_code (text : string) :
  findRPCErrorCode text = None ->
  new_RPCError text = inl (new_Error "Could not find RPC error code in string").
Proof. unfold new_RPCError. intros ->. reflexivity. Qed.

(** With a match whose number is not zero, the error carries the message of
    the table, or the unknown-error message, followed by the code. *)
Lemma new_RPCError_nonzero (text : string) (c : Z) :
  findRPCErrorCode text = Some c -> c <> 0 ->
  new_RPCError text =
    inr {| is_rpc := true;
           message := ((match Map_get Z.eqb JSON_RPC_ERRORS c with
                        | Some m => m
                        | None => "Unknown JSON RPC error"
                        end) ++ " (code: " ++ Z_to_string c ++ ")")%string;
           str := Some text;
           code := None |}.
Proof.
  unfold new_RPCError. intros -> Hc.
  destruct c; [contradiction | reflexivity | reflexivity].
Qed.

(** The pattern starts with the text ["code":], so a text that does not
    contain it has no match. *)
Lemma match_here_prefix (s g : string) :
  match_here s = Some g -> startsWith s (q "'code':") = true.
Proof.
  unfold match_here, startsWith.
  destruct (strip_prefix (q "'code':") s); [reflexivity | discriminate].
Qed.

Lemma regexp_match_includes (s g : string) :
  regexp_match s = Some g -> includes s (q "'code':") = true.
Proof.
  induction s as [|c r IH].
  - discriminate.
  - cbn [regexp_match includes].
    destruct (match_here (String c r)) eqn:E.
    + intros _. apply match_here_prefix in E. rewrite E. reflexivity.
    + intros H. rewrite (IH H). apply orb_true_r.
Qed.

Lemma findRPCErrorCode_absent (text : string) :
  includes text (q "'code':") = false -> findRPCErrorCode text = None.
Proof.
  intros H. unfold findRPCErrorCode.
  destruct (regexp_match text) eqn:E; [|reflexivity].
  apply regexp_match_includes in E. congruence.
Qed.

(** C8 (the code departs from the claim).  On the text [{"code": 0}] the
    pattern is present and [findRPCErrorCode] returns the number 0, but the
    guard [if (!code)] of the constructor takes 0 for the [false] of a
    missing pattern: the constructor throws instead of producing the
    unknown-RPC-error message with code 0.  (The error produced for other
    codes carries the code inside its message only: the [code] field is
    never assigned.) *)
Theorem RPCError_code_zero_throws :
  regexp_match (q "{'code': 0}") = Some "0"%string /\
  findRPCErrorCode (q "{'code': 0}") = Some 0 /\
  Map_get Z.eqb JSON_RPC_ERRORS 0 = None /\
  new_RPCError (q "{'code': 0}")
    = inl (new_Error "Could not find RPC error code in string") /\
  (forall text e, new_RPCError text = inr e -> code e = None).
Proof.
  repeat split; try reflexivity.
  intros text e. unfold new_RPCError.
  destruct (findRPCErrorCode text) as [[| |]|]; intros H; inversion H; reflexivity.
Qed.

(** ** Sessions and the options object *)

(** Every session's [options] is the reference held by the static. *)
Lemma constructor_options (h : Heap) (endpoint : string) (opts : PartialOptions) :
  options (snd (constructor h endpoint opts)) = DEFAULT_OPTIONS.
Proof. reflexivity. Qed.

Lemma new_ElectrumWS_shares_options (endpoint : string) (opts : PartialOptions) (w : World) :
  Forall (fun s => options s = DEFAULT_OPTIONS) (sessions w) ->
  Forall (fun s => options s = DEFAULT_OPTIONS) (sessions (new_ElectrumWS endpoint opts w)).
Proof.
  intros H. unfold new_ElectrumWS. simpl.
  apply Forall_app. split; [assumption|]. constructor; [reflexivity | constructor].
Qed.

(** C9 (the code departs from the claim).  [Object.assign] writes the given
    options into the static [DEFAULT_OPTIONS] object itself and every session
    keeps a reference to that one object.  Constructing a second session with
    [reconnect: false] turns the first session's [options.reconnect] to
    false, a session constructed afterwards with no options reads false as
    its default, and [close] on one session, which sets
    [options.reconnect = false], disables reconnection for the others.  The
    tables, registries and flags of the sessions are separate. *)
Theorem sessions_share_default_options :
  let off := {| given_token := None; given_reconnect := Some false; given_verbose := None |} in
  let w1 := new_ElectrumWS "ws://a" no_options initial_world in
  let w2 := new_ElectrumWS "ws://b" off w1 in
  let w3 := new_ElectrumWS "ws://c" no_options w2 in
  let v1 := new_ElectrumWS "ws://b" no_options w1 in
  let v2 := close_session 1 "bye" v1 in
  option_map reconnect (options_of w1 0) = Some true /\
  option_map reconnect (options_of w2 0) = Some false /\
  nth_error (sessions w2) 0 = nth_error (sessions w1) 0 /\
  option_map reconnect (options_of w3 2) = Some false /\
  option_map reconnect (options_of v1 0) = Some true /\
  option_map reconnect (options_of v2 0) = Some false /\
  nth_error (sessions v2) 0 = nth_error (sessions v1) 0.
Proof. repeat split; reflexivity. Qed.

(** ** Request ids *)

(** The id that the probing loop returns is not held by the table. *)
Lemma random_id_fresh (table : list (Z * Request)) (draws rest : list Z) (id : Z) :
  random_id table draws = Some (id, rest) -> Map_has Z.eqb table id = false.
Proof.
  induction draws as [|d draws IH]; cbn [random_id]; [discriminate|].
  destruct (Map_has Z.eqb table d) eqn:E; [exact IH|].
  intros H. inversion H; subst. exact E.
Qed.

(** On a connected session [request] creates its entry at once, under the
    id it probed: the id is unused when the entry is created.  So is the
    first id of a batch. *)
Lemma request_connected_fresh (method : string) (params : list json) (draws rest : list Z)
    (s s' : ElectrumWS) (p : option PromiseId) :
  connected s = true ->
  request method params draws s = Some (s', p, rest) ->
  exists id,
    Map_has Z.eqb (requests s) id = false /\
    s' = fst (request_send id method params s) /\
    Map_get Z.eqb (requests s') id
      = Some {| req_promise := next_promise s; req_method := method;
                req_timeout := next_timer s |}.
Proof.
  intros Hc. unfold request. destruct (random_id (requests s) draws) as [[id d]|] eqn:E;
    [|discriminate].
  rewrite Hc. cbn [negb]. intros H. exists id.
  split; [exact (random_id_fresh _ _ _ _ E)|].
  destruct (request_send id method params s) as [s1 p1] eqn:E1.
  inversion H; subst. split; [reflexivity|].
  unfold request_send, createRequestPromise in E1. cbn in E1. inversion E1; subst. cbn.
  clear. induction (requests s) as [|[k v] m IH]; cbn.
  - rewrite Z.eqb_refl. reflexivity.
  - destruct (id =? k) eqn:E; cbn; rewrite ?Z.eqb_refl, ?E; [reflexivity | exact IH].
Qed.

Lemma batch_first_id_fresh (reqs : list (string * list json)) (draws : list Z)
    (s s' : ElectrumWS) (ps : list PromiseId) :
  batch_send reqs draws s = Some (s', ps) ->
  exists id rest,
    random_id (requests s) draws = Some (id, rest) /\
    Map_has Z.eqb (requests s) id = false /\
    s' = send_all (batch_payloads id reqs) (fst (create_all (batch_payloads id reqs) s)).
Proof.
  unfold batch_send. destruct (random_id (requests s) draws) as [[id d]|] eqn:E; [|discriminate].
  destruct (create_all (batch_payloads id reqs) s) as [s1 ps1] eqn:E1.
  intros H. inversion H; subst. exists id, d.
  split; [reflexivity|]. split; [exact (random_id_fresh _ _ _ _ E)|].
  rewrite E1. reflexivity.
Qed.

(** C1 (the code departs from the claim).  Only the first id of a batch is
    probed against the table, and [request] probes before it waits for
    CONNECTED, so an entry can be created under an id the table holds.

    - A connected session has request [x] pending under id 6; a batch of two
      draws 5, which is free, and takes 5 and 6: when the entry of its second
      request is created the table holds 6, the entry of [x] is replaced,
      while the timer of [x] stays live and [x] is never settled by a
      response.
    - Two requests issued before the connection both draw 6: once connected,
      the second entry replaces the first.  When the first request's timer
      fires it deletes the entry of the second, whose own timer stays live. *)
Theorem request_ids_can_collide :
  let connected_x := [WsOpened; TimerFires 0%nat []; CallRequest "x" [] [6]] in
  let batch := CallBatchRequest [("a"%string, []); ("b"%string, [])] [5] in
  let early := [CallRequest "x" [] [6]; CallRequest "y" [] [6];
                WsOpened; TimerFires 0%nat []] in
  entry_of 6 (after connected_x)
    = Some {| req_promise := 0%nat; req_method := "x"; req_timeout := 1%nat |} /\
  option_map (fun s => random_id (requests s) [5]) (after connected_x) = Some (Some (5, [])) /\
  option_map (fun s => Map_has Z.eqb (requests (fst (createRequestPromise 5 "a" s))) 6)
    (after connected_x) = Some true /\
  entry_of 6 (after (connected_x ++ [batch]))
    = Some {| req_promise := 2%nat; req_method := "b"; req_timeout := 3%nat |} /\
  timer_of 1%nat (after (connected_x ++ [batch])) = Some (RequestTimeout 6 "x" 0%nat) /\
  option_map (fun s => settled 0%nat (trace s)) (after (connected_x ++ [batch])) = Some false /\
  option_map requests (after early)
    = Some [(6, {| req_promise := 1%nat; req_method := "y"; req_timeout := 2%nat |})] /\
  timer_of 1%nat (after early) = Some (RequestTimeout 6 "x" 0%nat) /\
  option_map requests (after (early ++ [TimerFires 1%nat []])) = Some [] /\
  timer_of 2%nat (after (early ++ [TimerFires 1%nat []])) = Some (RequestTimeout 6 "y" 1%nat).
Proof. repeat split; vm_compute; reflexivity. Qed.

(** ** Frame reassembly *)

Lemma strip_prefix_app (p r : string) : strip_prefix p (p ++ r)%string = Some r.
Proof.
  induction p as [|c p IH]; simpl; [reflexivity|].
  rewrite Ascii.eqb_refl. exact IH.
Qed.

Lemma includes_app_l (buf line : string) : includes (buf ++ line)%string buf = true.
Proof.
  assert (H : startsWith (buf ++ line)%string buf = true).
  { unfold startsWith. rewrite strip_prefix_app. reflexivity. }
  destruct (buf ++ line)%string; simpl; rewrite H; reflexivity.
Qed.

Section Reassembly.
Variable JSON_parse : string -> option json.

(** What one call of [parseLine] does: the recursion stops at depth two,
    because the joined text contains the buffer. *)
Lemma parseLine_eq (line : string) (s : ElectrumWS) :
  parseLine JSON_parse line s =
    Some
      match recognized JSON_parse line with
      | Some m => (set_incompleteMessage EmptyString s, Some m)
      | None =>
          if negb (String.eqb (incompleteMessage s) EmptyString)
             && negb (includes line (incompleteMessage s))
          then
            match recognized JSON_parse (incompleteMessage s ++ line)%string with
            | Some m => (set_incompleteMessage EmptyString s, Some m)
            | None => (set_incompleteMessage (incompleteMessage s ++ line)%string s, None)
            end
          else (set_incompleteMessage line s, None)
      end.
Proof.
  unfold parseLine. cbn [parseLine_rec].
  destruct (recognized JSON_parse line); [reflexivity|].
  destruct (negb (String.eqb (incompleteMessage s) EmptyString)
            && negb (includes line (incompleteMessage s))); [|reflexivity].
  destruct (recognized JSON_parse (incompleteMessage s ++ line)%string); [reflexivity|].
  rewrite includes_app_l. rewrite andb_false_r. reflexivity.
Qed.

(** [parseLine] returns, and more fuel changes nothing. *)
Lemma parseLine_total (n : nat) (line : string) (s : ElectrumWS) :
  parseLine_rec JSON_parse (S (S n)) line s = parseLine JSON_parse line s
  /\ parseLine JSON_parse line s <> None.
Proof.
  split; [|rewrite parseLine_eq; discriminate].
  unfold parseLine. cbn [parseLine_rec].
  destruct (recognized JSON_parse line); [reflexivity|].
  destruct (negb (String.eqb (incompleteMessage s) EmptyString)
            && negb (includes line (incompleteMessage s))); [|reflexivity].
  destruct (recognized JSON_parse (incompleteMessage s ++ line)%string); [reflexivity|].
  rewrite includes_app_l. rewrite andb_false_r. reflexivity.
Qed.

Lemma append_empty_r (x : string) : (x ++ EmptyString)%string = x.
Proof. induction x; simpl; congruence. Qed.



End Reassembly.

(** An unrecognized line that contains the buffered text, or arrives on an
    empty buffer, replaces the buffer. *)
Lemma parseLine_replaces (JSON_parse : string -> option json) (line : string) (s : ElectrumWS) :
  recognized JSON_parse line = None ->
  incompleteMessage s = EmptyString \/ includes line (incompleteMessage s) = true ->
  parseLine JSON_parse line s = Some (set_incompleteMessage line s, None).
Proof.
  intros Hx [H | H]; rewrite parseLine_eq, Hx, H; [reflexivity|].
  rewrite andb_false_r. reflexivity.
Qed.




(** ** Dispatch of responses *)

Lemma Map_has_delete {K V : Type} (eqb : K -> K -> bool) (m : list (K * V)) (k : K) :
  Map_has eqb (Map_delete eqb m k) k = false.
Proof.
  unfold Map_has, Map_delete. induction m as [|[k' v] m IH]; simpl; [reflexivity|].
  destruct (eqb k k') eqn:E; simpl; [exact IH|].
  rewrite E. exact IH.
Qed.

Lemma settle_trace (p : PromiseId) (o : Outcome) (s : ElectrumWS) :
  trace (settle p o s)
    = trace s ++ [match o with Resolved v => Resolve p v | Rejected e => Reject p e end].
Proof.
  unfold settle.
  destruct (Map_get Nat.eqb (reactions (emit _ s)) p); [|reflexivity].
  destruct (negb (settled p (trace s))); reflexivity.
Qed.

Lemma settle_frame (p : PromiseId) (o : Outcome) (s : ElectrumWS) :
  requests (settle p o s) = requests s /\ timers (settle p o s) = timers s
  /\ subscriptions (settle p o s) = subscriptions s
  /\ connected (settle p o s) = connected s /\ ws (settle p o s) = ws s
  /\ listeners (settle p o s) = listeners s
  /\ incompleteMessage (settle p o s) = incompleteMessage s.
Proof.
  unfold settle.
  destruct (Map_get Nat.eqb (reactions (emit _ s)) p); [|repeat split].
  destruct (negb (settled p (trace s))); repeat split.
Qed.




(** ** Dispatch of pushes *)

Lemma replace_suffix_only (base : string) :
  suffix_only base = true ->
  replace (base ++ ".subscribe") ".subscribe" EmptyString = base.
Proof.
  induction base as [|c r IH]; [reflexivity|].
  intros H. cbn [suffix_only] in H. apply andb_true_iff in H. destruct H as [Hs Hr].
  unfold startsWith in Hs.
  change (String c r ++ ".subscribe")%string with (String c (r ++ ".subscribe")) in *.
  cbn [replace].
  destruct (strip_prefix ".subscribe" (String c (r ++ ".subscribe"))); [discriminate|].
  rewrite (IH Hr). reflexivity.
Qed.

Lemma endsWith_app (a b c : string) :
  endsWith b c = true -> endsWith (a ++ b) c = true.
Proof.
  intros H. induction a as [|x a IH]; [exact H|].
  change (String x a ++ b)%string with (String x (a ++ b)).
  cbn [endsWith]. rewrite IH. apply orb_true_r.
Qed.

(** For a push whose method is [base.subscribe], with [.subscribe] nowhere
    else in it, and whose params are a list (or missing): the key is the one
    [subscribe] computes for [base] and these params, and the callback
    registered under it, if any, is the only one called. *)
Lemma push_routes_by_key (s : ElectrumWS) (response : json) (base : string) (items : list json) :
  get "method" response = Some (JStr (base ++ ".subscribe")) ->
  suffix_only base = true ->
  get "params" response = Some (JArr items)
  \/ (get "params" response = None /\ items = []) ->
  dispatch_push response s =
    (match Map_get String.eqb (subscriptions s) (subscriptionKey base items) with
     | Some callback => emit (Call callback items) s
     | None => s
     end, false).
Proof.
  intros Hm Hs Hp. unfold dispatch_push. rewrite Hm.
  rewrite (endsWith_app base ".subscribe" "subscribe" eq_refl).
  rewrite (replace_suffix_only base Hs).
  assert (Hpp : push_params response = JArr items).
  { unfold push_params. destruct Hp as [-> | [-> ->]]; reflexivity. }
  rewrite Hpp. cbn [first_of spread].
  assert (Hk : (base ++ match nth_error items 0 with
                        | Some (JStr p0) => "-" ++ p0
                        | _ => EmptyString
                        end)%string = subscriptionKey base items).
  { unfold subscriptionKey. destruct items as [|[] ?]; reflexivity. }
  rewrite Hk.
  destruct (Map_get String.eqb (subscriptions s) (subscriptionKey base items)); reflexivity.
Qed.

(** The scenario of the specification: the two registrations get different
    keys, and the scripthash push calls the first callback only. *)
Lemma subscription_key_scenario :
  subscriptionKey "blockchain.scripthash" [JStr "abc123"] = "blockchain.scripthash-abc123"%string /\
  subscriptionKey "blockchain.headers" [] = "blockchain.headers"%string /\
  option_map (fun s => (subscriptions s, List.last (trace s) CloseReturned,
                        List.length (filter (fun o => match o with Call _ _ => true | _ => false end)
                                       (trace s))))
    (after [CallSubscribe "blockchain.scripthash" 1%nat [JStr "abc123"] [];
            CallSubscribe "blockchain.headers" 2%nat [] [];
            WsOpened; TimerFires 0%nat [10; 11];
            WsMessage (q "{'jsonrpc':'2.0','method':'blockchain.scripthash.subscribe','params':['abc123','f00d']}")])
  = Some ([("blockchain.scripthash-abc123"%string, 1%nat); ("blockchain.headers"%string, 2%nat)],
          Call 1%nat [JStr "abc123"; JStr "f00d"], 1%nat).
Proof. repeat split; vm_compute; reflexivity. Qed.

(** C4 (the code departs from the claim).  The key is computed with
    [method.replace('.subscribe', '')], which removes the first occurrence
    of [.subscribe], not the suffix.  A subscription registered for the
    method [a.subscribe.b] is subscribed with [a.subscribe.b.subscribe]; the
    push for that method ends with [.subscribe], the method with its suffix
    stripped is the registered key, yet the session looks up
    [a.b.subscribe], finds nothing and calls no callback. *)
Theorem push_key_strips_first_occurrence :
  let push := q "{'jsonrpc':'2.0','method':'a.subscribe.b.subscribe','params':[{'height':1}]}" in
  let evs := [CallSubscribe "a.subscribe.b" 1%nat [] []; WsOpened; TimerFires 0%nat [9];
              WsMessage push] in
  endsWith "a.subscribe.b.subscribe" ".subscribe" = true /\
  subscriptionKey "a.subscribe.b" [JObj [("height"%string, JNum 1)]] = "a.subscribe.b"%string /\
  replace "a.subscribe.b.subscribe" ".subscribe" EmptyString = "a.b.subscribe"%string /\
  option_map subscriptions (after evs) = Some [("a.subscribe.b"%string, 1%nat)] /\
  option_map trace (after evs)
  = Some [WsNew "ws://127.0.0.1:1234"; Fire OPEN None; Fire CONNECTED None;
          Send {| pl_method := "a.subscribe.b.subscribe"; pl_params := []; pl_id := 9 |};
          Fire MESSAGE
            (Some (JObj [("jsonrpc"%string, JStr "2.0");
                         ("method"%string, JStr "a.subscribe.b.subscribe");
                         ("params"%string, JArr [JObj [("height"%string, JNum 1)]])]))].
Proof. repeat split; vm_compute; reflexivity. Qed.

(** ** Timeouts *)

Lemma Map_has_get_None {K V : Type} (eqb : K -> K -> bool) (m : list (K * V)) (k : K) :
  Map_has eqb m k = false -> Map_get eqb m k = None.
Proof.
  unfold Map_has. induction m as [|[k' v] m IH]; simpl; [reflexivity|].
  destruct (eqb k k'); simpl; [discriminate | exact IH].
Qed.

Lemma fire_trace (event : string) (payload : option json) (s : ElectrumWS) :
  trace (fire event payload s) = trace s ++ [Fire event payload].
Proof.
  unfold fire. destruct (Observable.fire (listeners (emit _ s)) event). reflexivity.
Qed.

Lemma fire_frame (event : string) (payload : option json) (s : ElectrumWS) :
  requests (fire event payload s) = requests s
  /\ timers (fire event payload s) = timers s
  /\ subscriptions (fire event payload s) = subscriptions s
  /\ connected (fire event payload s) = connected s
  /\ ws (fire event payload s) = ws s
  /\ incompleteMessage (fire event payload s) = incompleteMessage s.
Proof.
  unfold fire. destruct (Observable.fire (listeners (emit _ s)) event). repeat split.
Qed.



Lemma outcome_of_first (p : PromiseId) (tr : list Output) (o : Output) :
  settled p tr = false -> settles p o = true -> outcome_of p (tr ++ [o]) = Some o.
Proof.
  unfold settled, outcome_of. induction tr as [|x tr IH]; simpl.
  - intros _ ->. reflexivity.
  - intros H Ho. apply orb_false_iff in H. destruct H as [Hx Htr].
    rewrite Hx. exact (IH Htr Ho).
Qed.

(** The late response of the scenario, run: published, nothing settled. *)
Example late_response_run :
  option_map (fun s => (requests s, trace s))
    (after [WsOpened; TimerFires 0%nat []; CallRequest "x" [] [5]; TimerFires 1%nat [];
            WsMessage (q "{'jsonrpc':'2.0','id':5,'result':42}")])
  = Some ([], [WsNew "ws://127.0.0.1:1234"; Fire OPEN None; Fire CONNECTED None;
               Send {| pl_method := "x"; pl_params := []; pl_id := 5 |};
               Reject 0%nat (new_Error "ElectrumWS request timeout. request ID: 5 (x)");
               Fire MESSAGE (Some (JObj [("jsonrpc"%string, JStr "2.0"); ("id"%string, JNum 5);
                                         ("result"%string, JNum 42)]))]).
Proof. vm_compute. reflexivity. Qed.

(** ** Replay of subscriptions *)

Lemma split_on_not_nil (sep : ascii -> bool) (s : string) : split_on sep s <> [].
Proof.
  induction s as [|c r IH]; simpl; [discriminate|].
  destruct (sep c); [discriminate|].
  destruct (split_on sep r); [contradiction | discriminate].
Qed.

(** No segment of a split holds a separator. *)
Lemma split_on_segments (sep : ascii -> bool) (s : string) :
  Forall (fun seg => has_char sep seg = false) (split_on sep s).
Proof.
  induction s as [|c r IH]; simpl.
  - repeat constructor.
  - destruct (sep c) eqn:E.
    + constructor; [reflexivity | exact IH].
    + destruct (split_on sep r) as [|seg segs].
      * repeat constructor. simpl. rewrite E. reflexivity.
      * inversion IH; subst. constructor; [|assumption].
        simpl. rewrite E. assumption.
Qed.

(** Joining the segments with the separator gives the text back. *)
Lemma split_join (c : ascii) (s : string) :
  String.concat (String c EmptyString) (split s c) = s.
Proof.
  unfold split. induction s as [|a r IH]; [reflexivity|].
  cbn [split_on].
  pose proof (split_on_not_nil (Ascii.eqb c) r) as Hne.
  destruct (Ascii.eqb c a) eqn:E.
  - apply Ascii.eqb_eq in E. subst a.
    destruct (split_on (Ascii.eqb c) r) as [|seg segs]; [contradiction|].
    cbn [String.concat]. cbn [String.concat] in IH. rewrite IH. reflexivity.
  - destruct (split_on (Ascii.eqb c) r) as [|seg segs]; [contradiction|].
    cbn [String.concat] in *. destruct segs; simpl in *; rewrite IH; reflexivity.
Qed.

Lemma includes_has_char (c : ascii) (s : string) :
  includes s (String c EmptyString) = true -> has_char (Ascii.eqb c) s = true.
Proof.
  induction s as [|a r IH]; [discriminate|].
  cbn [includes has_char]. unfold startsWith. cbn [strip_prefix].
  destruct (Ascii.eqb c a); [reflexivity|]. simpl. exact IH.
Qed.

(** What [subscribe] does on a connected session whose next draw is free. *)
Lemma subscribe_connected (replay : bool) (method : string) (callback : Callback)
    (params : list json) (id : Z) (rest : list Z) (s : ElectrumWS) :
  connected s = true ->
  Map_has Z.eqb (requests s) id = false ->
  exists s',
    subscribe replay method callback params (id :: rest) s = Some (s', rest) /\
    subscriptions s'
      = Map_set String.eqb (subscriptions s) (subscriptionKey method params) callback /\
    requests s'
      = Map_set Z.eqb (requests s) id
          {| req_promise := next_promise s;
             req_method := (method ++ ".subscribe")%string;
             req_timeout := next_timer s |} /\
    trace s' = trace s ++ [Send {| pl_method := (method ++ ".subscribe")%string;
                                   pl_params := params; pl_id := id |}] /\
    connected s' = true.
Proof.
  intros Hc Hid. unfold subscribe, request.
  cbn [connected set_subscriptions requests]. rewrite Hc. cbn [negb random_id].
  rewrite Hid. cbn [negb].
  eexists. split; [reflexivity|]. repeat split. exact Hc.
Qed.

(** The registry keeps the key and not the parameters.  When the first
    parameter given to [subscribe] was not a string, or was a string
    containing [-], the segments of the key after the first differ from the
    parameters. *)
Lemma replayed_params_differ (method : string) (params : list json) (m' : string)
    (ps' : list string) :
  split (subscriptionKey method params) "-" = m' :: ps' ->
  (exists v tl, params = v :: tl /\ is_string (Some v) = false)
  \/ (exists p0 tl, params = JStr p0 :: tl /\ includes p0 "-" = true) ->
  map JStr ps' <> params.
Proof.
  intros Hsplit Hparams Heq. destruct Hparams as [[v [tl [-> Hv]]] | [p0 [tl [-> Hp0]]]].
  - destruct ps'; [discriminate|]. inversion Heq; subst. discriminate.
  - destruct ps' as [|p ps']; [discriminate|]. inversion Heq; subst.
    pose proof (split_on_segments (Ascii.eqb "-")
                  (subscriptionKey method (JStr p0 :: map JStr ps'))) as Hseg.
    unfold split in Hsplit. rewrite Hsplit in Hseg.
    inversion Hseg as [|? ? _ Hrest]; subst. inversion Hrest as [|? ? Hfree _]; subst.
    apply includes_has_char in Hp0. congruence.
Qed.

Lemma stable_key_replay (key : string) :
  stable_key key = true ->
  exists method params,
    split key "-" = method :: params /\
    replay_call key = Some (method, map JStr params) /\
    subscriptionKey method (map JStr params) = key.
Proof.
  unfold stable_key, replay_call. intros H.
  pose proof (split_join "-" key) as Hj.
  destruct (split key "-") as [|method params]; [discriminate|].
  apply andb_true_iff in H. destruct H as [Hm Hl].
  exists method, params. split; [reflexivity|].
  destruct (String.eqb method EmptyString); [discriminate|].
  split; [reflexivity|].
  destruct params as [|p [|p' params]].
  - simpl in Hj. unfold subscriptionKey. simpl. rewrite append_empty_r. exact Hj.
  - exact Hj.
  - discriminate.
Qed.

Lemma Map_set_same (m : list (string * Callback)) : forall (i : nat) (k : string) (v : Callback),
  NoDup (map fst m) -> nth_error m i = Some (k, v) -> Map_set String.eqb m k v = m.
Proof.
  induction m as [|[k' v'] m IH]; intros i k v Hnd Hi.
  - destruct i; discriminate.
  - inversion Hnd as [|? ? Hnotin Hnd']; subst. cbn [Map_set].
    destruct (String.eqb k k') eqn:E.
    + apply String.eqb_eq in E. subst k'.
      destruct i as [|i]; [simpl in Hi; congruence|].
      simpl in Hi. apply nth_error_In in Hi.
      exfalso. apply Hnotin. apply (in_map fst) in Hi. exact Hi.
    + destruct i as [|i].
      * simpl in Hi. inversion Hi; subst. rewrite String.eqb_refl in E. discriminate.
      * simpl in Hi. rewrite (IH i k v Hnd' Hi). reflexivity.
Qed.

Lemma Map_has_set (m : list (Z * Request)) (k k' : Z) (v : Request) :
  Map_has Z.eqb (Map_set Z.eqb m k v) k' = Map_has Z.eqb m k' || (k' =? k).
Proof.
  unfold Map_has. induction m as [|[k0 v0] m IH]; simpl.
  - rewrite orb_false_r. reflexivity.
  - destruct (k =? k0) eqn:E.
    + apply Z.eqb_eq in E. subst k0. simpl.
      destruct (k' =? k); simpl; [reflexivity | rewrite orb_false_r; reflexivity].
    + simpl. rewrite IH. rewrite orb_assoc. reflexivity.
Qed.

(** The loop on a registry of stable keys, from the entries [post] on. *)
Lemma resubscribe_stable (post : list (string * Callback)) :
  forall (pre : list (string * Callback)) (s : ElectrumWS) (ids rest : list Z) (fuel : nat),
    subscriptions s = pre ++ post ->
    NoDup (map fst (subscriptions s)) ->
    Forall (fun e => stable_key (fst e) = true) post ->
    connected s = true ->
    NoDup ids ->
    Forall (fun id => Map_has Z.eqb (requests s) id = false) ids ->
    length ids = length post ->
    (length post < fuel)%nat ->
    exists s',
      resubscribe fuel (length pre) (ids ++ rest) s = Some (s', rest) /\
      subscriptions s' = subscriptions s /\
      connected s' = true /\
      trace s' = trace s ++ map Send (replayed post ids).
Proof.
  induction post as [|[key callback] post IH];
    intros pre s ids rest fuel Hsubs Hnd Hst Hc Hids Hfree Hlen Hfuel.
  - destruct ids; [|discriminate]. destruct fuel; [inversion Hfuel|].
    exists s. cbn [resubscribe]. rewrite Hsubs, app_nil_r.
    rewrite (proj2 (nth_error_None pre (length pre)) (le_n _)).
    simpl. rewrite app_nil_r. repeat split. exact Hc.
  - destruct ids as [|id ids]; [discriminate|].
    destruct fuel as [|fuel]; [inversion Hfuel|].
    inversion Hst as [|? ? Hkey Hst']; subst. simpl in Hkey.
    inversion Hids as [|? ? Hnotin Hids']; subst.
    inversion Hfree as [|? ? Hid Hfree']; subst.
    destruct (stable_key_replay key Hkey) as [method [params [Hsplit [Hcall Hsame]]]].
    destruct (subscribe_connected true method callback (map JStr params) id (ids ++ rest) s Hc Hid)
      as [s1 [Hsub [Hsubs1 [Hreq1 [Htr1 Hc1]]]]].
    assert (Hnth : nth_error (subscriptions s) (length pre) = Some (key, callback)).
    { rewrite Hsubs, nth_error_app2 by apply le_n. rewrite Nat.sub_diag. reflexivity. }
    rewrite Hsame, (Map_set_same _ _ _ _ Hnd Hnth) in Hsubs1.
    destruct (IH (pre ++ [(key, callback)]) s1 ids rest fuel) as [s' [Hrun [Hsubs' [Hc' Htr']]]].
    + rewrite Hsubs1, Hsubs, <- app_assoc. reflexivity.
    + rewrite Hsubs1. exact Hnd.
    + exact Hst'.
    + exact Hc1.
    + exact Hids'.
    + rewrite Hreq1. rewrite Forall_forall in *. intros id' Hin.
      rewrite Map_has_set, (Hfree' id' Hin). simpl.
      apply Z.eqb_neq. intros ->. contradiction.
    + simpl in Hlen. congruence.
    + simpl in Hfuel. apply PeanoNat.lt_S_n. exact Hfuel.
    + exists s'. cbn [resubscribe]. rewrite Hnth.
      unfold resubscribe_entry. rewrite Hcall.
      change ((id :: ids) ++ rest) with (id :: ids ++ rest). rewrite Hsub.
      rewrite length_app, Nat.add_1_r in Hrun. rewrite Hrun.
      split; [reflexivity|]. split; [congruence|]. split; [exact Hc'|].
      rewrite Htr', Htr1. cbn [replayed]. rewrite Hsplit.
      rewrite <- app_assoc. reflexivity.
Qed.

Lemma replayed_length (subs : list (string * Callback)) : forall ids : list Z,
  length ids = length subs -> length (replayed subs ids) = length subs.
Proof.
  induction subs as [|[key cb] subs IH]; intros [|id ids] H; try discriminate; [reflexivity|].
  cbn [replayed]. pose proof (split_on_not_nil (Ascii.eqb "-") key) as Hne.
  unfold split. destruct (split_on (Ascii.eqb "-") key); [contradiction|].
  simpl. rewrite IH; [reflexivity | simpl in H; congruence].
Qed.

(** C6, as the code has it.  While the session is not connected,
    [subscribe] only registers the callback under its key and sends nothing.
    Each time the timer of [onOpen] fires (once after the first connection,
    once after each reconnection) the session becomes connected and, when
    the keys of the registry are stable and the draws are fresh, sends
    exactly one request per entry, in registration order, with the method
    and parameters read off the key; the registry is left as it was. *)
Theorem stable_subscriptions_replay_once (s : ElectrumWS) (ids rest : list Z) :
  NoDup (map fst (subscriptions s)) ->
  Forall (fun e => stable_key (fst e) = true) (subscriptions s) ->
  NoDup ids ->
  Forall (fun id => Map_has Z.eqb (requests s) id = false) ids ->
  length ids = length (subscriptions s) ->
  (forall method callback params draws,
     connected s = false ->
     exists s1,
       subscribe false method callback params draws s = Some (s1, draws) /\
       subscriptions s1
         = Map_set String.eqb (subscriptions s) (subscriptionKey method params) callback /\
       trace s1 = trace s) /\
  exists s',
    onConnectedTimeout (ids ++ rest) s = Some s' /\
    connected s' = true /\
    subscriptions s' = subscriptions s /\
    trace s' = trace s ++ Fire CONNECTED None :: map Send (replayed (subscriptions s) ids) /\
    length (replayed (subscriptions s) ids) = length (subscriptions s).
Proof.
  intros Hnd Hst Hids Hfree Hlen. split.
  - intros method callback params draws Hc. unfold subscribe.
    cbn [connected set_subscriptions]. rewrite Hc. cbn [negb].
    eexists. split; [reflexivity|]. split; reflexivity.
  - unfold onConnectedTimeout.
    set (s0 := fire CONNECTED None (set_connected true s)).
    destruct (fire_frame CONNECTED None (set_connected true s))
      as [Hr0 [_ [Hs0 [Hc0 _]]]].
    fold s0 in Hr0, Hs0, Hc0. cbn [requests subscriptions connected set_connected] in *.
    destruct (resubscribe_stable (subscriptions s) [] s0 ids rest (resubscribe_fuel s0))
      as [s' [Hrun [Hsubs [Hc Htr]]]].
    + rewrite Hs0. reflexivity.
    + rewrite Hs0. exact Hnd.
    + exact Hst.
    + exact Hc0.
    + exact Hids.
    + rewrite Hr0. exact Hfree.
    + exact Hlen.
    + unfold resubscribe_fuel. rewrite Hs0. lia.
    + exists s'. cbn [length] in Hrun. rewrite Hrun. split; [reflexivity|].
      split; [exact Hc|]. split; [congruence|]. split.
      * rewrite Htr. subst s0. rewrite fire_trace. cbn [trace set_connected].
        rewrite <- app_assoc. reflexivity.
      * apply replayed_length. exact Hlen.
Qed.

Lemma stable_subscriptions_replay_once_witness :
  exists s',
    onConnectedTimeout ([10; 11] ++ [12]) two_subscriptions_opening = Some s' /\
    connected s' = true /\
    subscriptions s' = [("blockchain.scripthash-abc123"%string, 1%nat);
                        ("blockchain.headers"%string, 2%nat)] /\
    trace s' = trace two_subscriptions_opening
                 ++ Fire CONNECTED None
                 :: map Send
                      [ {| pl_method := "blockchain.scripthash.subscribe";
                           pl_params := [JStr "abc123"]; pl_id := 10 |};
                        {| pl_method := "blockchain.headers.subscribe";
                           pl_params := []; pl_id := 11 |} ].
Proof.
  destruct (stable_subscriptions_replay_once two_subscriptions_opening [10; 11] [12])
    as [_ [s' [Hrun [Hc [Hsubs [Htr _]]]]]].
  - vm_compute. repeat constructor; simpl; intuition discriminate.
  - vm_compute. repeat constructor.
  - repeat constructor; simpl; intuition discriminate.
  - repeat constructor.
  - reflexivity.
  - exists s'. repeat split; assumption.
Defined.

(** The round trip, run: registered before the connection, subscribed once
    when connected, and once more after the reconnection. *)
Example replay_after_reconnect :
  option_map (fun s => filter (fun o => match o with Send _ => true | _ => false end) (trace s))
    (after [CallSubscribe "blockchain.scripthash" 1%nat [JStr "abc123"] [];
            WsOpened; TimerFires 0%nat [10];
            WsClosed; TimerFires 2%nat []; WsOpened; TimerFires 3%nat [20]])
  = Some [Send {| pl_method := "blockchain.scripthash.subscribe";
                  pl_params := [JStr "abc123"]; pl_id := 10 |};
          Send {| pl_method := "blockchain.scripthash.subscribe";
                  pl_params := [JStr "abc123"]; pl_id := 20 |}].
Proof. vm_compute. reflexivity. Qed.

(** C6, as it is stated, fails for a subscription whose first parameter
    holds a [-]: registered once before the connection, it is subscribed
    twice when the session connects (the replay registers the key [m-a]
    next to [m-a-b], and the loop visits it too), with parameters that are
    not those of the registration. *)
Lemma dashed_parameter_is_subscribed_twice :
  option_map (fun s => (subscriptions s, trace s))
    (after [CallSubscribe "m" 7%nat [JStr "a-b"] []; WsOpened; TimerFires 0%nat [11; 12]])
  = Some ([("m-a-b"%string, 7%nat); ("m-a"%string, 7%nat)],
          [WsNew "ws://127.0.0.1:1234"; Fire OPEN None; Fire CONNECTED None;
           Send {| pl_method := "m.subscribe"; pl_params := [JStr "a"; JStr "b"]; pl_id := 11 |};
           Send {| pl_method := "m.subscribe"; pl_params := [JStr "a"]; pl_id := 12 |}]).
Proof. vm_compute. reflexivity. Qed.

(** ** close *)

Lemma Map_has_delete_other {K V : Type} (eqb : K -> K -> bool) (m : list (K * V)) (k k' : K) :
  Map_has eqb m k' = false -> Map_has eqb (Map_delete eqb m k) k' = false.
Proof.
  unfold Map_has, Map_delete. induction m as [|[k0 v] m IH]; simpl; [reflexivity|].
  intros H. apply orb_false_iff in H. destruct H as [H0 Hm].
  destruct (eqb k k0); simpl; [exact (IH Hm)|].
  rewrite H0. exact (IH Hm).
Qed.

Lemma Map_delete_In (m : list (Z * Request)) (k : Z) (e : Z * Request) :
  In e (Map_delete Z.eqb m k) -> In e m /\ fst e <> k.
Proof.
  unfold Map_delete. rewrite filter_In. intros [Hin Hk]. split; [exact Hin|].
  apply negb_true_iff, Z.eqb_neq in Hk. congruence.
Qed.

(** What the loop of [close] leaves behind, over the entries [entries]. *)
Lemma close_entries (reason : string) (entries : list (Z * Request)) : forall s : ElectrumWS,
  let s' := fold_left (close_entry reason) entries s in
  requests s' = fold_left (fun m e => Map_delete Z.eqb m (fst e)) entries (requests s)
  /\ timers s' = fold_left (fun m e => Map_delete Nat.eqb m (req_timeout (snd e))) entries (timers s)
  /\ trace s' = trace s ++ map (rejection reason) entries
  /\ connected s' = connected s /\ ws s' = ws s /\ listeners s' = listeners s
  /\ reconnectionTimeout s' = reconnectionTimeout s /\ options s' = options s
  /\ subscriptions s' = subscriptions s
  /\ (forall j, In j (jobs s') -> In j (jobs s) \/ exists r o, j = JobSettled r o).
Proof.
  induction entries as [|[id r] entries IH]; intros s; cbn [fold_left].
  - simpl. rewrite app_nil_r. repeat split. intros j Hj. left. exact Hj.
  - specialize (IH (close_entry reason s (id, r))). cbn zeta in IH.
    destruct IH as [Hr [Ht [Htr [Hc [Hw [Hl [Hrt [Ho [Hsub Hjobs]]]]]]]]].
    cbn zeta. rewrite Hr, Ht, Htr, Hc, Hw, Hl, Hrt, Ho, Hsub.
    assert (Hj1 : forall j, In j (jobs (close_entry reason s (id, r))) ->
                    In j (jobs s) \/ exists r o, j = JobSettled r o).
    { unfold close_entry, settle. intros j.
      destruct (Map_get _ _ _); [destruct (negb _)|]; cbn; try (intros H; left; exact H).
      intros H. apply in_app_or in H. destruct H as [H | [<- | []]];
        [left; exact H | right; eexists; eexists; reflexivity]. }
    assert (Hjobs' : forall j, In j (jobs (fold_left (close_entry reason) entries
                                              (close_entry reason s (id, r)))) ->
                       In j (jobs s) \/ exists r o, j = JobSettled r o).
    { intros j Hj. destruct (Hjobs j Hj) as [H | H]; [exact (Hj1 j H) | right; exact H]. }
    revert Hjobs'. generalize (jobs (fold_left (close_entry reason) entries
                                       (close_entry reason s (id, r)))). intros js Hjobs'.
    unfold close_entry.
    set (s1 := set_requests _ _).
    destruct (settle_frame (req_promise r) (Rejected (new_Error reason)) s1)
      as [-> [-> [-> [-> [-> [-> _]]]]]].
    rewrite settle_trace.
    assert (Ho1 : options (settle (req_promise r) (Rejected (new_Error reason)) s1) = options s).
    { unfold settle. destruct (Map_get _ _ _); [destruct (negb _)|]; reflexivity. }
    assert (Hrt1 : reconnectionTimeout (settle (req_promise r) (Rejected (new_Error reason)) s1)
                   = reconnectionTimeout s).
    { unfold settle. destruct (Map_get _ _ _); [destruct (negb _)|]; reflexivity. }
    rewrite Ho1, Hrt1. subst s1. cbn. rewrite <- app_assoc. repeat split.
    exact Hjobs'.
Qed.

Lemma fold_delete_has (ts : list TimerId) : forall (m : list (TimerId * TimerAction)) (t : TimerId),
  In t ts \/ Map_has Nat.eqb m t = false ->
  Map_has Nat.eqb (fold_left (fun m t' => Map_delete Nat.eqb m t') ts m) t = false.
Proof.
  induction ts as [|t0 ts IH]; intros m t H; cbn [fold_left].
  - destruct H as [[] | H]; exact H.
  - apply IH. destruct H as [[-> | Hin] | H].
    + right. apply Map_has_delete.
    + left. exact Hin.
    + right. apply Map_has_delete_other. exact H.
Qed.

Lemma fold_delete_all (entries : list (Z * Request)) : forall m : list (Z * Request),
  (forall e, In e m -> In (fst e) (map fst entries)) ->
  fold_left (fun m e => Map_delete Z.eqb m (fst e)) entries m = [].
Proof.
  induction entries as [|e0 entries IH]; intros m H; cbn [fold_left].
  - destruct m as [|e m]; [reflexivity|]. destruct (H e (or_introl eq_refl)).
  - apply IH. intros e He. apply Map_delete_In in He. destruct He as [Hin Hne].
    destruct (H e Hin) as [Heq | Hin']; [congruence | exact Hin'].
Qed.

Lemma fold_left_map {A B C : Type} (f : A -> C -> A) (g : B -> C) (l : list B) : forall a : A,
  fold_left (fun a b => f a (g b)) l a = fold_left f (map g l) a.
Proof. induction l as [|b l IH]; intros a; simpl; [reflexivity | apply IH]. Qed.

(** Every waiter wrapped in the array is woken by [fire]. *)
Lemma fire_loop_wakes {C : Type} (a : list (option (Observable.Func C))) :
  forall (ls : Observable.Listeners C) (event : string) (id : nat) (c : C),
    In (Some (Observable.OnceWrapper event id c)) a ->
    In c (snd (Observable.fire_loop ls a)).
Proof.
  induction a as [|[[c0|e0 id0 c0]|] a IH]; intros ls event id c Hin; cbn [Observable.fire_loop].
  - destruct Hin.
  - destruct Hin as [Heq | Hin]; [discriminate|].
    specialize (IH ls event id c Hin).
    destruct (Observable.fire_loop ls a). simpl in *. right. exact IH.
  - destruct Hin as [Heq | Hin].
    + inversion Heq; subst. destruct (Observable.fire_loop _ a). left. reflexivity.
    + specialize (IH (Observable.off ls e0 id0) event id c Hin).
      destruct (Observable.fire_loop _ a). simpl in *. right. exact IH.
  - destruct Hin as [Heq | Hin]; [discriminate|]. exact (IH ls event id c Hin).
Qed.

Lemma Map_get_set (ls : Observable.Listeners Waiter) (event : string)
    (a : list (option (Observable.Func Waiter))) :
  Map_get String.eqb (Map_set String.eqb ls event a) event = Some a.
Proof.
  induction ls as [|[e0 a0] ls IH]; simpl.
  - rewrite String.eqb_refl. reflexivity.
  - destruct (String.eqb event e0) eqn:E; simpl.
    + rewrite String.eqb_refl. reflexivity.
    + rewrite E. exact IH.
Qed.

Lemma once_callbacks (event : string) (w : Waiter) (s : ElectrumWS) :
  Observable.callbacks_of (listeners (once event w s)) event
  = Observable.callbacks_of (listeners s) event
    ++ [Some (Observable.OnceWrapper event
                (length (Observable.callbacks_of (listeners s) event)) w)].
Proof.
  unfold once. cbn [listeners set_listeners].
  unfold Observable.once, Observable.on. cbn [fst].
  unfold Observable.callbacks_of at 1. rewrite Map_get_set. reflexivity.
Qed.

(** A waiter registered with [once] is woken by the next [fire] of its
    event. *)
Lemma once_then_fire (event : string) (w : Waiter) (payload : option json) (s : ElectrumWS) :
  forall s1,
    listeners s1 = listeners (once event w s) ->
    In (JobResume w) (jobs (fire event payload s1)).
Proof.
  intros s1 Hl. unfold fire.
  destruct (Observable.fire (listeners (emit (Fire event payload) s1)) event)
    as [ls woken] eqn:E.
  cbn [jobs set_jobs set_listeners]. apply in_or_app. right. apply in_map.
  unfold Observable.fire in E. cbn [listeners emit set_trace] in E.
  rewrite Hl, once_callbacks in E.
  match type of E with Observable.fire_loop ?l ?a = _ =>
    pose proof (fire_loop_wakes a l event
                  (length (Observable.callbacks_of (listeners s) event)) w) as H end.
  rewrite E in H. apply H. apply in_or_app. right. left. reflexivity.
Qed.

Lemma outcome_of_app (p : PromiseId) (tr l : list Output) :
  settled p tr = false -> outcome_of p (tr ++ l) = outcome_of p l.
Proof.
  unfold settled, outcome_of. induction tr as [|x tr IH]; simpl; [reflexivity|].
  intros H. apply orb_false_iff in H. destruct H as [Hx Htr]. rewrite Hx. exact (IH Htr).
Qed.

Lemma outcome_of_rejections (reason : string) (p : PromiseId) (entries : list (Z * Request))
    (tail : list Output) :
  (exists e, In e entries /\ req_promise (snd e) = p) ->
  outcome_of p (map (rejection reason) entries ++ tail) = Some (Reject p (new_Error reason)).
Proof.
  unfold outcome_of. induction entries as [|[id0 r0] entries IH]; intros [e [Hin Hp]].
  - destruct Hin.
  - change (map (rejection reason) ((id0, r0) :: entries) ++ tail)
      with (Reject (req_promise r0) (new_Error reason)
              :: (map (rejection reason) entries ++ tail)).
    cbn [List.find settles].
    destruct (Nat.eqb p (req_promise r0)) eqn:E.
    + apply Nat.eqb_eq in E. rewrite <- E. reflexivity.
    + apply IH. destruct Hin as [<- | Hin].
      * cbn [snd] in Hp. rewrite Hp, Nat.eqb_refl in E. discriminate.
      * exists e. split; assumption.
Qed.

(** No microtask changes the connection flag. *)
Lemma createRequestPromise_connected (id : Z) (method : string) (s : ElectrumWS) :
  connected (fst (createRequestPromise id method s)) = connected s.
Proof. reflexivity. Qed.

Lemma create_all_connected (pls : list Payload) : forall (s : ElectrumWS) (acc : list PromiseId),
  connected (fst (fold_left
                    (fun '(s, ps) pl =>
                       let '(s, p) := createRequestPromise (pl_id pl) (pl_method pl) s in
                       (s, ps ++ [p])) pls (s, acc))) = connected s.
Proof.
  induction pls as [|pl pls IH]; intros s acc; [reflexivity|].
  cbn [fold_left].
  destruct (createRequestPromise (pl_id pl) (pl_method pl) s) as [s1 p] eqn:E.
  rewrite IH. change s1 with (fst (s1, p)). rewrite <- E. reflexivity.
Qed.

Lemma send_all_connected (pls : list Payload) : forall s : ElectrumWS,
  connected (send_all pls s) = connected s.
Proof.
  unfold send_all. induction pls as [|pl pls IH]; intros s; [reflexivity|].
  cbn [fold_left]. rewrite IH. reflexivity.
Qed.

Lemma run_job_connected (j : Job) (s s' : ElectrumWS) :
  run_job j s = Some s' -> connected s' = connected s.
Proof.
  destruct j as [[id method params|reqs draws|]|[callback params replay] [v|e]|];
    cbn [run_job]; intros H.
  - inversion H. reflexivity.
  - unfold batch_send in H.
    destruct (random_id (requests s) draws) as [[id0 ?]|]; [|discriminate].
    destruct (create_all (batch_payloads id0 reqs) s) as [s1 ps] eqn:E.
    cbn in H. inversion H; subst. clear H.
    rewrite send_all_connected.
    pose proof (create_all_connected (batch_payloads id0 reqs) s []) as Hc.
    unfold create_all in E. rewrite E in Hc. exact Hc.
  - inversion H. reflexivity.
  - destruct replay; inversion H; reflexivity.
  - destruct replay; inversion H; [|reflexivity].
    unfold ws_close. destruct (ws_open_or_connecting s); reflexivity.
  - inversion H. reflexivity.
Qed.

(** What [close(reason)] does for the entries of the table.  It sets
    [options.reconnect] to false, clears the reconnection timer and the timer
    of every entry of the table, empties the table and calls [reject] with
    [new Error(reason)] on every entry, which is the outcome of each request
    not settled before (in a reachable state no request of the table is:
    [reachable_entry_unsettled]); the connection flag is not touched.  When
    the socket is connecting or open, the session asks it to close and waits:
    the call completes when the next close event wakes it, in a handler that
    ends with the connection flag false.  When the socket is already closing
    or closed, the call completes at once, whatever the connection flag is. *)
Lemma close_rejects_pending_and_waits_for_open_socket
    (h : Heap) (s : ElectrumWS) (reason : string) :
  let h' := fst (close h reason s) in
  let s' := snd (close h reason s) in
  reconnect (h' (options s)) = false /\
  (forall t, reconnectionTimeout s = Some t -> Map_has Nat.eqb (timers s') t = false) /\
  (forall id r, In (id, r) (requests s) ->
     Map_has Nat.eqb (timers s') (req_timeout r) = false) /\
  requests s' = [] /\
  (forall id r, In (id, r) (requests s) ->
     In (Reject (req_promise r) (new_Error reason)) (trace s') /\
     (settled (req_promise r) (trace s) = false ->
      outcome_of (req_promise r) (trace s')
        = Some (Reject (req_promise r) (new_Error reason)))) /\
  connected s' = connected s /\
  (ws_open_or_connecting s = true ->
     ws s' = CLOSING /\
     trace s' = trace s ++ map (rejection reason) (requests s) ++ [WsClose CLOSE_CODE reason] /\
     (forall j, In j (jobs s') -> In j (jobs s) \/ exists r o, j = JobSettled r o) /\
     forall h1 s1,
       listeners s1 = listeners s' ->
       In (JobResume AwaitClose) (jobs (onClose h1 s1)) /\
       run_job (JobResume AwaitClose) (onClose h1 s1) = Some (emit CloseReturned (onClose h1 s1)) /\
       isConnected (emit CloseReturned (onClose h1 s1)) = false) /\
  (ws_open_or_connecting s = false ->
     ws s' = ws s /\
     trace s' = trace s ++ map (rejection reason) (requests s) /\
     exists js, jobs s' = js ++ [JobCloseReturns]).
Proof.
  cbn zeta. unfold close.
  destruct (close_entries reason (requests s) s)
    as [Hr [Ht [Htr [Hc [Hw [Hl [Hrt [Ho [Hsub Hjobs]]]]]]]]].
  cbn zeta in *.
  set (s1 := fold_left (close_entry reason) (requests s) s) in *.
  set (s2 := clearTimeout (reconnectionTimeout s1) s1).
  assert (Hreq2 : requests s2 = []).
  { subst s2. unfold clearTimeout. destruct (reconnectionTimeout s1); cbn; rewrite Hr;
      apply fold_delete_all; intros e He; apply in_map; exact He. }
  assert (Htim2 : forall id r, In (id, r) (requests s) ->
                    Map_has Nat.eqb (timers s2) (req_timeout r) = false).
  { intros id r Hin.
    assert (H1 : Map_has Nat.eqb (timers s1) (req_timeout r) = false).
    { rewrite Ht.
      rewrite (fold_left_map (fun m t => Map_delete Nat.eqb m t)
                 (fun e : Z * Request => req_timeout (snd e))).
      apply fold_delete_has. left.
      apply (in_map (fun e : Z * Request => req_timeout (snd e))) in Hin. exact Hin. }
    subst s2. unfold clearTimeout. destruct (reconnectionTimeout s1); cbn; [|exact H1].
    apply Map_has_delete_other. exact H1. }
  assert (Hrec2 : forall t, reconnectionTimeout s = Some t ->
                    Map_has Nat.eqb (timers s2) t = false).
  { intros t Hrt'. subst s2. rewrite Hrt, Hrt'. cbn. apply Map_has_delete. }
  assert (Htr2 : trace s2 = trace s ++ map (rejection reason) (requests s)).
  { subst s2. unfold clearTimeout. destruct (reconnectionTimeout s1); cbn; exact Htr. }
  assert (Hc2 : connected s2 = connected s).
  { subst s2. unfold clearTimeout. destruct (reconnectionTimeout s1); cbn; exact Hc. }
  assert (Hw2 : ws_open_or_connecting s2 = ws_open_or_connecting s).
  { subst s2. unfold clearTimeout, ws_open_or_connecting.
    destruct (reconnectionTimeout s1); cbn; rewrite Hw; reflexivity. }
  assert (Hj2 : forall j, In j (jobs s2) -> In j (jobs s) \/ exists r o, j = JobSettled r o).
  { subst s2. unfold clearTimeout. destruct (reconnectionTimeout s1); cbn; exact Hjobs. }
  assert (Hws2 : ws s2 = ws s).
  { subst s2. unfold clearTimeout. destruct (reconnectionTimeout s1); cbn; exact Hw. }
  rewrite Hw2.
  assert (Hout : forall tail id r, In (id, r) (requests s) ->
            In (Reject (req_promise r) (new_Error reason))
               (trace s ++ map (rejection reason) (requests s) ++ tail) /\
            (settled (req_promise r) (trace s) = false ->
             outcome_of (req_promise r) (trace s ++ map (rejection reason) (requests s) ++ tail)
             = Some (Reject (req_promise r) (new_Error reason)))).
  { intros tail id r Hin. split.
    - apply in_or_app. right. apply in_or_app. left.
      apply (in_map (rejection reason)) in Hin. exact Hin.
    - intros Hs. rewrite outcome_of_app by exact Hs.
      apply outcome_of_rejections. exists (id, r). split; [exact Hin | reflexivity]. }
  destruct (ws_open_or_connecting s) eqn:Hopen; cbn [fst snd].
  - assert (Hws : ws_open_or_connecting (once CLOSE AwaitClose s2) = true).
    { unfold ws_open_or_connecting, once. cbn. rewrite Hws2. exact Hopen. }
    unfold ws_close. rewrite Hws.
    cbn [requests timers trace connected ws jobs listeners emit once set_ws set_trace
         set_listeners].
    rewrite Htr2, <- app_assoc.
    split; [unfold heap_set; rewrite Nat.eqb_refl; reflexivity|].
    split; [exact Hrec2|]. split; [exact Htim2|]. split; [exact Hreq2|].
    split; [exact (Hout [WsClose CLOSE_CODE reason])|]. split; [exact Hc2|].
    split; [|intros Hf; discriminate].
    intros _. split; [reflexivity|]. split; [reflexivity|]. split; [exact Hj2|].
    intros h1 s3 Hl3. split; [|split; reflexivity].
    unfold onClose.
    assert (Hin : In (JobResume AwaitClose) (jobs (fire CLOSE None s3))).
    { apply (once_then_fire CLOSE AwaitClose None s2). rewrite Hl3. reflexivity. }
    revert Hin. generalize (fire CLOSE None s3). intros x Hin.
    assert (Hfire : forall e pl y, In (JobResume AwaitClose) (jobs y) ->
                      In (JobResume AwaitClose) (jobs (fire e pl y))).
    { intros e pl y Hy. unfold fire. destruct (Observable.fire _ e). cbn.
      apply in_or_app. left. exact Hy. }
    assert (Hx1 : In (JobResume AwaitClose)
                     (jobs (if negb (connected x) then clearTimeout (connectedTimeout x) x
                            else fire DISCONNECTED None x))).
    { destruct (negb (connected x)); [|apply Hfire; exact Hin].
      unfold clearTimeout. destruct (connectedTimeout x); exact Hin. }
    revert Hx1. generalize (if negb (connected x) then clearTimeout (connectedTimeout x) x
                            else fire DISCONNECTED None x). intros y Hy.
    destruct (reconnect (h1 (options y)) && connected y); cbn; [|exact Hy].
    apply (Hfire RECONNECTING None y) in Hy. exact Hy.
  - cbn [requests timers trace connected ws jobs set_jobs].
    rewrite Htr2.
    split; [unfold heap_set; rewrite Nat.eqb_refl; reflexivity|].
    split; [exact Hrec2|]. split; [exact Htim2|]. split; [exact Hreq2|].
    split.
    { intros id r Hin. specialize (Hout [] id r Hin). rewrite app_nil_r in Hout. exact Hout. }
    split; [exact Hc2|].
    split; [intros Hf; discriminate|].
    intros _. split; [exact Hws2|]. split; [reflexivity|].
    exists (jobs s2). reflexivity.
Qed.

Lemma close_rejects_pending_and_waits_for_open_socket_witness :
  let s' := snd (close initial_heap "shutdown" two_pending) in
  ws s' = CLOSING /\
  trace s' = trace two_pending
               ++ [Reject 0%nat (new_Error "shutdown"); Reject 1%nat (new_Error "shutdown");
                   WsClose CLOSE_CODE "shutdown"] /\
  forall h1 s1,
    listeners s1 = listeners s' ->
    In (JobResume AwaitClose) (jobs (onClose h1 s1)) /\
    run_job (JobResume AwaitClose) (onClose h1 s1) = Some (emit CloseReturned (onClose h1 s1)) /\
    isConnected (emit CloseReturned (onClose h1 s1)) = false.
Proof.
  destruct (close_rejects_pending_and_waits_for_open_socket initial_heap two_pending "shutdown")
    as [_ [_ [_ [_ [_ [_ [Hopen _]]]]]]].
  destruct (Hopen eq_refl) as [Hws [Htr [_ Hlater]]].
  split; [exact Hws|]. split; [exact Htr | exact Hlater].
Defined.

(** The scenario of the specification, run: both requests are rejected with
    the reason, the call returns after the close event, and the session is
    then not connected. *)
Example close_scenario :
  option_map (fun s => (isConnected s, requests s, timers s, skipn 5 (trace s)))
    (after [WsOpened; TimerFires 0%nat [];
            CallRequest "blockchain.estimatefee" [JNum 1] [41];
            CallRequest "blockchain.block.header" [JNum 1] [42];
            CallClose "shutdown"; WsClosed])
  = Some (false, [], [],
          [Reject 0%nat (new_Error "shutdown"); Reject 1%nat (new_Error "shutdown");
           WsClose CLOSE_CODE "shutdown"; Fire CLOSE None; Fire DISCONNECTED None;
           CloseReturned]).
Proof. vm_compute. reflexivity. Qed.

(** C7.  [close] misses what the claim says, what its own comment says
    ([Reject all pending requests]) and what the test
    [close should disconnect from electrum server] asserts, on two inputs.
    - A second [close], called with a request pending while the first one
      waits for the close event: the socket is closing, so the call rejects
      the request and returns at once, and [isConnected()] is still true
      (the path of an open socket waits for the close event, after which it
      is false).
    - A request made before the session is connected, then [close]: the
      request waits for CONNECTED outside the table, so [close] does not
      reject it; the call returns after the close event and the request is
      left waiting for CONNECTED, neither sent nor rejected. *)
Theorem close_leaves_the_session_connected_and_waiting_requests_pending :
  option_map (fun s => (isConnected s, ws s, skipn 3 (trace s)))
    (after [WsOpened; TimerFires 0%nat []; CallClose "a";
            CallRequest "x" [] [7]; CallClose "b"])
  = Some (true, CLOSING,
          [WsClose CLOSE_CODE "a";
           Send {| pl_method := "x"; pl_params := []; pl_id := 7 |};
           Reject 0%nat (new_Error "b");
           CloseReturned])
  /\ option_map (fun s => (trace s, requests s, timers s,
                           flat_map live (Observable.callbacks_of (listeners s) CONNECTED)))
       (after [CallRequest "x" [] [7]; CallClose "bye"; WsClosed])
     = Some ([WsNew "ws://127.0.0.1:1234"; WsClose CLOSE_CODE "bye"; Fire CLOSE None;
              CloseReturned],
             [], [], [AwaitRequest 7 "x" []]).
Proof. split; vm_compute; reflexivity. Qed.

(* ===================================================================== *)
(** * Invariants of the reachable states *)
(* ===================================================================== *)

Section MapKeys.
Context {K V : Type} (eqb : K -> K -> bool).
Hypothesis eqb_spec : forall a b, eqb a b = true <-> a = b.

Lemma Map_set_keys (m : list (K * V)) (k : K) (v : V) :
  forall k', In k' (map fst (Map_set eqb m k v)) -> k' = k \/ In k' (map fst m).
Proof.
  induction m as [|[k0 v0] m IH]; intros k' H; simpl in *.
  - destruct H as [H | []]. left. congruence.
  - destruct (eqb k k0) eqn:E; simpl in H.
    + apply eqb_spec in E. subst k0. destruct H as [H | H]; [left; congruence | right; right; exact H].
    + destruct H as [H | H]; [right; left; exact H|].
      destruct (IH k' H) as [H' | H']; [left; exact H' | right; right; exact H'].
Qed.

Lemma Map_set_NoDup (m : list (K * V)) (k : K) (v : V) :
  NoDup (map fst m) -> NoDup (map fst (Map_set eqb m k v)).
Proof.
  induction m as [|[k0 v0] m IH]; intros H; simpl.
  - constructor; [intros [] | constructor].
  - inversion H as [|? ? Hnotin Hnd]; subst.
    destruct (eqb k k0) eqn:E; simpl.
    + apply eqb_spec in E. subst k0. constructor; assumption.
    + constructor; [|exact (IH Hnd)].
      intros Hin. apply Map_set_keys in Hin. destruct Hin as [-> | Hin]; [|contradiction].
      assert (eqb k k = true) by (apply eqb_spec; reflexivity). congruence.
Qed.

Lemma Map_delete_NoDup (m : list (K * V)) (k : K) :
  NoDup (map fst m) -> NoDup (map fst (Map_delete eqb m k)).
Proof.
  unfold Map_delete. induction m as [|[k0 v0] m IH]; intros H; simpl; [constructor|].
  inversion H as [|? ? Hnotin Hnd]; subst.
  destruct (negb (eqb k k0)); simpl; [|exact (IH Hnd)].
  constructor; [|exact (IH Hnd)].
  intros Hin. apply Hnotin. apply in_map_iff in Hin. destruct Hin as [e [He Hin]].
  apply filter_In in Hin. apply in_map_iff. exists e. split; [exact He | apply Hin].
Qed.
End MapKeys.

Lemma Z_eqb_spec (a b : Z) : Z.eqb a b = true <-> a = b.
Proof. apply Z.eqb_eq. Qed.

Lemma String_eqb_spec (a b : string) : String.eqb a b = true <-> a = b.
Proof. apply String.eqb_eq. Qed.

Lemma same_maps_distinct (s s' : ElectrumWS) :
  same_maps s s' -> distinct_keys s -> distinct_keys s'.
Proof. unfold same_maps, distinct_keys. intros [-> ->] H. exact H. Qed.

Lemma same_maps_trans (s1 s2 s3 : ElectrumWS) :
  same_maps s1 s2 -> same_maps s2 s3 -> same_maps s1 s3.
Proof. unfold same_maps. intros [H1 H2] [H3 H4]. split; congruence. Qed.

Lemma settle_same (p : PromiseId) (o : Outcome) (s : ElectrumWS) : same_maps s (settle p o s).
Proof. destruct (settle_frame p o s) as [H1 [_ [H2 _]]]. split; assumption. Qed.

Lemma fire_same (event : string) (payload : option json) (s : ElectrumWS) :
  same_maps s (fire event payload s).
Proof. destruct (fire_frame event payload s) as [H1 [_ [H2 _]]]. split; assumption. Qed.

Lemma clearTimeout_same (t : option TimerId) (s : ElectrumWS) : same_maps s (clearTimeout t s).
Proof. destruct t; split; reflexivity. Qed.

Lemma ws_close_same (c : Z) (reason : string) (s : ElectrumWS) : same_maps s (ws_close c reason s).
Proof. unfold ws_close. destruct (ws_open_or_connecting s); split; reflexivity. Qed.

Lemma createRequestPromise_distinct (id : Z) (method : string) (s : ElectrumWS) :
  distinct_keys s -> distinct_keys (fst (createRequestPromise id method s)).
Proof.
  intros [Hr Hs]. split; [|exact Hs]. cbn. apply (Map_set_NoDup Z.eqb Z_eqb_spec). exact Hr.
Qed.

Lemma request_send_distinct (id : Z) (method : string) (params : list json) (s : ElectrumWS) :
  distinct_keys s -> distinct_keys (fst (request_send id method params s)).
Proof. intros H. exact (createRequestPromise_distinct id method s H). Qed.

Lemma request_distinct (method : string) (params : list json) (draws : list Z)
    (s s' : ElectrumWS) (p : option PromiseId) (rest : list Z) :
  request method params draws s = Some (s', p, rest) -> distinct_keys s -> distinct_keys s'.
Proof.
  unfold request. destruct (random_id (requests s) draws) as [[id d]|]; [|discriminate].
  destruct (negb (connected s)); intros H Hd; inversion H; subst.
  - exact Hd.
  - exact (request_send_distinct id method params s Hd).
Qed.

Lemma create_all_distinct (pls : list Payload) : forall (s : ElectrumWS) (acc : list PromiseId),
  distinct_keys s ->
  distinct_keys (fst (fold_left
                        (fun '(s, ps) pl =>
                           let '(s, p) := createRequestPromise (pl_id pl) (pl_method pl) s in
                           (s, ps ++ [p])) pls (s, acc))).
Proof.
  induction pls as [|pl pls IH]; intros s acc H; [exact H|].
  cbn [fold_left].
  destruct (createRequestPromise (pl_id pl) (pl_method pl) s) as [s1 p] eqn:E.
  apply IH. change s1 with (fst (s1, p)). rewrite <- E.
  apply createRequestPromise_distinct. exact H.
Qed.

Lemma send_all_same (pls : list Payload) : forall s : ElectrumWS, same_maps s (send_all pls s).
Proof.
  unfold send_all. induction pls as [|pl pls IH]; intros s; [split; reflexivity|].
  cbn [fold_left]. apply (same_maps_trans _ (emit (Send pl) s)); [split; reflexivity | apply IH].
Qed.

Lemma batch_send_distinct (reqs : list (string * list json)) (draws : list Z)
    (s s' : ElectrumWS) (ps : list PromiseId) :
  batch_send reqs draws s = Some (s', ps) -> distinct_keys s -> distinct_keys s'.
Proof.
  unfold batch_send. destruct (random_id (requests s) draws) as [[id d]|]; [|discriminate].
  destruct (create_all (batch_payloads id reqs) s) as [s1 ps1] eqn:E.
  intros H Hd. inversion H; subst.
  apply (same_maps_distinct s1); [apply send_all_same|].
  pose proof (create_all_distinct (batch_payloads id reqs) s [] Hd) as H1.
  unfold create_all in E. rewrite E in H1. exact H1.
Qed.

Lemma subscribe_distinct (replay : bool) (method : string) (callback : Callback)
    (params : list json) (draws rest : list Z) (s s' : ElectrumWS) :
  subscribe replay method callback params draws s = Some (s', rest) ->
  distinct_keys s -> distinct_keys s'.
Proof.
  unfold subscribe. intros H [Hr Hs].
  set (s1 := set_subscriptions _ s) in H.
  assert (H1 : distinct_keys s1).
  { split; [exact Hr|]. cbn. apply (Map_set_NoDup String.eqb String_eqb_spec). exact Hs. }
  destruct (negb (connected s1)); [inversion H; subst; exact H1|].
  destruct (request (method ++ ".subscribe")%string params draws s1)
    as [[[s2 [p|]] d]|] eqn:E; [| |discriminate];
    inversion H; subst; apply (request_distinct _ _ _ _ _ _ _ E) in H1; exact H1.
Qed.

Lemma close_maps (h : Heap) (reason : string) (s : ElectrumWS) :
  requests (snd (close h reason s)) = []
  /\ subscriptions (snd (close h reason s)) = subscriptions s.
Proof.
  unfold close.
  destruct (close_entries reason (requests s) s) as [Hr [_ [_ [_ [_ [_ [_ [_ [Hsub _]]]]]]]]].
  cbn zeta in Hr, Hsub.
  set (s1 := fold_left (close_entry reason) (requests s) s) in *.
  set (s2 := clearTimeout (reconnectionTimeout s1) s1).
  assert (H2 : requests s2 = [] /\ subscriptions s2 = subscriptions s).
  { destruct (clearTimeout_same (reconnectionTimeout s1) s1) as [Ha Hb].
    fold s2 in Ha, Hb. rewrite Ha, Hb, Hr, Hsub. split; [|reflexivity].
    apply fold_delete_all. intros e He. apply in_map. exact He. }
  destruct (ws_open_or_connecting s2); cbn [snd].
  - destruct (ws_close_same CLOSE_CODE reason (once CLOSE AwaitClose s2)) as [Ha Hb].
    rewrite Ha, Hb. exact H2.
  - exact H2.
Qed.

Lemma close_distinct (h : Heap) (reason : string) (s : ElectrumWS) :
  distinct_keys s -> distinct_keys (snd (close h reason s)).
Proof.
  intros [_ Hs]. destruct (close_maps h reason s) as [Hr Hsub].
  split; [rewrite Hr; constructor | rewrite Hsub; exact Hs].
Qed.

Lemma unsubscribe_distinct (method : string) (params : list json) (draws rest : list Z)
    (s s' : ElectrumWS) (p : option PromiseId) :
  unsubscribe method params draws s = Some (s', p, rest) ->
  distinct_keys s -> distinct_keys s'.
Proof.
  unfold unsubscribe. intros H [Hr Hs].
  set (s1 := set_subscriptions _ s) in H.
  assert (H1 : distinct_keys s1).
  { split; [exact Hr|]. cbn. apply Map_delete_NoDup. exact Hs. }
  destruct (Map_has String.eqb (subscriptions s) (subscriptionKey method params)).
  - exact (request_distinct _ _ _ _ _ _ _ H H1).
  - inversion H; subst. exact H1.
Qed.

Lemma resubscribe_distinct (fuel : nat) :
  forall (i : nat) (draws rest : list Z) (s s' : ElectrumWS),
    resubscribe fuel i draws s = Some (s', rest) -> distinct_keys s -> distinct_keys s'.
Proof.
  induction fuel as [|fuel IH]; intros i draws rest s s' H Hd; [discriminate|].
  cbn [resubscribe] in H.
  destruct (nth_error (subscriptions s) i) as [[key callback]|]; [|inversion H; subst; exact Hd].
  unfold resubscribe_entry in H.
  destruct (replay_call key) as [[method params]|].
  - destruct (subscribe true method callback params draws s) as [[s1 d1]|] eqn:E; [|discriminate].
    apply (IH _ _ _ _ _ H). exact (subscribe_distinct _ _ _ _ _ _ _ _ E Hd).
  - exact (IH _ _ _ _ _ H Hd).
Qed.

Lemma onConnectedTimeout_distinct (draws : list Z) (s s' : ElectrumWS) :
  onConnectedTimeout draws s = Some s' -> distinct_keys s -> distinct_keys s'.
Proof.
  unfold onConnectedTimeout. intros H Hd.
  set (s0 := fire CONNECTED None (set_connected true s)) in H.
  destruct (resubscribe (resubscribe_fuel s0) 0 draws s0) as [[s1 d]|] eqn:E; [|discriminate].
  inversion H; subst. apply (resubscribe_distinct _ _ _ _ _ _ E).
  apply (same_maps_distinct (set_connected true s)); [apply fire_same | exact Hd].
Qed.

Lemma onClose_same (h : Heap) (s : ElectrumWS) : same_maps s (onClose h s).
Proof.
  unfold onClose, same_maps.
  set (s0 := fire CLOSE None s).
  assert (H0 : same_maps s s0) by apply fire_same.
  set (s1 := if negb (connected s0) then clearTimeout (connectedTimeout s0) s0
             else fire DISCONNECTED None s0).
  assert (H1 : same_maps s s1).
  { apply (same_maps_trans _ s0 _ H0). subst s1.
    destruct (negb (connected s0)); [apply clearTimeout_same | apply fire_same]. }
  destruct (reconnect (h (options s1)) && connected s1); cbn; [|exact H1].
  destruct (fire_same RECONNECTING None s1) as [Ha Hb]. destruct H1 as [Hc Hd].
  split; congruence.
Qed.

Lemma dispatch_response_distinct (response : json) (s : ElectrumWS) :
  distinct_keys s -> distinct_keys (dispatch_response response s).
Proof.
  intros [Hr Hs]. unfold dispatch_response.
  destruct (get "id" response) as [[ | |id| | | ]|]; try (split; assumption).
  destruct (Map_get Z.eqb (requests s) id) as [request|]; [|split; assumption].
  set (s1 := set_requests _ _).
  assert (H1 : distinct_keys s1).
  { split; [cbn; apply Map_delete_NoDup; exact Hr | exact Hs]. }
  destruct (get "result" response); [|destruct (truthy (get "error" response))];
    apply (same_maps_distinct s1); try apply settle_same; exact H1.
Qed.

Lemma dispatch_push_same (response : json) (s : ElectrumWS) :
  same_maps s (fst (dispatch_push response s)).
Proof.
  unfold dispatch_push.
  destruct (get "method" response) as [[ | | |m| | ]|]; try (split; reflexivity).
  destruct (endsWith m "subscribe"); [|split; reflexivity].
  match goal with |- context [Map_get String.eqb (subscriptions s) ?k] =>
    destruct (Map_get String.eqb (subscriptions s) k) end; [|split; reflexivity].
  destruct (spread (push_params response)); split; reflexivity.
Qed.

Section Preservation.
Variable JSON_parse : string -> option json.

Lemma onMessage_line_distinct (line : string) (s s' : ElectrumWS) (threw : bool) :
  onMessage_line JSON_parse line s = Some (s', threw) -> distinct_keys s -> distinct_keys s'.
Proof.
  unfold onMessage_line. rewrite parseLine_eq. intros H Hd.
  assert (Hset : forall b, distinct_keys (set_incompleteMessage b s)) by (intros b; exact Hd).
  destruct (recognized JSON_parse line) as [response|].
  - inversion H as [H2].
    apply (same_maps_distinct
             (dispatch_response response
                (fire MESSAGE (Some response) (set_incompleteMessage EmptyString s)))).
    + pose proof (dispatch_push_same response
                    (dispatch_response response
                       (fire MESSAGE (Some response) (set_incompleteMessage EmptyString s)))) as Hp.
      rewrite H2 in Hp. exact Hp.
    + apply dispatch_response_distinct.
      apply (same_maps_distinct (set_incompleteMessage EmptyString s)); [apply fire_same | apply Hset].
  - destruct (_ && _).
    + destruct (recognized JSON_parse _) as [response|].
      * inversion H as [H2].
        apply (same_maps_distinct
                 (dispatch_response response
                    (fire MESSAGE (Some response) (set_incompleteMessage EmptyString s)))).
        -- pose proof (dispatch_push_same response
                         (dispatch_response response
                            (fire MESSAGE (Some response)
                               (set_incompleteMessage EmptyString s)))) as Hp.
           rewrite H2 in Hp. exact Hp.
        -- apply dispatch_response_distinct.
           apply (same_maps_distinct (set_incompleteMessage EmptyString s));
             [apply fire_same | apply Hset].
      * inversion H; subst. apply Hset.
    + inversion H; subst. apply Hset.
Qed.

Lemma onMessage_lines_distinct (lines : list string) : forall (s s' : ElectrumWS) (threw : bool),
  onMessage_lines JSON_parse lines s = Some (s', threw) -> distinct_keys s -> distinct_keys s'.
Proof.
  induction lines as [|line lines IH]; intros s s' threw H Hd; cbn [onMessage_lines] in H.
  - inversion H; subst. exact Hd.
  - destruct (onMessage_line JSON_parse line s) as [[s1 [|]]|] eqn:E; [| |discriminate].
    + inversion H; subst. exact (onMessage_line_distinct _ _ _ _ E Hd).
    + exact (IH _ _ _ H (onMessage_line_distinct _ _ _ _ E Hd)).
Qed.

Lemma run_job_distinct (j : Job) (s s' : ElectrumWS) :
  run_job j s = Some s' -> distinct_keys s -> distinct_keys s'.
Proof.
  destruct j as [[id method params|reqs draws|]|[callback params replay] [v|e]|];
    cbn [run_job]; intros H Hd.
  - inversion H; subst. exact (request_send_distinct id method params s Hd).
  - destruct (batch_send reqs draws s) as [[s1 ps]|] eqn:E; [|discriminate].
    inversion H; subst. exact (batch_send_distinct _ _ _ _ _ E Hd).
  - inversion H; subst. exact Hd.
  - destruct replay; inversion H; subst; exact Hd.
  - destruct replay; inversion H; subst; [|exact Hd].
    destruct (ws_open_or_connecting s); [|exact Hd].
    exact (same_maps_distinct _ _ (ws_close_same _ _ _) Hd).
  - inversion H; subst. exact Hd.
Qed.

(** No job queues another: the queue is the one [drain] found. *)
Lemma run_job_jobs (j : Job) (s s' : ElectrumWS) :
  run_job j s = Some s' -> jobs s' = jobs s.
Proof.
  destruct j as [[id method params|reqs draws|]|[callback params replay] [v|e]|];
    cbn [run_job]; intros H.
  - inversion H. reflexivity.
  - unfold batch_send in H.
    destruct (random_id (requests s) draws) as [[id0 ?]|]; [|discriminate].
    destruct (create_all (batch_payloads id0 reqs) s) as [s1 ps] eqn:E.
    cbn in H. inversion H; subst. clear H.
    assert (Hsend : forall pls x, jobs (send_all pls x) = jobs x).
    { unfold send_all. induction pls as [|pl pls IH]; intros x; [reflexivity|].
      cbn [fold_left]. rewrite IH. reflexivity. }
    assert (Hcreate : forall pls x acc,
              jobs (fst (fold_left
                (fun '(s, ps) pl =>
                   let '(s, p) := createRequestPromise (pl_id pl) (pl_method pl) s in
                   (s, ps ++ [p])) pls (x, acc))) = jobs x).
    { induction pls as [|pl pls IH]; intros x acc; [reflexivity|].
      cbn [fold_left].
      destruct (createRequestPromise (pl_id pl) (pl_method pl) x) as [x1 p] eqn:E1.
      rewrite IH. change x1 with (fst (x1, p)). rewrite <- E1. reflexivity. }
    rewrite Hsend. specialize (Hcreate (batch_payloads id0 reqs) s []).
    unfold create_all in E. rewrite E in Hcreate. exact Hcreate.
  - inversion H. reflexivity.
  - destruct replay; inversion H; reflexivity.
  - destruct replay; inversion H; [|reflexivity].
    unfold ws_close. destruct (ws_open_or_connecting s); reflexivity.
  - inversion H. reflexivity.
Qed.

Lemma run_jobs_keeps (js : list Job) : forall s s' : ElectrumWS,
  run_jobs js s = Some s' ->
  jobs s' = jobs s /\ connected s' = connected s /\ (distinct_keys s -> distinct_keys s').
Proof.
  induction js as [|j js IH]; intros s s' H; cbn [run_jobs] in H.
  - inversion H; subst. split; [reflexivity|]. split; [reflexivity|]. intros Hd. exact Hd.
  - destruct (run_job j s) as [s1|] eqn:E; [|discriminate].
    destruct (IH _ _ H) as [Hj [Hc Hd]].
    rewrite Hj, Hc, (run_job_jobs _ _ _ E), (run_job_connected _ _ _ E).
    split; [reflexivity|]. split; [reflexivity|].
    intros Hd0. exact (Hd (run_job_distinct _ _ _ E Hd0)).
Qed.

Lemma task_distinct (ev : Event) (h h' : Heap) (s s' : ElectrumWS) :
  task JSON_parse ev h s = Some (h', s') -> distinct_keys s -> distinct_keys s'.
Proof.
  destruct ev as [method params draws|reqs draws|method callback params draws
                  |method params draws|reason| |data|error| |t draws];
    cbn [task]; intros H Hd.
  - destruct (request method params draws s) as [[[s1 p] d]|] eqn:E; [|discriminate].
    inversion H; subst. exact (request_distinct _ _ _ _ _ _ _ E Hd).
  - unfold batchRequest in H.
    destruct (negb (connected s)).
    + inversion H; subst. exact Hd.
    + destruct (batch_send reqs draws s) as [[s1 ps]|] eqn:E; [|discriminate].
      inversion H; subst. exact (batch_send_distinct _ _ _ _ _ E Hd).
  - destruct (subscribe false method callback params draws s) as [[s1 d]|] eqn:E; [|discriminate].
    inversion H; subst. exact (subscribe_distinct _ _ _ _ _ _ _ _ E Hd).
  - destruct (unsubscribe method params draws s) as [[[s1 p] d]|] eqn:E; [|discriminate].
    inversion H; subst. exact (unsubscribe_distinct _ _ _ _ _ _ _ E Hd).
  - inversion H as [H1]. rewrite (surjective_pairing (close h reason s)) in H1.
    inversion H1; subst. apply close_distinct. exact Hd.
  - destruct (ws s); try discriminate. inversion H; subst.
    unfold onOpen. cbn.
    apply (same_maps_distinct (set_ws OPEN_ s)); [|exact Hd].
    destruct (fire_same OPEN None (set_ws OPEN_ s)) as [Ha Hb]. split; cbn; assumption.
  - destruct (ws s); try discriminate;
      (destruct (onMessage JSON_parse data s) as [[s1 b]|] eqn:E; [|discriminate];
       inversion H; subst; exact (onMessage_lines_distinct _ _ _ _ E Hd)).
  - inversion H; subst. destruct error; [|exact Hd].
    exact (same_maps_distinct _ _ (fire_same _ _ _) Hd).
  - destruct (ws s); try discriminate; inversion H; subst;
      (eapply same_maps_distinct; [apply onClose_same | exact Hd]).
  - destruct (Map_get Nat.eqb (timers s) t) as [[id method p| |]|]; [| | |discriminate].
    + inversion H; subst. unfold onRequestTimeout.
      eapply same_maps_distinct; [apply settle_same|].
      destruct Hd as [Hr Hs]. split; [cbn; apply Map_delete_NoDup; exact Hr | exact Hs].
    + destruct (onConnectedTimeout draws _) as [s1|] eqn:E; [|discriminate].
      inversion H; subst. exact (onConnectedTimeout_distinct _ _ _ E Hd).
    + inversion H; subst. exact Hd.
Qed.

(** In every reachable state the microtask queue is empty and neither the
    table nor the registry holds a key twice. *)
Lemma reachable_invariant (h : Heap) (s : ElectrumWS) :
  reachable JSON_parse h s -> jobs s = [] /\ distinct_keys s.
Proof.
  induction 1 as [h endpoint opts h' s Hc | h s ev h' s' Hr IH Hs | h s o Hr IH].
  - unfold constructor in Hc. cbn in Hc. inversion Hc; subst. cbn.
    split; [reflexivity|]. split; constructor.
  - unfold step in Hs. cbn [fst snd] in Hs.
    destruct (task JSON_parse ev h s) as [[h1 s1]|] eqn:Et; [|discriminate].
    destruct (drain s1) as [s2|] eqn:Ed; [|discriminate].
    inversion Hs; subst. unfold drain in Ed.
    destruct (run_jobs_keeps _ _ _ Ed) as [Hj [_ Hd]].
    split; [rewrite Hj; reflexivity|].
    apply Hd. destruct IH as [_ IH]. exact (task_distinct _ _ _ _ _ Et IH).
  - exact IH.
Qed.
End Preservation.

(* ===================================================================== *)
(** * The replay loop always ends *)
(* ===================================================================== *)

Lemma split_on_free (sep : ascii -> bool) (s : string) :
  has_char sep s = false -> split_on sep s = [s].
Proof.
  induction s as [|c r IH]; [reflexivity|].
  cbn [has_char split_on]. intros H. apply orb_false_iff in H. destruct H as [Hc Hr].
  rewrite Hc, (IH Hr). reflexivity.
Qed.

Lemma split_on_app (sep : ascii -> bool) (a b : string) (c : ascii) :
  has_char sep a = false -> sep c = true ->
  split_on sep (a ++ String c b) = a :: split_on sep b.
Proof.
  intros Ha Hc. induction a as [|x a IH].
  - simpl. rewrite Hc. reflexivity.
  - cbn [has_char] in Ha. apply orb_false_iff in Ha. destruct Ha as [Hx Ha].
    change (String x a ++ String c b)%string with (String x (a ++ String c b)).
    cbn [split_on]. rewrite Hx, (IH Ha). reflexivity.
Qed.

(** The key that a replayed call registers is stable. *)
Lemma replayed_key_stable (key method : string) (params : list json) :
  replay_call key = Some (method, params) ->
  stable_key (subscriptionKey method params) = true.
Proof.
  unfold replay_call.
  pose proof (split_on_segments (Ascii.eqb "-") key) as Hseg. unfold split.
  destruct (split_on (Ascii.eqb "-") key) as [|m segs]; [discriminate|].
  destruct (String.eqb m EmptyString) eqn:Em; [discriminate|].
  intros H. inversion H; subst. clear H.
  inversion Hseg as [|? ? Hm Hsegs]; subst.
  unfold stable_key, subscriptionKey, split.
  destruct segs as [|p0 segs]; cbn [map].
  - rewrite append_empty_r, (split_on_free _ _ Hm), Em. reflexivity.
  - inversion Hsegs as [|? ? Hp0 _]; subst.
    change ("-" ++ p0)%string with (String "-"%char p0).
    rewrite (split_on_app _ _ _ _ Hm (Ascii.eqb_refl _)), (split_on_free _ _ Hp0), Em.
    reflexivity.
Qed.

Lemma turns_left_app (a b : list string) :
  turns_left (a ++ b) = (turns_left a + turns_left b)%nat.
Proof. unfold turns_left. rewrite map_app, list_sum_app. reflexivity. Qed.

Lemma turns_left_bound (keys : list string) : (turns_left keys <= 2 * length keys)%nat.
Proof.
  induction keys as [|k keys IH]; [apply le_n|].
  unfold turns_left in *.
  change (list_sum (map weight (k :: keys))) with (weight k + list_sum (map weight keys))%nat.
  cbn [length]. unfold weight at 1.
  destruct (stable_key k); lia.
Qed.

Lemma skipn_nth_error {A : Type} (l : list A) : forall (i : nat) (x : A),
  nth_error l i = Some x -> skipn i l = x :: skipn (S i) l.
Proof.
  induction l as [|y l IH]; intros [|i] x H; try discriminate.
  - inversion H. reflexivity.
  - simpl in H. exact (IH i x H).
Qed.

Lemma Map_set_key_list (m : list (string * Callback)) (k : string) (v : Callback) :
  map fst (Map_set String.eqb m k v)
  = if Map_has String.eqb m k then map fst m else map fst m ++ [k].
Proof.
  unfold Map_has. induction m as [|[k0 v0] m IH]; [reflexivity|].
  cbn [Map_set existsb fst]. destruct (String.eqb k k0) eqn:E; cbn [orb].
  - apply String.eqb_eq in E. subst k0. reflexivity.
  - cbn [map fst]. rewrite IH. destruct (existsb _ m); reflexivity.
Qed.

Lemma nth_error_Map_has (m : list (string * Callback)) : forall (i : nat) (k : string) (v : Callback),
  nth_error m i = Some (k, v) -> Map_has String.eqb m k = true.
Proof.
  unfold Map_has. induction m as [|[k0 v0] m IH]; intros [|i] k v H; try discriminate.
  - inversion H; subst. cbn. rewrite String.eqb_refl. reflexivity.
  - simpl in H. cbn. rewrite (IH i k v H). apply orb_true_r.
Qed.

(** With fuel for the turns left and as many fresh, distinct draws, the loop
    returns. *)
Lemma resubscribe_total (fuel : nat) :
  forall (i : nat) (draws : list Z) (s : ElectrumWS),
    connected s = true ->
    NoDup draws ->
    Forall (fun id => Map_has Z.eqb (requests s) id = false) draws ->
    (turns_left (skipn i (map fst (subscriptions s))) < fuel)%nat ->
    (turns_left (skipn i (map fst (subscriptions s))) <= length draws)%nat ->
    exists s' rest, resubscribe fuel i draws s = Some (s', rest).
Proof.
  induction fuel as [|fuel IH]; intros i draws s Hc Hnd Hfresh Hfuel Hdraws; [inversion Hfuel|].
  cbn [resubscribe].
  destruct (nth_error (subscriptions s) i) as [[key callback]|] eqn:Hnth;
    [|exists s, draws; reflexivity].
  assert (Hkeys : skipn i (map fst (subscriptions s))
                  = key :: skipn (S i) (map fst (subscriptions s))).
  { apply skipn_nth_error. rewrite nth_error_map, Hnth. reflexivity. }
  rewrite Hkeys in Hfuel, Hdraws.
  change (key :: ?l) with ([key] ++ l) in Hfuel, Hdraws.
  rewrite turns_left_app in Hfuel, Hdraws.
  assert (Hw : (1 <= turns_left [key])%nat).
  { unfold turns_left, weight. cbn. destruct (stable_key key); lia. }
  unfold resubscribe_entry.
  destruct (replay_call key) as [[method params]|] eqn:Hcall.
  - destruct draws as [|id draws]; [simpl in Hdraws; lia|].
    inversion Hnd as [|? ? Hnotin Hnd']; subst.
    inversion Hfresh as [|? ? Hid Hfresh']; subst.
    destruct (subscribe_connected true method callback params id draws s Hc Hid)
      as [s1 [Hsub [Hsubs1 [Hreq1 [_ Hc1]]]]].
    rewrite Hsub.
    apply IH.
    + exact Hc1.
    + exact Hnd'.
    + rewrite Hreq1. rewrite Forall_forall in *. intros id' Hin.
      rewrite Map_has_set, (Hfresh' id' Hin). simpl.
      apply Z.eqb_neq. intros ->. contradiction.
    + rewrite Hsubs1, Map_set_key_list.
      destruct (stable_key key) eqn:Hst.
      * assert (Hsame : subscriptionKey method params = key).
        { destruct (stable_key_replay key Hst) as [m' [ps' [_ [Hcall' Hsame]]]].
          rewrite Hcall in Hcall'. inversion Hcall' as [[Hm Hps]]. exact Hsame. }
        rewrite Hsame, (nth_error_Map_has _ _ _ _ Hnth). lia.
      * assert (Hw2 : turns_left [key] = 2%nat).
        { unfold turns_left, weight. cbn. rewrite Hst. reflexivity. }
        destruct (Map_has String.eqb (subscriptions s) (subscriptionKey method params)); [lia|].
        rewrite skipn_app, turns_left_app.
        assert (Hlen : (S i - length (map fst (subscriptions s)) = 0)%nat).
        { apply Nat.sub_0_le. rewrite length_map.
          apply Nat.le_succ_l. apply nth_error_Some. rewrite Hnth. discriminate. }
        rewrite Hlen.
        change (skipn 0 [subscriptionKey method params]) with [subscriptionKey method params].
        assert (Hnew : turns_left [subscriptionKey method params] = 1%nat).
        { unfold turns_left, weight. cbn.
          rewrite (replayed_key_stable _ _ _ Hcall). reflexivity. }
        lia.
    + rewrite Hsubs1, Map_set_key_list. cbn [length] in Hdraws.
      destruct (stable_key key) eqn:Hst.
      * assert (Hsame : subscriptionKey method params = key).
        { destruct (stable_key_replay key Hst) as [m' [ps' [_ [Hcall' Hsame]]]].
          rewrite Hcall in Hcall'. inversion Hcall' as [[Hm Hps]]. exact Hsame. }
        rewrite Hsame, (nth_error_Map_has _ _ _ _ Hnth). lia.
      * assert (Hw2 : turns_left [key] = 2%nat).
        { unfold turns_left, weight. cbn. rewrite Hst. reflexivity. }
        destruct (Map_has String.eqb (subscriptions s) (subscriptionKey method params)); [lia|].
        rewrite skipn_app, turns_left_app.
        assert (Hlen : (S i - length (map fst (subscriptions s)) = 0)%nat).
        { apply Nat.sub_0_le. rewrite length_map.
          apply Nat.le_succ_l. apply nth_error_Some. rewrite Hnth. discriminate. }
        rewrite Hlen.
        change (skipn 0 [subscriptionKey method params]) with [subscriptionKey method params].
        assert (Hnew : turns_left [subscriptionKey method params] = 1%nat).
        { unfold turns_left, weight. cbn.
          rewrite (replayed_key_stable _ _ _ Hcall). reflexivity. }
        lia.
  - apply IH; try assumption; lia.
Qed.

(** The fuel given to the loop is enough: on a connected session, with two
    fresh and distinct draws per registered entry, the loop returns. *)
Lemma resubscribe_enough_fuel (s : ElectrumWS) (draws : list Z) :
  connected s = true ->
  NoDup draws ->
  Forall (fun id => Map_has Z.eqb (requests s) id = false) draws ->
  (2 * length (subscriptions s) <= length draws)%nat ->
  exists s' rest, resubscribe (resubscribe_fuel s) 0 draws s = Some (s', rest).
Proof.
  intros Hc Hnd Hfresh Hlen.
  pose proof (turns_left_bound (map fst (subscriptions s))) as Hb. rewrite length_map in Hb.
  apply resubscribe_total; try assumption; cbn [skipn]; unfold resubscribe_fuel; lia.
Qed.

(** So the timer of [onOpen] always runs to its end. *)
Lemma onConnectedTimeout_total (s : ElectrumWS) (draws : list Z) :
  NoDup draws ->
  Forall (fun id => Map_has Z.eqb (requests s) id = false) draws ->
  (2 * length (subscriptions s) <= length draws)%nat ->
  exists s', onConnectedTimeout draws s = Some s' /\ connected s' = true.
Proof.
  intros Hnd Hfresh Hlen. unfold onConnectedTimeout.
  set (s0 := fire CONNECTED None (set_connected true s)).
  destruct (fire_frame CONNECTED None (set_connected true s)) as [Hr [_ [Hs [Hc _]]]].
  fold s0 in Hr, Hs, Hc. cbn in Hr, Hs, Hc.
  destruct (resubscribe_enough_fuel s0 draws) as [s' [rest Hrun]].
  - exact Hc.
  - exact Hnd.
  - rewrite Hr. exact Hfresh.
  - rewrite Hs. exact Hlen.
  - exists s'. rewrite Hrun. split; [reflexivity|].
    clear - Hrun Hc. revert Hrun. generalize (resubscribe_fuel s0) 0%nat draws.
    revert Hc. generalize s0. clear s0.
    intros s0 Hc fuel. revert s0 Hc.
    induction fuel as [|fuel IH]; intros s0 Hc i d H; [discriminate|].
    cbn [resubscribe] in H.
    destruct (nth_error (subscriptions s0) i) as [[key cb]|]; [|inversion H; subst; exact Hc].
    unfold resubscribe_entry in H.
    destruct (replay_call key) as [[m ps]|]; [|exact (IH _ Hc _ _ H)].
    destruct (subscribe true m cb ps d s0) as [[s1 d1]|] eqn:E; [|discriminate].
    apply (IH s1) in H; [exact H|].
    unfold subscribe in E. cbn [connected set_subscriptions] in E. rewrite Hc in E. cbn [negb] in E.
    unfold request in E. cbn [requests set_subscriptions connected] in E.
    destruct (random_id _ d) as [[id d']|]; [|discriminate].
    rewrite Hc in E. cbn in E. inversion E; subst. exact Hc.
Qed.


(* ===================================================================== *)
(** * Timers and promises of the reachable states *)
(* ===================================================================== *)

Lemma Nat_eqb_spec (a b : nat) : Nat.eqb a b = true <-> a = b.
Proof. apply Nat.eqb_eq. Qed.

Lemma timers_delete_In (tm : list (TimerId * TimerAction)) (t0 t : TimerId) (a : TimerAction) :
  In (t, a) (Map_delete Nat.eqb tm t0) <-> In (t, a) tm /\ t <> t0.
Proof.
  unfold Map_delete. rewrite filter_In. cbn [fst].
  rewrite negb_true_iff, Nat.eqb_neq. split; intros [H1 H2]; split; auto.
Qed.

Lemma Map_get_In {V : Type} (m : list (Z * V)) (k : Z) (v : V) :
  Map_get Z.eqb m k = Some v -> In (k, v) m.
Proof.
  induction m as [|[k0 v0] m IH]; simpl; [discriminate|].
  destruct (k =? k0) eqn:E.
  - apply Z.eqb_eq in E. intros H. inversion H; subst. left. reflexivity.
  - intros H. right. exact (IH H).
Qed.

Lemma timers_get_In (tm : list (TimerId * TimerAction)) (t : TimerId) (a : TimerAction) :
  Map_get Nat.eqb tm t = Some a -> In (t, a) tm.
Proof.
  induction tm as [|[t0 a0] tm IH]; simpl; [discriminate|].
  destruct (Nat.eqb t t0) eqn:E.
  - apply Nat.eqb_eq in E. intros H. inversion H; subst. left. reflexivity.
  - intros H. right. exact (IH H).
Qed.

Lemma NoDup_keys_unique {K V : Type} (m : list (K * V)) (k : K) (v v' : V) :
  NoDup (map fst m) -> In (k, v) m -> In (k, v') m -> v = v'.
Proof.
  induction m as [|[k0 v0] m IH]; intros Hnd H1 H2; [destruct H1|].
  inversion Hnd as [|? ? Hnotin Hnd']; subst.
  destruct H1 as [H1 | H1], H2 as [H2 | H2].
  - congruence.
  - inversion H1; subst. exfalso. apply Hnotin. apply (in_map fst) in H2. exact H2.
  - inversion H2; subst. exfalso. apply Hnotin. apply (in_map fst) in H1. exact H1.
  - exact (IH Hnd' H1 H2).
Qed.

Lemma requests_set_In (m : list (Z * Request)) (id id' : Z) (r r' : Request) :
  In (id', r') (Map_set Z.eqb m id r) -> (id' = id /\ r' = r) \/ In (id', r') m.
Proof.
  induction m as [|[k0 v0] m IH]; simpl.
  - intros [H | []]. inversion H. left. split; reflexivity.
  - destruct (id =? k0) eqn:E; simpl.
    + intros [H | H]; [inversion H; left; split; reflexivity | right; right; exact H].
    + intros [H | H]; [right; left; exact H|].
      destruct (IH H) as [H' | H']; [left; exact H' | right; right; exact H'].
Qed.

Lemma settled_app (p : PromiseId) (tr : list Output) (o : Output) :
  settled p (tr ++ [o]) = settled p tr || settles p o.
Proof. unfold settled. rewrite existsb_app. simpl. rewrite orb_false_r. reflexivity. Qed.

(** [sound] speaks of the core only. *)
Lemma sound_core (s s' : ElectrumWS) : core s' = core s -> sound s -> sound s'.
Proof.
  unfold core. intros H [H1 H2 H3 H4 H5 H6 H7 H8]. inversion H as [[Ht Hr Htr Hnt Hnp Hct Hrt]].
  constructor; rewrite ?Ht, ?Hr, ?Htr, ?Hnt, ?Hnp, ?Hct, ?Hrt; assumption.
Qed.

Lemma sound_emit (o : Output) (s : ElectrumWS) : quiet o -> sound s -> sound (emit o s).
Proof.
  intros Hq [H1 H2 H3 H4 H5 H6 H7 H8].
  constructor; cbn [emit timers requests trace next_timer next_promise connectedTimeout
                    reconnectionTimeout set_trace]; try assumption.
  - intros t id m p Hin. rewrite settled_app, (Hq p), orb_false_r. exact (H3 t id m p Hin).
  - intros p. rewrite settled_app, (Hq p), orb_false_r. exact (H6 p).
Qed.

Ltac core_simpl :=
  cbn [timers requests trace next_timer next_promise connectedTimeout reconnectionTimeout
       emit set_trace set_requests set_timers set_next_timer set_next_promise
       set_connectedTimeout set_reconnectionTimeout].

Lemma sound_create (id : Z) (method : string) (s : ElectrumWS) :
  sound s -> sound (fst (createRequestPromise id method s)).
Proof.
  intros [H1 H2 H3 H4 H5 H6 H7 H8].
  assert (Hnew : forall t a, In (t, a) (timers s ++ [(next_timer s, RequestTimeout id method (next_promise s))]) ->
                   In (t, a) (timers s)
                   \/ (t = next_timer s /\ a = RequestTimeout id method (next_promise s))).
  { intros t a Hin. apply in_app_or in Hin. destruct Hin as [Hin | [Hin | []]];
      [left; exact Hin | inversion Hin; right; split; reflexivity]. }
  assert (Hfresh : settled (next_promise s) (trace s) = false).
  { destruct (settled (next_promise s) (trace s)) eqn:E; [|reflexivity].
    apply H6 in E. lia. }
  constructor; cbn.
  - rewrite map_app. cbn. apply NoDup_app; [exact H1 | |].
    + constructor; [intros [] | constructor].
    + intros t Hin [<- | []]. apply in_map_iff in Hin. destruct Hin as [[t' a] [Ht Hin]].
      cbn in Ht. subst t'. apply H2 in Hin. lia.
  - intros t a Hin. destruct (Hnew t a Hin) as [Ho | [-> _]]; [apply H2 in Ho|]; lia.
  - intros t id' m p Hin. destruct (Hnew _ _ Hin) as [Ho | [_ Ha]].
    + destruct (H3 _ _ _ _ Ho) as [Hs Hp]. split; [exact Hs | lia].
    + inversion Ha; subst. split; [exact Hfresh | lia].
  - intros t1 t2 id1 id2 m1 m2 p Hin1 Hin2.
    destruct (Hnew _ _ Hin1) as [Ho1 | [Ht1 Ha1]], (Hnew _ _ Hin2) as [Ho2 | [Ht2 Ha2]].
    + exact (H4 _ _ _ _ _ _ _ Ho1 Ho2).
    + inversion Ha2; subst. apply H3 in Ho1. lia.
    + inversion Ha1; subst. apply H3 in Ho2. lia.
    + congruence.
  - intros id' r' Hin. apply requests_set_In in Hin. apply in_or_app.
    destruct Hin as [[-> ->] | Hin]; [right; left; reflexivity | left; exact (H5 _ _ Hin)].
  - intros p Hp. apply H6 in Hp. lia.
  - intros t Ht. destruct (H7 t Ht) as [Hlt Ha]. split; [lia|].
    intros a Hin. destruct (Hnew _ _ Hin) as [Ho | [-> _]]; [exact (Ha a Ho) | lia].
  - intros t Ht. destruct (H8 t Ht) as [Hlt Ha]. split; [lia|].
    intros a Hin. destruct (Hnew _ _ Hin) as [Ho | [-> _]]; [exact (Ha a Ho) | lia].
Qed.

(** A request leaves: its timer is dropped, the entry under its id deleted,
    and its promise settled by [o]. *)
Lemma sound_leave (t0 : TimerId) (id : Z) (m : string) (p : PromiseId) (o : Outcome)
    (s : ElectrumWS) :
  In (t0, RequestTimeout id m p) (timers s) ->
  sound s ->
  sound (settle p o (set_requests (Map_delete Z.eqb (requests s) id)
                       (set_timers (Map_delete Nat.eqb (timers s) t0) s))).
Proof.
  intros Hin0 [H1 H2 H3 H4 H5 H6 H7 H8].
  set (x := set_requests _ _).
  set (out := match o with Resolved v => Resolve p v | Rejected e => Reject p e end).
  assert (Hout : forall p', settles p' out = Nat.eqb p' p).
  { intros p'. subst out. destruct o; reflexivity. }
  apply (sound_core (emit out x)).
  { unfold core. rewrite settle_trace.
    destruct (settle_frame p o x) as [-> [-> _]].
    assert (Hs : next_timer (settle p o x) = next_timer x
                 /\ next_promise (settle p o x) = next_promise x
                 /\ connectedTimeout (settle p o x) = connectedTimeout x
                 /\ reconnectionTimeout (settle p o x) = reconnectionTimeout x).
    { unfold settle. destruct (Map_get _ _ _); [destruct (negb _)|]; repeat split. }
    destruct Hs as [-> [-> [-> ->]]]. reflexivity. }
  constructor; subst x; core_simpl.
  - apply Map_delete_NoDup. exact H1.
  - intros t a Hin. apply timers_delete_In in Hin. exact (H2 _ _ (proj1 Hin)).
  - intros t id' m' p' Hin. apply timers_delete_In in Hin. destruct Hin as [Hin Hne].
    destruct (H3 _ _ _ _ Hin) as [Hs Hp]. split; [|exact Hp].
    rewrite settled_app, Hs, Hout. cbn. apply Nat.eqb_neq. intros ->.
    apply Hne. exact (H4 _ _ _ _ _ _ _ Hin Hin0).
  - intros t1 t2 id1 id2 m1 m2 p' Hin1 Hin2.
    apply timers_delete_In in Hin1, Hin2.
    exact (H4 _ _ _ _ _ _ _ (proj1 Hin1) (proj1 Hin2)).
  - intros id' r' Hin. apply Map_delete_In in Hin. destruct Hin as [Hin Hne]. cbn in Hne.
    apply timers_delete_In. split; [exact (H5 _ _ Hin)|].
    intros Heq. pose proof (H5 _ _ Hin) as Ht. rewrite Heq in Ht.
    pose proof (NoDup_keys_unique _ _ _ _ H1 Ht Hin0) as Hsame. inversion Hsame. contradiction.
  - intros p' Hp. rewrite settled_app, Hout in Hp. apply orb_true_iff in Hp.
    destruct Hp as [Hp | Hp]; [exact (H6 _ Hp)|].
    apply Nat.eqb_eq in Hp. subst p'. exact (proj2 (H3 _ _ _ _ Hin0)).
  - intros t Ht. destruct (H7 t Ht) as [Hlt Ha]. split; [exact Hlt|].
    intros a Hin. apply timers_delete_In in Hin. exact (Ha a (proj1 Hin)).
  - intros t Ht. destruct (H8 t Ht) as [Hlt Ha]. split; [exact Hlt|].
    intros a Hin. apply timers_delete_In in Hin. exact (Ha a (proj1 Hin)).
Qed.

(** A handle that is not the one of a request timer is cleared. *)
Lemma sound_clear (t0 : TimerId) (s : ElectrumWS) :
  (forall a, In (t0, a) (timers s) -> request_action a = false) ->
  sound s -> sound (set_timers (Map_delete Nat.eqb (timers s) t0) s).
Proof.
  intros Hno [H1 H2 H3 H4 H5 H6 H7 H8]. constructor; core_simpl.
  - apply Map_delete_NoDup. exact H1.
  - intros t a Hin. apply timers_delete_In in Hin. exact (H2 _ _ (proj1 Hin)).
  - intros t id m p Hin. apply timers_delete_In in Hin. exact (H3 _ _ _ _ (proj1 Hin)).
  - intros t1 t2 id1 id2 m1 m2 p Hin1 Hin2. apply timers_delete_In in Hin1, Hin2.
    exact (H4 _ _ _ _ _ _ _ (proj1 Hin1) (proj1 Hin2)).
  - intros id r Hin. apply timers_delete_In. split; [exact (H5 _ _ Hin)|].
    intros Heq. pose proof (H5 _ _ Hin) as Ht. rewrite Heq in Ht.
    apply Hno in Ht. discriminate.
  - exact H6.
  - intros t Ht. destruct (H7 t Ht) as [Hlt Ha]. split; [exact Hlt|].
    intros a Hin. apply timers_delete_In in Hin. exact (Ha a (proj1 Hin)).
  - intros t Ht. destruct (H8 t Ht) as [Hlt Ha]. split; [exact Hlt|].
    intros a Hin. apply timers_delete_In in Hin. exact (Ha a (proj1 Hin)).
Qed.

Lemma sound_clearTimeout_connected (s : ElectrumWS) :
  sound s -> sound (clearTimeout (connectedTimeout s) s).
Proof.
  intros H. unfold clearTimeout. destruct (connectedTimeout s) as [t|] eqn:E; [|exact H].
  apply sound_clear; [|exact H].
  intros a Hin. rewrite (proj2 (connected_handle s H t E) a Hin). reflexivity.
Qed.

Lemma sound_clearTimeout_reconnection (s : ElectrumWS) :
  sound s -> sound (clearTimeout (reconnectionTimeout s) s).
Proof.
  intros H. unfold clearTimeout. destruct (reconnectionTimeout s) as [t|] eqn:E; [|exact H].
  apply sound_clear; [|exact H].
  intros a Hin. rewrite (proj2 (reconnection_handle s H t E) a Hin). reflexivity.
Qed.

(** A timer that is not a request timer is set. *)
Lemma sound_setTimeout (a : TimerAction) (s : ElectrumWS) :
  request_action a = false -> sound s ->
  sound (fst (setTimeout a s))
  /\ (forall a', In (next_timer s, a') (timers (fst (setTimeout a s))) -> a' = a).
Proof.
  intros Ha [H1 H2 H3 H4 H5 H6 H7 H8].
  assert (Hnew : forall t a', In (t, a') (timers s ++ [(next_timer s, a)]) ->
                   In (t, a') (timers s) \/ (t = next_timer s /\ a' = a)).
  { intros t a' Hin. apply in_app_or in Hin. destruct Hin as [Hin | [Hin | []]];
      [left; exact Hin | inversion Hin; right; split; reflexivity]. }
  split.
  - constructor; cbn.
    + rewrite map_app. cbn. apply NoDup_app; [exact H1 | |].
      * constructor; [intros [] | constructor].
      * intros t Hin [<- | []]. apply in_map_iff in Hin. destruct Hin as [[t' a'] [Ht Hin]].
        cbn in Ht. subst t'. apply H2 in Hin. lia.
    + intros t a' Hin. destruct (Hnew t a' Hin) as [Ho | [-> _]]; [apply H2 in Ho|]; lia.
    + intros t id m p Hin. destruct (Hnew _ _ Hin) as [Ho | [_ He]].
      * exact (H3 _ _ _ _ Ho).
      * rewrite <- He in Ha. discriminate.
    + intros t1 t2 id1 id2 m1 m2 p Hin1 Hin2.
      destruct (Hnew _ _ Hin1) as [Ho1 | [_ He1]]; [|rewrite <- He1 in Ha; discriminate].
      destruct (Hnew _ _ Hin2) as [Ho2 | [_ He2]]; [|rewrite <- He2 in Ha; discriminate].
      exact (H4 _ _ _ _ _ _ _ Ho1 Ho2).
    + intros id r Hin. apply in_or_app. left. exact (H5 _ _ Hin).
    + exact H6.
    + intros t Ht. destruct (H7 t Ht) as [Hlt Hact]. split; [lia|].
      intros a' Hin. destruct (Hnew _ _ Hin) as [Ho | [-> _]]; [exact (Hact a' Ho) | lia].
    + intros t Ht. destruct (H8 t Ht) as [Hlt Hact]. split; [lia|].
      intros a' Hin. destruct (Hnew _ _ Hin) as [Ho | [-> _]]; [exact (Hact a' Ho) | lia].
  - cbn. intros a' Hin. destruct (Hnew _ _ Hin) as [Ho | [_ He]]; [|exact He].
    apply H2 in Ho. lia.
Qed.

Lemma quiet_Fire (e : string) (pl : option json) : quiet (Fire e pl).
Proof. intros p. reflexivity. Qed.

Lemma sound_fire (event : string) (payload : option json) (s : ElectrumWS) :
  sound s -> sound (fire event payload s).
Proof.
  intros H. apply (sound_core (emit (Fire event payload) s)).
  - unfold fire. destruct (Observable.fire _ event). reflexivity.
  - apply sound_emit; [apply quiet_Fire | exact H].
Qed.

Lemma sound_ws_close (c : Z) (reason : string) (s : ElectrumWS) :
  sound s -> sound (ws_close c reason s).
Proof.
  intros H. unfold ws_close. apply sound_emit; [intros p; reflexivity|].
  destruct (ws_open_or_connecting s); [|exact H].
  apply (sound_core s); [reflexivity | exact H].
Qed.

Lemma sound_request_send (id : Z) (method : string) (params : list json) (s : ElectrumWS) :
  sound s -> sound (fst (request_send id method params s)).
Proof.
  intros H. unfold request_send.
  destruct (createRequestPromise id method s) as [s1 p] eqn:E. cbn [fst].
  apply sound_emit; [intros p'; reflexivity|].
  change s1 with (fst (s1, p)). rewrite <- E. apply sound_create. exact H.
Qed.

Lemma sound_request (method : string) (params : list json) (draws : list Z)
    (s s' : ElectrumWS) (p : option PromiseId) (rest : list Z) :
  request method params draws s = Some (s', p, rest) -> sound s -> sound s'.
Proof.
  unfold request. destruct (random_id (requests s) draws) as [[id d]|]; [|discriminate].
  destruct (negb (connected s)); intros H Hs.
  - inversion H; subst. apply (sound_core s); [reflexivity | exact Hs].
  - pose proof (sound_request_send id method params s Hs) as H1.
    destruct (request_send id method params s). inversion H; subst. exact H1.
Qed.

Lemma sound_create_all (pls : list Payload) : forall (s : ElectrumWS) (acc : list PromiseId),
  sound s ->
  sound (fst (fold_left
                (fun '(s, ps) pl =>
                   let '(s, p) := createRequestPromise (pl_id pl) (pl_method pl) s in
                   (s, ps ++ [p])) pls (s, acc))).
Proof.
  induction pls as [|pl pls IH]; intros s acc H; [exact H|].
  cbn [fold_left].
  destruct (createRequestPromise (pl_id pl) (pl_method pl) s) as [s1 p] eqn:E.
  apply IH. change s1 with (fst (s1, p)). rewrite <- E. apply sound_create. exact H.
Qed.

Lemma sound_send_all (pls : list Payload) : forall s : ElectrumWS,
  sound s -> sound (send_all pls s).
Proof.
  unfold send_all. induction pls as [|pl pls IH]; intros s H; [exact H|].
  cbn [fold_left]. apply IH. apply sound_emit; [intros p; reflexivity | exact H].
Qed.

Lemma sound_batch_send (reqs : list (string * list json)) (draws : list Z)
    (s s' : ElectrumWS) (ps : list PromiseId) :
  batch_send reqs draws s = Some (s', ps) -> sound s -> sound s'.
Proof.
  unfold batch_send. destruct (random_id (requests s) draws) as [[id d]|]; [|discriminate].
  destruct (create_all (batch_payloads id reqs) s) as [s1 ps1] eqn:E.
  intros H Hs. inversion H; subst. apply sound_send_all.
  pose proof (sound_create_all (batch_payloads id reqs) s [] Hs) as H1.
  unfold create_all in E. rewrite E in H1. exact H1.
Qed.

Lemma sound_subscribe (replay : bool) (method : string) (callback : Callback)
    (params : list json) (draws rest : list Z) (s s' : ElectrumWS) :
  subscribe replay method callback params draws s = Some (s', rest) -> sound s -> sound s'.
Proof.
  unfold subscribe. intros H Hs.
  set (s1 := set_subscriptions _ s) in H.
  assert (H1 : sound s1) by (apply (sound_core s); [reflexivity | exact Hs]).
  destruct (negb (connected s1)); [inversion H; subst; exact H1|].
  destruct (request (method ++ ".subscribe")%string params draws s1)
    as [[[s2 [p|]] d]|] eqn:E; [| |discriminate];
    inversion H; subst; apply (sound_request _ _ _ _ _ _ _ E) in H1.
  - apply (sound_core s2); [reflexivity | exact H1].
  - exact H1.
Qed.

Lemma sound_unsubscribe (method : string) (params : list json) (draws rest : list Z)
    (s s' : ElectrumWS) (p : option PromiseId) :
  unsubscribe method params draws s = Some (s', p, rest) -> sound s -> sound s'.
Proof.
  unfold unsubscribe. intros H Hs.
  set (s1 := set_subscriptions _ s) in H.
  assert (H1 : sound s1) by (apply (sound_core s); [reflexivity | exact Hs]).
  destruct (Map_has String.eqb (subscriptions s) (subscriptionKey method params)).
  - exact (sound_request _ _ _ _ _ _ _ H H1).
  - inversion H; subst. exact H1.
Qed.

Lemma sound_resubscribe (fuel : nat) :
  forall (i : nat) (draws rest : list Z) (s s' : ElectrumWS),
    resubscribe fuel i draws s = Some (s', rest) -> sound s -> sound s'.
Proof.
  induction fuel as [|fuel IH]; intros i draws rest s s' H Hs; [discriminate|].
  cbn [resubscribe] in H.
  destruct (nth_error (subscriptions s) i) as [[key callback]|]; [|inversion H; subst; exact Hs].
  unfold resubscribe_entry in H.
  destruct (replay_call key) as [[method params]|].
  - destruct (subscribe true method callback params draws s) as [[s1 d1]|] eqn:E; [|discriminate].
    apply (IH _ _ _ _ _ H). exact (sound_subscribe _ _ _ _ _ _ _ _ E Hs).
  - exact (IH _ _ _ _ _ H Hs).
Qed.

Lemma sound_onConnectedTimeout (draws : list Z) (s s' : ElectrumWS) :
  onConnectedTimeout draws s = Some s' -> sound s -> sound s'.
Proof.
  unfold onConnectedTimeout. intros H Hs.
  set (s0 := fire CONNECTED None (set_connected true s)) in H.
  destruct (resubscribe (resubscribe_fuel s0) 0 draws s0) as [[s1 d]|] eqn:E; [|discriminate].
  inversion H; subst. apply (sound_resubscribe _ _ _ _ _ _ E).
  apply sound_fire. apply (sound_core s); [reflexivity | exact Hs].
Qed.

Lemma sound_onOpen (s : ElectrumWS) : sound s -> sound (onOpen s).
Proof.
  intros Hs. unfold onOpen.
  pose proof (sound_fire OPEN None s Hs) as H0.
  destruct (sound_setTimeout ConnectedTimeout (fire OPEN None s) eq_refl H0) as [H1 Hact].
  destruct (setTimeout ConnectedTimeout (fire OPEN None s)) as [s1 t] eqn:E.
  assert (Ht : t = next_timer (fire OPEN None s)) by (inversion E; reflexivity).
  cbn [fst] in H1, Hact. destruct H1 as [H1 H2 H3 H4 H5 H6 H7 H8].
  constructor; core_simpl; try assumption.
  intros t' Heq. inversion Heq; subst t'. split.
  - inversion E; subst. cbn. lia.
  - intros a Hin. rewrite Ht in Hin. exact (Hact a Hin).
Qed.

Lemma sound_onClose (h : Heap) (s : ElectrumWS) : sound s -> sound (onClose h s).
Proof.
  intros Hs. unfold onClose.
  set (s0 := fire CLOSE None s).
  assert (H0 : sound s0) by (apply sound_fire; exact Hs).
  set (s1 := if negb (connected s0) then clearTimeout (connectedTimeout s0) s0
             else fire DISCONNECTED None s0).
  assert (H1 : sound s1).
  { subst s1. destruct (negb (connected s0));
      [apply sound_clearTimeout_connected | apply sound_fire]; exact H0. }
  destruct (reconnect (h (options s1)) && connected s1).
  - pose proof (sound_fire RECONNECTING None s1 H1) as H2.
    destruct (sound_setTimeout ReconnectTimeout (fire RECONNECTING None s1) eq_refl H2)
      as [H3 Hact].
    destruct (setTimeout ReconnectTimeout (fire RECONNECTING None s1)) as [s2 t] eqn:E.
    assert (Ht : t = next_timer (fire RECONNECTING None s1)) by (inversion E; reflexivity).
    cbn [fst] in H3, Hact.
    apply (sound_core (set_reconnectionTimeout (Some t) s2)); [reflexivity|].
    destruct H3 as [G1 G2 G3 G4 G5 G6 G7 G8].
    constructor; core_simpl; try assumption.
    intros t' Heq. inversion Heq; subst t'. split.
    + inversion E; subst. cbn. lia.
    + intros a Hin. rewrite Ht in Hin. exact (Hact a Hin).
  - apply (sound_core s1); [reflexivity | exact H1].
Qed.

Lemma sound_dispatch_response (response : json) (s : ElectrumWS) :
  sound s -> sound (dispatch_response response s).
Proof.
  intros Hs. unfold dispatch_response.
  destruct (get "id" response) as [[ | |id| | | ]|]; try exact Hs.
  destruct (Map_get Z.eqb (requests s) id) as [request|] eqn:E; [|exact Hs].
  pose proof (entry_timer_live s Hs id request (Map_get_In _ _ _ E)) as Hin.
  destruct (get "result" response); [|destruct (truthy (get "error" response))];
    exact (sound_leave _ _ _ _ _ s Hin Hs).
Qed.

Lemma sound_dispatch_push (response : json) (s : ElectrumWS) :
  sound s -> sound (fst (dispatch_push response s)).
Proof.
  intros Hs. unfold dispatch_push.
  destruct (get "method" response) as [[ | | |m| | ]|]; try exact Hs.
  destruct (endsWith m "subscribe"); [|exact Hs].
  match goal with |- context [Map_get String.eqb (subscriptions s) ?k] =>
    destruct (Map_get String.eqb (subscriptions s) k) end; [|exact Hs].
  destruct (spread (push_params response)); [|exact Hs].
  apply sound_emit; [intros p; reflexivity | exact Hs].
Qed.

(** The loop of [close], on entries that the table still holds. *)
Lemma sound_close_entries (reason : string) (entries : list (Z * Request)) :
  forall s : ElectrumWS,
    NoDup (map fst entries) ->
    (forall e, In e entries -> In e (requests s)) ->
    sound s -> sound (fold_left (close_entry reason) entries s).
Proof.
  induction entries as [|[id r] entries IH]; intros s Hnd Hin Hs; [exact Hs|].
  cbn [fold_left]. inversion Hnd as [|? ? Hnotin Hnd']; subst.
  apply IH.
  - exact Hnd'.
  - intros e He. unfold close_entry.
    rewrite (proj1 (settle_frame _ _ _)). cbn.
    unfold Map_delete. apply filter_In. split; [apply Hin; right; exact He|].
    apply negb_true_iff, Z.eqb_neq. intros Heq. apply Hnotin.
    rewrite Heq. apply (in_map fst) in He. exact He.
  - unfold close_entry.
    exact (sound_leave _ _ _ _ _ s
             (entry_timer_live s Hs id r (Hin _ (or_introl eq_refl))) Hs).
Qed.

Lemma sound_close (h : Heap) (reason : string) (s : ElectrumWS) :
  distinct_keys s -> sound s -> sound (snd (close h reason s)).
Proof.
  intros [Hd _] Hs. unfold close.
  set (s1 := fold_left (close_entry reason) (requests s) s).
  assert (H1 : sound s1).
  { apply sound_close_entries; [exact Hd | intros e He; exact He | exact Hs]. }
  pose proof (sound_clearTimeout_reconnection s1 H1) as H2.
  destruct (ws_open_or_connecting _); cbn [snd].
  - apply sound_ws_close. apply (sound_core (clearTimeout (reconnectionTimeout s1) s1));
      [reflexivity | exact H2].
  - apply (sound_core (clearTimeout (reconnectionTimeout s1) s1)); [reflexivity | exact H2].
Qed.

Section Bookkeeping.
Variable JSON_parse : string -> option json.

Lemma sound_onMessage_line (line : string) (s s' : ElectrumWS) (threw : bool) :
  onMessage_line JSON_parse line s = Some (s', threw) -> sound s -> sound s'.
Proof.
  unfold onMessage_line. rewrite parseLine_eq. intros H Hs.
  assert (Hset : forall b, sound (set_incompleteMessage b s)).
  { intros b. apply (sound_core s); [reflexivity | exact Hs]. }
  assert (Hmsg : forall response x, sound x ->
            sound (fst (dispatch_push response
                          (dispatch_response response (fire MESSAGE (Some response) x))))).
  { intros response x Hx. apply sound_dispatch_push, sound_dispatch_response, sound_fire.
    exact Hx. }
  destruct (recognized JSON_parse line) as [response|].
  - inversion H as [H2]. specialize (Hmsg response _ (Hset EmptyString)).
    rewrite H2 in Hmsg. exact Hmsg.
  - destruct (_ && _).
    + destruct (recognized JSON_parse _) as [response|].
      * inversion H as [H2]. specialize (Hmsg response _ (Hset EmptyString)).
        rewrite H2 in Hmsg. exact Hmsg.
      * inversion H; subst. apply Hset.
    + inversion H; subst. apply Hset.
Qed.

Lemma sound_onMessage_lines (lines : list string) : forall (s s' : ElectrumWS) (threw : bool),
  onMessage_lines JSON_parse lines s = Some (s', threw) -> sound s -> sound s'.
Proof.
  induction lines as [|line lines IH]; intros s s' threw H Hs; cbn [onMessage_lines] in H.
  - inversion H; subst. exact Hs.
  - destruct (onMessage_line JSON_parse line s) as [[s1 [|]]|] eqn:E; [| |discriminate].
    + inversion H; subst. exact (sound_onMessage_line _ _ _ _ E Hs).
    + exact (IH _ _ _ H (sound_onMessage_line _ _ _ _ E Hs)).
Qed.

Lemma sound_run_job (j : Job) (s s' : ElectrumWS) :
  run_job j s = Some s' -> sound s -> sound s'.
Proof.
  destruct j as [[id method params|reqs draws|]|[callback params replay] [v|e]|];
    cbn [run_job]; intros H Hs.
  - inversion H; subst. exact (sound_request_send id method params s Hs).
  - destruct (batch_send reqs draws s) as [[s1 ps]|] eqn:E; [|discriminate].
    inversion H; subst. exact (sound_batch_send _ _ _ _ _ E Hs).
  - inversion H; subst. apply sound_emit; [intros p; reflexivity | exact Hs].
  - destruct replay; inversion H; subst; (apply sound_emit; [intros p; reflexivity | exact Hs]).
  - destruct replay; inversion H; subst.
    + destruct (ws_open_or_connecting s); [apply sound_ws_close|]; exact Hs.
    + apply sound_emit; [intros p; reflexivity | exact Hs].
  - inversion H; subst. apply sound_emit; [intros p; reflexivity | exact Hs].
Qed.

Lemma sound_run_jobs (js : list Job) : forall s s' : ElectrumWS,
  run_jobs js s = Some s' -> sound s -> sound s'.
Proof.
  induction js as [|j js IH]; intros s s' H Hs; cbn [run_jobs] in H.
  - inversion H; subst. exact Hs.
  - destruct (run_job j s) as [s1|] eqn:E; [|discriminate].
    exact (IH _ _ H (sound_run_job _ _ _ E Hs)).
Qed.

Lemma sound_task (ev : Event) (h h' : Heap) (s s' : ElectrumWS) :
  task JSON_parse ev h s = Some (h', s') -> distinct_keys s -> sound s -> sound s'.
Proof.
  destruct ev as [method params draws|reqs draws|method callback params draws
                  |method params draws|reason| |data|error| |t draws];
    cbn [task]; intros H Hd Hs.
  - destruct (request method params draws s) as [[[s1 p] d]|] eqn:E; [|discriminate].
    inversion H; subst. exact (sound_request _ _ _ _ _ _ _ E Hs).
  - unfold batchRequest in H.
    destruct (negb (connected s)).
    + inversion H; subst. apply (sound_core s); [reflexivity | exact Hs].
    + destruct (batch_send reqs draws s) as [[s1 ps]|] eqn:E; [|discriminate].
      inversion H; subst. exact (sound_batch_send _ _ _ _ _ E Hs).
  - destruct (subscribe false method callback params draws s) as [[s1 d]|] eqn:E; [|discriminate].
    inversion H; subst. exact (sound_subscribe _ _ _ _ _ _ _ _ E Hs).
  - destruct (unsubscribe method params draws s) as [[[s1 p] d]|] eqn:E; [|discriminate].
    inversion H; subst. exact (sound_unsubscribe _ _ _ _ _ _ _ E Hs).
  - inversion H as [H1]. rewrite (surjective_pairing (close h reason s)) in H1.
    inversion H1; subst. apply sound_close; assumption.
  - destruct (ws s); try discriminate. inversion H; subst.
    apply sound_onOpen. apply (sound_core s); [reflexivity | exact Hs].
  - destruct (ws s); try discriminate;
      (destruct (onMessage JSON_parse data s) as [[s1 b]|] eqn:E; [|discriminate];
       inversion H; subst; exact (sound_onMessage_lines _ _ _ _ E Hs)).
  - inversion H; subst. destruct error; [apply sound_fire|]; exact Hs.
  - destruct (ws s); try discriminate; inversion H; subst;
      (apply sound_onClose; apply (sound_core s); [reflexivity | exact Hs]).
  - destruct (Map_get Nat.eqb (timers s) t) as [a|] eqn:Et; [|discriminate].
    pose proof (timers_get_In _ _ _ Et) as Hin.
    assert (Hother : request_action a = false ->
                     sound (set_timers (Map_delete Nat.eqb (timers s) t) s)).
    { intros Ha. apply sound_clear; [|exact Hs]. intros a' Hin'.
      rewrite (NoDup_keys_unique _ _ _ _ (timers_distinct s Hs) Hin' Hin). exact Ha. }
    destruct a as [id method p| |].
    + inversion H; subst. exact (sound_leave _ _ _ _ _ s Hin Hs).
    + destruct (onConnectedTimeout draws _) as [s1|] eqn:E; [|discriminate].
      inversion H; subst. exact (sound_onConnectedTimeout _ _ _ E (Hother eq_refl)).
    + inversion H; subst. unfold connect. apply sound_emit; [intros p; reflexivity|].
      apply (sound_core (set_timers (Map_delete Nat.eqb (timers s) t) s));
        [reflexivity | exact (Hother eq_refl)].
Qed.

(** The bookkeeping holds in every reachable state. *)
Lemma reachable_sound (h : Heap) (s : ElectrumWS) : reachable JSON_parse h s -> sound s.
Proof.
  induction 1 as [h endpoint opts h' s Hc | h s ev h' s' Hr IH Hs | h s o Hr IH].
  - unfold constructor in Hc. cbn in Hc. inversion Hc; subst.
    unfold connect. apply sound_emit; [intros p; reflexivity|].
    constructor; cbn; try (intros; contradiction); try discriminate.
    constructor.
  - pose proof (reachable_invariant JSON_parse h s Hr) as [_ Hd].
    unfold step in Hs. cbn [fst snd] in Hs.
    destruct (task JSON_parse ev h s) as [[h1 s1]|] eqn:Et; [|discriminate].
    destruct (drain s1) as [s2|] eqn:Ed; [|discriminate].
    inversion Hs; subst. unfold drain in Ed.
    apply (sound_run_jobs _ _ _ Ed).
    apply (sound_core s1); [reflexivity|].
    exact (sound_task _ _ _ _ _ Et Hd IH).
  - exact IH.
Qed.

(** In a reachable state, a request whose timer is live has not been
    settled, and neither has any request of the table. *)
Lemma reachable_pending_unsettled (h : Heap) (s : ElectrumWS)
    (t : TimerId) (id : Z) (method : string) (p : PromiseId) :
  reachable JSON_parse h s ->
  Map_get Nat.eqb (timers s) t = Some (RequestTimeout id method p) ->
  settled p (trace s) = false.
Proof.
  intros Hr Ht.
  exact (proj1 (pending_unsettled s (reachable_sound h s Hr) t id method p
                  (timers_get_In _ _ _ Ht))).
Qed.

Lemma reachable_entry_unsettled (h : Heap) (s : ElectrumWS) (id : Z) (r : Request) :
  reachable JSON_parse h s ->
  In (id, r) (requests s) ->
  settled (req_promise r) (trace s) = false
  /\ Map_get Nat.eqb (timers s) (req_timeout r)
     = Some (RequestTimeout id (req_method r) (req_promise r)).
Proof.
  intros Hr Hin. pose proof (reachable_sound h s Hr) as Hs.
  pose proof (entry_timer_live s Hs id r Hin) as Ht.
  split; [exact (proj1 (pending_unsettled s Hs _ _ _ _ Ht))|].
  destruct (Map_get Nat.eqb (timers s) (req_timeout r)) as [a|] eqn:E.
  - apply timers_get_In in E.
    rewrite (NoDup_keys_unique _ _ _ _ (timers_distinct s Hs) E Ht). reflexivity.
  - exfalso. clear - Ht E. induction (timers s) as [|[t0 a0] tm IH]; [destruct Ht|].
    simpl in E. destruct (Nat.eqb (req_timeout r) t0) eqn:E0; [discriminate|].
    destruct Ht as [Ht | Ht]; [|exact (IH Ht E)].
    inversion Ht; subst. rewrite Nat.eqb_refl in E0. discriminate.
Qed.
End Bookkeeping.

(* ===================================================================== *)
(** * The event registry *)
(* ===================================================================== *)

Section RegistryFacts.
Context {C : Type}.
Implicit Types (ls : Observable.Listeners C) (a : list (option (Observable.Func C))).

Lemma listeners_get_set ls (event : string) a :
  Map_get String.eqb (Map_set String.eqb ls event a) event = Some a.
Proof.
  induction ls as [|[e0 a0] ls IH]; simpl.
  - rewrite String.eqb_refl. reflexivity.
  - destruct (String.eqb event e0) eqn:E; simpl.
    + rewrite String.eqb_refl. reflexivity.
    + rewrite E. exact IH.
Qed.

Lemma listeners_get_set_other ls (event other : string) a :
  other <> event ->
  Map_get String.eqb (Map_set String.eqb ls event a) other = Map_get String.eqb ls other.
Proof.
  intros Hne. induction ls as [|[e0 a0] ls IH]; simpl.
  - destruct (String.eqb other event) eqn:E; [|reflexivity].
    apply String.eqb_eq in E. contradiction.
  - destruct (String.eqb event e0) eqn:E; simpl.
    + apply String.eqb_eq in E. subst e0.
      destruct (String.eqb other event) eqn:E'; [|reflexivity].
      apply String.eqb_eq in E'. contradiction.
    + destruct (String.eqb other e0); [reflexivity | exact IH].
Qed.

Lemma set_nth_middle {A : Type} (pre : list A) (x y : A) (post : list A) :
  Observable.set_nth (pre ++ x :: post) (length pre) y = pre ++ y :: post.
Proof. induction pre as [|z pre IH]; simpl; [reflexivity | rewrite IH; reflexivity]. Qed.

Lemma set_nth_length {A : Type} (l : list A) : forall (i : nat) (x : A),
  length (Observable.set_nth l i x) = length l.
Proof.
  induction l as [|y l IH]; intros [|i] x; simpl; try reflexivity. rewrite IH. reflexivity.
Qed.

Lemma set_nth_other {A : Type} (l : list A) : forall (i j : nat) (x : A),
  j <> i -> nth_error (Observable.set_nth l i x) j = nth_error l j.
Proof.
  induction l as [|y l IH]; intros [|i] [|j] x H; simpl; try reflexivity.
  - contradiction.
  - apply IH. intros ->. apply H. reflexivity.
Qed.

Lemma set_nth_same {A : Type} (l : list A) : forall (i : nat) (x : A),
  (i < length l)%nat -> nth_error (Observable.set_nth l i x) i = Some x.
Proof.
  induction l as [|y l IH]; intros [|i] x H; simpl in *; try lia; [reflexivity|].
  apply IH. lia.
Qed.

(** What the loop of [fire] does on the rest [rest] of the array of [event],
    when the functions before it, [done], have been called already. *)
Lemma fire_loop_spec (event : string) (rest : list (option (Observable.Func C))) :
  forall ls (done : list (option (Observable.Func C))),
    Map_get String.eqb ls event = Some (map fired done ++ rest) ->
    wrappers_from event (length done) rest ->
    fst (Observable.fire_loop ls rest)
      = Map_set String.eqb ls event (map fired (done ++ rest))
    /\ snd (Observable.fire_loop ls rest) = flat_map live rest.
Proof.
  induction rest as [|f rest IH]; intros ls done Hget Hw.
  - cbn [Observable.fire_loop fst snd flat_map]. split; [|reflexivity].
    rewrite app_nil_r in *. clear Hw.
    revert Hget. generalize (map fired done). intros a.
    induction ls as [|[e0 a0] ls IHls]; simpl; [discriminate|].
    destruct (String.eqb event e0) eqn:E.
    + apply String.eqb_eq in E. subst e0. intros H. inversion H. reflexivity.
    + intros H. rewrite <- (IHls H). reflexivity.
  - assert (Hw' : wrappers_from event (length (done ++ [f])) rest).
    { intros i g Hi. rewrite length_app, Nat.add_1_r.
      replace (S (length done) + i)%nat with (length done + S i)%nat by lia.
      apply Hw. exact Hi. }
    assert (Hshift : (map fired done ++ f :: rest) = (map fired done ++ [f]) ++ rest).
    { rewrite <- app_assoc. reflexivity. }
    destruct f as [[c|e id c]|]; cbn [Observable.fire_loop].
    + specialize (IH ls (done ++ [Some (Observable.Plain c)])).
      rewrite map_app, <- app_assoc in IH. cbn [map fired app] in IH.
      specialize (IH Hget Hw'). destruct IH as [IH1 IH2].
      destruct (Observable.fire_loop ls rest) as [ls' cs]. cbn [fst snd] in *.
      rewrite <- app_assoc in IH1.
      split; [exact IH1|]. cbn [flat_map live app]. rewrite IH2. reflexivity.
    + pose proof (Hw 0%nat _ eq_refl) as [He Hid]. rewrite Nat.add_0_r in Hid. subst e id.
      assert (Hoff : Observable.off ls event (length done)
                     = Map_set String.eqb ls event (map fired done ++ None :: rest)).
      { unfold Observable.off. rewrite Hget.
        rewrite length_app, length_map. cbn [length].
        destruct (length done + S (length rest) <? length done + 1)%nat eqn:E.
        - apply Nat.ltb_lt in E. lia.
        - rewrite <- (length_map fired done) at 2. rewrite set_nth_middle. reflexivity. }
      rewrite Hoff.
      specialize (IH (Map_set String.eqb ls event (map fired done ++ None :: rest))
                     (done ++ [Some (Observable.OnceWrapper event (length done) c)])).
      rewrite map_app, <- app_assoc in IH. cbn [map fired app] in IH.
      specialize (IH (listeners_get_set _ _ _) Hw'). destruct IH as [IH1 IH2].
      destruct (Observable.fire_loop _ rest) as [ls' cs]. cbn [fst snd] in *.
      split.
      * rewrite IH1. rewrite <- app_assoc. cbn [app]. clear.
        generalize (map fired done ++ None :: rest).
        generalize (map fired (done ++ Some (Observable.OnceWrapper event (length done) c)
                               :: rest)).
        intros a b. induction ls as [|[e0 a0] ls IHls]; simpl.
        -- rewrite String.eqb_refl. reflexivity.
        -- destruct (String.eqb event e0) eqn:E; simpl.
           ++ rewrite String.eqb_refl. reflexivity.
           ++ rewrite E, IHls. reflexivity.
      * cbn [flat_map live app]. rewrite IH2. reflexivity.
    + specialize (IH ls (done ++ [None])).
      rewrite map_app, <- app_assoc in IH. cbn [map fired app] in IH.
      specialize (IH Hget Hw'). destruct IH as [IH1 IH2].
      rewrite <- app_assoc in IH1.
      split; [exact IH1|]. cbn [flat_map live app]. exact IH2.
Qed.

(** [fire] on a registry whose wrappers are those of [once]: every live
    function of the event is called, in the order of registration, and the
    once-wrappers are gone afterwards. *)
Lemma fire_spec ls (event : string) :
  registry_ok ls ->
  snd (Observable.fire ls event) = flat_map live (Observable.callbacks_of ls event)
  /\ Observable.callbacks_of (fst (Observable.fire ls event)) event
     = map fired (Observable.callbacks_of ls event)
  /\ forall other, other <> event ->
       Map_get String.eqb (fst (Observable.fire ls event)) other
       = Map_get String.eqb ls other.
Proof.
  intros Hok. unfold Observable.fire, Observable.callbacks_of.
  destruct (Map_get String.eqb ls event) as [a|] eqn:E.
  - destruct (fire_loop_spec event a ls [] E (Hok event a E)) as [H1 H2].
    rewrite H1, H2. cbn [app]. rewrite listeners_get_set.
    split; [reflexivity|]. split; [reflexivity|].
    intros other Hne. apply listeners_get_set_other. exact Hne.
  - cbn. rewrite E. repeat split.
Qed.

Lemma wrappers_fromb_ok (event : string) a : forall from : nat,
  wrappers_fromb event from a = true -> wrappers_from event from a.
Proof.
  induction a as [|f a IH]; intros from H i g Hi.
  - destruct i; discriminate.
  - destruct i as [|i].
    + simpl in Hi. inversion Hi; subst g. rewrite Nat.add_0_r.
      destruct f as [[c|e id c]|]; simpl; try exact I.
      simpl in H. apply andb_true_iff in H. destruct H as [H _].
      apply andb_true_iff in H. destruct H as [He Hid].
      apply String.eqb_eq in He. apply Nat.eqb_eq in Hid. split; assumption.
    + simpl in Hi. replace (from + S i)%nat with (S from + i)%nat by lia.
      apply (IH (S from)); [|exact Hi].
      destruct f as [[c|e id c]|]; simpl in H; try exact H.
      apply andb_true_iff in H. destruct H as [_ H]. exact H.
Qed.

Lemma registry_okb_ok ls : registry_okb ls = true -> registry_ok ls.
Proof.
  unfold registry_okb, registry_ok. induction ls as [|[e0 a0] ls IH]; intros H event a Hget.
  - discriminate.
  - simpl in H. apply andb_true_iff in H. destruct H as [H0 H].
    simpl in Hget. destruct (String.eqb event e0) eqn:E.
    + apply String.eqb_eq in E. subst e0. inversion Hget; subst a0.
      apply wrappers_fromb_ok. exact H0.
    + exact (IH H event a Hget).
Qed.

Lemma listeners_get_delete ls (event : string) :
  Map_get String.eqb (Map_delete String.eqb ls event) event = None.
Proof.
  unfold Map_delete. induction ls as [|[e0 a0] ls IH]; simpl; [reflexivity|].
  destruct (String.eqb event e0) eqn:E; simpl; [exact IH|]. rewrite E. exact IH.
Qed.

Lemma listeners_get_delete_other ls (event other : string) :
  other <> event ->
  Map_get String.eqb (Map_delete String.eqb ls event) other = Map_get String.eqb ls other.
Proof.
  intros Hne. unfold Map_delete. induction ls as [|[e0 a0] ls IH]; simpl; [reflexivity|].
  destruct (String.eqb event e0) eqn:E; simpl.
  - apply String.eqb_eq in E. subst e0.
    destruct (String.eqb other event) eqn:E'; [|exact IH].
    apply String.eqb_eq in E'. contradiction.
  - destruct (String.eqb other e0); [reflexivity | exact IH].
Qed.

Lemma callbacks_of_on ls (event : string) (f : Observable.Func C) :
  Observable.callbacks_of (fst (Observable.on ls event f)) event
  = Observable.callbacks_of ls event ++ [Some f].
Proof.
  unfold Observable.on. cbn [fst]. unfold Observable.callbacks_of at 1.
  rewrite listeners_get_set. reflexivity.
Qed.

Lemma on_other ls (event other : string) (f : Observable.Func C) :
  other <> event ->
  Map_get String.eqb (fst (Observable.on ls event f)) other = Map_get String.eqb ls other.
Proof. intros H. unfold Observable.on. cbn [fst]. apply listeners_get_set_other. exact H. Qed.

Lemma callbacks_of_off ls (event : string) (id : nat) :
  Observable.callbacks_of (Observable.off ls event id) event
  = Observable.set_nth (Observable.callbacks_of ls event) id None.
Proof.
  unfold Observable.off, Observable.callbacks_of.
  destruct (Map_get String.eqb ls event) as [a|] eqn:E.
  - destruct (length a <? id + 1)%nat eqn:El.
    + rewrite E. apply Nat.ltb_lt in El. clear E.
      revert id El. induction a as [|x a IH]; intros id El; [reflexivity|].
      destruct id as [|id]; simpl in *; [lia|]. rewrite <- IH by lia. reflexivity.
    + rewrite listeners_get_set. reflexivity.
  - rewrite E. reflexivity.
Qed.

Lemma off_other ls (event other : string) (id : nat) :
  other <> event ->
  Map_get String.eqb (Observable.off ls event id) other = Map_get String.eqb ls other.
Proof.
  intros H. unfold Observable.off.
  destruct (Map_get String.eqb ls event) as [a|]; [|reflexivity].
  destruct (length a <? id + 1)%nat; [reflexivity|].
  apply listeners_get_set_other. exact H.
Qed.

Lemma wrappers_from_set a (event : string) (x : list (option (Observable.Func C))) ls :
  registry_ok ls -> wrappers_from event 0 x ->
  registry_ok (Map_set String.eqb ls event x).
Proof.
  intros Hok Hx e b Hget. destruct (String.eqb e event) eqn:E.
  - apply String.eqb_eq in E. subst e. rewrite listeners_get_set in Hget.
    inversion Hget; subst b. exact Hx.
  - apply String.eqb_neq in E. rewrite (listeners_get_set_other _ _ _ _ E) in Hget.
    exact (Hok e b Hget).
Qed.

Lemma callbacks_ok ls (event : string) :
  registry_ok ls -> wrappers_from event 0 (Observable.callbacks_of ls event).
Proof.
  intros Hok. unfold Observable.callbacks_of.
  destruct (Map_get String.eqb ls event) as [a|] eqn:E; [exact (Hok event a E)|].
  intros [|i] f H; discriminate.
Qed.

Lemma on_ok ls (event : string) (f : Observable.Func C) :
  registry_ok ls ->
  wrapper_at event (length (Observable.callbacks_of ls event)) (Some f) ->
  registry_ok (fst (Observable.on ls event f)).
Proof.
  intros Hok Hf. unfold Observable.on. cbn [fst].
  apply (wrappers_from_set []); [exact Hok|].
  intros i g Hi. cbn [Nat.add].
  destruct (Nat.lt_ge_cases i (length (Observable.callbacks_of ls event))) as [Hlt | Hge].
  - rewrite nth_error_app1 in Hi by exact Hlt.
    exact (callbacks_ok ls event Hok i g Hi).
  - rewrite nth_error_app2 in Hi by exact Hge.
    destruct (i - length (Observable.callbacks_of ls event))%nat as [|k] eqn:Ek.
    + simpl in Hi. inversion Hi; subst g.
      replace i with (length (Observable.callbacks_of ls event)) by lia. exact Hf.
    + simpl in Hi. destruct k; discriminate.
Qed.

Lemma once_ok ls (event : string) (c : C) :
  registry_ok ls -> registry_ok (Observable.once ls event c).
Proof. intros Hok. unfold Observable.once. apply on_ok; [exact Hok|]. split; reflexivity. Qed.

Lemma off_ok ls (event : string) (id : nat) :
  registry_ok ls -> registry_ok (Observable.off ls event id).
Proof.
  intros Hok. unfold Observable.off.
  destruct (Map_get String.eqb ls event) as [a|] eqn:E; [|exact Hok].
  destruct (length a <? id + 1)%nat; [exact Hok|].
  apply (wrappers_from_set []); [exact Hok|].
  intros i g Hi. destruct (Nat.eq_dec i id) as [-> | Hne].
  - destruct (Nat.lt_ge_cases id (length a)) as [Hlt | Hge].
    + rewrite set_nth_same in Hi by exact Hlt. inversion Hi. exact I.
    + assert (Hnone : nth_error (Observable.set_nth a id None) id = None).
      { apply nth_error_None. rewrite set_nth_length. exact Hge. }
      congruence.
  - rewrite set_nth_other in Hi by exact Hne. exact (Hok event a E i g Hi).
Qed.

Lemma allOff_ok ls (event : string) :
  registry_ok ls -> registry_ok (Observable.allOff ls event).
Proof.
  intros Hok e b Hget. unfold Observable.allOff in Hget.
  destruct (String.eqb e event) eqn:E.
  - apply String.eqb_eq in E. subst e. rewrite listeners_get_delete in Hget. discriminate.
  - apply String.eqb_neq in E. rewrite (listeners_get_delete_other _ _ _ E) in Hget.
    exact (Hok e b Hget).
Qed.

Lemma fired_ok (event : string) a :
  wrappers_from event 0 a -> wrappers_from event 0 (map fired a).
Proof.
  intros H i g Hi. rewrite nth_error_map in Hi.
  destruct (nth_error a i) as [f|] eqn:E; [|discriminate].
  simpl in Hi. inversion Hi; subst g. specialize (H i f E).
  destruct f as [[c|e id c]|]; simpl; exact I.
Qed.

Lemma fire_ok ls (event : string) :
  registry_ok ls -> registry_ok (fst (Observable.fire ls event)).
Proof.
  intros Hok e b Hget. destruct (fire_spec ls event Hok) as (_ & Hsame & Hother).
  destruct (String.eqb e event) eqn:E.
  - apply String.eqb_eq in E. subst e.
    unfold Observable.callbacks_of in Hsame at 1. rewrite Hget in Hsame. subst b.
    apply fired_ok. apply callbacks_ok. exact Hok.
  - apply String.eqb_neq in E. rewrite (Hother e E) in Hget. exact (Hok e b Hget).
Qed.

Lemma live_fired a : flat_map live (map fired (map fired a)) = flat_map live (map fired a).
Proof.
  induction a as [|f a IH]; [reflexivity|].
  destruct f as [[c|e id c]|]; simpl; rewrite ?IH; reflexivity.
Qed.

Lemma fire_other ls (event other : string) :
  registry_ok ls -> other <> event ->
  Observable.callbacks_of (fst (Observable.fire ls other)) event
  = Observable.callbacks_of ls event.
Proof.
  intros Hok Hne. destruct (fire_spec ls other Hok) as (_ & _ & Hother).
  unfold Observable.callbacks_of. rewrite (Hother event) by congruence. reflexivity.
Qed.
End RegistryFacts.

(** X1.  [fire] on a registry built by [on], [once], [off], [allOff] and
    [fire]: the functions called are the live ones of the event, in the order
    of their registration; afterwards the wrappers of [once] have given way to
    tombstones, the other slots are as before, and so are the other events. *)
Theorem fire_calls_live_callbacks_in_order {C : Type}
    (ls : Observable.Listeners C) (event : string) :
  registry_ok ls ->
  snd (Observable.fire ls event) = flat_map live (Observable.callbacks_of ls event)
  /\ Observable.callbacks_of (fst (Observable.fire ls event)) event
     = map fired (Observable.callbacks_of ls event)
  /\ forall other, other <> event ->
       Map_get String.eqb (fst (Observable.fire ls event)) other
       = Map_get String.eqb ls other.
Proof. exact (fire_spec ls event). Qed.

Lemma fire_calls_live_callbacks_in_order_witness :
  let ls := [("close"%string,
              [Some (Observable.Plain 7%nat); None;
               Some (Observable.OnceWrapper "close" 2 8%nat); Some (Observable.Plain 9%nat)])] in
  registry_ok ls
  /\ snd (Observable.fire ls "close") = [7; 8; 9]%nat
  /\ Observable.callbacks_of (fst (Observable.fire ls "close")) "close"
     = [Some (Observable.Plain 7%nat); None; None; Some (Observable.Plain 9%nat)].
Proof.
  intros ls.
  assert (Hok : registry_ok ls) by (apply registry_okb_ok; reflexivity).
  split; [exact Hok|].
  destruct (fire_calls_live_callbacks_in_order ls "close" Hok) as (H1 & H2 & _).
  split; [exact H1 | exact H2].
Defined.

(** X2.  A callback registered with [once] is called by the next [fire] of
    its event, after the functions registered before it; a [fire] of another
    event in between does not use it up; and from the second [fire] on the
    calls are those of a registry that never had it. *)
Theorem once_callback_is_called_by_the_first_fire_only {C : Type}
    (ls : Observable.Listeners C) (event : string) (c : C) :
  registry_ok ls ->
  let ls1 := Observable.once ls event c in
  snd (Observable.fire ls1 event) = snd (Observable.fire ls event) ++ [c]
  /\ (forall other, other <> event ->
        snd (Observable.fire (fst (Observable.fire ls1 other)) event)
        = snd (Observable.fire ls event) ++ [c])
  /\ snd (Observable.fire (fst (Observable.fire ls1 event)) event)
     = snd (Observable.fire (fst (Observable.fire ls event)) event).
Proof.
  intros Hok ls1.
  assert (Hok1 : registry_ok ls1) by (apply once_ok; exact Hok).
  assert (Hcb : Observable.callbacks_of ls1 event
                = Observable.callbacks_of ls event
                  ++ [Some (Observable.OnceWrapper event
                              (length (Observable.callbacks_of ls event)) c)]).
  { unfold ls1, Observable.once. apply callbacks_of_on. }
  destruct (fire_spec ls event Hok) as (Hc & Hs & _).
  destruct (fire_spec ls1 event Hok1) as (Hc1 & Hs1 & _).
  split; [|split].
  - rewrite Hc1, Hc, Hcb, flat_map_app. reflexivity.
  - intros other Hne.
    destruct (fire_spec _ event (fire_ok ls1 other Hok1)) as (Hc2 & _).
    rewrite Hc2, (fire_other ls1 event other Hok1 Hne), Hc, Hcb, flat_map_app. reflexivity.
  - destruct (fire_spec _ event (fire_ok ls1 event Hok1)) as (Hc2 & _).
    destruct (fire_spec _ event (fire_ok ls event Hok)) as (Hc3 & _).
    rewrite Hc2, Hc3, Hs1, Hs, Hcb, map_app, flat_map_app. cbn [map fired flat_map live app].
    rewrite app_nil_r. reflexivity.
Qed.

Lemma once_callback_is_called_by_the_first_fire_only_witness :
  let ls := [("close"%string, [Some (Observable.Plain 7%nat)])] in
  let ls1 := Observable.once ls "close" 8%nat in
  registry_ok ls
  /\ snd (Observable.fire ls1 "close") = [7; 8]%nat
  /\ snd (Observable.fire (fst (Observable.fire ls1 "close")) "close") = [7]%nat.
Proof.
  intros ls ls1.
  assert (Hok : registry_ok ls) by (apply registry_okb_ok; reflexivity).
  split; [exact Hok|].
  destruct (once_callback_is_called_by_the_first_fire_only ls "close" 8%nat Hok)
    as (H1 & _ & H3).
  split; [exact H1 | exact H3].
Defined.

(** X3.  [off] puts a tombstone in the slot [id] of the event and touches
    nothing else: the array keeps its length, so the other ids stay valid and
    [id] is not handed out again; [fire] calls the live functions of the other
    slots, in order.  An [id] beyond the array, or an event without array,
    leaves the registry as it is. *)
Theorem off_disables_one_slot {C : Type}
    (ls : Observable.Listeners C) (event : string) (id : nat) :
  registry_ok ls ->
  let a := Observable.callbacks_of ls event in
  let ls' := Observable.off ls event id in
  length (Observable.callbacks_of ls' event) = length a
  /\ (forall j, j <> id -> nth_error (Observable.callbacks_of ls' event) j = nth_error a j)
  /\ ((id < length a)%nat -> nth_error (Observable.callbacks_of ls' event) id = Some None)
  /\ ((length a <= id)%nat -> ls' = ls)
  /\ snd (Observable.fire ls' event)
     = flat_map live (firstn id a) ++ flat_map live (skipn (S id) a)
  /\ forall other, other <> event ->
       Map_get String.eqb ls' other = Map_get String.eqb ls other.
Proof.
  intros Hok a ls'.
  assert (Hcb : Observable.callbacks_of ls' event = Observable.set_nth a id None)
    by apply callbacks_of_off.
  split; [rewrite Hcb; apply set_nth_length|].
  split; [intros j Hj; rewrite Hcb; apply set_nth_other; exact Hj|].
  split; [intros Hlt; rewrite Hcb; apply set_nth_same; exact Hlt|].
  split.
  { intros Hge. unfold ls', Observable.off. unfold a, Observable.callbacks_of in Hge.
    destruct (Map_get String.eqb ls event) as [b|]; [|reflexivity].
    destruct (length b <? id + 1)%nat eqn:E; [reflexivity|].
    apply Nat.ltb_ge in E. lia. }
  split; [|intros other Hne; apply off_other; exact Hne].
  destruct (fire_spec ls' event (off_ok ls event id Hok)) as (Hc & _).
  rewrite Hc, Hcb. clear. revert id.
  induction a as [|x a IH]; intros [|id]; cbn [Observable.set_nth firstn skipn flat_map app live];
    try reflexivity.
  rewrite IH, app_assoc. reflexivity.
Qed.

Lemma off_disables_one_slot_witness :
  let ls := [("close"%string,
              [Some (Observable.Plain 7%nat); Some (Observable.Plain 8%nat);
               Some (Observable.Plain 9%nat)])] in
  registry_ok ls
  /\ snd (Observable.fire (Observable.off ls "close" 1) "close") = [7; 9]%nat
  /\ length (Observable.callbacks_of (Observable.off ls "close" 1) "close") = 3%nat.
Proof.
  intros ls.
  assert (Hok : registry_ok ls) by (apply registry_okb_ok; reflexivity).
  split; [exact Hok|].
  destruct (off_disables_one_slot ls "close" 1 Hok) as (H1 & _ & _ & _ & H5 & _).
  split; [exact H5 | exact H1].
Defined.

(** X4.  [on] stores the function at the index it returns, which is the
    number of registrations the event has had since its array was made; the
    earlier slots of the event and the other events are as before. *)
Theorem on_returns_the_slot_of_the_function {C : Type}
    (ls : Observable.Listeners C) (event : string) (f : Observable.Func C) :
  let ls' := fst (Observable.on ls event f) in
  let id := snd (Observable.on ls event f) in
  nth_error (Observable.callbacks_of ls' event) id = Some (Some f)
  /\ length (Observable.callbacks_of ls' event) = S id
  /\ (forall g, snd (Observable.on ls' event g) = S id)
  /\ (forall j, (j < id)%nat ->
        nth_error (Observable.callbacks_of ls' event) j
        = nth_error (Observable.callbacks_of ls event) j)
  /\ forall other, other <> event ->
       Map_get String.eqb ls' other = Map_get String.eqb ls other.
Proof.
  intros ls' id.
  assert (Hcb : Observable.callbacks_of ls' event = Observable.callbacks_of ls event ++ [Some f])
    by apply callbacks_of_on.
  assert (Hid : id = length (Observable.callbacks_of ls event)) by reflexivity.
  assert (Hlen : length (Observable.callbacks_of ls' event) = S id).
  { rewrite Hcb, length_app, Hid. simpl. lia. }
  split.
  { rewrite Hcb, Hid, nth_error_app2 by lia. rewrite Nat.sub_diag. reflexivity. }
  split; [exact Hlen|].
  split; [intros g; unfold Observable.on; cbn [snd]; exact Hlen|].
  split; [intros j Hj; rewrite Hcb, nth_error_app1 by lia; reflexivity|].
  intros other Hne. apply on_other. exact Hne.
Qed.

(** X5.  Registering a function and taking it off again with the id that
    [on] returned: [fire] calls what it called before the registration, and
    the id is spent, the next registration gets the following one. *)
Theorem on_then_off_is_not_called {C : Type}
    (ls : Observable.Listeners C) (event : string) (c : C) :
  registry_ok ls ->
  let ls1 := fst (Observable.on ls event (Observable.Plain c)) in
  let id := snd (Observable.on ls event (Observable.Plain c)) in
  let ls2 := Observable.off ls1 event id in
  snd (Observable.fire ls1 event) = snd (Observable.fire ls event) ++ [c]
  /\ snd (Observable.fire ls2 event) = snd (Observable.fire ls event)
  /\ forall g, snd (Observable.on ls2 event g) = S id.
Proof.
  intros Hok ls1 id ls2.
  assert (Hok1 : registry_ok ls1) by (apply on_ok; [exact Hok | exact I]).
  assert (Hcb1 : Observable.callbacks_of ls1 event
                 = Observable.callbacks_of ls event ++ [Some (Observable.Plain c)])
    by apply callbacks_of_on.
  assert (Hcb2 : Observable.callbacks_of ls2 event
                 = Observable.callbacks_of ls event ++ [None]).
  { unfold ls2. rewrite callbacks_of_off, Hcb1.
    change id with (length (Observable.callbacks_of ls event)).
    apply set_nth_middle. }
  destruct (fire_spec ls event Hok) as (Hc & _).
  destruct (fire_spec ls1 event Hok1) as (Hc1 & _).
  destruct (fire_spec ls2 event (off_ok ls1 event id Hok1)) as (Hc2 & _).
  split; [rewrite Hc1, Hc, Hcb1, flat_map_app; reflexivity|].
  split.
  - rewrite Hc2, Hc, Hcb2, flat_map_app. cbn [flat_map live app]. apply app_nil_r.
  - intros g. unfold Observable.on. cbn [snd]. rewrite Hcb2, length_app. simpl.
    change id with (length (Observable.callbacks_of ls event)). lia.
Qed.

Lemma on_then_off_is_not_called_witness :
  let ls := [("close"%string, [Some (Observable.Plain 7%nat)])] in
  let ls1 := fst (Observable.on ls "close" (Observable.Plain 8%nat)) in
  registry_ok ls
  /\ snd (Observable.fire (Observable.off ls1 "close" 1) "close") = [7]%nat.
Proof.
  intros ls ls1.
  assert (Hok : registry_ok ls) by (apply registry_okb_ok; reflexivity).
  split; [exact Hok|].
  destruct (on_then_off_is_not_called ls "close" 8%nat Hok) as (_ & H2 & _).
  exact H2.
Defined.

(** X6.  [allOff] forgets the event: a [fire] of it calls nothing and
    changes nothing, an [off] of it with any id does nothing, and the next
    registration starts again at id 0; the other events keep their arrays. *)
Theorem allOff_forgets_the_event {C : Type}
    (ls : Observable.Listeners C) (event : string) :
  let ls' := Observable.allOff ls event in
  Observable.fire ls' event = (ls', [])
  /\ (forall id, Observable.off ls' event id = ls')
  /\ (forall f, snd (Observable.on ls' event f) = 0%nat)
  /\ forall other, other <> event ->
       Map_get String.eqb ls' other = Map_get String.eqb ls other.
Proof.
  intros ls'.
  assert (Hget : Map_get String.eqb ls' event = None) by apply listeners_get_delete.
  split; [unfold Observable.fire, Observable.callbacks_of; rewrite Hget; reflexivity|].
  split; [intros id; unfold Observable.off; rewrite Hget; reflexivity|].
  split; [intros f; unfold Observable.on, Observable.callbacks_of; rewrite Hget; reflexivity|].
  intros other Hne. apply listeners_get_delete_other. exact Hne.
Qed.

(** X7.  Every operation of the registry keeps the wrappers of [once] where
    they belong (a wrapper taking off the slot [id] of [event] sits in that
    slot), whatever the event and the id it is called with; the empty registry
    of a new object has none. *)
Theorem registry_operations_keep_the_wrappers_in_place {C : Type}
    (ls : Observable.Listeners C) (event : string) :
  registry_ok ls ->
  registry_ok (@nil (string * list (option (Observable.Func C))))
  /\ (forall c, registry_ok (fst (Observable.on ls event (Observable.Plain c))))
  /\ (forall c, registry_ok (Observable.once ls event c))
  /\ (forall id, registry_ok (Observable.off ls event id))
  /\ registry_ok (Observable.allOff ls event)
  /\ registry_ok (fst (Observable.fire ls event)).
Proof.
  intros Hok.
  split; [intros e a H; discriminate H|].
  split; [intros c; apply on_ok; [exact Hok | exact I]|].
  split; [intros c; apply once_ok; exact Hok|].
  split; [intros id; apply off_ok; exact Hok|].
  split; [apply allOff_ok; exact Hok | apply fire_ok; exact Hok].
Qed.

Lemma registry_operations_keep_the_wrappers_in_place_witness :
  let ls := [("close"%string,
              [Some (Observable.Plain 7%nat); Some (Observable.OnceWrapper "close" 1 8%nat)])] in
  registry_ok ls
  /\ registry_ok (Observable.once ls "close" 9%nat)
  /\ registry_ok (fst (Observable.fire ls "close")).
Proof.
  intros ls.
  assert (Hok : registry_ok ls) by (apply registry_okb_ok; reflexivity).
  split; [exact Hok|].
  destruct (registry_operations_keep_the_wrappers_in_place ls "close" Hok)
    as (_ & _ & H3 & _ & _ & H6).
  split; [exact (H3 9%nat) | exact H6].
Defined.

(* ===================================================================== *)
(** * rpc-error.ts: reading the code back *)
(* ===================================================================== *)

From Stdlib Require DecimalPos.

(** [parseInt] reads the digits that number-to-string conversion writes. *)
Lemma parse_digits_acc (d : Decimal.uint) : forall acc : positive,
  parse_digits (Z.pos acc) (NilEmpty.string_of_uint d) = Z.pos (Pos.of_uint_acc d acc).
Proof.
  induction d; intros acc; cbn [NilEmpty.string_of_uint parse_digits Pos.of_uint_acc];
    try reflexivity;
    match goal with |- context [is_digit ?c] => change (is_digit c) with true end;
    cbv iota;
    match goal with
    | |- parse_digits ?z _ = Z.pos (Pos.of_uint_acc _ ?a) =>
        replace z with (Z.pos a)
          by (match goal with |- context [digit_value ?c] =>
                let v := eval vm_compute in (digit_value c) in
                change (digit_value c) with v end; lia)
    end; apply IHd.
Qed.

Lemma parse_digits_of_uint (d : Decimal.uint) :
  parse_digits 0 (NilEmpty.string_of_uint d) = Z.of_N (Pos.of_uint d).
Proof.
  induction d; cbn [NilEmpty.string_of_uint parse_digits Pos.of_uint];
    try reflexivity;
    match goal with |- context [is_digit ?c] => change (is_digit c) with true end;
    cbv iota;
    try (match goal with
         | |- parse_digits ?z _ = Z.of_N (N.pos (Pos.of_uint_acc _ ?a)) =>
             replace z with (Z.pos a)
               by (match goal with |- context [digit_value ?c] =>
                     let v := eval vm_compute in (digit_value c) in
                     change (digit_value c) with v end; lia)
         end; apply parse_digits_acc).
  exact IHd.
Qed.

Lemma take_digits_of_uint (d : Decimal.uint) (post : string) :
  take_digits post = EmptyString ->
  take_digits (NilEmpty.string_of_uint d ++ post) = NilEmpty.string_of_uint d.
Proof.
  intros H. induction d; cbn [NilEmpty.string_of_uint append take_digits];
    try exact H;
    match goal with |- context [is_digit ?c] => change (is_digit c) with true end;
    cbv iota; rewrite IHd; reflexivity.
Qed.

Lemma to_uint_digits (p : positive) :
  exists c r, NilEmpty.string_of_uint (Pos.to_uint p) = String c r
              /\ is_digit c = true /\ is_space c = false.
Proof.
  pose proof (DecimalPos.Unsigned.to_uint_nonnil p) as H.
  destruct (Pos.to_uint p); [contradiction| | | | | | | | | |];
    eexists; eexists; cbn; (split; [reflexivity | split; reflexivity]).
Qed.

Lemma parseInt_Z_to_string (c : Z) : parseInt (Z_to_string c) = c.
Proof.
  unfold Z_to_string. destruct c as [|p|p]; [reflexivity| |].
  - cbn [Z.to_int NilZero.string_of_int]. unfold NilZero.string_of_uint.
    destruct (to_uint_digits p) as (ch & r & Hs & Hd & _).
    pose proof (DecimalPos.Unsigned.to_uint_nonnil p) as Hn.
    assert (E : parse_digits 0 (NilEmpty.string_of_uint (Pos.to_uint p)) = Z.pos p).
    { rewrite parse_digits_of_uint, DecimalPos.Unsigned.of_to. reflexivity. }
    destruct (Pos.to_uint p) eqn:Eu; try contradiction; rewrite <- E; cbn; reflexivity.
  - cbn [Z.to_int NilZero.string_of_int]. unfold NilZero.string_of_uint.
    pose proof (DecimalPos.Unsigned.to_uint_nonnil p) as Hn.
    assert (E : parse_digits 0 (NilEmpty.string_of_uint (Pos.to_uint p)) = Z.pos p).
    { rewrite parse_digits_of_uint, DecimalPos.Unsigned.of_to. reflexivity. }
    destruct (Pos.to_uint p) eqn:Eu; try contradiction;
      cbn [parseInt]; rewrite E; reflexivity.
Qed.

Lemma skip_spaces_app (spaces rest : string) :
  skip_spaces spaces = EmptyString -> skip_spaces (spaces ++ rest) = skip_spaces rest.
Proof.
  induction spaces as [|c sp IH]; cbn [append skip_spaces]; [reflexivity|].
  destruct (is_space c); [exact IH | discriminate].
Qed.

Lemma regexp_match_skip (pre rest : string) :
  has_char (Ascii.eqb dquote) pre = false ->
  regexp_match (pre ++ rest) = regexp_match rest.
Proof.
  induction pre as [|c pre IH]; intros H; [reflexivity|].
  cbn [has_char] in H. apply orb_false_iff in H. destruct H as [Hc Hpre].
  cbn [append regexp_match].
  assert (Hm : match_here (String c (pre ++ rest)) = None).
  { unfold match_here. change (q "'code':") with (String dquote (q "code':")).
    cbn [strip_prefix]. rewrite Hc. reflexivity. }
  rewrite Hm. exact (IH Hpre).
Qed.

Lemma match_here_digits (spaces post : string) (d : Decimal.uint) (sign : string) :
  skip_spaces spaces = EmptyString ->
  take_digits post = EmptyString ->
  d <> Decimal.Nil ->
  sign = EmptyString \/ sign = "-"%string ->
  match_here (q "'code':" ++ spaces ++ (sign ++ NilEmpty.string_of_uint d) ++ post)
  = Some (sign ++ NilEmpty.string_of_uint d)%string.
Proof.
  intros Hsp Hpost Hd Hsign. unfold match_here. rewrite strip_prefix_app.
  rewrite (skip_spaces_app _ _ Hsp).
  assert (Htake : take_digits (NilEmpty.string_of_uint d ++ post) = NilEmpty.string_of_uint d)
    by (apply take_digits_of_uint; exact Hpost).
  destruct Hsign as [-> | ->].
  - cbn [append]. destruct d; try contradiction;
      cbn [NilEmpty.string_of_uint append skip_spaces];
      match goal with |- context [is_space ?c] => change (is_space c) with false end;
      cbv iota;
      match goal with |- context [take_digits (String ?c (?r ++ post))] =>
        change (String c (r ++ post)) with (String c r ++ post)%string
      end;
      match goal with H : take_digits (NilEmpty.string_of_uint ?dd ++ post) = _ |- _ =>
        cbn [NilEmpty.string_of_uint] in H; rewrite H
      end; reflexivity.
  - cbn [append skip_spaces]. change (is_space "-") with false. cbv iota.
    rewrite Htake. destruct d; try contradiction; reflexivity.
Qed.

Lemma Z_to_string_shape (c : Z) :
  exists sign d, Z_to_string c = (sign ++ NilEmpty.string_of_uint d)%string
                 /\ d <> Decimal.Nil /\ (sign = EmptyString \/ sign = "-"%string).
Proof.
  unfold Z_to_string. destruct c as [|p|p]; cbn [Z.to_int NilZero.string_of_int].
  - exists EmptyString, (Decimal.D0 Decimal.Nil). repeat split; [discriminate | left; reflexivity].
  - exists EmptyString, (Pos.to_uint p). pose proof (DecimalPos.Unsigned.to_uint_nonnil p) as Hn.
    split; [|split; [exact Hn | left; reflexivity]].
    unfold NilZero.string_of_uint. destruct (Pos.to_uint p); try contradiction; reflexivity.
  - exists "-"%string, (Pos.to_uint p). pose proof (DecimalPos.Unsigned.to_uint_nonnil p) as Hn.
    split; [|split; [exact Hn | right; reflexivity]].
    unfold NilZero.string_of_uint. destruct (Pos.to_uint p); try contradiction; reflexivity.
Qed.

Lemma findRPCErrorCode_formatted (pre spaces post : string) (c : Z) :
  has_char (Ascii.eqb dquote) pre = false ->
  skip_spaces spaces = EmptyString ->
  take_digits post = EmptyString ->
  regexp_match (pre ++ q "'code':" ++ spaces ++ Z_to_string c ++ post) = Some (Z_to_string c)
  /\ findRPCErrorCode (pre ++ q "'code':" ++ spaces ++ Z_to_string c ++ post) = Some c.
Proof.
  intros Hpre Hsp Hpost.
  assert (Hm : regexp_match (pre ++ q "'code':" ++ spaces ++ Z_to_string c ++ post)
               = Some (Z_to_string c)).
  { rewrite (regexp_match_skip _ _ Hpre).
    destruct (Z_to_string_shape c) as (sign & d & -> & Hd & Hsign).
    pose proof (match_here_digits spaces post d sign Hsp Hpost Hd Hsign) as H.
    destruct (q "'code':" ++ spaces ++ (sign ++ NilEmpty.string_of_uint d) ++ post)%string;
      cbn [regexp_match]; rewrite H; reflexivity. }
  split; [exact Hm|]. unfold findRPCErrorCode. rewrite Hm, parseInt_Z_to_string. reflexivity.
Qed.

(** X8.  Writing a code and reading it back: in a text where ["code":],
    optional white space and the decimal of an integer [c] follow a prefix
    without double quote, and no digit comes right after, [findRPCErrorCode]
    returns [c], whatever its sign, for every [c] that is a [safe_integer]:
    past 2^53 - 1 the source's [parseInt] rounds to a double, which the
    integers here do not follow. *)
Theorem findRPCErrorCode_reads_back_the_code (pre spaces post : string) (c : Z) :
  safe_integer c ->
  has_char (Ascii.eqb dquote) pre = false ->
  skip_spaces spaces = EmptyString ->
  take_digits post = EmptyString ->
  findRPCErrorCode (pre ++ q "'code':" ++ spaces ++ Z_to_string c ++ post) = Some c.
Proof. intros _ Hpre Hsp Hpost. apply findRPCErrorCode_formatted; assumption. Qed.

Lemma findRPCErrorCode_reads_back_the_code_witness :
  findRPCErrorCode
    (q "sendrawtransactionRPCerror:{'code': -27,'message':'Transactionalreadyinblockchain'}")
  = Some (-27).
Proof.
  exact (findRPCErrorCode_reads_back_the_code
           "sendrawtransactionRPCerror:{" " "
           (q ",'message':'Transactionalreadyinblockchain'}") (-27)
           ltac:(unfold safe_integer, MAX_SAFE_INTEGER; lia)
           eq_refl eq_refl eq_refl).
Defined.

(** X9.  [new RPCError] on such a text with a code other than 0 that is a
    [safe_integer] does not throw: the message is the text of the table for
    the code, or [Unknown JSON RPC error] for a code the table does not list,
    followed by the code in parentheses; the error keeps the text it was made
    from.  It is the error that [onMessage] rejects with for this error
    message.  (Past 2^53 - 1 the source prints the rounded double, with an
    exponent from 1e21 on: such codes are left out.) *)
Theorem RPCError_message_names_the_code (pre spaces post : string) (c : Z) :
  safe_integer c ->
  has_char (Ascii.eqb dquote) pre = false ->
  skip_spaces spaces = EmptyString ->
  take_digits post = EmptyString ->
  c <> 0 ->
  let text := (pre ++ q "'code':" ++ spaces ++ Z_to_string c ++ post)%string in
  let e := {| is_rpc := true;
              message := ((match Map_get Z.eqb JSON_RPC_ERRORS c with
                           | Some m => m
                           | None => "Unknown JSON RPC error"
                           end) ++ " (code: " ++ Z_to_string c ++ ")")%string;
              str := Some text;
              code := None |} in
  new_RPCError text = inr e /\ classify (Some (JStr text)) = e.
Proof.
  intros _ Hpre Hsp Hpost Hc text e.
  assert (Hnew : new_RPCError text = inr e).
  { apply new_RPCError_nonzero; [|exact Hc].
    apply findRPCErrorCode_formatted; assumption. }
  split; [exact Hnew|]. unfold classify. rewrite Hnew. reflexivity.
Qed.

Lemma RPCError_message_names_the_code_witness :
  message (classify (Some (JStr (q "sendrawtransactionRPCerror:{'code':-26,'message':''}"))))
  = "Transaction or block was rejected by network rules (code: -26)"%string.
Proof.
  pose proof (RPCError_message_names_the_code
                "sendrawtransactionRPCerror:{" EmptyString (q ",'message':''}") (-26)
                ltac:(unfold safe_integer, MAX_SAFE_INTEGER; lia)
                eq_refl eq_refl eq_refl ltac:(discriminate)) as H.
  cbv zeta in H. destruct H as [_ H].
  exact (f_equal message H).
Defined.

(** X10.  A text in which ["code":] does not occur makes [new RPCError]
    throw, and [onMessage] then rejects with a plain error whose message is
    the text itself. *)
Theorem RPCError_without_code_pattern_throws (text : string) :
  includes text (q "'code':") = false ->
  new_RPCError text = inl (new_Error "Could not find RPC error code in string")
  /\ classify (Some (JStr text)) = new_Error text.
Proof.
  intros H.
  assert (Hnew : new_RPCError text = inl (new_Error "Could not find RPC error code in string")).
  { apply new_RPCError_no_code, findRPCErrorCode_absent. exact H. }
  split; [exact Hnew|]. unfold classify. rewrite Hnew. reflexivity.
Qed.

Lemma RPCError_without_code_pattern_throws_witness :
  classify (Some (JStr "code:1, message:2")) = new_Error "code:1, message:2".
Proof.
  exact (proj2 (RPCError_without_code_pattern_throws "code:1, message:2" eq_refl)).
Defined.

(* ===================================================================== *)
(** * Inbound deliveries: lines and the buffer *)
(* ===================================================================== *)

Lemma split_on_separator (sep : ascii -> bool) (a b : string) (c : ascii) :
  sep c = true ->
  split_on sep (a ++ String c b) = split_on sep a ++ split_on sep b.
Proof.
  intros Hc. induction a as [|x a IH]; cbn [append split_on].
  - rewrite Hc. reflexivity.
  - destruct (sep x); [rewrite IH; reflexivity|].
    rewrite IH. pose proof (split_on_not_nil sep a) as Hn.
    destruct (split_on sep a) as [|seg segs]; [contradiction|]. reflexivity.
Qed.


Lemma has_char_app (sep : ascii -> bool) (a b : string) :
  has_char sep (a ++ b) = has_char sep a || has_char sep b.
Proof.
  induction a as [|x a IH]; cbn [append has_char]; [reflexivity|].
  rewrite IH, orb_assoc. reflexivity.
Qed.

(** X11.  [parseLine] always returns, and never recurses more than once,
    however deep it is allowed to go.  It changes nothing but the buffer.
    When it returns a message, the buffer is empty and the message is an
    object that [JSON.parse] gave for the line or for the buffer followed by
    the line, recognized as a response or a request: the exit of [onMessage]
    for a response that is not an object is never taken.  When it returns
    [false], the buffer holds the line, alone or after the old buffer. *)
Theorem parseLine_returns_a_message_or_buffers
    (JSON_parse : string -> option json) (fuel : nat) (line : string) (s : ElectrumWS) :
  exists s' r,
    parseLine_rec JSON_parse (S (S fuel)) line s = Some (s', r)
    /\ s' = set_incompleteMessage (incompleteMessage s') s
    /\ match r with
       | Some m =>
           incompleteMessage s' = EmptyString
           /\ is_object m = true
           /\ isRpcResponse m || isRpcRequest m = true
           /\ (JSON_parse line = Some m
               \/ JSON_parse (incompleteMessage s ++ line)%string = Some m)
       | None =>
           incompleteMessage s' = line
           \/ incompleteMessage s' = (incompleteMessage s ++ line)%string
       end.
Proof.
  assert (Hrec : forall text m, recognized JSON_parse text = Some m ->
            is_object m = true /\ isRpcResponse m || isRpcRequest m = true
            /\ JSON_parse text = Some m).
  { intros text m. unfold recognized.
    destruct (JSON_parse text) as [parsed|]; [|discriminate].
    destruct (isRpcResponse parsed || isRpcRequest parsed) eqn:E; [|discriminate].
    intros H. inversion H; subst m. split; [|split; [exact E | reflexivity]].
    unfold isRpcResponse, isRpcRequest in E.
    destruct (is_object parsed); [reflexivity | discriminate]. }
  destruct (parseLine_total JSON_parse fuel line s) as [-> _].
  rewrite parseLine_eq.
  destruct (recognized JSON_parse line) as [m|] eqn:E1.
  - destruct (Hrec _ _ E1) as (Ho & Hr & Hp).
    eexists; eexists. split; [reflexivity|]. split; [reflexivity|].
    split; [reflexivity|]. split; [exact Ho|]. split; [exact Hr | left; exact Hp].
  - destruct (negb (incompleteMessage s =? "")%string
              && negb (includes line (incompleteMessage s))).
    + destruct (recognized JSON_parse (incompleteMessage s ++ line)) as [m|] eqn:E2.
      * destruct (Hrec _ _ E2) as (Ho & Hr & Hp).
        eexists; eexists. split; [reflexivity|]. split; [reflexivity|].
        split; [reflexivity|]. split; [exact Ho|]. split; [exact Hr | right; exact Hp].
      * eexists; eexists. split; [reflexivity|]. split; [reflexivity|]. right. reflexivity.
    + eexists; eexists. split; [reflexivity|]. split; [reflexivity|]. left. reflexivity.
Qed.



(** X13.  A blank inside a frame is lost.  When [x] and [y] hold no
    separator, neither is a message by itself, [y] does not contain [x] and
    the buffer is empty, the delivery of [x], a blank and [y] is handled as
    the delivery of [x] immediately followed by [y]: what [JSON.parse] sees is
    the text without the blank. *)
Theorem blank_inside_a_frame_is_dropped
    (JSON_parse : string -> option json) (x y : string) (s : ElectrumWS) :
  has_char is_separator x = false ->
  has_char is_separator y = false ->
  x <> EmptyString -> y <> EmptyString ->
  incompleteMessage s = EmptyString ->
  recognized JSON_parse x = None ->
  recognized JSON_parse y = None ->
  includes y x = false ->
  onMessage JSON_parse (x ++ String " " y) s = onMessage JSON_parse (x ++ y) s.
Proof.
  intros Hx Hy Hxn Hyn Hbuf Rx Ry Hinc.
  assert (Hxe : String.eqb x EmptyString = false) by (apply String.eqb_neq; exact Hxn).
  assert (Hye : String.eqb y EmptyString = false) by (apply String.eqb_neq; exact Hyn).
  assert (Hxy : String.eqb (x ++ y) EmptyString = false).
  { destruct x; [contradiction | reflexivity]. }
  unfold onMessage, split_lines.
  rewrite (split_on_separator is_separator x y " " eq_refl).
  rewrite (split_on_free _ _ Hx), (split_on_free _ _ Hy).
  rewrite (split_on_free is_separator (x ++ y))
    by (rewrite has_char_app, Hx, Hy; reflexivity).
  cbn [app filter]. rewrite Hxe, Hye, Hxy. cbn [negb].
  cbn [onMessage_lines]. unfold onMessage_line.
  rewrite !parseLine_eq. rewrite Rx, Hbuf. cbn [String.eqb negb andb].
  rewrite parseLine_eq. cbn [incompleteMessage set_incompleteMessage].
  rewrite Ry, Hxe, Hinc. cbn [negb andb].
  destruct (recognized JSON_parse (x ++ y)) as [m|]; reflexivity.
Qed.

Lemma blank_inside_a_frame_is_dropped_witness :
  let x := q "{'jsonrpc':'2.0','id':5,'result':'a" in
  let y := q "b'}" in
  onMessage json_parse (x ++ String " " y) pending_5 = onMessage json_parse (x ++ y) pending_5
  /\ option_map (fun r => outcome_of 0%nat (trace (fst r)))
       (onMessage json_parse (x ++ y) pending_5)
     = Some (Some (Resolve 0%nat (JStr "ab"))).
Proof.
  intros x y. split; [|vm_compute; reflexivity].
  apply (blank_inside_a_frame_is_dropped json_parse x y pending_5);
    try (vm_compute; reflexivity); discriminate.
Defined.

(* ===================================================================== *)
(** * Sessions: subscriptions, requests, batches, the close event *)
(* ===================================================================== *)

Lemma Map_delete_absent {K V : Type} (eqb : K -> K -> bool) (m : list (K * V)) (k : K) :
  Map_has eqb m k = false -> Map_delete eqb m k = m.
Proof.
  unfold Map_has, Map_delete. induction m as [|[k' v] m IH]; cbn [existsb filter fst]; [reflexivity|].
  intros H. apply orb_false_iff in H. destruct H as [H1 H2].
  rewrite H1. cbn [negb]. rewrite (IH H2). reflexivity.
Qed.

Lemma set_subscriptions_same (s : ElectrumWS) : set_subscriptions (subscriptions s) s = s.
Proof. destruct s. reflexivity. Qed.

Lemma subscribe_registers (replay : bool) (method : string) (callback : Callback)
    (params : list json) (draws rest : list Z) (s s' : ElectrumWS) :
  subscribe replay method callback params draws s = Some (s', rest) ->
  subscriptions s'
  = Map_set String.eqb (subscriptions s) (subscriptionKey method params) callback.
Proof.
  unfold subscribe. cbn [connected set_subscriptions].
  destruct (negb (connected s)).
  - intros H. inversion H; subst. reflexivity.
  - unfold request. cbn [requests set_subscriptions connected].
    destruct (random_id (requests s) draws) as [[id d]|]; [|discriminate].
    destruct (negb (connected s)).
    + intros H. inversion H; subst. reflexivity.
    + unfold request_send, createRequestPromise, setTimeout. cbn.
      intros H. inversion H; subst. reflexivity.
Qed.

Lemma subscriptions_get_set (m : list (string * Callback)) (k : string) (v : Callback) :
  Map_get String.eqb (Map_set String.eqb m k v) k = Some v.
Proof.
  induction m as [|[k0 v0] m IH]; simpl.
  - rewrite String.eqb_refl. reflexivity.
  - destruct (String.eqb k k0) eqn:E; simpl.
    + rewrite String.eqb_refl. reflexivity.
    + rewrite E. exact IH.
Qed.

Lemma Map_set_present_keys (m : list (string * Callback)) (k : string) (v : Callback) :
  Map_has String.eqb m k = true ->
  map fst (Map_set String.eqb m k v) = map fst m.
Proof.
  unfold Map_has. induction m as [|[k0 v0] m IH]; cbn [existsb Map_set fst]; [discriminate|].
  destruct (String.eqb k k0) eqn:E; cbn [map fst orb].
  - intros _. apply String.eqb_eq in E. subst. reflexivity.
  - intros H. rewrite (IH H). reflexivity.
Qed.

Lemma Map_has_set_same (m : list (string * Callback)) (k : string) (v : Callback) :
  Map_has String.eqb (Map_set String.eqb m k v) k = true.
Proof.
  unfold Map_has. induction m as [|[k0 v0] m IH]; cbn [existsb Map_set fst].
  - rewrite String.eqb_refl. reflexivity.
  - destruct (String.eqb k k0) eqn:E; cbn [existsb fst].
    + rewrite String.eqb_refl. reflexivity.
    + rewrite E. exact IH.
Qed.

(** X14.  Two calls of [subscribe] whose keys are equal (the same method
    and first string parameter, whatever the other parameters; or a method
    that spells out [method-parameter]) share one entry of the registry: the
    second call replaces the callback of the first and adds no entry, and a
    push for the key calls the second callback. *)
Theorem second_subscribe_replaces_the_callback
    (r1 r2 : bool) (m1 m2 : string) (cb1 cb2 : Callback) (ps1 ps2 : list json)
    (d1 d1' d2 d2' : list Z) (s s1 s2 : ElectrumWS) :
  subscribe r1 m1 cb1 ps1 d1 s = Some (s1, d1') ->
  subscribe r2 m2 cb2 ps2 d2 s1 = Some (s2, d2') ->
  subscriptionKey m2 ps2 = subscriptionKey m1 ps1 ->
  Map_get String.eqb (subscriptions s1) (subscriptionKey m1 ps1) = Some cb1
  /\ Map_get String.eqb (subscriptions s2) (subscriptionKey m1 ps1) = Some cb2
  /\ map fst (subscriptions s2) = map fst (subscriptions s1)
  /\ forall response base items,
       get "method" response = Some (JStr (base ++ ".subscribe")) ->
       suffix_only base = true ->
       get "params" response = Some (JArr items) ->
       subscriptionKey base items = subscriptionKey m1 ps1 ->
       dispatch_push response s2 = (emit (Call cb2 items) s2, false).
Proof.
  intros H1 H2 Hkey.
  pose proof (subscribe_registers _ _ _ _ _ _ _ _ H1) as E1.
  pose proof (subscribe_registers _ _ _ _ _ _ _ _ H2) as E2.
  rewrite Hkey in E2.
  assert (G2 : Map_get String.eqb (subscriptions s2) (subscriptionKey m1 ps1) = Some cb2).
  { rewrite E2. apply subscriptions_get_set. }
  split; [rewrite E1; apply subscriptions_get_set|].
  split; [exact G2|].
  split.
  { rewrite E2. apply Map_set_present_keys. rewrite E1. apply Map_has_set_same. }
  intros response base items Hm Hbase Hp Hk.
  rewrite (push_routes_by_key s2 response base items Hm Hbase (or_introl Hp)).
  rewrite Hk, G2. reflexivity.
Qed.

Lemma second_subscribe_replaces_the_callback_witness :
  let s := snd session_start in
  let s1 := set_subscriptions [("blockchain.scripthash-abc"%string, 1%nat)] s in
  let s2 := set_subscriptions [("blockchain.scripthash-abc"%string, 2%nat)] s1 in
  subscribe false "blockchain.scripthash" 1%nat [JStr "abc"; JNum 1] [] s = Some (s1, [])
  /\ subscribe false "blockchain.scripthash-abc" 2%nat [] [] s1 = Some (s2, [])
  /\ Map_get String.eqb (subscriptions s2) "blockchain.scripthash-abc" = Some 2%nat
  /\ map fst (subscriptions s2) = map fst (subscriptions s1).
Proof.
  intros s s1 s2.
  destruct (second_subscribe_replaces_the_callback
              false false "blockchain.scripthash" "blockchain.scripthash-abc"
              1%nat 2%nat [JStr "abc"; JNum 1] [] [] [] [] [] s s1 s2
              eq_refl eq_refl eq_refl) as (_ & G & K & _).
  split; [reflexivity|]. split; [reflexivity|]. split; [exact G | exact K].
Defined.

(** X15.  [unsubscribe] on a connected session, for a key the registry
    holds and a free id: the entry is deleted, one [method.unsubscribe]
    request with the given parameters is sent, its promise is the one
    returned, and a later push for that key calls no callback. *)
Theorem unsubscribe_stops_the_pushes
    (method : string) (params : list json) (id : Z) (rest : list Z) (s : ElectrumWS) :
  connected s = true ->
  Map_has Z.eqb (requests s) id = false ->
  Map_has String.eqb (subscriptions s) (subscriptionKey method params) = true ->
  exists s',
    unsubscribe method params (id :: rest) s = Some (s', Some (next_promise s), rest)
    /\ subscriptions s'
       = Map_delete String.eqb (subscriptions s) (subscriptionKey method params)
    /\ trace s' = trace s ++ [Send {| pl_method := (method ++ ".unsubscribe")%string;
                                      pl_params := params; pl_id := id |}]
    /\ forall response items,
         get "method" response = Some (JStr (method ++ ".subscribe")) ->
         suffix_only method = true ->
         get "params" response = Some (JArr items) ->
         subscriptionKey method items = subscriptionKey method params ->
         dispatch_push response s' = (s', false).
Proof.
  intros Hc Hid Hkey. unfold unsubscribe. rewrite Hkey.
  unfold request. cbn [requests set_subscriptions connected random_id].
  rewrite Hid, Hc. cbn [negb].
  unfold request_send, createRequestPromise, setTimeout.
  cbn [next_promise next_timer timers requests set_next_promise set_timers set_next_timer
       set_requests set_subscriptions emit trace set_trace].
  eexists. split; [reflexivity|]. split; [reflexivity|]. split; [reflexivity|].
  intros response items Hm Hbase Hp Hk.
  rewrite (push_routes_by_key _ response method items Hm Hbase (or_introl Hp)).
  unfold emit.
  cbn [subscriptions set_trace set_requests set_timers set_next_timer set_next_promise
       set_subscriptions].
  rewrite Hk, (Map_has_get_None _ _ _ (Map_has_delete String.eqb (subscriptions s) _)).
  reflexivity.
Qed.

Lemma unsubscribe_stops_the_pushes_witness :
  let s := match after [WsOpened; TimerFires 0%nat [];
                        CallSubscribe "blockchain.headers" 1%nat [] [7]] with
           | Some s => s
           | None => snd session_start
           end in
  exists s',
    unsubscribe "blockchain.headers" [] [8] s = Some (s', Some (next_promise s), [])
    /\ subscriptions s' = Map_delete String.eqb (subscriptions s) "blockchain.headers".
Proof.
  intros s.
  destruct (unsubscribe_stops_the_pushes "blockchain.headers" [] 8 [] s
              ltac:(vm_compute; reflexivity) ltac:(vm_compute; reflexivity)
              ltac:(vm_compute; reflexivity)) as (s' & H1 & H2 & _).
  exists s'. split; [exact H1 | exact H2].
Defined.


(** X16.  [unsubscribe] for a key the registry does not hold changes
    nothing and sends nothing: it draws no id and returns the resolved
    promise of [Promise.resolve()], connected or not. *)
Theorem unsubscribe_of_unknown_key_does_nothing
    (method : string) (params : list json) (draws : list Z) (s : ElectrumWS) :
  Map_has String.eqb (subscriptions s) (subscriptionKey method params) = false ->
  unsubscribe method params draws s = Some (s, None, draws).
Proof.
  intros H. unfold unsubscribe. rewrite H, (Map_delete_absent _ _ _ H), set_subscriptions_same.
  reflexivity.
Qed.

Lemma unsubscribe_of_unknown_key_does_nothing_witness :
  unsubscribe "blockchain.headers" [] [8] (snd session_start)
  = Some (snd session_start, None, [8]).
Proof.
  exact (unsubscribe_of_unknown_key_does_nothing "blockchain.headers" [] [8]
           (snd session_start) eq_refl).
Defined.


Lemma reachable_run (JSON_parse : string -> option json) (evs : list Event) :
  forall (h : Heap) (s : ElectrumWS) (h' : Heap) (s' : ElectrumWS),
    reachable JSON_parse h s ->
    run JSON_parse evs (h, s) = Some (h', s') ->
    reachable JSON_parse h' s'.
Proof.
  induction evs as [|ev evs IH]; intros h s h' s' Hr H; cbn [run] in H.
  - inversion H; subst. exact Hr.
  - destruct (step JSON_parse ev (h, s)) as [[h1 s1]|] eqn:E; [|discriminate].
    exact (IH h1 s1 h' s' (reachable_step JSON_parse h s ev h1 s1 Hr E) H).
Qed.

Lemma reachable_after (evs : list Event) (h : Heap) (s : ElectrumWS) :
  run json_parse evs (fst session_start, snd session_start) = Some (h, s) ->
  reachable json_parse h s.
Proof.
  apply reachable_run.
  apply (reachable_new json_parse initial_heap "ws://127.0.0.1:1234" no_options).
  apply surjective_pairing.
Qed.

Lemma requests_get_set (m : list (Z * Request)) (k : Z) (v : Request) :
  Map_get Z.eqb (Map_set Z.eqb m k v) k = Some v.
Proof.
  induction m as [|[k0 v0] m IH]; simpl.
  - rewrite Z.eqb_refl. reflexivity.
  - destruct (k =? k0) eqn:E; simpl.
    + rewrite Z.eqb_refl. reflexivity.
    + rewrite E. exact IH.
Qed.

Lemma requests_delete_set (m : list (Z * Request)) (k : Z) (v : Request) :
  Map_has Z.eqb m k = false -> Map_delete Z.eqb (Map_set Z.eqb m k v) k = m.
Proof.
  unfold Map_has, Map_delete. induction m as [|[k0 v0] m IH]; cbn [existsb Map_set filter fst].
  - intros _. rewrite Z.eqb_refl. reflexivity.
  - intros H. apply orb_false_iff in H. destruct H as [H1 H2].
    rewrite H1. cbn [filter fst]. rewrite H1. cbn [negb]. rewrite (IH H2). reflexivity.
Qed.

Lemma timers_delete_new (tm : list (TimerId * TimerAction)) (t : TimerId) (a : TimerAction) :
  (forall t' a', In (t', a') tm -> (t' < t)%nat) ->
  Map_delete Nat.eqb (tm ++ [(t, a)]) t = tm.
Proof.
  intros H. unfold Map_delete. rewrite filter_app. cbn [filter fst].
  rewrite Nat.eqb_refl. cbn [negb]. rewrite app_nil_r.
  induction tm as [|[t0 a0] tm IH]; [reflexivity|].
  cbn [filter fst].
  assert (Hlt : (t0 < t)%nat) by (apply (H t0 a0); left; reflexivity).
  assert (E : Nat.eqb t t0 = false) by (apply Nat.eqb_neq; lia).
  rewrite E. cbn [negb]. rewrite IH; [reflexivity|].
  intros t' a' Hin. apply (H t' a'). right. exact Hin.
Qed.

Section RoundTrip.
Variable JSON_parse : string -> option json.

(** X17.  A request that is answered leaves nothing behind.  On a
    connected session in a reachable state, with a free id: [request] sends
    the frame and returns a new promise; when the line of a response with this
    id and a [result] arrives, the promise is resolved with the result, and
    the table and the live timers are again what they were before the
    request. *)
Theorem answered_request_leaves_no_residue
    (h : Heap) (s : ElectrumWS) (method : string) (params : list json)
    (id : Z) (rest : list Z) (line : string) (response result : json) :
  reachable JSON_parse h s ->
  connected s = true ->
  Map_has Z.eqb (requests s) id = false ->
  recognized JSON_parse line = Some response ->
  get "id" response = Some (JNum id) ->
  get "result" response = Some result ->
  get "method" response = None ->
  exists s1 s2,
    request method params (id :: rest) s = Some (s1, Some (next_promise s), rest)
    /\ onMessage_line JSON_parse line s1 = Some (s2, false)
    /\ requests s2 = requests s
    /\ timers s2 = timers s
    /\ trace s2 = trace s ++ [Send {| pl_method := method; pl_params := params; pl_id := id |};
                              Fire MESSAGE (Some response);
                              Resolve (next_promise s) result]
    /\ outcome_of (next_promise s) (trace s2) = Some (Resolve (next_promise s) result).
Proof.
  intros Hr Hc Hid Hrec Hgid Hres Hmeth.
  pose proof (reachable_sound JSON_parse h s Hr) as Hs.
  assert (Hfresh : settled (next_promise s) (trace s) = false).
  { destruct (settled (next_promise s) (trace s)) eqn:E; [|reflexivity].
    apply (settled_made s Hs) in E. lia. }
  set (r := {| req_promise := next_promise s; req_method := method;
               req_timeout := next_timer s |}).
  set (s1 := fst (request_send id method params s)).
  assert (H1 : request method params (id :: rest) s = Some (s1, Some (next_promise s), rest)).
  { unfold request. cbn [random_id]. rewrite Hid, Hc. reflexivity. }
  assert (Hreq1 : requests s1 = Map_set Z.eqb (requests s) id r) by reflexivity.
  assert (Htim1 : timers s1
                  = timers s ++ [(next_timer s, RequestTimeout id method (next_promise s))])
    by reflexivity.
  assert (Htr1 : trace s1
                 = trace s ++ [Send {| pl_method := method; pl_params := params; pl_id := id |}])
    by reflexivity.
  set (s1' := fire MESSAGE (Some response) (set_incompleteMessage EmptyString s1)).
  destruct (fire_frame MESSAGE (Some response) (set_incompleteMessage EmptyString s1))
    as (Fr & Ft & _).
  pose proof (fire_trace MESSAGE (Some response) (set_incompleteMessage EmptyString s1)) as Ftr.
  fold s1' in Fr, Ft, Ftr.
  cbn [requests timers trace set_incompleteMessage] in Fr, Ft, Ftr.
  assert (Hget : Map_get Z.eqb (requests s1') id = Some r).
  { rewrite Fr, Hreq1. apply requests_get_set. }
  set (s2 := settle (next_promise s) (Resolved result)
               (set_requests (Map_delete Z.eqb (requests s1') id)
                  (clearTimeout (Some (next_timer s)) s1'))).
  assert (H2 : onMessage_line JSON_parse line s1 = Some (s2, false)).
  { unfold onMessage_line. rewrite parseLine_eq, Hrec. fold s1'.
    unfold dispatch_response. rewrite Hgid, Hget, Hres.
    unfold dispatch_push.
    rewrite Hmeth. reflexivity. }
  destruct (settle_frame (next_promise s) (Resolved result)
              (set_requests (Map_delete Z.eqb (requests s1') id)
                 (clearTimeout (Some (next_timer s)) s1'))) as (Sr & St & _).
  pose proof (settle_trace (next_promise s) (Resolved result)
                (set_requests (Map_delete Z.eqb (requests s1') id)
                   (clearTimeout (Some (next_timer s)) s1'))) as Str.
  fold s2 in Sr, St, Str.
  cbn [requests timers trace set_requests clearTimeout set_timers] in Sr, St, Str.
  assert (Htrace : trace s2
                   = trace s ++ [Send {| pl_method := method; pl_params := params; pl_id := id |};
                                 Fire MESSAGE (Some response);
                                 Resolve (next_promise s) result]).
  { rewrite Str, Ftr, Htr1, <- !app_assoc. reflexivity. }
  exists s1, s2. split; [exact H1|]. split; [exact H2|].
  split; [rewrite Sr, Fr, Hreq1; apply requests_delete_set; exact Hid|].
  split.
  { rewrite St, Ft, Htim1. apply timers_delete_new. exact (timers_made s Hs). }
  split; [exact Htrace|].
  rewrite Htrace, (outcome_of_app _ _ _ Hfresh). unfold outcome_of.
  cbn [find settles]. rewrite Nat.eqb_refl. reflexivity.
Qed.
End RoundTrip.

Lemma answered_request_leaves_no_residue_witness :
  let s := match after [WsOpened; TimerFires 0%nat []] with
           | Some s => s
           | None => snd session_start
           end in
  exists s1 s2,
    request "blockchain.estimatefee" [JNum 1] [41] s = Some (s1, Some (next_promise s), [])
    /\ onMessage_line json_parse (q "{'jsonrpc':'2.0','id':41,'result':7}") s1 = Some (s2, false)
    /\ requests s2 = requests s
    /\ timers s2 = timers s.
Proof.
  intros s.
  assert (Hrun : run json_parse [WsOpened; TimerFires 0%nat []]
                   (fst session_start, snd session_start)
                 = Some (fst session_start, s)) by (vm_compute; reflexivity).
  pose proof (reachable_after _ _ _ Hrun) as Hr.
  destruct (answered_request_leaves_no_residue json_parse (fst session_start) s
              "blockchain.estimatefee" [JNum 1] 41 []
              (q "{'jsonrpc':'2.0','id':41,'result':7}")
              (JObj [("jsonrpc"%string, JStr "2.0"); ("id"%string, JNum 41);
                     ("result"%string, JNum 7)])
              (JNum 7) Hr ltac:(vm_compute; reflexivity) ltac:(vm_compute; reflexivity)
              ltac:(vm_compute; reflexivity) eq_refl eq_refl eq_refl)
    as (s1 & s2 & H1 & H2 & H3 & H4 & _).
  exists s1, s2. split; [exact H1|]. split; [exact H2|]. split; [exact H3 | exact H4].
Defined.


Lemma requests_get_set_other (m : list (Z * Request)) (k k' : Z) (v : Request) :
  k' <> k -> Map_get Z.eqb (Map_set Z.eqb m k v) k' = Map_get Z.eqb m k'.
Proof.
  intros Hne. induction m as [|[k0 v0] m IH]; simpl.
  - destruct (k' =? k) eqn:E; [apply Z.eqb_eq in E; contradiction | reflexivity].
  - destruct (k =? k0) eqn:E; simpl.
    + apply Z.eqb_eq in E. subst k0.
      destruct (k' =? k) eqn:E'; [apply Z.eqb_eq in E'; contradiction | reflexivity].
    + destruct (k' =? k0); [reflexivity | exact IH].
Qed.

Lemma batch_payloads_nth (reqs : list (string * list json)) :
  forall (id : Z) (i : nat) (m : string) (ps : list json),
    nth_error reqs i = Some (m, ps) ->
    nth_error (batch_payloads id reqs) i
    = Some {| pl_method := m; pl_params := ps; pl_id := id + Z.of_nat i |}.
Proof.
  induction reqs as [|[m0 ps0] reqs IH]; intros id [|i] m ps H; try discriminate.
  - cbn in H. inversion H; subst. cbn [batch_payloads nth_error].
    rewrite Z.add_0_r. reflexivity.
  - cbn [nth_error] in H. cbn [batch_payloads nth_error].
    rewrite (IH (id + 1) i m ps H). f_equal. f_equal. lia.
Qed.

Lemma batch_payloads_ids (reqs : list (string * list json)) : forall (id k : Z),
  In k (map pl_id (batch_payloads id reqs)) -> id <= k < id + Z.of_nat (length reqs).
Proof.
  induction reqs as [|[m0 ps0] reqs IH]; intros id k H; [destruct H|].
  cbn [batch_payloads map pl_id length] in H |- *. destruct H as [<- | H]; [lia|].
  apply IH in H. lia.
Qed.

Lemma batch_payloads_length (reqs : list (string * list json)) : forall id : Z,
  length (batch_payloads id reqs) = length reqs.
Proof.
  induction reqs as [|[m0 ps0] reqs IH]; intros id; [reflexivity|].
  cbn [batch_payloads length]. rewrite IH. reflexivity.
Qed.

(** What the first loop of [batchRequest] leaves, over the payloads [pls]. *)
Lemma create_all_spec (pls : list Payload) : forall (s : ElectrumWS) (acc : list PromiseId),
  let r := fold_left
             (fun '(s, ps) pl =>
                let '(s, p) := createRequestPromise (pl_id pl) (pl_method pl) s in
                (s, ps ++ [p])) pls (s, acc) in
  snd r = acc ++ seq (next_promise s) (length pls)
  /\ trace (fst r) = trace s
  /\ (forall k, ~ In k (map pl_id pls) ->
        Map_get Z.eqb (requests (fst r)) k = Map_get Z.eqb (requests s) k)
  /\ (NoDup (map pl_id pls) ->
      forall i pl, nth_error pls i = Some pl ->
        Map_get Z.eqb (requests (fst r)) (pl_id pl)
        = Some {| req_promise := (next_promise s + i)%nat; req_method := pl_method pl;
                  req_timeout := (next_timer s + i)%nat |}).
Proof.
  induction pls as [|pl pls IH]; intros s acc.
  - cbn. rewrite app_nil_r. repeat split; try reflexivity.
    intros _ [|i] pl0 H; discriminate.
  - cbn [fold_left].
    rewrite (surjective_pairing (createRequestPromise (pl_id pl) (pl_method pl) s)).
    set (s1 := fst (createRequestPromise (pl_id pl) (pl_method pl) s)).
    change (snd (createRequestPromise (pl_id pl) (pl_method pl) s)) with (next_promise s).
    specialize (IH s1 (acc ++ [next_promise s])). cbv zeta in IH |- *.
    destruct IH as (I1 & I2 & I3 & I4).
    assert (Hnp : next_promise s1 = S (next_promise s)) by reflexivity.
    assert (Hnt : next_timer s1 = S (next_timer s)) by reflexivity.
    assert (Hrq : requests s1
                  = Map_set Z.eqb (requests s) (pl_id pl)
                      {| req_promise := next_promise s; req_method := pl_method pl;
                         req_timeout := next_timer s |}) by reflexivity.
    assert (Htr : trace s1 = trace s) by reflexivity.
    split; [|split; [|split]].
    + rewrite I1, Hnp, <- app_assoc. reflexivity.
    + rewrite I2. exact Htr.
    + intros k Hk. cbn [map] in Hk. rewrite I3 by (intros Hin; apply Hk; right; exact Hin).
      rewrite Hrq. apply requests_get_set_other. intros ->. apply Hk. left. reflexivity.
    + intros Hnd i pl0 Hi. cbn [map] in Hnd. inversion Hnd as [|? ? Hnotin Hnd']; subst.
      destruct i as [|i].
      * cbn in Hi. inversion Hi; subst pl0. rewrite I3 by exact Hnotin.
        rewrite Hrq, requests_get_set, !Nat.add_0_r. reflexivity.
      * cbn [nth_error] in Hi. rewrite (I4 Hnd' i pl0 Hi), Hnp, Hnt.
        f_equal. f_equal; lia.
Qed.

Lemma send_all_spec (pls : list Payload) : forall s : ElectrumWS,
  trace (send_all pls s) = trace s ++ map Send pls
  /\ requests (send_all pls s) = requests s.
Proof.
  unfold send_all. induction pls as [|pl pls IH]; intros s; cbn [fold_left map].
  - rewrite app_nil_r. split; reflexivity.
  - destruct (IH (emit (Send pl) s)) as [I1 I2]. rewrite I1, I2. cbn [emit trace set_trace requests].
    rewrite <- app_assoc. split; reflexivity.
Qed.

Lemma batch_ids_distinct (reqs : list (string * list json)) : forall id : Z,
  NoDup (map pl_id (batch_payloads id reqs)).
Proof.
  induction reqs as [|[m0 ps0] reqs IH]; intros id; cbn [batch_payloads map pl_id].
  - constructor.
  - constructor; [|apply IH]. intros H. apply batch_payloads_ids in H. lia.
Qed.

(** X18.  [batchRequest] on a connected session whose first free draw is
    [id]: the request at position [i] gets the id [id + i], the promise and the
    timer made [i]-th, and the entry of the table under [id + i]; the promises
    are returned in the order of the requests; the frames are sent in that
    order; the entries of the table outside the block of ids are untouched. *)
Theorem batch_requests_take_consecutive_ids
    (reqs : list (string * list json)) (draws rest : list Z) (id : Z) (s : ElectrumWS) :
  connected s = true ->
  random_id (requests s) draws = Some (id, rest) ->
  exists s',
    batchRequest reqs draws s = Some (s', seq (next_promise s) (length reqs))
    /\ trace s' = trace s ++ map Send (batch_payloads id reqs)
    /\ (forall i m ps, nth_error reqs i = Some (m, ps) ->
          nth_error (batch_payloads id reqs) i
          = Some {| pl_method := m; pl_params := ps; pl_id := id + Z.of_nat i |}
          /\ Map_get Z.eqb (requests s') (id + Z.of_nat i)
             = Some {| req_promise := (next_promise s + i)%nat; req_method := m;
                       req_timeout := (next_timer s + i)%nat |})
    /\ (forall k, k < id \/ id + Z.of_nat (length reqs) <= k ->
          Map_get Z.eqb (requests s') k = Map_get Z.eqb (requests s) k).
Proof.
  intros Hc Hid. unfold batchRequest, batch_send. rewrite Hc, Hid. cbn [negb].
  unfold create_all.
  pose proof (create_all_spec (batch_payloads id reqs) s []) as Hspec. cbv zeta in Hspec.
  destruct (fold_left _ (batch_payloads id reqs) (s, [])) as [s1 made] eqn:E.
  cbn [fst snd] in Hspec. destruct Hspec as (C1 & C2 & C3 & C4).
  destruct (send_all_spec (batch_payloads id reqs) s1) as [S1 S2].
  exists (send_all (batch_payloads id reqs) s1).
  split; [rewrite C1, batch_payloads_length; reflexivity|].
  split; [rewrite S1, C2; reflexivity|].
  split.
  - intros i m ps Hi. pose proof (batch_payloads_nth reqs id i m ps Hi) as Hn.
    split; [exact Hn|]. rewrite S2.
    exact (C4 (batch_ids_distinct reqs id) i _ Hn).
  - intros k Hk. rewrite S2. apply C3. intros Hin. apply batch_payloads_ids in Hin. lia.
Qed.

Lemma batch_requests_take_consecutive_ids_witness :
  let s := match after [WsOpened; TimerFires 0%nat []] with
           | Some s => s
           | None => snd session_start
           end in
  exists s',
    batchRequest [("blockchain.estimatefee"%string, [JNum 1]);
                  ("blockchain.block.header"%string, [JNum 1])] [41] s
    = Some (s', [0%nat; 1%nat])
    /\ trace s' = trace s ++ [Send {| pl_method := "blockchain.estimatefee";
                                      pl_params := [JNum 1]; pl_id := 41 |};
                              Send {| pl_method := "blockchain.block.header";
                                      pl_params := [JNum 1]; pl_id := 42 |}].
Proof.
  intros s.
  destruct (batch_requests_take_consecutive_ids
              [("blockchain.estimatefee"%string, [JNum 1]);
               ("blockchain.block.header"%string, [JNum 1])] [41] [] 41 s
              eq_refl eq_refl) as (s' & H1 & H2 & _).
  exists s'. split; [exact H1 | exact H2].
Defined.

(** X19.  [request] on a session that is not connected draws its id at
    once, then waits: no entry is made, no timer is started and nothing is
    sent, so the request has no deadline while it waits.  The next
    [fire] of CONNECTED resumes it; it then makes its entry under the id drawn
    at the call, without probing the table again, starts its timer and sends
    the frame. *)
Theorem request_before_connection_waits
    (method : string) (params : list json) (draws rest : list Z) (id : Z) (s : ElectrumWS) :
  connected s = false ->
  random_id (requests s) draws = Some (id, rest) ->
  exists s',
    request method params draws s = Some (s', None, rest)
    /\ requests s' = requests s /\ timers s' = timers s /\ trace s' = trace s
    /\ (forall s1 payload, listeners s1 = listeners s' ->
          In (JobResume (AwaitRequest id method params)) (jobs (fire CONNECTED payload s1)))
    /\ forall s2,
         let s3 := fst (request_send id method params s2) in
         run_job (JobResume (AwaitRequest id method params)) s2 = Some s3
         /\ trace s3 = trace s2 ++ [Send {| pl_method := method; pl_params := params;
                                           pl_id := id |}]
         /\ requests s3 = Map_set Z.eqb (requests s2) id
                            {| req_promise := next_promise s2; req_method := method;
                               req_timeout := next_timer s2 |}
         /\ timers s3 = timers s2 ++ [(next_timer s2,
                                       RequestTimeout id method (next_promise s2))].
Proof.
  intros Hc Hid. unfold request. rewrite Hid, Hc. cbn [negb].
  eexists. split; [reflexivity|]. repeat split.
  intros s1 payload Hl. apply (once_then_fire CONNECTED _ payload s s1). exact Hl.
Qed.

Lemma request_before_connection_waits_witness :
  let s := snd session_start in
  exists s',
    request "blockchain.estimatefee" [JNum 1] [41] s = Some (s', None, [])
    /\ timers s' = [] /\ trace s' = trace s.
Proof.
  intros s.
  destruct (request_before_connection_waits "blockchain.estimatefee" [JNum 1] [41] [] 41 s
              eq_refl eq_refl) as (s' & H1 & _ & H3 & H4 & _).
  exists s'. split; [exact H1|]. split; [exact H3 | exact H4].
Defined.

(** X20.  The token given to one session goes to the servers of the
    sessions constructed after it: a session constructed with a non-empty
    token opens its socket at [endpoint?token=t], and so does a session
    constructed later without a token, at its own endpoint. *)
Theorem later_session_inherits_the_token
    (h : Heap) (endpoint1 endpoint2 t : string) (opts1 opts2 : PartialOptions) :
  given_token opts1 = Some t ->
  t <> EmptyString ->
  given_token opts2 = None ->
  let hs1 := constructor h endpoint1 opts1 in
  let hs2 := constructor (fst hs1) endpoint2 opts2 in
  trace (snd hs1) = [WsNew (endpoint1 ++ "?token=" ++ t)]
  /\ trace (snd hs2) = [WsNew (endpoint2 ++ "?token=" ++ t)].
Proof.
  intros H1 Ht H2 hs1 hs2. subst hs1 hs2.
  apply String.eqb_neq in Ht.
  unfold constructor, Object_assign, connect, heap_set, assign, DEFAULT_OPTIONS.
  cbn. rewrite H1, H2, Ht. split; reflexivity.
Qed.

Lemma later_session_inherits_the_token_witness :
  let hs1 := constructor initial_heap "wss://a.example"
               {| given_token := Some "secret"%string; given_reconnect := None;
                  given_verbose := None |} in
  let hs2 := constructor (fst hs1) "wss://b.example" no_options in
  trace (snd hs2) = [WsNew "wss://b.example?token=secret"].
Proof.
  intros hs1 hs2.
  exact (proj2 (later_session_inherits_the_token initial_heap "wss://a.example"
                  "wss://b.example" "secret"
                  {| given_token := Some "secret"%string; given_reconnect := None;
                     given_verbose := None |} no_options
                  eq_refl ltac:(discriminate) eq_refl)).
Defined.

(** X21.  The close event of the socket.  The session is not connected
    afterwards; the table of pending requests and the registry are left as
    they are (no request is rejected).  When the session was not connected,
    CLOSE is fired, the timer set by [onOpen] is cleared, and nothing is
    scheduled, whatever the [reconnect] option.  When it was connected, CLOSE
    and DISCONNECTED are fired, and with [reconnect] on, RECONNECTING too and
    the reconnection timer is started. *)
Theorem close_event_keeps_the_requests (h : Heap) (s : ElectrumWS) :
  let s' := onClose h s in
  connected s' = false
  /\ requests s' = requests s
  /\ subscriptions s' = subscriptions s
  /\ (connected s = false ->
        trace s' = trace s ++ [Fire CLOSE None]
        /\ timers s' = timers (clearTimeout (connectedTimeout s) s)
        /\ reconnectionTimeout s' = reconnectionTimeout s)
  /\ (connected s = true -> reconnect (h (options s)) = true ->
        trace s' = trace s ++ [Fire CLOSE None; Fire DISCONNECTED None; Fire RECONNECTING None]
        /\ timers s' = timers s ++ [(next_timer s, ReconnectTimeout)]
        /\ reconnectionTimeout s' = Some (next_timer s))
  /\ (connected s = true -> reconnect (h (options s)) = false ->
        trace s' = trace s ++ [Fire CLOSE None; Fire DISCONNECTED None]
        /\ timers s' = timers s
        /\ reconnectionTimeout s' = reconnectionTimeout s).
Proof.
  intros s'. subst s'. unfold onClose.
  set (s1 := fire CLOSE None s).
  destruct (fire_frame CLOSE None s) as (F1 & F2 & F3 & F4 & _).
  pose proof (fire_trace CLOSE None s) as F5. fold s1 in F1, F2, F3, F4, F5.
  assert (F6 : connectedTimeout s1 = connectedTimeout s
               /\ reconnectionTimeout s1 = reconnectionTimeout s
               /\ options s1 = options s /\ next_timer s1 = next_timer s).
  { unfold s1, fire. destruct (Observable.fire _ _). repeat split. }
  destruct F6 as (F6 & F7 & F8 & F9).
  cbv zeta. rewrite F4.
  destruct (connected s) eqn:Hc; cbn [negb].
  - set (s2 := fire DISCONNECTED None s1).
    destruct (fire_frame DISCONNECTED None s1) as (G1 & G2 & G3 & G4 & _).
    pose proof (fire_trace DISCONNECTED None s1) as G5. fold s2 in G1, G2, G3, G4, G5.
    assert (G6 : reconnectionTimeout s2 = reconnectionTimeout s1
                 /\ options s2 = options s1 /\ next_timer s2 = next_timer s1).
    { unfold s2, fire. destruct (Observable.fire _ _). repeat split. }
    destruct G6 as (G7 & G8 & G9).
    rewrite G8, F8, G4, F4.
    destruct (reconnect (h (options s))) eqn:Hrec; cbn [andb].
    + set (s3 := fire RECONNECTING None s2).
      destruct (fire_frame RECONNECTING None s2) as (K1 & K2 & K3 & _).
      pose proof (fire_trace RECONNECTING None s2) as K5. fold s3 in K1, K2, K3, K5.
      assert (K9 : next_timer s3 = next_timer s2).
      { unfold s3, fire. destruct (Observable.fire _ _). reflexivity. }
      unfold setTimeout.
      cbn [connected set_connected requests subscriptions trace timers reconnectionTimeout
           set_reconnectionTimeout set_next_timer set_timers].
      rewrite K1, K2, K3, K5, K9, G1, G2, G3, G5, G9, F1, F2, F3, F5, F9, <- !app_assoc.
      repeat split; try discriminate.
    + cbn [connected set_connected requests subscriptions trace timers reconnectionTimeout].
      rewrite G1, G2, G3, G5, G7, F1, F2, F3, F5, F7, <- !app_assoc.
      repeat split; try discriminate.
  - assert (H0 : forall x, requests (clearTimeout (connectedTimeout s1) x) = requests x
                           /\ subscriptions (clearTimeout (connectedTimeout s1) x) = subscriptions x
                           /\ trace (clearTimeout (connectedTimeout s1) x) = trace x
                           /\ reconnectionTimeout (clearTimeout (connectedTimeout s1) x)
                              = reconnectionTimeout x
                           /\ connected (clearTimeout (connectedTimeout s1) x) = connected x).
    { intros x. unfold clearTimeout. destruct (connectedTimeout s1); repeat split. }
    destruct (H0 s1) as (C1 & C2 & C3 & C4 & C5).
    rewrite C5, F4, Bool.andb_false_r.
    cbn [connected set_connected requests subscriptions trace timers reconnectionTimeout].
    rewrite C1, C2, C3, C4, F1, F3, F5, F7, F6.
    repeat split; try discriminate.
    unfold clearTimeout. destruct (connectedTimeout s); cbn [timers set_timers]; rewrite ?F2; reflexivity.
Qed.

(* ===================================================================== *)
(** * The connection: flag, socket and timers *)
(* ===================================================================== *)

Lemma calm_refl (s : ElectrumWS) : calm s s.
Proof. unfold calm. repeat split; auto. Qed.

Lemma calm_trans (s1 s2 s3 : ElectrumWS) : calm s1 s2 -> calm s2 s3 -> calm s1 s3.
Proof.
  unfold calm. intros (A1 & A2 & A3 & A4 & A5 & A6) (B1 & B2 & B3 & B4 & B5 & B6).
  split; [congruence|]. split; [congruence|]. split; [congruence|].
  split; [|split].
  - destruct B4 as [B4 | [B4 B4']].
    + rewrite B4. exact A4.
    + destruct A4 as [A4 | [A4 A4']].
      * right. split; [|exact B4']. unfold ws_open_or_connecting in *. rewrite <- A4. exact B4.
      * unfold ws_open_or_connecting in B4. rewrite A4' in B4. discriminate.
  - intros t a H. destruct (B5 t a H) as [H' | H']; [exact (A5 t a H') | right; exact H'].
  - intros event H1 H2 H. exact (B6 event H1 H2 (A6 event H1 H2 H)).
Qed.

(** Operations that touch none of the fields [calm] speaks of. *)
Lemma calm_eq (s s' : ElectrumWS) :
  connected s' = connected s -> connectedTimeout s' = connectedTimeout s ->
  reconnectionTimeout s' = reconnectionTimeout s -> ws s' = ws s ->
  timers s' = timers s -> listeners s' = listeners s -> calm s s'.
Proof.
  intros H1 H2 H3 H4 H5 H6. unfold calm. rewrite H1, H2, H3, H4, H5, H6.
  repeat split; auto.
Qed.

Lemma linked_calm (s s' : ElectrumWS) : calm s s' -> linked s -> linked s'.
Proof.
  intros (C1 & C2 & C3 & C4 & C5 & C6) [L1 L2 L3 L4].
  assert (Hopen : socket_open s -> socket_open s').
  { unfold socket_open. intros Ho. destruct C4 as [C4 | [_ C4]]; [rewrite C4; exact Ho|].
    right. exact C4. }
  constructor.
  - intros t Hin. destruct (C5 _ _ Hin) as [Ho | Ho]; [|discriminate].
    destruct (L1 t Ho) as (H1 & H2 & H3). rewrite C1, C2. auto.
  - intros t Hin. destruct (C5 _ _ Hin) as [Ho | Ho]; [|discriminate].
    destruct (L2 t Ho) as (H1 & H2). rewrite C3. split; [exact H1|].
    destruct C4 as [C4 | [C4 _]]; [rewrite C4; exact H2|].
    unfold ws_open_or_connecting in C4. rewrite H2 in C4. discriminate.
  - rewrite C1. intros Hc. exact (Hopen (L3 Hc)).
  - intros event H1 H2. exact (C6 event H1 H2 (L4 event H1 H2)).
Qed.

Lemma calm_clearTimeout (t : option TimerId) (s : ElectrumWS) : calm s (clearTimeout t s).
Proof.
  destruct t as [t|]; [|apply calm_refl]. unfold calm. cbn.
  repeat split; auto. intros t' a H. left. apply timers_delete_In in H. apply H.
Qed.

Lemma calm_settle (p : PromiseId) (o : Outcome) (s : ElectrumWS) : calm s (settle p o s).
Proof.
  unfold settle.
  destruct (Map_get Nat.eqb (reactions (emit _ s)) p); [|apply calm_eq; reflexivity].
  destruct (negb (settled p (trace s))); apply calm_eq; reflexivity.
Qed.

Lemma off_keeps_empty {C : Type} (ls : Observable.Listeners C) (e event : string) (id : nat) :
  Observable.callbacks_of ls event = [] ->
  Observable.callbacks_of (Observable.off ls e id) event = [].
Proof.
  intros H. destruct (String.eqb event e) eqn:E.
  - apply String.eqb_eq in E. subst e. rewrite callbacks_of_off, H. reflexivity.
  - apply String.eqb_neq in E. unfold Observable.callbacks_of in *.
    rewrite (off_other ls e event id E). exact H.
Qed.

Lemma fire_loop_keeps_empty {C : Type} (a : list (option (Observable.Func C))) (event : string) :
  forall ls : Observable.Listeners C,
    Observable.callbacks_of ls event = [] ->
    Observable.callbacks_of (fst (Observable.fire_loop ls a)) event = [].
Proof.
  induction a as [|f a IH]; intros ls H; [exact H|].
  destruct f as [[c|e id c]|]; cbn [Observable.fire_loop].
  - specialize (IH ls H). destruct (Observable.fire_loop ls a). exact IH.
  - specialize (IH _ (off_keeps_empty ls e event id H)).
    destruct (Observable.fire_loop _ a). exact IH.
  - exact (IH ls H).
Qed.

Lemma calm_fire (event : string) (payload : option json) (s : ElectrumWS) :
  calm s (fire event payload s).
Proof.
  unfold fire.
  pose proof (fun ev => fire_loop_keeps_empty
                (Observable.callbacks_of (listeners (emit (Fire event payload) s)) event)
                ev (listeners (emit (Fire event payload) s))) as Hk.
  unfold Observable.fire.
  destruct (Observable.fire_loop _ _) as [ls woken]. cbn [fst] in Hk.
  unfold calm. cbn. repeat split; auto.
Qed.

Lemma calm_once (event : string) (w : Waiter) (s : ElectrumWS) :
  event = CONNECTED \/ event = CLOSE -> calm s (once event w s).
Proof.
  intros He. unfold calm, once.
  cbn [connected connectedTimeout reconnectionTimeout ws timers listeners set_listeners].
  repeat split; auto.
  intros ev H1 H2 H. unfold Observable.once, Observable.callbacks_of in *.
  rewrite on_other; [exact H|]. destruct He; congruence.
Qed.

Lemma calm_ws_close (c : Z) (reason : string) (s : ElectrumWS) : calm s (ws_close c reason s).
Proof.
  unfold ws_close. destruct (ws_open_or_connecting s) eqn:E; [|apply calm_eq; reflexivity].
  unfold calm. cbn. repeat split; auto.
Qed.

Lemma calm_create (id : Z) (method : string) (s : ElectrumWS) :
  calm s (fst (createRequestPromise id method s)).
Proof.
  unfold calm. cbn. repeat split; auto.
  intros t a H. apply in_app_or in H. destruct H as [H | [H | []]]; [left; exact H|].
  inversion H. right. reflexivity.
Qed.

Lemma calm_request_send (id : Z) (method : string) (params : list json) (s : ElectrumWS) :
  calm s (fst (request_send id method params s)).
Proof. exact (calm_create id method s). Qed.

Lemma calm_request (method : string) (params : list json) (draws rest : list Z)
    (s s' : ElectrumWS) (p : option PromiseId) :
  request method params draws s = Some (s', p, rest) -> calm s s'.
Proof.
  unfold request. destruct (random_id (requests s) draws) as [[id d]|]; [|discriminate].
  destruct (negb (connected s)); intros H; inversion H; subst.
  - apply calm_once. left. reflexivity.
  - apply calm_request_send.
Qed.

Lemma calm_create_all (pls : list Payload) : forall (s : ElectrumWS) (acc : list PromiseId),
  calm s (fst (fold_left
                 (fun '(s, ps) pl =>
                    let '(s, p) := createRequestPromise (pl_id pl) (pl_method pl) s in
                    (s, ps ++ [p])) pls (s, acc))).
Proof.
  induction pls as [|pl pls IH]; intros s acc; [apply calm_refl|].
  cbn [fold_left].
  rewrite (surjective_pairing (createRequestPromise (pl_id pl) (pl_method pl) s)).
  eapply calm_trans; [apply (calm_create (pl_id pl) (pl_method pl) s) | apply IH].
Qed.

Lemma calm_send_all (pls : list Payload) : forall s : ElectrumWS, calm s (send_all pls s).
Proof.
  unfold send_all. induction pls as [|pl pls IH]; intros s; [apply calm_refl|].
  cbn [fold_left]. eapply calm_trans; [|apply IH]. apply calm_eq; reflexivity.
Qed.

Lemma calm_batch_send (reqs : list (string * list json)) (draws : list Z)
    (s s' : ElectrumWS) (ps : list PromiseId) :
  batch_send reqs draws s = Some (s', ps) -> calm s s'.
Proof.
  unfold batch_send. destruct (random_id (requests s) draws) as [[id d]|]; [|discriminate].
  pose proof (calm_create_all (batch_payloads id reqs) s []) as H1.
  unfold create_all. destruct (fold_left _ (batch_payloads id reqs) (s, [])) as [s1 ps1].
  intros H. inversion H; subst. eapply calm_trans; [exact H1 | apply calm_send_all].
Qed.

Lemma calm_subscribe (replay : bool) (method : string) (callback : Callback)
    (params : list json) (draws rest : list Z) (s s' : ElectrumWS) :
  subscribe replay method callback params draws s = Some (s', rest) -> calm s s'.
Proof.
  unfold subscribe. intros H.
  set (s1 := set_subscriptions _ s) in H.
  assert (H1 : calm s s1) by (apply calm_eq; reflexivity).
  destruct (negb (connected s1)); [inversion H; subst; exact H1|].
  destruct (request (method ++ ".subscribe")%string params draws s1)
    as [[[s2 [p|]] d]|] eqn:E; [| |discriminate]; inversion H; subst;
    apply (calm_trans _ _ _ H1); apply calm_request in E.
  - eapply calm_trans; [exact E | apply calm_eq; reflexivity].
  - exact E.
Qed.

Lemma calm_unsubscribe (method : string) (params : list json) (draws rest : list Z)
    (s s' : ElectrumWS) (p : option PromiseId) :
  unsubscribe method params draws s = Some (s', p, rest) -> calm s s'.
Proof.
  unfold unsubscribe. intros H.
  set (s1 := set_subscriptions _ s) in H.
  assert (H1 : calm s s1) by (apply calm_eq; reflexivity).
  destruct (Map_has String.eqb (subscriptions s) (subscriptionKey method params)).
  - exact (calm_trans _ _ _ H1 (calm_request _ _ _ _ _ _ _ H)).
  - inversion H; subst. exact H1.
Qed.

Lemma calm_close_entry (reason : string) (s : ElectrumWS) (e : Z * Request) :
  calm s (close_entry reason s e).
Proof.
  destruct e as [id r]. unfold close_entry.
  eapply calm_trans; [|apply calm_settle].
  eapply calm_trans; [apply (calm_clearTimeout (Some (req_timeout r)))|].
  apply calm_eq; reflexivity.
Qed.

Lemma calm_close_entries (reason : string) (entries : list (Z * Request)) :
  forall s : ElectrumWS, calm s (fold_left (close_entry reason) entries s).
Proof.
  induction entries as [|e entries IH]; intros s; [apply calm_refl|].
  cbn [fold_left]. eapply calm_trans; [apply calm_close_entry | apply IH].
Qed.

Lemma calm_close (h : Heap) (reason : string) (s : ElectrumWS) :
  calm s (snd (close h reason s)).
Proof.
  unfold close.
  set (s1 := fold_left (close_entry reason) (requests s) s).
  assert (H1 : calm s s1) by apply calm_close_entries.
  set (s2 := clearTimeout (reconnectionTimeout s1) s1).
  assert (H2 : calm s s2) by (eapply calm_trans; [exact H1 | apply calm_clearTimeout]).
  destruct (ws_open_or_connecting s2); cbn [snd].
  - eapply calm_trans; [exact H2|].
    eapply calm_trans; [apply (calm_once CLOSE AwaitClose); right; reflexivity|].
    apply calm_ws_close.
  - eapply calm_trans; [exact H2 | apply calm_eq; reflexivity].
Qed.

Lemma calm_dispatch_response (response : json) (s : ElectrumWS) :
  calm s (dispatch_response response s).
Proof.
  unfold dispatch_response.
  destruct (get "id" response) as [[ | |id| | | ]|]; try apply calm_refl.
  destruct (Map_get Z.eqb (requests s) id) as [request|]; [|apply calm_refl].
  set (s1 := set_requests _ _).
  assert (H1 : calm s s1).
  { eapply calm_trans; [apply (calm_clearTimeout (Some (req_timeout request)))|].
    apply calm_eq; reflexivity. }
  destruct (get "result" response); [|destruct (truthy (get "error" response))];
    (eapply calm_trans; [exact H1 | apply calm_settle]).
Qed.

Lemma calm_dispatch_push (response : json) (s : ElectrumWS) :
  calm s (fst (dispatch_push response s)).
Proof.
  unfold dispatch_push.
  destruct (get "method" response) as [[ | | |m| | ]|]; try apply calm_refl.
  destruct (endsWith m "subscribe"); [|apply calm_refl].
  match goal with |- context [Map_get String.eqb (subscriptions s) ?k] =>
    destruct (Map_get String.eqb (subscriptions s) k) end; [|apply calm_refl].
  destruct (spread (push_params response)); [apply calm_eq; reflexivity | apply calm_refl].
Qed.

Lemma calm_onRequestTimeout (id : Z) (method : string) (p : PromiseId) (s : ElectrumWS) :
  calm s (onRequestTimeout id method p s).
Proof.
  unfold onRequestTimeout. eapply calm_trans; [|apply calm_settle]. apply calm_eq; reflexivity.
Qed.

Lemma calm_resubscribe (fuel : nat) :
  forall (i : nat) (draws rest : list Z) (s s' : ElectrumWS),
    resubscribe fuel i draws s = Some (s', rest) -> calm s s'.
Proof.
  induction fuel as [|fuel IH]; intros i draws rest s s' H; [discriminate|].
  cbn [resubscribe] in H.
  destruct (nth_error (subscriptions s) i) as [[key callback]|];
    [|inversion H; subst; apply calm_refl].
  unfold resubscribe_entry in H.
  destruct (replay_call key) as [[method params]|].
  - destruct (subscribe true method callback params draws s) as [[s1 d1]|] eqn:E; [|discriminate].
    exact (calm_trans _ _ _ (calm_subscribe _ _ _ _ _ _ _ _ E) (IH _ _ _ _ _ H)).
  - exact (IH _ _ _ _ _ H).
Qed.

Lemma calm_run_job (j : Job) (s s' : ElectrumWS) : run_job j s = Some s' -> calm s s'.
Proof.
  destruct j as [[id method params|reqs draws|]|[callback params replay] [v|e]|];
    cbn [run_job]; intros H.
  - inversion H; subst. apply calm_request_send.
  - destruct (batch_send reqs draws s) as [[s1 ps]|] eqn:E; [|discriminate].
    inversion H; subst. exact (calm_batch_send _ _ _ _ _ E).
  - inversion H; subst. apply calm_eq; reflexivity.
  - destruct replay; inversion H; subst; apply calm_eq; reflexivity.
  - destruct replay; inversion H; subst.
    + destruct (ws_open_or_connecting s); [apply calm_ws_close | apply calm_refl].
    + apply calm_eq; reflexivity.
  - inversion H; subst. apply calm_eq; reflexivity.
Qed.

Lemma calm_run_jobs (js : list Job) : forall s s' : ElectrumWS,
  run_jobs js s = Some s' -> calm s s'.
Proof.
  induction js as [|j js IH]; intros s s' H; cbn [run_jobs] in H.
  - inversion H; subst. apply calm_refl.
  - destruct (run_job j s) as [s1|] eqn:E; [|discriminate].
    exact (calm_trans _ _ _ (calm_run_job _ _ _ E) (IH _ _ H)).
Qed.

Section Connection.
Variable JSON_parse : string -> option json.

Lemma calm_onMessage_line (line : string) (s s' : ElectrumWS) (threw : bool) :
  onMessage_line JSON_parse line s = Some (s', threw) -> calm s s'.
Proof.
  unfold onMessage_line. rewrite parseLine_eq. intros H.
  assert (Hset : forall b, calm s (set_incompleteMessage b s))
    by (intros b; apply calm_eq; reflexivity).
  assert (Hmsg : forall response,
            calm s (fst (dispatch_push response
                           (dispatch_response response
                              (fire MESSAGE (Some response)
                                 (set_incompleteMessage EmptyString s)))))).
  { intros response.
    eapply calm_trans; [apply (Hset EmptyString)|].
    eapply calm_trans; [apply calm_fire|].
    eapply calm_trans; [apply calm_dispatch_response | apply calm_dispatch_push]. }
  destruct (recognized JSON_parse line) as [response|].
  - inversion H as [H2]. specialize (Hmsg response). rewrite H2 in Hmsg. exact Hmsg.
  - destruct (_ && _).
    + destruct (recognized JSON_parse _) as [response|].
      * inversion H as [H2]. specialize (Hmsg response). rewrite H2 in Hmsg. exact Hmsg.
      * inversion H; subst. apply Hset.
    + inversion H; subst. apply Hset.
Qed.

Lemma calm_onMessage_lines (lines : list string) : forall (s s' : ElectrumWS) (threw : bool),
  onMessage_lines JSON_parse lines s = Some (s', threw) -> calm s s'.
Proof.
  induction lines as [|line lines IH]; intros s s' threw H; cbn [onMessage_lines] in H.
  - inversion H; subst. apply calm_refl.
  - destruct (onMessage_line JSON_parse line s) as [[s1 [|]]|] eqn:E; [| |discriminate].
    + inversion H; subst. exact (calm_onMessage_line _ _ _ _ E).
    + exact (calm_trans _ _ _ (calm_onMessage_line _ _ _ _ E) (IH _ _ _ H)).
Qed.
End Connection.

Lemma calm_closed (x y : ElectrumWS) : calm x y -> ws x = CLOSED -> ws y = CLOSED.
Proof.
  intros (_ & _ & _ & [H | [H _]] & _) Hx; [congruence|].
  unfold ws_open_or_connecting in H. rewrite Hx in H. discriminate.
Qed.

Lemma calm_timers (x y : ElectrumWS) (t : TimerId) (a : TimerAction) :
  calm x y -> request_action a = false -> In (t, a) (timers y) -> In (t, a) (timers x).
Proof.
  intros (_ & _ & _ & _ & H & _) Ha Hin. destruct (H t a Hin) as [H' | H']; [exact H'|].
  congruence.
Qed.

Lemma linked_onOpen (s : ElectrumWS) :
  linked s -> ws s = CONNECTING -> linked (onOpen (set_ws OPEN_ s)).
Proof.
  intros [L1 L2 L3 L4] Hws. unfold onOpen.
  set (x := set_ws OPEN_ s).
  set (s1 := fire OPEN None x).
  assert (Hc : calm x s1) by apply calm_fire.
  assert (Hnot : forall P : Prop, socket_open s -> P).
  { intros P [H | H]; rewrite Hws in H; discriminate. }
  assert (Hconn : connected s = false).
  { destruct (connected s) eqn:E; [|reflexivity]. exact (Hnot _ (L3 eq_refl)). }
  destruct Hc as (C1 & C2 & C3 & C4 & C5 & C6).
  assert (Hws1 : socket_open s1).
  { destruct C4 as [C4 | [_ C4]]; [left; rewrite C4; reflexivity | right; exact C4]. }
  unfold setTimeout.
  constructor; cbn [timers connectedTimeout reconnectionTimeout connected ws listeners
                    set_connectedTimeout set_next_timer set_timers].
  - intros t Hin. apply in_app_or in Hin. destruct Hin as [Hin | [Hin | []]].
    + destruct (C5 _ _ Hin) as [Ho | Ho]; [|discriminate].
      destruct (L1 t Ho) as (_ & _ & Hopen). exact (Hnot _ Hopen).
    + inversion Hin; subst. split; [reflexivity|]. split; [|exact Hws1].
      rewrite C1. exact Hconn.
  - intros t Hin. apply in_app_or in Hin. destruct Hin as [Hin | [Hin | []]]; [|discriminate].
    destruct (C5 _ _ Hin) as [Ho | Ho]; [|discriminate].
    destruct (L2 t Ho) as (_ & Hcl). cbn in Hcl. congruence.
  - rewrite C1. cbn. rewrite Hconn. discriminate.
  - intros event H1 H2. exact (C6 event H1 H2 (L4 event H1 H2)).
Qed.

Lemma linked_onClose (h : Heap) (s : ElectrumWS) :
  linked s -> ws s <> CLOSED -> linked (onClose h (set_ws CLOSED s)).
Proof.
  intros [L1 L2 L3 L4] Hws. unfold onClose.
  set (x := set_ws CLOSED s).
  set (s0 := fire CLOSE None x).
  assert (H0 : calm x s0) by apply calm_fire.
  set (s1 := if negb (connected s0) then clearTimeout (connectedTimeout s0) s0
             else fire DISCONNECTED None s0).
  assert (H1 : calm x s1).
  { apply (calm_trans _ s0 _ H0). subst s1.
    destruct (negb (connected s0)); [apply calm_clearTimeout | apply calm_fire]. }
  assert (Hno_settle : forall t, ~ In (t, ConnectedTimeout) (timers s1)).
  { intros t Hin. subst s1. destruct H0 as (C1 & C2 & _).
    destruct (connected s0) eqn:E; cbn [negb] in Hin.
    - apply (calm_timers s0 _ t ConnectedTimeout (calm_fire _ _ _) eq_refl) in Hin.
      apply (calm_timers x s0 t ConnectedTimeout (calm_fire _ _ _) eq_refl) in Hin.
      destruct (L1 t Hin) as (_ & Hf & _). cbn in C1. congruence.
    - unfold clearTimeout in Hin. destruct (connectedTimeout s0) as [t0|] eqn:Et.
      + cbn [timers set_timers] in Hin. apply timers_delete_In in Hin. destruct Hin as [Hin Hne].
        apply (calm_timers x s0 t ConnectedTimeout (calm_fire _ _ _) eq_refl) in Hin.
        destruct (L1 t Hin) as (Hh & _). cbn in C2. congruence.
      + apply (calm_timers x s0 t ConnectedTimeout (calm_fire _ _ _) eq_refl) in Hin.
        destruct (L1 t Hin) as (Hh & _). cbn in C2. congruence. }
  assert (Hno_reconnect : forall t, ~ In (t, ReconnectTimeout) (timers s1)).
  { intros t Hin. apply (calm_timers x s1 t ReconnectTimeout H1 eq_refl) in Hin.
    destruct (L2 t Hin) as (_ & Hcl). exact (Hws Hcl). }
  assert (Hcl1 : ws s1 = CLOSED) by (apply (calm_closed x s1 H1); reflexivity).
  assert (Hev1 : forall event, event <> CONNECTED -> event <> CLOSE ->
                   Observable.callbacks_of (listeners s1) event = []).
  { intros event E1 E2. destruct H1 as (_ & _ & _ & _ & _ & C6).
    exact (C6 event E1 E2 (L4 event E1 E2)). }
  destruct (reconnect (h (options s1)) && connected s1).
  - set (s2 := fire RECONNECTING None s1).
    assert (H2 : calm s1 s2) by apply calm_fire.
    unfold setTimeout.
    constructor; cbn [timers connectedTimeout reconnectionTimeout connected ws listeners
                      set_connected set_reconnectionTimeout set_next_timer set_timers].
    + intros t Hin. apply in_app_or in Hin. destruct Hin as [Hin | [Hin | []]]; [|discriminate].
      apply (calm_timers s1 s2 t ConnectedTimeout H2 eq_refl) in Hin. destruct (Hno_settle t Hin).
    + intros t Hin. apply in_app_or in Hin. destruct Hin as [Hin | [Hin | []]].
      * apply (calm_timers s1 s2 t ReconnectTimeout H2 eq_refl) in Hin.
        destruct (Hno_reconnect t Hin).
      * inversion Hin; subst. split; [reflexivity|]. exact (calm_closed s1 s2 H2 Hcl1).
    + discriminate.
    + intros event E1 E2. destruct H2 as (_ & _ & _ & _ & _ & C6).
      exact (C6 event E1 E2 (Hev1 event E1 E2)).
  - constructor; cbn [timers connectedTimeout reconnectionTimeout connected ws listeners
                      set_connected].
    + intros t Hin. destruct (Hno_settle t Hin).
    + intros t Hin. destruct (Hno_reconnect t Hin).
    + discriminate.
    + exact Hev1.
Qed.

Lemma linked_onConnectedTimeout (draws : list Z) (t : TimerId) (s s' : ElectrumWS) :
  linked s -> In (t, ConnectedTimeout) (timers s) ->
  onConnectedTimeout draws (set_timers (Map_delete Nat.eqb (timers s) t) s) = Some s' ->
  linked s'.
Proof.
  intros [L1 L2 L3 L4] Hin H. destruct (L1 t Hin) as (Hh & Hc & Hopen).
  unfold onConnectedTimeout in H.
  set (x := set_connected true (set_timers (Map_delete Nat.eqb (timers s) t) s)) in H.
  set (s0 := fire CONNECTED None x) in H.
  destruct (resubscribe (resubscribe_fuel s0) 0 draws s0) as [[s1 d]|] eqn:E; [|discriminate].
  cbn in H. inversion H; subst s1. clear H.
  apply (linked_calm x).
  { eapply calm_trans; [apply calm_fire | exact (calm_resubscribe _ _ _ _ _ _ E)]. }
  constructor; cbn [x timers connectedTimeout reconnectionTimeout connected ws listeners
                    set_connected set_timers].
  - intros t' Hin'. apply timers_delete_In in Hin'. destruct Hin' as [Hin' Hne].
    destruct (L1 t' Hin') as (Hh' & _). congruence.
  - intros t' Hin'. apply timers_delete_In in Hin'. destruct Hin' as [Hin' _].
    destruct (L2 t' Hin') as (_ & Hcl). destruct Hopen as [Ho | Ho]; congruence.
  - intros _. exact Hopen.
  - exact L4.
Qed.

Lemma linked_reconnect (h : Heap) (t : TimerId) (s : ElectrumWS) :
  linked s -> In (t, ReconnectTimeout) (timers s) ->
  linked (connect h (set_timers (Map_delete Nat.eqb (timers s) t) s)).
Proof.
  intros [L1 L2 L3 L4] Hin. destruct (L2 t Hin) as (Hh & Hcl).
  assert (Hconn : connected s = false).
  { destruct (connected s) eqn:E; [|reflexivity].
    destruct (L3 eq_refl) as [Ho | Ho]; congruence. }
  unfold connect.
  constructor; cbn [emit timers connectedTimeout reconnectionTimeout connected ws listeners
                    set_trace set_ws set_timers].
  - intros t' Hin'. apply timers_delete_In in Hin'. destruct Hin' as [Hin' _].
    destruct (L1 t' Hin') as (_ & _ & [Ho | Ho]); congruence.
  - intros t' Hin'. apply timers_delete_In in Hin'. destruct Hin' as [Hin' Hne].
    destruct (L2 t' Hin') as (Hh' & _). congruence.
  - rewrite Hconn. discriminate.
  - exact L4.
Qed.

Section ConnectionInvariant.
Variable JSON_parse : string -> option json.

Lemma linked_task (ev : Event) (h h' : Heap) (s s' : ElectrumWS) :
  task JSON_parse ev h s = Some (h', s') -> linked s -> linked s'.
Proof.
  destruct ev as [method params draws|reqs draws|method callback params draws
                  |method params draws|reason| |data|error| |t draws];
    cbn [task]; intros H Hl.
  - destruct (request method params draws s) as [[[s1 p] d]|] eqn:E; [|discriminate].
    inversion H; subst. exact (linked_calm _ _ (calm_request _ _ _ _ _ _ _ E) Hl).
  - unfold batchRequest in H.
    destruct (negb (connected s)).
    + inversion H; subst. apply (linked_calm s); [|exact Hl].
      apply calm_once. left. reflexivity.
    + destruct (batch_send reqs draws s) as [[s1 ps]|] eqn:E; [|discriminate].
      inversion H; subst. exact (linked_calm _ _ (calm_batch_send _ _ _ _ _ E) Hl).
  - destruct (subscribe false method callback params draws s) as [[s1 d]|] eqn:E; [|discriminate].
    inversion H; subst. exact (linked_calm _ _ (calm_subscribe _ _ _ _ _ _ _ _ E) Hl).
  - destruct (unsubscribe method params draws s) as [[[s1 p] d]|] eqn:E; [|discriminate].
    inversion H; subst. exact (linked_calm _ _ (calm_unsubscribe _ _ _ _ _ _ _ E) Hl).
  - inversion H as [H1]. rewrite (surjective_pairing (close h reason s)) in H1.
    inversion H1; subst. exact (linked_calm _ _ (calm_close h reason s) Hl).
  - destruct (ws s) eqn:Hws; try discriminate. inversion H; subst.
    exact (linked_onOpen s Hl Hws).
  - destruct (ws s); try discriminate;
      (destruct (onMessage JSON_parse data s) as [[s1 b]|] eqn:E; [|discriminate];
       inversion H; subst; exact (linked_calm _ _ (calm_onMessage_lines _ _ _ _ _ E) Hl)).
  - inversion H; subst. destruct error; [|exact Hl].
    exact (linked_calm _ _ (calm_fire _ _ _) Hl).
  - destruct (ws s) eqn:Hws; try discriminate; inversion H; subst;
      (apply linked_onClose; [exact Hl | congruence]).
  - destruct (Map_get Nat.eqb (timers s) t) as [a|] eqn:Et; [|discriminate].
    pose proof (timers_get_In _ _ _ Et) as Hin.
    destruct a as [id method p| |].
    + inversion H; subst. apply (linked_calm s); [|exact Hl].
      eapply calm_trans; [apply (calm_clearTimeout (Some t)) | apply calm_onRequestTimeout].
    + destruct (onConnectedTimeout draws _) as [s1|] eqn:E; [|discriminate].
      inversion H; subst. exact (linked_onConnectedTimeout _ _ _ _ Hl Hin E).
    + inversion H; subst. exact (linked_reconnect _ _ _ Hl Hin).
Qed.

Lemma reachable_linked (h : Heap) (s : ElectrumWS) : reachable JSON_parse h s -> linked s.
Proof.
  induction 1 as [h endpoint opts h' s Hc | h s ev h' s' Hr IH Hs | h s o Hr IH].
  - unfold constructor in Hc. cbn in Hc. inversion Hc; subst.
    unfold connect. constructor; cbn; try (intros; contradiction); try discriminate.
    reflexivity.
  - unfold step in Hs. cbn [fst snd] in Hs.
    destruct (task JSON_parse ev h s) as [[h1 s1]|] eqn:Et; [|discriminate].
    destruct (drain s1) as [s2|] eqn:Ed; [|discriminate].
    inversion Hs; subst. unfold drain in Ed.
    apply (linked_calm (set_jobs [] s1)); [exact (calm_run_jobs _ _ _ Ed)|].
    apply (linked_calm s1); [apply calm_eq; reflexivity|].
    exact (linked_task _ _ _ _ _ Et IH).
  - exact IH.
Qed.
End ConnectionInvariant.

Lemma mute_refl (s : ElectrumWS) : mute s s.
Proof.
  split; [apply calm_refl|]. split; [|intros j H; left; exact H].
  exists []. rewrite app_nil_r. split; [reflexivity | constructor].
Qed.

Lemma mute_trans (s1 s2 s3 : ElectrumWS) : mute s1 s2 -> mute s2 s3 -> mute s1 s3.
Proof.
  intros (A1 & (o1 & A2 & A3) & A4) (B1 & (o2 & B2 & B3) & B4).
  split; [exact (calm_trans _ _ _ A1 B1)|]. split.
  - exists (o1 ++ o2). rewrite B2, A2, app_assoc. split; [reflexivity|].
    apply Forall_app. split; assumption.
  - intros j H. destruct (B4 j H) as [H' | H']; [exact (A4 j H') | right; exact H'].
Qed.

(** Operations that neither write output nor queue a job. *)
Lemma mute_silent (s s' : ElectrumWS) :
  calm s s' -> trace s' = trace s -> jobs s' = jobs s -> mute s s'.
Proof.
  intros Hc Ht Hj. split; [exact Hc|]. split.
  - exists []. rewrite app_nil_r. split; [exact Ht | constructor].
  - intros j H. left. rewrite <- Hj. exact H.
Qed.

Lemma mute_emit (o : Output) (s : ElectrumWS) : failure o -> mute s (emit o s).
Proof.
  intros Ho. split; [apply calm_eq; reflexivity|]. split.
  - exists [o]. split; [reflexivity | constructor; [exact Ho | constructor]].
  - intros j H. left. exact H.
Qed.

Lemma mute_reject (p : PromiseId) (e : Error) (s : ElectrumWS) :
  mute s (settle p (Rejected e) s).
Proof.
  split; [apply calm_settle|]. split.
  - exists [Reject p e]. split; [apply settle_trace | constructor; [exact I | constructor]].
  - intros j. unfold settle.
    destruct (Map_get Nat.eqb (reactions (emit _ s)) p) as [r|]; [|intros H; left; exact H].
    destruct (negb (settled p (trace s))); [|intros H; left; exact H].
    cbn [jobs set_jobs emit set_trace]. intros H. apply in_app_or in H.
    destruct H as [H | [<- | []]]; [left; exact H | right; exact I].
Qed.

Lemma mute_clearTimeout (t : option TimerId) (s : ElectrumWS) : mute s (clearTimeout t s).
Proof.
  apply mute_silent; [apply calm_clearTimeout | |]; destruct t; reflexivity.
Qed.

Lemma mute_once (event : string) (w : Waiter) (s : ElectrumWS) :
  event = CONNECTED \/ event = CLOSE -> mute s (once event w s).
Proof. intros H. apply mute_silent; [apply calm_once; exact H | |]; reflexivity. Qed.

Lemma mute_request (method : string) (params : list json) (draws rest : list Z)
    (s s' : ElectrumWS) (p : option PromiseId) :
  connected s = false ->
  request method params draws s = Some (s', p, rest) -> mute s s'.
Proof.
  intros Hc. unfold request. destruct (random_id (requests s) draws) as [[id d]|]; [|discriminate].
  rewrite Hc. cbn [negb]. intros H. inversion H; subst. apply mute_once. left. reflexivity.
Qed.

Lemma mute_close_entries (reason : string) (entries : list (Z * Request)) :
  forall s : ElectrumWS, mute s (fold_left (close_entry reason) entries s).
Proof.
  induction entries as [|[id r] entries IH]; intros s; [apply mute_refl|].
  cbn [fold_left]. eapply mute_trans; [|apply IH].
  unfold close_entry. eapply mute_trans; [|apply mute_reject].
  eapply mute_trans; [apply (mute_clearTimeout (Some (req_timeout r)))|].
  apply mute_silent; [apply calm_eq; reflexivity | |]; reflexivity.
Qed.

Lemma mute_close (h : Heap) (reason : string) (s : ElectrumWS) :
  ws s = CLOSED -> mute s (snd (close h reason s)).
Proof.
  intros Hws. unfold close.
  set (s1 := fold_left (close_entry reason) (requests s) s).
  assert (H1 : mute s s1) by apply mute_close_entries.
  set (s2 := clearTimeout (reconnectionTimeout s1) s1).
  assert (H2 : mute s s2) by (eapply mute_trans; [exact H1 | apply mute_clearTimeout]).
  assert (Hcl : ws s2 = CLOSED) by exact (calm_closed s s2 (proj1 H2) Hws).
  unfold ws_open_or_connecting. rewrite Hcl. cbn [snd].
  eapply mute_trans; [exact H2|].
  split; [apply calm_eq; reflexivity|]. split.
  - exists []. rewrite app_nil_r. split; [reflexivity | constructor].
  - cbn [jobs set_jobs]. intros j H. apply in_app_or in H.
    destruct H as [H | [<- | []]]; [left; exact H | right; exact I].
Qed.

Lemma mute_onError (error : option string) (s : ElectrumWS) :
  Observable.callbacks_of (listeners s) ERROR = [] -> mute s (onError error s).
Proof.
  intros He. destruct error as [e|]; [|apply mute_refl]. cbn [onError].
  split; [apply calm_fire|]. split.
  - exists [Fire ERROR (Some (JStr e))].
    split; [apply fire_trace | constructor; [reflexivity | constructor]].
  - unfold fire, Observable.fire. cbn [listeners emit set_trace]. rewrite He.
    cbn [Observable.fire_loop jobs set_jobs set_listeners map]. rewrite app_nil_r.
    intros j H. left. exact H.
Qed.

Lemma mute_onRequestTimeout (id : Z) (method : string) (p : PromiseId) (s : ElectrumWS) :
  mute s (onRequestTimeout id method p s).
Proof.
  unfold onRequestTimeout. eapply mute_trans; [|apply mute_reject].
  apply mute_silent; [apply calm_eq; reflexivity | |]; reflexivity.
Qed.

Lemma mute_run_job (j : Job) (s s' : ElectrumWS) :
  failing j -> ws s = CLOSED -> run_job j s = Some s' -> mute s s'.
Proof.
  intros Hf Hws.
  destruct j as [w|[callback params replay] [v|e]|]; try destruct Hf; cbn [run_job]; intros H.
  - destruct replay; inversion H; subst.
    + unfold ws_open_or_connecting. rewrite Hws. apply mute_refl.
    + apply mute_emit. exact I.
  - inversion H; subst. apply mute_emit. exact I.
Qed.

Lemma mute_run_jobs (js : list Job) : forall s s' : ElectrumWS,
  Forall failing js -> ws s = CLOSED -> run_jobs js s = Some s' -> mute s s'.
Proof.
  induction js as [|j js IH]; intros s s' Hf Hws H; cbn [run_jobs] in H.
  - inversion H; subst. apply mute_refl.
  - destruct (run_job j s) as [s1|] eqn:E; [|discriminate].
    inversion Hf as [|? ? Hj Hjs]; subst.
    pose proof (mute_run_job _ _ _ Hj Hws E) as H1.
    exact (mute_trans _ _ _ H1 (IH _ _ Hjs (calm_closed _ _ (proj1 H1) Hws) H)).
Qed.

(** What [mute] keeps of a dead session: everything but the queue. *)
Lemma dead_mute (s s' : ElectrumWS) :
  dead s -> mute s s' ->
  ws s' = CLOSED /\ connected s' = false
  /\ (forall t a, In (t, a) (timers s') -> request_action a = true)
  /\ (forall event, event <> CONNECTED -> event <> CLOSE ->
        Observable.callbacks_of (listeners s') event = [])
  /\ Forall failing (jobs s').
Proof.
  intros (D1 & D2 & D3 & D4 & D5) (Hc & _ & Hj).
  split; [exact (calm_closed _ _ Hc D1)|].
  destruct Hc as (C1 & _ & _ & _ & C5 & C6).
  split; [congruence|]. split; [|split].
  - intros t a H. destruct (C5 t a H) as [H' | H']; [exact (D4 t a H') | exact H'].
  - intros event E1 E2. exact (C6 event E1 E2 (D5 event E1 E2)).
  - apply Forall_forall. intros j H. destruct (Hj j H) as [H' | H']; [|exact H'].
    rewrite D3 in H'. destruct H'.
Qed.

Section DeadSession.
Variable JSON_parse : string -> option json.

Lemma dead_task (ev : Event) (h h' : Heap) (s s' : ElectrumWS) :
  dead s -> task JSON_parse ev h s = Some (h', s') -> mute s s'.
Proof.
  intros (D1 & D2 & D3 & D4 & D5).
  destruct ev as [method params draws|reqs draws|method callback params draws
                  |method params draws|reason| |data|error| |t draws];
    cbn [task]; intros H.
  - destruct (request method params draws s) as [[[s1 p] d]|] eqn:E; [|discriminate].
    inversion H; subst. exact (mute_request _ _ _ _ _ _ _ D2 E).
  - unfold batchRequest in H. rewrite D2 in H. cbn [negb] in H.
    inversion H; subst. apply mute_once. left. reflexivity.
  - unfold subscribe in H. cbn [connected set_subscriptions] in H. rewrite D2 in H.
    cbn [negb] in H. inversion H; subst.
    apply mute_silent; [apply calm_eq; reflexivity | |]; reflexivity.
  - unfold unsubscribe in H.
    set (s1 := set_subscriptions _ s) in H.
    assert (H1 : mute s s1) by (apply mute_silent; [apply calm_eq; reflexivity | |]; reflexivity).
    destruct (Map_has String.eqb (subscriptions s) (subscriptionKey method params)).
    + destruct (request _ params draws s1) as [[[s2 p] d]|] eqn:E; [|discriminate].
      inversion H; subst.
      exact (mute_trans _ _ _ H1 (mute_request _ _ _ _ s1 _ _ D2 E)).
    + inversion H; subst. exact H1.
  - inversion H as [H1]. rewrite (surjective_pairing (close h reason s)) in H1.
    inversion H1; subst. exact (mute_close h reason s D1).
  - rewrite D1 in H. discriminate.
  - rewrite D1 in H. discriminate.
  - inversion H; subst. apply mute_onError. apply D5; discriminate.
  - rewrite D1 in H. discriminate.
  - destruct (Map_get Nat.eqb (timers s) t) as [a|] eqn:Et; [|discriminate].
    pose proof (D4 t a (timers_get_In _ _ _ Et)) as Ha.
    destruct a as [id method p| |]; try discriminate.
    inversion H; subst.
    eapply mute_trans; [apply (mute_clearTimeout (Some t)) | apply mute_onRequestTimeout].
Qed.

Lemma dead_step (ev : Event) (h h' : Heap) (s s' : ElectrumWS) :
  dead s -> step JSON_parse ev (h, s) = Some (h', s') ->
  dead s' /\ exists outs, trace s' = trace s ++ outs /\ Forall failure outs.
Proof.
  intros Hd Hs. unfold step in Hs. cbn [fst snd] in Hs.
  destruct (task JSON_parse ev h s) as [[h1 s1]|] eqn:Et; [|discriminate].
  destruct (drain s1) as [s2|] eqn:Ed; [|discriminate].
  inversion Hs; subst. unfold drain in Ed.
  pose proof (dead_task _ _ _ _ _ Hd Et) as H1.
  destruct (dead_mute _ _ Hd H1) as (W1 & _ & _ & _ & Hjobs).
  assert (H2 : mute s1 (set_jobs [] s1)).
  { split; [apply calm_eq; reflexivity|]. split.
    - exists []. rewrite app_nil_r. split; [reflexivity | constructor].
    - intros j []. }
  pose proof (mute_run_jobs (jobs s1) (set_jobs [] s1) s' Hjobs W1 Ed) as H3.
  pose proof (mute_trans _ _ _ H1 (mute_trans _ _ _ H2 H3)) as H4.
  destruct (dead_mute _ _ Hd H4) as (E1 & E2 & E3 & E4 & _).
  split; [|exact (proj1 (proj2 H4))].
  split; [exact E1|]. split; [exact E2|]. split; [|split; [exact E3 | exact E4]].
  destruct (run_jobs_keeps _ _ _ Ed) as (Hj & _). exact Hj.
Qed.
End DeadSession.

Lemma onClose_unconnected (h : Heap) (x : ElectrumWS) :
  connected x = false \/ reconnect (h (options x)) = false ->
  exists y, onClose h x = set_connected false y /\ calm x y.
Proof.
  intros Hx. unfold onClose.
  set (s0 := fire CLOSE None x).
  assert (H0 : calm x s0) by apply calm_fire.
  assert (O0 : options s0 = options x).
  { unfold s0, fire. destruct (Observable.fire _ _). reflexivity. }
  set (s1 := if negb (connected s0) then clearTimeout (connectedTimeout s0) s0
             else fire DISCONNECTED None s0).
  assert (H1 : calm x s1).
  { apply (calm_trans _ s0 _ H0). subst s1.
    destruct (negb (connected s0)); [apply calm_clearTimeout | apply calm_fire]. }
  assert (O1 : options s1 = options x).
  { subst s1. destruct (negb (connected s0)).
    - unfold clearTimeout. destruct (connectedTimeout s0); exact O0.
    - unfold fire. destruct (Observable.fire _ _). exact O0. }
  assert (Hcond : reconnect (h (options s1)) && connected s1 = false).
  { rewrite O1, (proj1 H1). destruct Hx as [-> | ->]; [apply andb_false_r | reflexivity]. }
  rewrite Hcond. exists s1. split; [reflexivity | exact H1].
Qed.

Section Dying.
Variable JSON_parse : string -> option json.

(** The close event of a socket that was not connected, or with the
    [reconnect] option off, leaves a dead session. *)
Lemma close_event_kills (h h' : Heap) (s s' : ElectrumWS) :
  reachable JSON_parse h s ->
  connected s = false \/ reconnect (h (options s)) = false ->
  step JSON_parse WsClosed (h, s) = Some (h', s') ->
  dead s'.
Proof.
  intros Hr Hx Hs.
  pose proof (reachable_linked JSON_parse h s Hr) as [_ L2 _ _].
  pose proof (reachable_step JSON_parse h s WsClosed h' s' Hr Hs) as Hr'.
  pose proof (reachable_invariant JSON_parse h' s' Hr') as [Hjobs _].
  pose proof (reachable_linked JSON_parse h' s' Hr') as [L1' _ _ L4'].
  unfold step in Hs. cbn [fst snd task] in Hs.
  assert (Hws : ws s <> CLOSED) by (intros E; rewrite E in Hs; discriminate).
  assert (Ht : Some (h, onClose h (set_ws CLOSED s))
               = match ws s with
                 | CLOSED => None
                 | _ => Some (h, onClose h (set_ws CLOSED s))
                 end).
  { destruct (ws s); try reflexivity. contradiction. }
  rewrite <- Ht in Hs. clear Ht.
  destruct (drain (onClose h (set_ws CLOSED s))) as [s2|] eqn:Ed; [|discriminate].
  inversion Hs; subst h' s2. clear Hs.
  destruct (onClose_unconnected h (set_ws CLOSED s) Hx) as (y & Hy & Hcy).
  rewrite Hy in Ed. unfold drain in Ed. cbn [jobs set_connected] in Ed.
  pose proof (calm_run_jobs _ _ _ Ed) as Hc2.
  assert (Wy : ws y = CLOSED) by (apply (calm_closed _ _ Hcy); reflexivity).
  assert (Ws' : ws s' = CLOSED) by (apply (calm_closed _ _ Hc2); exact Wy).
  split; [exact Ws'|]. split; [exact (proj1 Hc2)|]. split; [exact Hjobs|]. split; [|exact L4'].
  intros t a Hin. destruct a as [id m p| |]; [reflexivity | |].
  - destruct (L1' t Hin) as (_ & _ & [Ho | Ho]); congruence.
  - apply (calm_timers _ _ t ReconnectTimeout Hc2 eq_refl) in Hin.
    apply (calm_timers _ _ t ReconnectTimeout Hcy eq_refl) in Hin.
    destruct (L2 t Hin) as (_ & Hcl). contradiction.
Qed.
End Dying.

(** X22.  In every reachable state the connection flag, the socket and the
    timers of the connection agree.  A connected session has a socket that is
    open (its open event was delivered, its close event was not).  A live
    timer of [onOpen] is the one whose handle the session keeps; while it is
    live the session is not connected and the socket is open.  A live
    reconnection timer is the one whose handle the session keeps; while it is
    live the socket is closed and the session is not connected.  While the
    socket is connecting the session is not connected and only request timers
    are live. *)
Theorem connection_flag_socket_and_timers_agree
    (JSON_parse : string -> option json) (h : Heap) (s : ElectrumWS) :
  reachable JSON_parse h s ->
  (connected s = true -> socket_open s)
  /\ (forall t, Map_get Nat.eqb (timers s) t = Some ConnectedTimeout ->
        connectedTimeout s = Some t /\ connected s = false /\ socket_open s)
  /\ (forall t, Map_get Nat.eqb (timers s) t = Some ReconnectTimeout ->
        reconnectionTimeout s = Some t /\ ws s = CLOSED /\ connected s = false)
  /\ (ws s = CONNECTING ->
        connected s = false
        /\ forall t a, Map_get Nat.eqb (timers s) t = Some a -> request_action a = true).
Proof.
  intros Hr. pose proof (reachable_linked JSON_parse h s Hr) as [L1 L2 L3 L4].
  assert (Hflag : forall P : Prop, (socket_open s -> P) -> (connected s = false -> P) -> P).
  { intros P H1 H2. destruct (connected s) eqn:E; [exact (H1 (L3 eq_refl)) | exact (H2 eq_refl)]. }
  split; [exact L3|]. split; [|split].
  - intros t Ht. exact (L1 t (timers_get_In _ _ _ Ht)).
  - intros t Ht. destruct (L2 t (timers_get_In _ _ _ Ht)) as (H1 & H2).
    split; [exact H1|]. split; [exact H2|].
    apply Hflag; [|auto]. intros [Ho | Ho]; congruence.
  - intros Hws. split.
    + apply Hflag; [|auto]. intros [Ho | Ho]; congruence.
    + intros t a Ht. apply timers_get_In in Ht. destruct a as [id m p| |]; [reflexivity | |].
      * destruct (L1 t Ht) as (_ & _ & [Ho | Ho]); congruence.
      * destruct (L2 t Ht) as (_ & Hcl). congruence.
Qed.

Lemma connection_flag_socket_and_timers_agree_witness :
  let s := match after [WsOpened] with
           | Some s => s
           | None => snd session_start
           end in
  Map_get Nat.eqb (timers s) 0%nat = Some ConnectedTimeout
  /\ connectedTimeout s = Some 0%nat /\ connected s = false /\ socket_open s.
Proof.
  intros s.
  assert (Hrun : run json_parse [WsOpened] (fst session_start, snd session_start)
                 = Some (fst session_start, s)) by (vm_compute; reflexivity).
  pose proof (reachable_after _ _ _ Hrun) as Hr.
  destruct (connection_flag_socket_and_timers_agree json_parse (fst session_start) s Hr)
    as (_ & H2 & _).
  assert (Ht : Map_get Nat.eqb (timers s) 0%nat = Some ConnectedTimeout)
    by (vm_compute; reflexivity).
  split; [exact Ht | exact (H2 0%nat Ht)].
Defined.

(** X23.  The close event of a socket whose session is not connected (the
    first connection or a reconnection failed, or the socket closed before
    the timer of [onOpen] fired), or whose [reconnect] option is off, leaves
    the session dead, whatever the [reconnect] option in the first case: the
    socket is closed, the session is not connected, and no timer or listener
    is left that could open a socket. *)
Theorem close_before_connected_kills_the_session
    (JSON_parse : string -> option json) (h h' : Heap) (s s' : ElectrumWS) :
  reachable JSON_parse h s ->
  connected s = false \/ reconnect (h (options s)) = false ->
  step JSON_parse WsClosed (h, s) = Some (h', s') ->
  dead s'.
Proof. apply close_event_kills. Qed.

Lemma close_before_connected_kills_the_session_witness :
  let s' := match after [WsClosed] with
            | Some s => s
            | None => snd session_start
            end in
  reconnect (fst session_start (options (snd session_start))) = true /\ dead s'.
Proof.
  intros s'. split; [reflexivity|].
  assert (Hrun : run json_parse [] (fst session_start, snd session_start)
                 = Some (fst session_start, snd session_start)) by reflexivity.
  apply (close_before_connected_kills_the_session json_parse
           (fst session_start) (fst session_start) (snd session_start) s'
           (reachable_after _ _ _ Hrun)).
  - left. reflexivity.
  - vm_compute. reflexivity.
Defined.

(** X24.  A dead session stays dead, whatever is called on it and whatever
    happens: after every sequence of events it is dead, and all it has
    written is failures.  It opens no socket, sends no frame, fires no event
    but ERROR, resolves no request and calls no subscription callback; the
    requests made on it wait for a CONNECTED that is never fired. *)
Theorem dead_session_stays_offline
    (JSON_parse : string -> option json) (evs : list Event) :
  forall (h h' : Heap) (s s' : ElectrumWS),
    dead s ->
    run JSON_parse evs (h, s) = Some (h', s') ->
    dead s' /\ exists outs, trace s' = trace s ++ outs /\ Forall failure outs.
Proof.
  induction evs as [|ev evs IH]; intros h h' s s' Hd H; cbn [run] in H.
  - inversion H; subst. split; [exact Hd|]. exists []. rewrite app_nil_r.
    split; [reflexivity | constructor].
  - destruct (step JSON_parse ev (h, s)) as [[h1 s1]|] eqn:E; [|discriminate].
    destruct (dead_step JSON_parse _ _ _ _ _ Hd E) as (Hd1 & o1 & T1 & F1).
    destruct (IH _ _ _ _ Hd1 H) as (Hd2 & o2 & T2 & F2).
    split; [exact Hd2|]. exists (o1 ++ o2). rewrite T2, T1, app_assoc.
    split; [reflexivity | apply Forall_app; split; assumption].
Qed.

Lemma dead_session_stays_offline_witness :
  let s := match after [WsClosed] with
           | Some s => s
           | None => snd session_start
           end in
  let evs := [CallSubscribe "blockchain.headers" 1%nat [] [];
              CallRequest "blockchain.estimatefee" [JNum 1] [41];
              WsError (Some "refused"%string)] in
  let s' := match after (WsClosed :: evs) with
            | Some s => s
            | None => snd session_start
            end in
  dead s' /\ exists outs, trace s' = trace s ++ outs /\ Forall failure outs.
Proof.
  intros s evs s'.
  assert (Hrun : run json_parse [] (fst session_start, snd session_start)
                 = Some (fst session_start, snd session_start)) by reflexivity.
  assert (Hd : dead s).
  { apply (close_event_kills json_parse (fst session_start) (fst session_start)
             (snd session_start) s (reachable_after _ _ _ Hrun)).
    - left. reflexivity.
    - vm_compute. reflexivity. }
  apply (dead_session_stays_offline json_parse evs (fst session_start) (fst session_start)
           s s' Hd).
  vm_compute. reflexivity.
Defined.

(** X25.  The books of every reachable state.  The microtask queue is
    empty between two turns of the event loop; the table, the registry and
    the live timers have no key twice.  Every entry of the table has its own
    timer live, made for its id, method and promise, and its promise is not
    settled.  The promise of every live request timer is not settled, and
    timer and promise are among those handed out. *)
Theorem pending_requests_are_accounted_for
    (JSON_parse : string -> option json) (h : Heap) (s : ElectrumWS) :
  reachable JSON_parse h s ->
  jobs s = []
  /\ NoDup (map fst (requests s))
  /\ NoDup (map fst (subscriptions s))
  /\ NoDup (map fst (timers s))
  /\ (forall id r, Map_get Z.eqb (requests s) id = Some r ->
        settled (req_promise r) (trace s) = false
        /\ Map_get Nat.eqb (timers s) (req_timeout r)
           = Some (RequestTimeout id (req_method r) (req_promise r)))
  /\ (forall t id method p,
        Map_get Nat.eqb (timers s) t = Some (RequestTimeout id method p) ->
        settled p (trace s) = false /\ (t < next_timer s)%nat /\ (p < next_promise s)%nat).
Proof.
  intros Hr.
  destruct (reachable_invariant JSON_parse h s Hr) as (Hj & Hk1 & Hk2).
  pose proof (reachable_sound JSON_parse h s Hr) as Hs.
  split; [exact Hj|]. split; [exact Hk1|]. split; [exact Hk2|].
  split; [exact (timers_distinct s Hs)|]. split.
  - intros id r Hget.
    exact (reachable_entry_unsettled JSON_parse h s id r Hr (Map_get_In _ _ _ Hget)).
  - intros t id method p Ht. pose proof (timers_get_In _ _ _ Ht) as Hin.
    destruct (pending_unsettled s Hs t id method p Hin) as [H1 H2].
    split; [exact H1|]. split; [exact (timers_made s Hs _ _ Hin) | exact H2].
Qed.

Lemma pending_requests_are_accounted_for_witness :
  Map_get Z.eqb (requests two_pending) 42
  = Some {| req_promise := 1%nat; req_method := "blockchain.block.header";
            req_timeout := 2%nat |}
  /\ settled 1%nat (trace two_pending) = false
  /\ Map_get Nat.eqb (timers two_pending) 2%nat
     = Some (RequestTimeout 42 "blockchain.block.header" 1%nat).
Proof.
  assert (Hrun : run json_parse [WsOpened; TimerFires 0%nat [];
                                 CallRequest "blockchain.estimatefee" [JNum 1] [41];
                                 CallRequest "blockchain.block.header" [JNum 1] [42]]
                   (fst session_start, snd session_start)
                 = Some (fst session_start, two_pending)) by (vm_compute; reflexivity).
  destruct (pending_requests_are_accounted_for json_parse (fst session_start) two_pending
              (reachable_after _ _ _ Hrun)) as (_ & _ & _ & _ & H5 & _).
  assert (Hget : Map_get Z.eqb (requests two_pending) 42
                 = Some {| req_promise := 1%nat; req_method := "blockchain.block.header";
                           req_timeout := 2%nat |}) by (vm_compute; reflexivity).
  split; [exact Hget | exact (H5 42 _ Hget)].
Defined.

(** X26.  The replay of the subscriptions ends, although the loop goes
    over the registry while [subscribe] adds to it: with distinct free draws,
    two for each entry, the timer of [onOpen] returns, and the session is
    connected. *)
Theorem replay_loop_ends (s : ElectrumWS) (draws : list Z) :
  NoDup draws ->
  Forall (fun id => Map_has Z.eqb (requests s) id = false) draws ->
  (2 * length (subscriptions s) <= length draws)%nat ->
  exists s', onConnectedTimeout draws s = Some s' /\ connected s' = true.
Proof. apply onConnectedTimeout_total. Qed.

Lemma replay_loop_ends_witness :
  let s := match after [CallSubscribe "blockchain.scripthash" 1%nat [JStr "ab-cd"] [];
                        WsOpened] with
           | Some s => s
           | None => snd session_start
           end in
  exists s', onConnectedTimeout [1; 2] s = Some s' /\ connected s' = true.
Proof.
  intros s. apply (replay_loop_ends s [1; 2]).
  - repeat constructor; cbn; intuition discriminate.
  - repeat constructor.
  - vm_compute. lia.
Defined.

(* ===================================================================== *)
(** * The code awaiting a request: subscribe and its replay *)
(* ===================================================================== *)

Lemma keeps_refl (s : ElectrumWS) : keeps s s.
Proof. split; [lia | intros p r H; left; exact H]. Qed.

Lemma keeps_trans (s1 s2 s3 : ElectrumWS) : keeps s1 s2 -> keeps s2 s3 -> keeps s1 s3.
Proof.
  intros [A1 A2] [B1 B2]. split; [lia|]. intros p r H.
  destruct (B2 p r H) as [H' | H']; [|right; lia].
  destruct (A2 p r H') as [H'' | H'']; [left; exact H'' | right; lia].
Qed.

Lemma keeps_eq (s s' : ElectrumWS) :
  reactions s' = reactions s -> next_promise s' = next_promise s -> keeps s s'.
Proof. intros H1 H2. unfold keeps. rewrite H1, H2. split; [lia | intros p r H; left; exact H]. Qed.

Lemma made_keeps (s s' : ElectrumWS) : keeps s s' -> reactions_made s -> reactions_made s'.
Proof.
  intros [K1 K2] Hm p r H. destruct (K2 p r H) as [H' | H']; [|lia].
  specialize (Hm p r H'). lia.
Qed.

Lemma keeps_clearTimeout (t : option TimerId) (s : ElectrumWS) : keeps s (clearTimeout t s).
Proof. destruct t; apply keeps_eq; reflexivity. Qed.

Lemma keeps_settle (p : PromiseId) (o : Outcome) (s : ElectrumWS) : keeps s (settle p o s).
Proof.
  unfold settle.
  destruct (Map_get Nat.eqb (reactions (emit _ s)) p); [|apply keeps_eq; reflexivity].
  destruct (negb (settled p (trace s))); apply keeps_eq; reflexivity.
Qed.

Lemma keeps_fire (event : string) (payload : option json) (s : ElectrumWS) :
  keeps s (fire event payload s).
Proof. unfold fire. destruct (Observable.fire _ _). apply keeps_eq; reflexivity. Qed.

Lemma keeps_ws_close (c : Z) (reason : string) (s : ElectrumWS) : keeps s (ws_close c reason s).
Proof. unfold ws_close. destruct (ws_open_or_connecting s); apply keeps_eq; reflexivity. Qed.

Lemma keeps_create (id : Z) (method : string) (s : ElectrumWS) :
  keeps s (fst (createRequestPromise id method s)).
Proof. split; cbn; [lia | intros p r H; left; exact H]. Qed.

Lemma keeps_request (method : string) (params : list json) (draws rest : list Z)
    (s s' : ElectrumWS) (p : option PromiseId) :
  request method params draws s = Some (s', p, rest) -> keeps s s'.
Proof.
  unfold request. destruct (random_id (requests s) draws) as [[id d]|]; [|discriminate].
  destruct (negb (connected s)); intros H; inversion H; subst.
  - apply keeps_eq; reflexivity.
  - exact (keeps_create id method s).
Qed.

Lemma keeps_create_all (pls : list Payload) : forall (s : ElectrumWS) (acc : list PromiseId),
  keeps s (fst (fold_left
                  (fun '(s, ps) pl =>
                     let '(s, p) := createRequestPromise (pl_id pl) (pl_method pl) s in
                     (s, ps ++ [p])) pls (s, acc))).
Proof.
  induction pls as [|pl pls IH]; intros s acc; [apply keeps_refl|].
  cbn [fold_left].
  rewrite (surjective_pairing (createRequestPromise (pl_id pl) (pl_method pl) s)).
  eapply keeps_trans; [apply (keeps_create (pl_id pl) (pl_method pl) s) | apply IH].
Qed.

Lemma keeps_send_all (pls : list Payload) : forall s : ElectrumWS, keeps s (send_all pls s).
Proof.
  unfold send_all. induction pls as [|pl pls IH]; intros s; [apply keeps_refl|].
  cbn [fold_left]. eapply keeps_trans; [|apply IH]. apply keeps_eq; reflexivity.
Qed.

Lemma keeps_batch_send (reqs : list (string * list json)) (draws : list Z)
    (s s' : ElectrumWS) (ps : list PromiseId) :
  batch_send reqs draws s = Some (s', ps) -> keeps s s'.
Proof.
  unfold batch_send. destruct (random_id (requests s) draws) as [[id d]|]; [|discriminate].
  pose proof (keeps_create_all (batch_payloads id reqs) s []) as H1.
  unfold create_all. destruct (fold_left _ (batch_payloads id reqs) (s, [])) as [s1 ps1].
  intros H. inversion H; subst. eapply keeps_trans; [exact H1 | apply keeps_send_all].
Qed.

(** The promise that [request] returns is the one it has just made. *)
Lemma request_promise (method : string) (params : list json) (draws rest : list Z)
    (s s' : ElectrumWS) (p : PromiseId) :
  request method params draws s = Some (s', Some p, rest) ->
  p = next_promise s /\ next_promise s' = S (next_promise s) /\ reactions s' = reactions s.
Proof.
  unfold request. destruct (random_id (requests s) draws) as [[id d]|]; [|discriminate].
  destruct (negb (connected s)); intros H; inversion H; subst.
  repeat split.
Qed.

Lemma keeps_subscribe (replay : bool) (method : string) (callback : Callback)
    (params : list json) (draws rest : list Z) (s s' : ElectrumWS) :
  subscribe replay method callback params draws s = Some (s', rest) -> keeps s s'.
Proof.
  unfold subscribe. intros H.
  set (s1 := set_subscriptions _ s) in H.
  destruct (negb (connected s1)); [inversion H; subst; apply keeps_eq; reflexivity|].
  destruct (request (method ++ ".subscribe")%string params draws s1)
    as [[[s2 [p|]] d]|] eqn:E; [| |discriminate]; inversion H; subst.
  - destruct (request_promise _ _ _ _ _ _ _ E) as (Hp & Hn & Hr).
    split; cbn [next_promise reactions set_reactions].
    + rewrite Hn. cbn. lia.
    + intros p' r Hin. rewrite Hr in Hin. apply in_app_or in Hin.
      destruct Hin as [Hin | [Hin | []]]; [left; exact Hin|].
      inversion Hin; subst. right. rewrite Hn. cbn. lia.
  - exact (keeps_request _ _ _ _ _ _ _ E).
Qed.

Lemma keeps_unsubscribe (method : string) (params : list json) (draws rest : list Z)
    (s s' : ElectrumWS) (p : option PromiseId) :
  unsubscribe method params draws s = Some (s', p, rest) -> keeps s s'.
Proof.
  unfold unsubscribe. intros H.
  set (s1 := set_subscriptions _ s) in H.
  destruct (Map_has String.eqb (subscriptions s) (subscriptionKey method params)).
  - exact (keeps_request _ _ _ _ _ _ _ H).
  - inversion H; subst. apply keeps_eq; reflexivity.
Qed.

Lemma keeps_close_entries (reason : string) (entries : list (Z * Request)) :
  forall s : ElectrumWS, keeps s (fold_left (close_entry reason) entries s).
Proof.
  induction entries as [|[id r] entries IH]; intros s; [apply keeps_refl|].
  cbn [fold_left]. eapply keeps_trans; [|apply IH].
  unfold close_entry. eapply keeps_trans; [|apply keeps_settle]. apply keeps_eq; reflexivity.
Qed.

Lemma keeps_close (h : Heap) (reason : string) (s : ElectrumWS) :
  keeps s (snd (close h reason s)).
Proof.
  unfold close.
  set (s1 := fold_left (close_entry reason) (requests s) s).
  assert (H1 : keeps s s1) by apply keeps_close_entries.
  set (s2 := clearTimeout (reconnectionTimeout s1) s1).
  assert (H2 : keeps s s2) by (eapply keeps_trans; [exact H1 | apply keeps_clearTimeout]).
  destruct (ws_open_or_connecting s2); cbn [snd].
  - eapply keeps_trans; [exact H2|].
    eapply keeps_trans; [|apply keeps_ws_close]. apply keeps_eq; reflexivity.
  - eapply keeps_trans; [exact H2 | apply keeps_eq; reflexivity].
Qed.

Lemma keeps_dispatch_response (response : json) (s : ElectrumWS) :
  keeps s (dispatch_response response s).
Proof.
  unfold dispatch_response.
  destruct (get "id" response) as [[ | |id| | | ]|]; try apply keeps_refl.
  destruct (Map_get Z.eqb (requests s) id) as [request|]; [|apply keeps_refl].
  set (s1 := set_requests _ _).
  assert (H1 : keeps s s1) by (apply keeps_eq; reflexivity).
  destruct (get "result" response); [|destruct (truthy (get "error" response))];
    (eapply keeps_trans; [exact H1 | apply keeps_settle]).
Qed.

Lemma keeps_dispatch_push (response : json) (s : ElectrumWS) :
  keeps s (fst (dispatch_push response s)).
Proof.
  unfold dispatch_push.
  destruct (get "method" response) as [[ | | |m| | ]|]; try apply keeps_refl.
  destruct (endsWith m "subscribe"); [|apply keeps_refl].
  match goal with |- context [Map_get String.eqb (subscriptions s) ?k] =>
    destruct (Map_get String.eqb (subscriptions s) k) end; [|apply keeps_refl].
  destruct (spread (push_params response)); [apply keeps_eq; reflexivity | apply keeps_refl].
Qed.

Lemma keeps_resubscribe (fuel : nat) :
  forall (i : nat) (draws rest : list Z) (s s' : ElectrumWS),
    resubscribe fuel i draws s = Some (s', rest) -> keeps s s'.
Proof.
  induction fuel as [|fuel IH]; intros i draws rest s s' H; [discriminate|].
  cbn [resubscribe] in H.
  destruct (nth_error (subscriptions s) i) as [[key callback]|];
    [|inversion H; subst; apply keeps_refl].
  unfold resubscribe_entry in H.
  destruct (replay_call key) as [[method params]|].
  - destruct (subscribe true method callback params draws s) as [[s1 d1]|] eqn:E; [|discriminate].
    exact (keeps_trans _ _ _ (keeps_subscribe _ _ _ _ _ _ _ _ E) (IH _ _ _ _ _ H)).
  - exact (IH _ _ _ _ _ H).
Qed.

Lemma keeps_run_job (j : Job) (s s' : ElectrumWS) : run_job j s = Some s' -> keeps s s'.
Proof.
  destruct j as [[id method params|reqs draws|]|[callback params replay] [v|e]|];
    cbn [run_job]; intros H.
  - inversion H; subst. exact (keeps_create id method s).
  - destruct (batch_send reqs draws s) as [[s1 ps]|] eqn:E; [|discriminate].
    inversion H; subst. exact (keeps_batch_send _ _ _ _ _ E).
  - inversion H; subst. apply keeps_eq; reflexivity.
  - destruct replay; inversion H; subst; apply keeps_eq; reflexivity.
  - destruct replay; inversion H; subst.
    + destruct (ws_open_or_connecting s); [apply keeps_ws_close | apply keeps_refl].
    + apply keeps_eq; reflexivity.
  - inversion H; subst. apply keeps_eq; reflexivity.
Qed.

Lemma keeps_run_jobs (js : list Job) : forall s s' : ElectrumWS,
  run_jobs js s = Some s' -> keeps s s'.
Proof.
  induction js as [|j js IH]; intros s s' H; cbn [run_jobs] in H.
  - inversion H; subst. apply keeps_refl.
  - destruct (run_job j s) as [s1|] eqn:E; [|discriminate].
    exact (keeps_trans _ _ _ (keeps_run_job _ _ _ E) (IH _ _ H)).
Qed.

Lemma keeps_onOpen (s : ElectrumWS) : keeps s (onOpen s).
Proof.
  unfold onOpen, setTimeout.
  eapply keeps_trans; [apply (keeps_fire OPEN None)|]. apply keeps_eq; reflexivity.
Qed.

Lemma keeps_onClose (h : Heap) (s : ElectrumWS) : keeps s (onClose h s).
Proof.
  unfold onClose.
  set (s0 := fire CLOSE None s).
  assert (H0 : keeps s s0) by apply keeps_fire.
  set (s1 := if negb (connected s0) then clearTimeout (connectedTimeout s0) s0
             else fire DISCONNECTED None s0).
  assert (H1 : keeps s s1).
  { apply (keeps_trans _ s0 _ H0). subst s1.
    destruct (negb (connected s0)); [apply keeps_clearTimeout | apply keeps_fire]. }
  destruct (reconnect (h (options s1)) && connected s1).
  - unfold setTimeout. eapply keeps_trans; [exact H1|].
    eapply keeps_trans; [apply (keeps_fire RECONNECTING None)|]. apply keeps_eq; reflexivity.
  - eapply keeps_trans; [exact H1 | apply keeps_eq; reflexivity].
Qed.

Lemma keeps_onConnectedTimeout (draws : list Z) (s s' : ElectrumWS) :
  onConnectedTimeout draws s = Some s' -> keeps s s'.
Proof.
  unfold onConnectedTimeout. intros H.
  set (s0 := fire CONNECTED None (set_connected true s)) in H.
  destruct (resubscribe (resubscribe_fuel s0) 0 draws s0) as [[s1 d]|] eqn:E; [|discriminate].
  cbn in H. inversion H; subst.
  eapply keeps_trans; [|exact (keeps_resubscribe _ _ _ _ _ _ E)].
  eapply keeps_trans; [|apply keeps_fire]. apply keeps_eq; reflexivity.
Qed.

Section Awaiting.
Variable JSON_parse : string -> option json.

Lemma keeps_onMessage_line (line : string) (s s' : ElectrumWS) (threw : bool) :
  onMessage_line JSON_parse line s = Some (s', threw) -> keeps s s'.
Proof.
  unfold onMessage_line. rewrite parseLine_eq. intros H.
  assert (Hset : forall b, keeps s (set_incompleteMessage b s))
    by (intros b; apply keeps_eq; reflexivity).
  assert (Hmsg : forall response,
            keeps s (fst (dispatch_push response
                            (dispatch_response response
                               (fire MESSAGE (Some response)
                                  (set_incompleteMessage EmptyString s)))))).
  { intros response.
    eapply keeps_trans; [apply (Hset EmptyString)|].
    eapply keeps_trans; [apply keeps_fire|].
    eapply keeps_trans; [apply keeps_dispatch_response | apply keeps_dispatch_push]. }
  destruct (recognized JSON_parse line) as [response|].
  - inversion H as [H2]. specialize (Hmsg response). rewrite H2 in Hmsg. exact Hmsg.
  - destruct (_ && _).
    + destruct (recognized JSON_parse _) as [response|].
      * inversion H as [H2]. specialize (Hmsg response). rewrite H2 in Hmsg. exact Hmsg.
      * inversion H; subst. apply Hset.
    + inversion H; subst. apply Hset.
Qed.

Lemma keeps_onMessage_lines (lines : list string) : forall (s s' : ElectrumWS) (threw : bool),
  onMessage_lines JSON_parse lines s = Some (s', threw) -> keeps s s'.
Proof.
  induction lines as [|line lines IH]; intros s s' threw H; cbn [onMessage_lines] in H.
  - inversion H; subst. apply keeps_refl.
  - destruct (onMessage_line JSON_parse line s) as [[s1 [|]]|] eqn:E; [| |discriminate].
    + inversion H; subst. exact (keeps_onMessage_line _ _ _ _ E).
    + exact (keeps_trans _ _ _ (keeps_onMessage_line _ _ _ _ E) (IH _ _ _ H)).
Qed.

Lemma keeps_task (ev : Event) (h h' : Heap) (s s' : ElectrumWS) :
  task JSON_parse ev h s = Some (h', s') -> keeps s s'.
Proof.
  destruct ev as [method params draws|reqs draws|method callback params draws
                  |method params draws|reason| |data|error| |t draws];
    cbn [task]; intros H.
  - destruct (request method params draws s) as [[[s1 p] d]|] eqn:E; [|discriminate].
    inversion H; subst. exact (keeps_request _ _ _ _ _ _ _ E).
  - unfold batchRequest in H.
    destruct (negb (connected s)).
    + inversion H; subst. apply keeps_eq; reflexivity.
    + destruct (batch_send reqs draws s) as [[s1 ps]|] eqn:E; [|discriminate].
      inversion H; subst. exact (keeps_batch_send _ _ _ _ _ E).
  - destruct (subscribe false method callback params draws s) as [[s1 d]|] eqn:E; [|discriminate].
    inversion H; subst. exact (keeps_subscribe _ _ _ _ _ _ _ _ E).
  - destruct (unsubscribe method params draws s) as [[[s1 p] d]|] eqn:E; [|discriminate].
    inversion H; subst. exact (keeps_unsubscribe _ _ _ _ _ _ _ E).
  - inversion H as [H1]. rewrite (surjective_pairing (close h reason s)) in H1.
    inversion H1; subst. exact (keeps_close h reason s).
  - destruct (ws s); try discriminate. inversion H; subst.
    eapply keeps_trans; [|apply keeps_onOpen]. apply keeps_eq; reflexivity.
  - destruct (ws s); try discriminate;
      (destruct (onMessage JSON_parse data s) as [[s1 b]|] eqn:E; [|discriminate];
       inversion H; subst; exact (keeps_onMessage_lines _ _ _ _ E)).
  - inversion H; subst. destruct error; [apply keeps_fire | apply keeps_refl].
  - destruct (ws s); try discriminate; inversion H; subst;
      (eapply keeps_trans; [|apply keeps_onClose]; apply keeps_eq; reflexivity).
  - destruct (Map_get Nat.eqb (timers s) t) as [a|] eqn:Et; [|discriminate].
    assert (H0 : keeps s (set_timers (Map_delete Nat.eqb (timers s) t) s))
      by (apply keeps_eq; reflexivity).
    destruct a as [id method p| |].
    + inversion H; subst. apply (keeps_trans _ _ _ H0).
      unfold onRequestTimeout. eapply keeps_trans; [|apply keeps_settle].
      apply keeps_eq; reflexivity.
    + destruct (onConnectedTimeout draws _) as [s1|] eqn:E; [|discriminate].
      inversion H; subst. exact (keeps_trans _ _ _ H0 (keeps_onConnectedTimeout _ _ _ E)).
    + inversion H; subst. apply (keeps_trans _ _ _ H0). apply keeps_eq; reflexivity.
Qed.

Lemma reachable_reactions_made (h : Heap) (s : ElectrumWS) :
  reachable JSON_parse h s -> reactions_made s.
Proof.
  induction 1 as [h endpoint opts h' s Hc | h s ev h' s' Hr IH Hs | h s o Hr IH].
  - unfold constructor in Hc. cbn in Hc. inversion Hc; subst. intros p r [].
  - unfold step in Hs. cbn [fst snd] in Hs.
    destruct (task JSON_parse ev h s) as [[h1 s1]|] eqn:Et; [|discriminate].
    destruct (drain s1) as [s2|] eqn:Ed; [|discriminate].
    inversion Hs; subst. unfold drain in Ed.
    apply (made_keeps (set_jobs [] s1)); [exact (keeps_run_jobs _ _ _ Ed)|].
    apply (made_keeps s1); [apply keeps_eq; reflexivity|].
    exact (made_keeps _ _ (keeps_task _ _ _ _ _ Et) IH).
  - exact IH.
Qed.
End Awaiting.

Lemma fire_unheard (event : string) (payload : option json) (s : ElectrumWS) :
  Observable.callbacks_of (listeners s) event = [] ->
  fire event payload s
  = set_jobs (jobs s ++ []) (set_listeners (listeners s) (emit (Fire event payload) s)).
Proof.
  intros H. unfold fire, Observable.fire. cbn [listeners emit set_trace]. rewrite H. reflexivity.
Qed.

Lemma reactions_get_new (m : list (PromiseId * Reaction)) (p : PromiseId) (r : Reaction) :
  (forall p' r', In (p', r') m -> (p' < p)%nat) ->
  Map_get Nat.eqb (m ++ [(p, r)]) p = Some r.
Proof.
  intros H. induction m as [|[p0 r0] m IH]; cbn [app Map_get].
  - rewrite Nat.eqb_refl. reflexivity.
  - assert (Hlt : (p0 < p)%nat) by (apply (H p0 r0); left; reflexivity).
    assert (E : Nat.eqb p p0 = false) by (apply Nat.eqb_neq; lia).
    rewrite E. apply IH. intros p' r' Hin. apply (H p' r'). right. exact Hin.
Qed.

Section Subscribing.
Variable JSON_parse : string -> option json.

(** X27.  [subscribe] on a connected session in a reachable state, with a
    free id: the callback is registered and [method.subscribe] is sent with
    the parameters.  When the line of a response with this id and a [result]
    arrives, the promise of the request is resolved with the result and, in
    the microtasks that follow, the callback is called with the parameters of
    the call followed by the result. *)
Theorem subscribe_hands_the_result_to_the_callback
    (h : Heap) (s : ElectrumWS) (method : string) (callback : Callback)
    (params : list json) (id : Z) (rest : list Z)
    (line : string) (response result : json) :
  reachable JSON_parse h s ->
  connected s = true ->
  Map_has Z.eqb (requests s) id = false ->
  recognized JSON_parse line = Some response ->
  get "id" response = Some (JNum id) ->
  get "result" response = Some result ->
  get "method" response = None ->
  exists s1 s2 s3,
    subscribe false method callback params (id :: rest) s = Some (s1, rest)
    /\ onMessage_line JSON_parse line s1 = Some (s2, false)
    /\ drain s2 = Some s3
    /\ trace s3 = trace s ++ [Send {| pl_method := (method ++ ".subscribe")%string;
                                      pl_params := params; pl_id := id |};
                              Fire MESSAGE (Some response);
                              Resolve (next_promise s) result;
                              Call callback (params ++ [result])]
    /\ Map_get String.eqb (subscriptions s3) (subscriptionKey method params) = Some callback.
Proof.
  intros Hr Hc Hid Hrec Hgid Hres Hmeth.
  pose proof (reachable_sound JSON_parse h s Hr) as Hs.
  pose proof (reachable_linked JSON_parse h s Hr) as [_ _ _ L4].
  pose proof (reachable_reactions_made JSON_parse h s Hr) as Hm.
  destruct (reachable_invariant JSON_parse h s Hr) as [Hj _].
  assert (Hfresh : settled (next_promise s) (trace s) = false).
  { destruct (settled (next_promise s) (trace s)) eqn:E; [|reflexivity].
    apply (settled_made s Hs) in E. lia. }
  set (p := next_promise s) in *.
  set (R := OnSubscribe callback params false).
  set (key := subscriptionKey method params).
  set (s0 := set_subscriptions (Map_set String.eqb (subscriptions s) key callback) s).
  set (s1 := set_reactions (reactions s ++ [(p, R)])
               (fst (request_send id (method ++ ".subscribe") params s0))).
  assert (H1 : subscribe false method callback params (id :: rest) s = Some (s1, rest)).
  { unfold subscribe. fold key. fold s0.
    change (connected s0) with (connected s). rewrite Hc. cbn [negb].
    unfold request. change (requests s0) with (requests s). cbn [random_id]. rewrite Hid.
    change (connected s0) with (connected s). rewrite Hc. cbn [negb].
    rewrite (surjective_pairing (request_send id (method ++ ".subscribe") params s0)).
    reflexivity. }
  set (x := set_incompleteMessage EmptyString s1).
  assert (Hfire : fire MESSAGE (Some response) x
                  = set_jobs (jobs x ++ [])
                      (set_listeners (listeners x) (emit (Fire MESSAGE (Some response)) x))).
  { apply fire_unheard. apply L4; discriminate. }
  set (s1' := fire MESSAGE (Some response) x) in *.
  set (r := {| req_promise := p; req_method := (method ++ ".subscribe")%string;
               req_timeout := next_timer s |}).
  assert (Hget : Map_get Z.eqb (requests s1') id = Some r).
  { rewrite Hfire. apply requests_get_set. }
  set (y := set_requests (Map_delete Z.eqb (requests s1') id)
              (clearTimeout (Some (req_timeout r)) s1')).
  assert (Hty : trace y = (trace s ++ [Send {| pl_method := (method ++ ".subscribe")%string;
                                              pl_params := params; pl_id := id |}])
                          ++ [Fire MESSAGE (Some response)]).
  { unfold y. rewrite Hfire. reflexivity. }
  assert (Hry : reactions y = reactions s ++ [(p, R)]).
  { unfold y. rewrite Hfire. reflexivity. }
  assert (Hjy : jobs y = jobs s ++ []).
  { unfold y. rewrite Hfire. reflexivity. }
  assert (Hsy : subscriptions y = Map_set String.eqb (subscriptions s) key callback).
  { unfold y. rewrite Hfire. reflexivity. }
  assert (Hfirst : settled p (trace y) = false).
  { rewrite Hty, !settled_app, Hfresh. reflexivity. }
  set (s2 := set_jobs (jobs y ++ [JobSettled R (Resolved result)])
               (emit (Resolve p result) y)).
  assert (Hsettle : settle p (Resolved result) y = s2).
  { unfold settle. cbn [reactions emit set_trace]. rewrite Hry.
    rewrite (reactions_get_new _ _ _ Hm), Hfirst. reflexivity. }
  assert (H2 : onMessage_line JSON_parse line s1 = Some (s2, false)).
  { unfold onMessage_line. rewrite parseLine_eq, Hrec. fold x. fold s1'.
    unfold dispatch_response. rewrite Hgid, Hget, Hres.
    change (Some (dispatch_push response (settle p (Resolved result) y)) = Some (s2, false)).
    rewrite Hsettle.
    unfold dispatch_push. rewrite Hmeth. reflexivity. }
  set (s3 := emit (Call callback (params ++ [result])) (set_jobs [] s2)).
  assert (H3 : drain s2 = Some s3).
  { unfold drain. unfold s2 at 1. cbn [jobs set_jobs emit set_trace].
    rewrite Hjy, Hj. reflexivity. }
  exists s1, s2, s3. split; [exact H1|]. split; [exact H2|]. split; [exact H3|]. split.
  - unfold s3, s2. cbn [trace emit set_trace set_jobs]. rewrite Hty, <- !app_assoc. reflexivity.
  - unfold s3, s2. cbn [subscriptions emit set_trace set_jobs]. rewrite Hsy.
    apply subscriptions_get_set.
Qed.
End Subscribing.

Lemma subscribe_hands_the_result_to_the_callback_witness :
  let s := match after [WsOpened; TimerFires 0%nat []] with
           | Some s => s
           | None => snd session_start
           end in
  let response := JObj [("jsonrpc"%string, JStr "2.0"); ("id"%string, JNum 7);
                        ("result"%string, JObj [("height"%string, JNum 5)])] in
  exists s1 s2 s3,
    subscribe false "blockchain.headers" 1%nat [] [7] s = Some (s1, [])
    /\ onMessage_line json_parse (q "{'jsonrpc':'2.0','id':7,'result':{'height':5}}") s1
       = Some (s2, false)
    /\ drain s2 = Some s3
    /\ trace s3 = trace s ++ [Send {| pl_method := "blockchain.headers.subscribe";
                                      pl_params := []; pl_id := 7 |};
                              Fire MESSAGE (Some response);
                              Resolve (next_promise s) (JObj [("height"%string, JNum 5)]);
                              Call 1%nat [JObj [("height"%string, JNum 5)]]].
Proof.
  intros s response.
  assert (Hrun : run json_parse [WsOpened; TimerFires 0%nat []]
                   (fst session_start, snd session_start)
                 = Some (fst session_start, s)) by (vm_compute; reflexivity).
  destruct (subscribe_hands_the_result_to_the_callback json_parse (fst session_start) s
              "blockchain.headers" 1%nat [] 7 []
              (q "{'jsonrpc':'2.0','id':7,'result':{'height':5}}") response
              (JObj [("height"%string, JNum 5)])
              (reachable_after _ _ _ Hrun)
              ltac:(vm_compute; reflexivity) ltac:(vm_compute; reflexivity)
              ltac:(vm_compute; reflexivity) eq_refl eq_refl eq_refl)
    as (s1 & s2 & s3 & H1 & H2 & H3 & H4 & _).
  exists s1, s2, s3. split; [exact H1|]. split; [exact H2|]. split; [exact H3 | exact H4].
Defined.

Section Failing.
Variable JSON_parse : string -> option json.

(** X28.  The request timer of a [subscribe] fires.  The request is
    rejected with the timeout error and its entry leaves the table.  When the
    [subscribe] was a replay made by the timer of [onOpen], the session then
    closes its own socket, if it is connecting or open, with the normal
    closure code and the timeout message as the reason; when it was the
    caller's, the caller's promise is rejected and the socket is left alone.
    The connection flag is not touched. *)
Theorem subscribe_timeout_closes_the_socket_of_a_replay
    (h : Heap) (s : ElectrumWS) (t : TimerId) (id : Z) (method : string) (p : PromiseId)
    (callback : Callback) (params : list json) (replay : bool) (draws : list Z) :
  reachable JSON_parse h s ->
  Map_get Nat.eqb (timers s) t = Some (RequestTimeout id method p) ->
  Map_get Nat.eqb (reactions s) p = Some (OnSubscribe callback params replay) ->
  let e := new_Error (timeout_message id method) in
  exists s',
    step JSON_parse (TimerFires t draws) (h, s) = Some (h, s')
    /\ trace s' = trace s ++ Reject p e
                            :: (if replay
                                then if ws_open_or_connecting s
                                     then [WsClose CLOSE_CODE (timeout_message id method)]
                                     else []
                                else [SubscribeRejected e])
    /\ ws s' = (if replay && ws_open_or_connecting s then CLOSING else ws s)
    /\ connected s' = connected s
    /\ Map_has Z.eqb (requests s') id = false.
Proof.
  intros Hr Ht Hre e.
  pose proof (reachable_pending_unsettled JSON_parse h s t id method p Hr Ht) as Hfresh.
  destruct (reachable_invariant JSON_parse h s Hr) as [Hj _].
  set (R := OnSubscribe callback params replay) in *.
  set (x := set_requests (Map_delete Z.eqb (requests s) id)
              (set_timers (Map_delete Nat.eqb (timers s) t) s)).
  set (s1 := set_jobs (jobs x ++ [JobSettled R (Rejected e)]) (emit (Reject p e) x)).
  assert (Hsettle : settle p (Rejected e) x = s1).
  { unfold settle. change (reactions (emit (Reject p e) x)) with (reactions s).
    change (trace x) with (trace s). rewrite Hre, Hfresh. reflexivity. }
  assert (Htask : task JSON_parse (TimerFires t draws) h s = Some (h, s1)).
  { cbn [task]. rewrite Ht. unfold onRequestTimeout. fold e.
    change (Some (h, settle p (Rejected e) x) = Some (h, s1)). rewrite Hsettle. reflexivity. }
  set (y := set_jobs [] s1).
  set (s' := if replay
             then if ws_open_or_connecting s
                  then ws_close CLOSE_CODE (timeout_message id method) y
                  else y
             else emit (SubscribeRejected e) y).
  assert (Hdrain : drain s1 = Some s').
  { unfold drain. unfold s1 at 1. cbn [jobs set_jobs emit set_trace]. fold y.
    change (jobs x) with (jobs s). rewrite Hj. cbn [app run_jobs run_job R].
    unfold s'. destruct replay; reflexivity. }
  exists s'. split.
  { unfold step. cbn [fst snd]. rewrite Htask, Hdrain. reflexivity. }
  assert (Hreq : Map_has Z.eqb (Map_delete Z.eqb (requests s) id) id = false)
    by apply Map_has_delete.
  assert (Hty : trace y = trace s ++ [Reject p e]) by reflexivity.
  unfold s'. destruct replay; cbn [andb].
  - unfold ws_close. change (ws_open_or_connecting y) with (ws_open_or_connecting s).
    destruct (ws_open_or_connecting s).
    + split; [cbn [trace emit set_trace set_ws]; rewrite Hty, <- app_assoc; reflexivity|].
      repeat split; exact Hreq.
    + split; [exact Hty|]. repeat split; exact Hreq.
  - split; [cbn [trace emit set_trace]; rewrite Hty, <- app_assoc; reflexivity|].
    repeat split; exact Hreq.
Qed.
End Failing.

Lemma subscribe_timeout_closes_the_socket_of_a_replay_witness :
  let s := match after [CallSubscribe "blockchain.headers" 1%nat [] [];
                        WsOpened; TimerFires 0%nat [7]] with
           | Some s => s
           | None => snd session_start
           end in
  exists s',
    step json_parse (TimerFires 1%nat []) (fst session_start, s) = Some (fst session_start, s')
    /\ ws s' = CLOSING.
Proof.
  intros s.
  assert (Hrun : run json_parse [CallSubscribe "blockchain.headers" 1%nat [] [];
                                 WsOpened; TimerFires 0%nat [7]]
                   (fst session_start, snd session_start)
                 = Some (fst session_start, s)) by (vm_compute; reflexivity).
  destruct (subscribe_timeout_closes_the_socket_of_a_replay json_parse (fst session_start) s
              1%nat 7 "blockchain.headers.subscribe" 0%nat 1%nat [] true []
              (reachable_after _ _ _ Hrun)
              ltac:(vm_compute; reflexivity) ltac:(vm_compute; reflexivity))
    as (s' & H1 & _ & H3 & _).
  exists s'. split; [exact H1|].
  rewrite H3. vm_compute. reflexivity.
Defined.

(* ===================================================================== *)
(** * After close *)
(* ===================================================================== *)

Lemma run_job_options (j : Job) (s s' : ElectrumWS) :
  run_job j s = Some s' -> options s' = options s.
Proof.
  destruct j as [[id method params|reqs draws|]|[callback params replay] [v|e]|];
    cbn [run_job]; intros H.
  - inversion H. reflexivity.
  - unfold batch_send in H.
    destruct (random_id (requests s) draws) as [[id0 ?]|]; [|discriminate].
    assert (Hsend : forall pls x, options (send_all pls x) = options x).
    { unfold send_all. induction pls as [|pl pls IH]; intros x; [reflexivity|].
      cbn [fold_left]. rewrite IH. reflexivity. }
    assert (Hcreate : forall pls x acc,
              options (fst (fold_left
                (fun '(s, ps) pl =>
                   let '(s, p) := createRequestPromise (pl_id pl) (pl_method pl) s in
                   (s, ps ++ [p])) pls (x, acc))) = options x).
    { induction pls as [|pl pls IH]; intros x acc; [reflexivity|].
      cbn [fold_left].
      rewrite (surjective_pairing (createRequestPromise (pl_id pl) (pl_method pl) x)).
      rewrite IH. reflexivity. }
    specialize (Hcreate (batch_payloads id0 reqs) s []).
    unfold create_all in H.
    destruct (fold_left _ (batch_payloads id0 reqs) (s, [])) as [s1 ps].
    cbn in H. inversion H; subst. rewrite Hsend. exact Hcreate.
  - inversion H. reflexivity.
  - destruct replay; inversion H; reflexivity.
  - destruct replay; inversion H; [|reflexivity].
    unfold ws_close. destruct (ws_open_or_connecting s); reflexivity.
  - inversion H. reflexivity.
Qed.

Lemma run_jobs_options (js : list Job) : forall s s' : ElectrumWS,
  run_jobs js s = Some s' -> options s' = options s.
Proof.
  induction js as [|j js IH]; intros s s' H; cbn [run_jobs] in H.
  - inversion H. reflexivity.
  - destruct (run_job j s) as [s1|] eqn:E; [|discriminate].
    rewrite (IH _ _ H). exact (run_job_options _ _ _ E).
Qed.

Lemma close_options (h : Heap) (reason : string) (s : ElectrumWS) :
  options (snd (close h reason s)) = options s
  /\ reconnect (fst (close h reason s) (options s)) = false.
Proof.
  unfold close.
  destruct (close_entries reason (requests s) s) as (_ & _ & _ & _ & _ & _ & _ & Ho & _).
  cbv zeta in Ho.
  set (s1 := fold_left (close_entry reason) (requests s) s) in *.
  assert (H2 : options (clearTimeout (reconnectionTimeout s1) s1) = options s).
  { unfold clearTimeout. destruct (reconnectionTimeout s1); exact Ho. }
  set (s2 := clearTimeout (reconnectionTimeout s1) s1) in *.
  assert (Hh : reconnect (heap_set h (options s) (set_reconnect false (h (options s)))
                            (options s)) = false).
  { unfold heap_set. rewrite Nat.eqb_refl. reflexivity. }
  destruct (ws_open_or_connecting s2); cbn [fst snd]; (split; [|exact Hh]).
  - unfold ws_close. destruct (ws_open_or_connecting _); exact H2.
  - exact H2.
Qed.

Section Closing.
Variable JSON_parse : string -> option json.

(** X29.  [close] is final.  After a call of [close] in a reachable state
    the [reconnect] option that the session reads is off; when the close event
    of the socket is the next event, it leaves the session dead: no socket is
    opened again. *)
Theorem closed_session_is_dead
    (h h1 h2 : Heap) (s s1 s2 : ElectrumWS) (reason : string) :
  reachable JSON_parse h s ->
  step JSON_parse (CallClose reason) (h, s) = Some (h1, s1) ->
  step JSON_parse WsClosed (h1, s1) = Some (h2, s2) ->
  reconnect (h1 (options s1)) = false /\ dead s2.
Proof.
  intros Hr H1 H2.
  assert (Hrec : reconnect (h1 (options s1)) = false).
  { unfold step in H1. cbn [fst snd task] in H1.
    rewrite (surjective_pairing (close h reason s)) in H1.
    destruct (drain (snd (close h reason s))) as [s1'|] eqn:Ed; [|discriminate].
    inversion H1; subst h1 s1'. unfold drain in Ed.
    rewrite (run_jobs_options _ _ _ Ed). cbn [options set_jobs].
    destruct (close_options h reason s) as [Ho Hf]. rewrite Ho. exact Hf. }
  split; [exact Hrec|].
  apply (close_event_kills JSON_parse h1 h2 s1 s2);
    [exact (reachable_step JSON_parse h s _ h1 s1 Hr H1) | right; exact Hrec | exact H2].
Qed.
End Closing.

Lemma closed_session_is_dead_witness :
  let hs1 := match run json_parse [WsOpened; TimerFires 0%nat []; CallClose "bye"]
                     (fst session_start, snd session_start) with
             | Some hs => hs
             | None => session_start
             end in
  let hs2 := match run json_parse [WsClosed] hs1 with
             | Some hs => hs
             | None => session_start
             end in
  dead (snd hs2).
Proof.
  intros hs1 hs2.
  set (hs0 := match run json_parse [WsOpened; TimerFires 0%nat []]
                      (fst session_start, snd session_start) with
              | Some hs => hs
              | None => session_start
              end).
  assert (Hrun : run json_parse [WsOpened; TimerFires 0%nat []]
                   (fst session_start, snd session_start)
                 = Some (fst hs0, snd hs0)) by (vm_compute; reflexivity).
  refine (proj2 (closed_session_is_dead json_parse (fst hs0) (fst hs1) (fst hs2)
                   (snd hs0) (snd hs1) (snd hs2) "bye"
                   (reachable_after _ _ _ Hrun) _ _)).
  - vm_compute. reflexivity.
  - vm_compute. reflexivity.
Defined.

(* ===================================================================== *)
(** * Expiry of a request, replay of the registry *)
(* ===================================================================== *)

Section Expiry.
Variable JSON_parse : string -> option json.


End Expiry.



(** ** The replay reads the keys *)

Lemma replay_call_spec (key method : string) (params : list json) :
  replay_call key = Some (method, params) ->
  exists segs, split key "-" = method :: segs /\ method <> EmptyString /\ params = map JStr segs.
Proof.
  unfold replay_call. destruct (split key "-") as [|m segs]; [discriminate|].
  destruct (String.eqb m EmptyString) eqn:E; [discriminate|].
  intros H. inversion H; subst. exists segs. repeat split.
  intros ->. discriminate.
Qed.

(** [subscribe] on a connected session, whatever the draws: when it returns,
    the callback is registered under the key and the request is sent. *)
Lemma subscribe_connected_sends (replay : bool) (method : string) (callback : Callback)
    (params : list json) (draws rest : list Z) (s s' : ElectrumWS) :
  connected s = true ->
  subscribe replay method callback params draws s = Some (s', rest) ->
  connected s' = true
  /\ subscriptions s'
     = Map_set String.eqb (subscriptions s) (subscriptionKey method params) callback
  /\ exists id, trace s' = trace s ++ [Send {| pl_method := (method ++ ".subscribe")%string;
                                              pl_params := params; pl_id := id |}].
Proof.
  intros Hc H. unfold subscribe, request in H.
  cbn [connected set_subscriptions requests] in H. rewrite Hc in H. cbn [negb] in H.
  destruct (random_id (requests s) draws) as [[id d]|]; [|discriminate].
  cbn in H. inversion H; subst. cbn. repeat split; [exact Hc|]. exists id. reflexivity.
Qed.

Lemma keys_nth_error (m : list (string * Callback)) (key : string) :
  Map_has String.eqb m key = true -> exists j, nth_error (map fst m) j = Some key.
Proof.
  unfold Map_has. induction m as [|[k v] m IH]; cbn [existsb fst]; [discriminate|].
  destruct (String.eqb key k) eqn:E.
  - intros _. apply String.eqb_eq in E. subst. exists 0%nat. reflexivity.
  - cbn [orb]. intros H. destruct (IH H) as [j Hj]. exists (S j). exact Hj.
Qed.

(** The loop of [onOpen] on a connected session: every output is a subscribe
    request read off a key of the registry, and every entry from position [i]
    on whose key names a method gets one. *)
Lemma resubscribe_replays (fuel : nat) :
  forall (i : nat) (draws rest : list Z) (s s' : ElectrumWS),
    connected s = true ->
    resubscribe fuel i draws s = Some (s', rest) ->
    exists outs extra,
      trace s' = trace s ++ outs
      /\ map fst (subscriptions s') = map fst (subscriptions s) ++ extra
      /\ (forall j key, (i <= j)%nat -> nth_error (map fst (subscriptions s)) j = Some key ->
            forall method params, split key "-" = method :: params -> method <> EmptyString ->
            exists id, In (Send {| pl_method := (method ++ ".subscribe")%string;
                                   pl_params := map JStr params; pl_id := id |}) outs)
      /\ (forall o, In o outs ->
            exists key, In key (map fst (subscriptions s')) /\ read_off key o).
Proof.
  induction fuel as [|fuel IH]; intros i draws rest s s' Hc H; [discriminate|].
  cbn [resubscribe] in H.
  destruct (nth_error (subscriptions s) i) as [[key cb]|] eqn:Hnth.
  2:{ inversion H; subst. exists [], []. rewrite !app_nil_r. repeat split.
      - intros j k Hij Hj. exfalso.
        apply nth_error_None in Hnth.
        assert (Hsome : nth_error (map fst (subscriptions s')) j <> None)
          by (rewrite Hj; discriminate).
        apply nth_error_Some in Hsome. rewrite length_map in Hsome. lia.
      - intros o []. }
  assert (Hkey : nth_error (map fst (subscriptions s)) i = Some key).
  { rewrite nth_error_map, Hnth. reflexivity. }
  unfold resubscribe_entry in H.
  destruct (replay_call key) as [[m ps]|] eqn:Hcall.
  - destruct (subscribe true m cb ps draws s) as [[s1 d1]|] eqn:Hsub; [|discriminate].
    destruct (subscribe_connected_sends _ _ _ _ _ _ _ _ Hc Hsub) as [Hc1 [Hsubs1 [id Htr1]]].
    destruct (replay_call_spec _ _ _ Hcall) as [segs [Hsplit [Hm ->]]].
    destruct (IH _ _ _ _ _ Hc1 H) as [outs [extra [Htr [Hkeys [Hvisit Hall]]]]].
    assert (Hkeys1 : exists e1, map fst (subscriptions s1) = map fst (subscriptions s) ++ e1).
    { rewrite Hsubs1, Map_set_key_list.
      destruct (Map_has String.eqb (subscriptions s) _);
        [exists []; rewrite app_nil_r | eexists]; reflexivity. }
    destruct Hkeys1 as [e1 Hkeys1].
    eexists (_ :: outs), (e1 ++ extra). split; [|split; [|split]].
    + rewrite Htr, Htr1, <- app_assoc. reflexivity.
    + rewrite Hkeys, Hkeys1, <- app_assoc. reflexivity.
    + intros j k Hij Hj method params Hk Hmeth.
      destruct (Nat.eq_dec j i) as [->|Hne].
      * rewrite Hkey in Hj. inversion Hj; subst k. rewrite Hsplit in Hk. inversion Hk; subst.
        exists id. left. reflexivity.
      * assert (Hj1 : nth_error (map fst (subscriptions s1)) j = Some k).
        { rewrite Hkeys1, nth_error_app1; [exact Hj|].
          apply nth_error_Some. rewrite Hj. discriminate. }
        destruct (Hvisit j k ltac:(lia) Hj1 method params Hk Hmeth) as [id' Hin].
        exists id'. right. exact Hin.
    + intros o [<-|Hin]; [|exact (Hall o Hin)].
      exists key. split.
      * rewrite Hkeys, Hkeys1, <- app_assoc. apply in_or_app. left.
        exact (nth_error_In _ _ Hkey).
      * exists m, segs, id. repeat split; assumption.
  - destruct (IH _ _ _ _ _ Hc H) as [outs [extra [Htr [Hkeys [Hvisit Hall]]]]].
    exists outs, extra. repeat split; try assumption.
    intros j k Hij Hj method params Hk Hmeth.
    destruct (Nat.eq_dec j i) as [->|Hne].
    + exfalso. rewrite Hkey in Hj. inversion Hj; subst k.
      unfold replay_call in Hcall. rewrite Hk in Hcall.
      destruct (String.eqb method EmptyString) eqn:E; [|discriminate].
      apply String.eqb_eq in E. contradiction.
    + exact (Hvisit j k ltac:(lia) Hj method params Hk Hmeth).
Qed.

Section Replay.
Variable JSON_parse : string -> option json.

(** C10.  The replay is the turn of the timer that [onOpen] sets, after the
    first connection and after every reconnection.  For a subscription
    registered under the key of [method] and [params], a key that names a
    method (its first segment is not empty), and with distinct free draws,
    two per entry: the turn returns with the session connected; after the
    CONNECTED event its outputs are subscribe requests only, each read off a
    key of the registry alone (the method is the segment before the first
    [-], the parameters are the remaining segments, as strings), and the
    request read off the key of the subscription is one of them.  The
    registry holds keys and callbacks, not parameters: when the first
    parameter given to [subscribe] was not a string, or was a string
    containing [-], the parameters of that request differ from the ones
    given. *)
Theorem replay_reads_the_key_only
    (h : Heap) (s : ElectrumWS) (t : TimerId) (draws : list Z)
    (method : string) (params : list json) (m' : string) (ps' : list string) :
  Map_get Nat.eqb (timers s) t = Some ConnectedTimeout ->
  NoDup draws ->
  Forall (fun id => Map_has Z.eqb (requests s) id = false) draws ->
  (2 * length (subscriptions s) <= length draws)%nat ->
  Map_has String.eqb (subscriptions s) (subscriptionKey method params) = true ->
  split (subscriptionKey method params) "-" = m' :: ps' ->
  m' <> EmptyString ->
  exists s' outs,
    task JSON_parse (TimerFires t draws) h s = Some (h, s')
    /\ connected s' = true
    /\ trace s' = trace s ++ Fire CONNECTED None :: outs
    /\ (exists id, In (Send {| pl_method := (m' ++ ".subscribe")%string;
                               pl_params := map JStr ps'; pl_id := id |}) outs)
    /\ (forall o, In o outs ->
          exists key, In key (map fst (subscriptions s')) /\ read_off key o)
    /\ ((exists v tl, params = v :: tl /\ is_string (Some v) = false)
        \/ (exists p0 tl, params = JStr p0 :: tl /\ includes p0 "-" = true) ->
        map JStr ps' <> params).
Proof.
  intros Ht Hnd Hfresh Hlen Hreg Hsplit Hm.
  set (x := set_timers (Map_delete Nat.eqb (timers s) t) s).
  destruct (onConnectedTimeout_total x draws Hnd Hfresh Hlen) as [s' [Hrun Hc']].
  assert (Htask : task JSON_parse (TimerFires t draws) h s = Some (h, s')).
  { cbn [task]. rewrite Ht. fold x. rewrite Hrun. reflexivity. }
  unfold onConnectedTimeout in Hrun.
  set (s0 := fire CONNECTED None (set_connected true x)) in Hrun.
  destruct (fire_frame CONNECTED None (set_connected true x)) as [_ [_ [Hs [Hc _]]]].
  fold s0 in Hs, Hc. cbn in Hs, Hc.
  assert (Htr0 : trace s0 = trace s ++ [Fire CONNECTED None]).
  { unfold s0. rewrite fire_trace. reflexivity. }
  destruct (resubscribe (resubscribe_fuel s0) 0 draws s0) as [[s1 rest]|] eqn:E; [|discriminate].
  cbn in Hrun. inversion Hrun; subst s1.
  destruct (resubscribe_replays _ _ _ _ _ _ Hc E) as [outs [extra [Htr [_ [Hvisit Hall]]]]].
  exists s', outs. split; [exact Htask|]. split; [exact Hc'|]. split; [|split; [|split]].
  - rewrite Htr, Htr0, <- app_assoc. reflexivity.
  - destruct (keys_nth_error _ _ Hreg) as [j Hj]. rewrite <- Hs in Hj.
    exact (Hvisit j _ (Nat.le_0_l j) Hj m' ps' Hsplit Hm).
  - exact Hall.
  - exact (replayed_params_differ method params m' ps' Hsplit).
Qed.
End Replay.

Lemma replay_reads_the_key_only_witness :
  exists s' outs,
    task json_parse (TimerFires 4%nat [20; 21; 22; 23]) (fst session_start) reconnecting_dashed
      = Some (fst session_start, s')
    /\ connected s' = true
    /\ trace s' = trace reconnecting_dashed ++ Fire CONNECTED None :: outs
    /\ (exists id, In (Send {| pl_method := "blockchain.scripthash.subscribe";
                               pl_params := [JStr "ab"; JStr "cd"]; pl_id := id |}) outs)
    /\ (forall o, In o outs ->
          exists key, In key (map fst (subscriptions s')) /\ read_off key o)
    /\ [JStr "ab"; JStr "cd"] <> [JStr "ab-cd"; JNum 1].
Proof.
  destruct (replay_reads_the_key_only json_parse (fst session_start) reconnecting_dashed 4%nat
              [20; 21; 22; 23] "blockchain.scripthash" [JStr "ab-cd"; JNum 1]
              "blockchain.scripthash" ["ab"; "cd"]%string
              ltac:(vm_compute; reflexivity)
              ltac:(repeat constructor; cbn; intuition discriminate)
              ltac:(repeat constructor)
              ltac:(vm_compute; lia)
              ltac:(vm_compute; reflexivity)
              ltac:(vm_compute; reflexivity)
              ltac:(discriminate))
    as [s' [outs [H1 [H2 [H3 [H4 [H5 H6]]]]]]].
  exists s', outs. repeat split; try assumption.
  apply H6. right. exists "ab-cd"%string, [JNum 1]. split; [reflexivity | vm_compute; reflexivity].
Defined.

(** The reconnection of the scenario, run: the close event, the
    reconnection timer, the new socket and its open event, then the timer of
    [onOpen], which replays both entries of the registry from their keys. *)
Example replay_on_reconnect_run :
  option_map (fun s => (skipn 5 (trace s), subscriptions s))
    (after [CallSubscribe "blockchain.scripthash" 7%nat [JStr "ab-cd"; JNum 1] [];
            WsOpened; TimerFires 0%nat [8; 9]; WsClosed; TimerFires 3%nat []; WsOpened;
            TimerFires 4%nat [20; 21; 22; 23]])
  = Some ([Fire CLOSE None; Fire DISCONNECTED None; Fire RECONNECTING None;
           WsNew "ws://127.0.0.1:1234"; Fire OPEN None; Fire CONNECTED None;
           Send {| pl_method := "blockchain.scripthash.subscribe";
                   pl_params := [JStr "ab"; JStr "cd"]; pl_id := 20 |};
           Send {| pl_method := "blockchain.scripthash.subscribe";
                   pl_params := [JStr "ab"]; pl_id := 21 |}],
          [("blockchain.scripthash-ab-cd"%string, 7%nat);
           ("blockchain.scripthash-ab"%string, 7%nat)]).
Proof. vm_compute. reflexivity. Qed.
